(** * RailwayOnline: RMP graph-to-line parser, path calculator and snapping geometry

    A shallow embedding of the algorithmic core of the map front-end:
    - [ControlPointTools] and [AssistLineTools]: nearest-point geometry,
      ring snapping, axis snapping and control-point insertion;
    - [RmpPathCalculator]: the perpendicular / diagonal / simple / straight
      path builders;
    - [RmpParser]: [parseRMPData], the graph-to-line builder.

    Numbers.  A JavaScript [number] is idealised as a real number ([R]):
    arithmetic is exact, [Math.sqrt] is [sqrt], [Math.hypot a b] is
    [sqrt (a*a + b*b)].  [NaN] and the infinities have no counterpart in
    [R], so [Number.isFinite e] holds of every modelled number; the one
    place where the source stores [Number.POSITIVE_INFINITY] (the initial
    best distance of a ring scan) is modelled by the constructor [PosInf]
    of [xnumber].  Array indices and counters are [nat] or [Z]. *)

From Stdlib Require Import Reals Lra Lia Psatz.
From Stdlib Require Import ZArith Bool String Ascii DecimalString List.
From Stdlib Require DecimalNat.
Import ListNotations.

Open Scope R_scope.

(** ** JavaScript numbers *)

Abbreviation number := R (only parsing).

(** A [number] that may also be [Number.POSITIVE_INFINITY]. *)
Inductive xnumber : Type :=
| Fin (r : number)
| PosInf.

(** [a < b] for a finite [a] and a possibly infinite [b]. *)
Definition lt_xnumber (a : number) (b : xnumber) : bool :=
  match b with
  | PosInf => true
  | Fin b' => if Rlt_dec a b' then true else false
  end.

(** [Math.hypot(a, b)]. *)
Definition hypot (a b : number) : number := sqrt (a * a + b * b).

(** [arr.splice(i, 0, v)] on a copy of [arr]: insertion at index [i],
    clamped to the end of the array as JavaScript does. *)
Definition splice_insert {A : Type} (i : nat) (v : A) (arr : list A) : list A :=
  firstn i arr ++ v :: skipn i arr.

(** ** ControlPointTools.tsx *)

Module ControlPointTools.

Record WorldPoint : Type := mkWorldPoint { x : number; z : number }.

Inductive LayerMode : Type := point_mode | polyline | polygon.

(** [MeasuringLayerLite], without the Leaflet group and the colour. *)
Record MeasuringLayerLite : Type := mkLayer {
  id : Z;
  mode : LayerMode;
  coords : list WorldPoint;
  visible : bool
}.

Definition SNAP_MAX_DIST : number := 20.

Definition clamp01 (n : number) : number :=
  if Rlt_dec n 0 then 0
  else if Rlt_dec 1 n then 1
  else n.

(** [samePoint(a, b)] with its default [eps = 1e-9]. *)
Definition samePoint (a b : WorldPoint) : bool :=
  (if Rle_dec (Rabs (x a - x b)) 1e-9 then true else false)
  && (if Rle_dec (Rabs (z a - z b)) 1e-9 then true else false).

Definition dist2 (a b : WorldPoint) : number :=
  let dx := x a - x b in
  let dz := z a - z b in
  dx * dx + dz * dz.

Record SegmentHit : Type := mkSegmentHit {
  hit_point : WorldPoint;
  hit_t : number;
  hit_dist : number
}.

Definition closestPointOnSegment (p a b : WorldPoint) : SegmentHit :=
  let abx := x b - x a in
  let abz := z b - z a in
  let apx := x p - x a in
  let apz := z p - z a in
  let denom := abx * abx + abz * abz in
  (* !Number.isFinite(denom) never holds of a real number *)
  if Rle_dec denom 1e-12 then
    {| hit_point := {| x := x a; z := z a |};
       hit_t := 0;
       hit_dist := hypot (x p - x a) (z p - z a) |}
  else
    let t := clamp01 ((apx * abx + apz * abz) / denom) in
    let q := {| x := x a + abx * t; z := z a + abz * t |} in
    let d := hypot (x p - x q) (z p - z q) in
    {| hit_point := q; hit_t := t; hit_dist := d |}.

Record GeometryRings : Type := mkGeometryRings {
  rings : list (list WorldPoint);
  closed : list bool
}.

Definition normalizeRingsForPolygonLike
    (coords : list WorldPoint) (isPolygon : bool) : GeometryRings :=
  let origin := {| x := 0; z := 0 |} in
  let ring :=
    if (2 <=? length coords)%nat
       && samePoint (nth 0 coords origin) (last coords origin)
    then removelast coords
    else coords in
  {| rings := [ring]; closed := [isPolygon] |}.

(** The running best of [closestPointOnRings]; [best_point = None] is the
    source's [point: null]. *)
Record Best : Type := mkBest {
  best_point : option WorldPoint;
  best_dist : xnumber;
  ringIndex : Z;
  segIndex : Z;
  best_t : number
}.

Definition initialBest : Best :=
  {| best_point := None; best_dist := PosInf;
     ringIndex := (-1)%Z; segIndex := (-1)%Z; best_t := 0 |}.

(** The number of segments scanned in a ring of [n >= 2] points. *)
Definition lastSeg (closed : bool) (n : nat) : nat :=
  if closed then n else (n - 1)%nat.

Definition ringPoint (ring : list WorldPoint) (i : nat) : WorldPoint :=
  nth i ring {| x := 0; z := 0 |}.

(** One iteration of the inner loop: segment [i] of ring [r]. *)
Definition scanSegment (p : WorldPoint) (r : nat) (ring : list WorldPoint)
    (best : Best) (i : nat) : Best :=
  let n := length ring in
  let a := ringPoint ring i in
  let b := ringPoint ring ((i + 1) mod n) in
  let cand := closestPointOnSegment p a b in
  if lt_xnumber (hit_dist cand) (best_dist best) then
    {| best_point := Some (hit_point cand);
       best_dist := Fin (hit_dist cand);
       ringIndex := Z.of_nat r;
       segIndex := Z.of_nat i;
       best_t := hit_t cand |}
  else best.

(** One iteration of the outer loop: ring [r].  A missing [closed[r]] is
    [undefined], hence falsy. *)
Definition scanRing (p : WorldPoint) (geom : GeometryRings)
    (best : Best) (r : nat) : Best :=
  let ring := nth r (rings geom) [] in
  let closed := nth r (closed geom) false in
  if (length ring <? 2)%nat then best
  else
    let n := length ring in
    fold_left (scanSegment p r ring) (seq 0 (lastSeg closed n)) best.

Definition closestPointOnRings (p : WorldPoint) (geom : GeometryRings) : Best :=
  fold_left (scanRing p geom) (seq 0 (length (rings geom))) initialBest.

Record SnapTarget : Type := mkSnapTarget {
  label : string;
  geom : GeometryRings
}.

Record SnapResult : Type := mkSnapResult {
  point : option WorldPoint;
  blocked : bool;
  reason : option string
}.

(** [applySnap], with the component state it closes over
    ([snapEnabled], [snapTarget]) passed explicitly. *)
Definition applySnap (snapEnabled : bool) (snapTarget : option SnapTarget)
    (p : WorldPoint) : SnapResult :=
  if negb snapEnabled then {| point := Some p; blocked := false; reason := None |}
  else match snapTarget with
  | None => {| point := Some p; blocked := false; reason := None |}
  | Some target =>
      let best := closestPointOnRings p (geom target) in
      match best_point best, best_dist best with
      | Some q, Fin d =>
          if Rgt_dec d SNAP_MAX_DIST then
            {| point := None; blocked := true;
               reason := Some "未命中：距离目标要素超过 20 格"%string |}
          else {| point := Some q; blocked := false; reason := None |}
      | _, _ => {| point := Some p; blocked := false; reason := None |}
      end
  end.

(** [pendingEdits]: layer id -> edited coordinates (not yet saved).  The
    object is kept as a list of bindings in which a binding shadows the
    later ones for the same layer, so that [{...prev, [id]: coords}] is a
    cons. *)
Definition PendingEdits := list (Z * list WorldPoint).

Fixpoint lookupEdit (edits : PendingEdits) (layerId : Z) : option (list WorldPoint) :=
  match edits with
  | [] => None
  | (k, v) :: rest => if (k =? layerId)%Z then Some v else lookupEdit rest layerId
  end.

Definition getEffectiveCoords (pendingEdits : PendingEdits)
    (layer : MeasuringLayerLite) : list WorldPoint :=
  match lookupEdit pendingEdits (id layer) with
  | Some edited => edited
  | None => coords layer
  end.

(** The insertion index computed by the add-mode click handler. *)
Definition insertIndex (m : LayerMode) (segIndex : Z) (n : nat) : nat :=
  match m with
  | polygon =>
      if (Z.of_nat n - 1 <=? segIndex)%Z then n
      else Z.to_nat (segIndex + 1)
  | _ =>
      if (segIndex <? 0)%Z then n
      else Z.to_nat (Z.min (segIndex + 1) (Z.of_nat n))
  end.

(** The add-mode [onMapClick] handler as a transformer of [pendingEdits].
    [w] is [toWorld(e.latlng)] ([None] when no projection is available);
    the status text is not modelled. *)
Definition onMapClick_add (addEnabled : bool) (addTargetLayerId : option Z)
    (measuringLayers : list MeasuringLayerLite) (pendingEdits : PendingEdits)
    (w : option WorldPoint) : PendingEdits :=
  if negb addEnabled then pendingEdits
  else match addTargetLayerId, w with
  | Some target, Some w =>
      match find (fun l => (id l =? target)%Z) measuringLayers with
      | None => pendingEdits
      | Some layer =>
          match mode layer with
          | point_mode => pendingEdits
          | m =>
              let geom := normalizeRingsForPolygonLike
                            (getEffectiveCoords pendingEdits layer)
                            (match m with polygon => true | _ => false end) in
              let best := closestPointOnRings w geom in
              match best_point best, best_dist best with
              | Some q, Fin d =>
                  if Rgt_dec d SNAP_MAX_DIST then pendingEdits
                  else
                    let coords := nth 0 (rings geom) [] in
                    if (length coords <? 2)%nat then pendingEdits
                    else
                      let n := length coords in
                      let nextCoords :=
                        splice_insert (insertIndex m (segIndex best) n) q coords in
                      (id layer, nextCoords) :: pendingEdits
              | _, _ => pendingEdits
              end
          end
      end
  | _, _ => pendingEdits
  end.

(** The vertex chosen in edit mode by a click on its marker. *)
Record SelectedVertex : Type := mkSelectedVertex {
  layerId : Z;
  vertexIndex : Z
}.

(** [arr.map((p, i) => f(p, i))]. *)
Definition mapWithIndex {A B : Type} (f : A -> nat -> B) (arr : list A) : list B :=
  map (fun ip => f (snd ip) (fst ip)) (combine (seq 0 (length arr)) arr).

(** The edit-mode [onMapClick] handler as a transformer of [pendingEdits].
    [w] is [toWorld(e.latlng)]; [snapEnabled] and [snapTarget] are the
    state [applySnap] closes over; the status text is not modelled. *)
Definition onMapClick_edit (editEnabled : bool)
    (selectedVertex : option SelectedVertex)
    (snapEnabled : bool) (snapTarget : option SnapTarget)
    (measuringLayers : list MeasuringLayerLite) (pendingEdits : PendingEdits)
    (w : option WorldPoint) : PendingEdits :=
  if negb editEnabled then pendingEdits
  else match selectedVertex, w with
  | Some sel, Some w =>
      let snapped := applySnap snapEnabled snapTarget w in
      match blocked snapped, point snapped with
      | false, Some q =>
          match find (fun l => (id l =? layerId sel)%Z) measuringLayers with
          | None => pendingEdits
          | Some layer =>
              let baseCoords := getEffectiveCoords pendingEdits layer in
              if (vertexIndex sel <? 0)%Z
                 || (Z.of_nat (length baseCoords) <=? vertexIndex sel)%Z
              then pendingEdits
              else
                let nextCoords :=
                  mapWithIndex
                    (fun p i => if (Z.of_nat i =? vertexIndex sel)%Z then q else p)
                    baseCoords in
                (id layer, nextCoords) :: pendingEdits
          end
      | _, _ => pendingEdits
      end
  | _, _ => pendingEdits
  end.

(** The mode state of the component: the edit and add switches, the add
    panel, the add target and the selected vertex. *)
Record ModeState : Type := mkModeState {
  editEnabled : bool;
  addEnabled : bool;
  addPanelOpen : bool;
  addTargetLayerId : option Z;
  selectedVertex : option SelectedVertex
}.

(** The values of [useState] at mount. *)
Definition initialModeState : ModeState :=
  {| editEnabled := false; addEnabled := false; addPanelOpen := false;
     addTargetLayerId := None; selectedVertex := None |}.

Definition toggleEdit (s : ModeState) : ModeState :=
  let next := negb (editEnabled s) in
  if next then
    {| editEnabled := next; addEnabled := false; addPanelOpen := false;
       addTargetLayerId := None; selectedVertex := selectedVertex s |}
  else
    {| editEnabled := next; addEnabled := addEnabled s;
       addPanelOpen := addPanelOpen s;
       addTargetLayerId := addTargetLayerId s; selectedVertex := None |}.

Definition toggleAdd (s : ModeState) : ModeState :=
  let next := negb (addEnabled s) in
  if next then
    {| editEnabled := false; addEnabled := next; addPanelOpen := true;
       addTargetLayerId := addTargetLayerId s; selectedVertex := None |}
  else
    {| editEnabled := editEnabled s; addEnabled := next; addPanelOpen := false;
       addTargetLayerId := None; selectedVertex := selectedVertex s |}.

(** The close button of the add panel. *)
Definition closeAddPanel (s : ModeState) : ModeState :=
  {| editEnabled := editEnabled s; addEnabled := false; addPanelOpen := false;
     addTargetLayerId := None; selectedVertex := selectedVertex s |}.

(** A layer button of the add panel; the panel is rendered only while
    [addEnabled && addPanelOpen]. *)
Definition selectAddTarget (l : Z) (s : ModeState) : ModeState :=
  if addEnabled s && addPanelOpen s then
    {| editEnabled := editEnabled s; addEnabled := addEnabled s;
       addPanelOpen := addPanelOpen s;
       addTargetLayerId := Some l; selectedVertex := selectedVertex s |}
  else s.

(** A click on the marker of a control point: [if (!editEnabled) return]. *)
Definition clickVertex (v : SelectedVertex) (s : ModeState) : ModeState :=
  if negb (editEnabled s) then s
  else
    {| editEnabled := editEnabled s; addEnabled := addEnabled s;
       addPanelOpen := addPanelOpen s;
       addTargetLayerId := addTargetLayerId s; selectedVertex := Some v |}.

(** What the save and the clear buttons do to the mode state. *)
Definition clearSelection (s : ModeState) : ModeState :=
  {| editEnabled := editEnabled s; addEnabled := addEnabled s;
     addPanelOpen := addPanelOpen s;
     addTargetLayerId := addTargetLayerId s; selectedVertex := None |}.

(** The value of [poly.getLatLngs()]: a coordinate pair or an array. *)
#[local] Unset Elimination Schemes.
Inductive LatLngs : Type :=
| latLng (lat lng : number)
| latLngArray (children : list LatLngs).
#[local] Set Elimination Schemes.

(** [collectLatLngArrays(input, out)]; the result is the new [out]. *)
Fixpoint collectLatLngArrays (input : LatLngs) (out : list (list LatLngs))
    : list (list LatLngs) :=
  match input with
  | latLng _ _ => out
  | latLngArray children =>
      match children with
      | [] => out
      | latLng _ _ :: _ => out ++ [children]
      | latLngArray _ :: _ =>
          fold_left (fun out child => collectLatLngArrays child out) children out
      end
  end.

Definition ringsFromLeafletPolyline (raw : LatLngs) : list (list LatLngs) :=
  collectLatLngArrays raw [].

(** The geometry the pick handler stores as snap target for a clicked
    layer whose [getLatLngs()] is [raw]; [toWorld] is the projection
    ([None] is its [null]) and [isPolygon] is [layer instanceof L.Polygon]. *)
Definition pickedGeometry (toWorld : LatLngs -> option WorldPoint)
    (raw : LatLngs) (isPolygon : bool) : GeometryRings :=
  let llRings := ringsFromLeafletPolyline raw in
  let wRings :=
    fold_left
      (fun wRings rr =>
         let wr :=
           fold_left
             (fun wr ll => match toWorld ll with
                           | Some w => wr ++ [w]
                           | None => wr
                           end)
             rr [] in
         if (2 <=? length wr)%nat then wRings ++ [wr] else wRings)
      llRings [] in
  {| rings := wRings; closed := map (fun _ => isPolygon) wRings |}.

End ControlPointTools.

(** ** AssistLineTools.tsx *)

Module AssistLineTools.

Record WorldPoint : Type := mkWorldPoint { x : number; z : number }.

Inductive FixedAxis : Type := axis_x | axis_z.

Definition clamp01 (n : number) : number :=
  if Rlt_dec n 0 then 0
  else if Rlt_dec 1 n then 1
  else n.

Record SegmentHit : Type := mkSegmentHit {
  hit_point : WorldPoint;
  hit_t : number;
  hit_dist : number
}.

Definition closestPointOnSegment (p a b : WorldPoint) : SegmentHit :=
  let abx := x b - x a in
  let abz := z b - z a in
  let apx := x p - x a in
  let apz := z p - z a in
  let denom := abx * abx + abz * abz in
  if Rle_dec denom 1e-12 then
    let d := hypot (x p - x a) (z p - z a) in
    {| hit_point := {| x := x a; z := z a |}; hit_t := 0; hit_dist := d |}
  else
    let t := clamp01 ((apx * abx + apz * abz) / denom) in
    let q := {| x := x a + abx * t; z := z a + abz * t |} in
    let d := hypot (x p - x q) (z p - z q) in
    {| hit_point := q; hit_t := t; hit_dist := d |}.

Record GeometryRings : Type := mkGeometryRings {
  rings : list (list WorldPoint);
  closed : list bool
}.

Record Best : Type := mkBest {
  best_point : option WorldPoint;
  best_dist : xnumber
}.

Definition initialBest : Best := {| best_point := None; best_dist := PosInf |}.

Definition ringPoint (ring : list WorldPoint) (i : nat) : WorldPoint :=
  nth i ring {| x := 0; z := 0 |}.

Definition scanSegment (p : WorldPoint) (ring : list WorldPoint)
    (best : Best) (i : nat) : Best :=
  let n := length ring in
  let a := ringPoint ring i in
  let b := ringPoint ring ((i + 1) mod n) in
  let cand := closestPointOnSegment p a b in
  if lt_xnumber (hit_dist cand) (best_dist best) then
    {| best_point := Some (hit_point cand); best_dist := Fin (hit_dist cand) |}
  else best.

Definition scanRing (p : WorldPoint) (geom : GeometryRings)
    (best : Best) (r : nat) : Best :=
  let ring := nth r (rings geom) [] in
  let closed := nth r (closed geom) false in
  if (length ring <? 2)%nat then best
  else
    let n := length ring in
    let lastSeg := if closed then n else (n - 1)%nat in
    fold_left (scanSegment p ring) (seq 0 lastSeg) best.

Definition closestPointOnRings (p : WorldPoint) (geom : GeometryRings) : Best :=
  fold_left (scanRing p geom) (seq 0 (length (rings geom))) initialBest.

Inductive AssistLineTarget : Type :=
| fixedLine (axis : FixedAxis) (value : number) (label : string)
| leafletFeature (label : string) (geom : GeometryRings).

Definition target_label (t : AssistLineTarget) : string :=
  match t with
  | fixedLine _ _ l => l
  | leafletFeature l _ => l
  end.

Record AssistLineSnapResult : Type := mkResult {
  point : WorldPoint;
  snapped : bool;
  dist : option number;
  targetLabel : option string
}.

(** [transformWorldPoint], with the component state it closes over
    ([enabled], [target], [threshold]) passed explicitly. *)
Definition transformWorldPoint (enabled : bool) (target : option AssistLineTarget)
    (threshold : number) (p : WorldPoint) : AssistLineSnapResult :=
  if negb enabled then
    {| point := p; snapped := false; dist := None; targetLabel := None |}
  else match target with
  | None => {| point := p; snapped := false; dist := None; targetLabel := None |}
  | Some (fixedLine axis value label) =>
      let d := match axis with
               | axis_x => Rabs (x p - value)
               | axis_z => Rabs (z p - value)
               end in
      if Rle_dec d threshold then
        let snappedPoint := match axis with
                            | axis_x => {| x := value; z := z p |}
                            | axis_z => {| x := x p; z := value |}
                            end in
        {| point := snappedPoint; snapped := true; dist := Some d;
           targetLabel := Some label |}
      else
        {| point := p; snapped := false; dist := Some d; targetLabel := Some label |}
  | Some (leafletFeature label geom) =>
      let best := closestPointOnRings p geom in
      let d := match best_dist best with Fin d => Some d | PosInf => None end in
      match best_point best, d with
      | Some q, Some d' =>
          if Rle_dec d' threshold then
            {| point := q; snapped := true; dist := d; targetLabel := Some label |}
          else
            {| point := p; snapped := false; dist := d; targetLabel := Some label |}
      | _, _ => {| point := p; snapped := false; dist := d; targetLabel := Some label |}
      end
  end.

End AssistLineTools.

(** ** The shared record types ([@/types]), as the parser and the path
    calculator use them *)

Module Types.

Record Coordinate : Type := mkCoordinate { x : number; y : number; z : number }.

Inductive SegmentType : Type := line_segment | quadratic_segment.

Record PathSegment : Type := mkPathSegment {
  type : SegmentType;
  points : list Coordinate
}.

Record EdgePath : Type := mkEdgePath {
  segments : list PathSegment;
  length : number
}.

Record ParsedStation : Type := mkParsedStation {
  name : string;
  coord : Coordinate;
  stationCode : nat;
  isTransfer : bool;
  lines : list string
}.

Record ParsedLine : Type := mkParsedLine {
  bureau : string;
  line : string;
  lineId : string;
  stations : list ParsedStation;
  color : string;
  edgePaths : list EdgePath
}.

End Types.

(** ** rmpPathCalculator *)

Module RmpPathCalculator.

Record Point2D : Type := mkPoint2D { x : number; y : number }.

Record CoordTransformConfig : Type := mkCoordTransformConfig {
  scale : number;
  offset : number;
  multiplier : number
}.

Inductive StartFrom : Type := start_from | start_to.

Record PerpendicularConfig : Type := mkPerpendicularConfig {
  startFrom : StartFrom;
  offsetFrom : number;
  offsetTo : number;
  roundCornerFactor : number
}.

(** [DiagonalConfig] has the same fields as [PerpendicularConfig]. *)
Definition DiagonalConfig : Type := PerpendicularConfig.

Record SimpleConfig : Type := mkSimpleConfig { simple_offset : number }.

Definition normalize (v : Point2D) : Point2D :=
  let len := sqrt (x v * x v + y v * y v) in
  if Rgt_dec len 0 then {| x := x v / len; y := y v / len |}
  else {| x := 0; y := 0 |}.

Definition perpendicular (v : Point2D) : Point2D :=
  {| x := - y v; y := x v |}.

Definition distance (p1 p2 : Point2D) : number :=
  let dx := x p2 - x p1 in
  let dy := y p2 - y p1 in
  sqrt (dx * dx + dy * dy).

(** The point of the quadratic Bezier curve at parameter [t]. *)
Definition bezierAt (p0 p1 p2 : Point2D) (t : number) : Point2D :=
  let mt := 1 - t in
  {| x := mt * mt * x p0 + 2 * mt * t * x p1 + t * t * x p2;
     y := mt * mt * y p0 + 2 * mt * t * y p1 + t * t * y p2 |}.

(** The loop state is [(length, prev)]; [i] runs from [1] to [segments]. *)
Definition quadraticBezierLength (p0 p1 p2 : Point2D) : number :=
  let segments := 10%nat in
  fst (fold_left
         (fun (st : number * Point2D) (i : nat) =>
            let t := INR i / INR segments in
            let curr := bezierAt p0 p1 p2 t in
            (fst st + distance (snd st) curr, curr))
         (seq 1 segments) (0, p0)).

Definition toGameCoord (p : Point2D) (config : CoordTransformConfig)
    : Types.Coordinate :=
  {| Types.x := (x p * scale config + offset config) * multiplier config;
     Types.y := 64;
     Types.z := (y p * scale config + offset config) * multiplier config |}.

Record RoundCorner : Type := mkRoundCorner {
  cornerStart : Point2D;
  cornerEnd : Point2D;
  control : Point2D
}.

Definition applyRoundCorner (before corner after : Point2D) (factor : number)
    : RoundCorner :=
  let v1 := normalize {| x := x before - x corner; y := y before - y corner |} in
  let v2 := normalize {| x := x after - x corner; y := y after - y corner |} in
  let dist1 := distance corner before in
  let dist2 := distance corner after in
  let maxFactor := Rmin dist1 dist2 * 0.5 in
  let clampedFactor := Rmin factor maxFactor in
  let cornerStart := {| x := x corner + x v1 * clampedFactor;
                        y := y corner + y v1 * clampedFactor |} in
  let cornerEnd := {| x := x corner + x v2 * clampedFactor;
                      y := y corner + y v2 * clampedFactor |} in
  {| cornerStart := cornerStart; cornerEnd := cornerEnd; control := corner |}.

Definition lineSegment (a b : Point2D) (coordConfig : CoordTransformConfig)
    : Types.PathSegment :=
  {| Types.type := Types.line_segment;
     Types.points := [toGameCoord a coordConfig; toGameCoord b coordConfig] |}.

Definition quadraticSegment (a c b : Point2D) (coordConfig : CoordTransformConfig)
    : Types.PathSegment :=
  {| Types.type := Types.quadratic_segment;
     Types.points := [toGameCoord a coordConfig; toGameCoord c coordConfig;
                      toGameCoord b coordConfig] |}.

(** The accumulator [(segments, totalLength)] of a builder, and its two
    guarded steps: [if (len > 0.001) { segments.push(seg); totalLength +=
    len * coordConfig.multiplier }]. *)
Definition PathAcc : Type := (list Types.PathSegment * number)%type.

Definition pushIfLong (acc : PathAcc) (len : number) (seg : Types.PathSegment)
    (coordConfig : CoordTransformConfig) : PathAcc :=
  if Rgt_dec len 0.001
  then (fst acc ++ [seg], snd acc + len * multiplier coordConfig)
  else acc.

Definition toEdgePath (acc : PathAcc) : Types.EdgePath :=
  {| Types.segments := fst acc; Types.length := snd acc |}.

Definition calculatePerpendicularPath (from to : Point2D)
    (config : PerpendicularConfig) (coordConfig : CoordTransformConfig)
    : Types.EdgePath :=
  let dx := x to - x from in
  let dy := y to - y from in
  let dir := normalize {| x := dx; y := dy |} in
  let perpDir := perpendicular dir in
  let p1 := {| x := x from + x perpDir * offsetFrom config;
               y := y from + y perpDir * offsetFrom config |} in
  let p2 := {| x := x to + x perpDir * offsetTo config;
               y := y to + y perpDir * offsetTo config |} in
  let isHorizontalDominant := if Rge_dec (Rabs dx) (Rabs dy) then true else false in
  let corner :=
    match startFrom config with
    | start_from =>
        if isHorizontalDominant then {| x := x p2; y := y p1 |}
        else {| x := x p1; y := y p2 |}
    | start_to =>
        if isHorizontalDominant then {| x := x p1; y := y p2 |}
        else {| x := x p2; y := y p1 |}
    end in
  let rc := applyRoundCorner p1 corner p2 (roundCornerFactor config) in
  let acc : PathAcc := ([], 0) in
  let dist1 := distance p1 (cornerStart rc) in
  let acc := pushIfLong acc dist1 (lineSegment p1 (cornerStart rc) coordConfig)
               coordConfig in
  let curveLength := quadraticBezierLength (cornerStart rc) (control rc) (cornerEnd rc) in
  let acc := pushIfLong acc curveLength
               (quadraticSegment (cornerStart rc) (control rc) (cornerEnd rc) coordConfig)
               coordConfig in
  let dist2 := distance (cornerEnd rc) p2 in
  let acc := pushIfLong acc dist2 (lineSegment (cornerEnd rc) p2 coordConfig)
               coordConfig in
  toEdgePath acc.

(** [Math.sign]. *)
Definition sign (v : number) : number :=
  if Rgt_dec v 0 then 1 else if Rlt_dec v 0 then -1 else 0.

(** [Math.sign(v) || 1]: a zero sign is falsy. *)
Definition signOr1 (v : number) : number :=
  if Req_dec_T (sign v) 0 then 1 else sign v.

Definition calculateDiagonalPath (from to : Point2D)
    (config : DiagonalConfig) (coordConfig : CoordTransformConfig)
    : Types.EdgePath :=
  let dx := x to - x from in
  let dy := y to - y from in
  let dir := normalize {| x := dx; y := dy |} in
  let perpDir := perpendicular dir in
  let p1 := {| x := x from + x perpDir * offsetFrom config;
               y := y from + y perpDir * offsetFrom config |} in
  let p2 := {| x := x to + x perpDir * offsetTo config;
               y := y to + y perpDir * offsetTo config |} in
  let newDx := x p2 - x p1 in
  let newDy := y p2 - y p1 in
  let diagonalLen := Rmin (Rabs newDx) (Rabs newDy) in
  let signX := signOr1 newDx in
  let signY := signOr1 newDy in
  let corners :=
    match startFrom config with
    | start_from =>
        let midX := x p1 + (newDx - signX * diagonalLen) / 2 in
        let midY := y p1 in
        ({| x := midX; y := midY |},
         {| x := midX + signX * diagonalLen; y := midY + signY * diagonalLen |})
    | start_to =>
        let midX := x p2 - (newDx - signX * diagonalLen) / 2 in
        let midY := y p2 in
        ({| x := midX - signX * diagonalLen; y := midY - signY * diagonalLen |},
         {| x := midX; y := midY |})
    end in
  let corner1 := fst corners in
  let corner2 := snd corners in
  let acc : PathAcc := ([], 0) in
  let round1 := applyRoundCorner p1 corner1 corner2 (roundCornerFactor config) in
  let round2 := applyRoundCorner corner1 corner2 p2 (roundCornerFactor config) in
  let dist1 := distance p1 (cornerStart round1) in
  let acc := pushIfLong acc dist1 (lineSegment p1 (cornerStart round1) coordConfig)
               coordConfig in
  let curve1Len :=
    quadraticBezierLength (cornerStart round1) (control round1) (cornerEnd round1) in
  let acc := pushIfLong acc curve1Len
               (quadraticSegment (cornerStart round1) (control round1)
                  (cornerEnd round1) coordConfig)
               coordConfig in
  let dist2 := distance (cornerEnd round1) (cornerStart round2) in
  let acc := pushIfLong acc dist2
               (lineSegment (cornerEnd round1) (cornerStart round2) coordConfig)
               coordConfig in
  let curve2Len :=
    quadraticBezierLength (cornerStart round2) (control round2) (cornerEnd round2) in
  let acc := pushIfLong acc curve2Len
               (quadraticSegment (cornerStart round2) (control round2)
                  (cornerEnd round2) coordConfig)
               coordConfig in
  let dist3 := distance (cornerEnd round2) p2 in
  let acc := pushIfLong acc dist3 (lineSegment (cornerEnd round2) p2 coordConfig)
               coordConfig in
  toEdgePath acc.

Definition calculateSimplePath (from to : Point2D)
    (config : SimpleConfig) (coordConfig : CoordTransformConfig)
    : Types.EdgePath :=
  let dx := x to - x from in
  let dy := y to - y from in
  let dir := normalize {| x := dx; y := dy |} in
  let perpDir := perpendicular dir in
  let p1 := {| x := x from + x perpDir * simple_offset config;
               y := y from + y perpDir * simple_offset config |} in
  let p2 := {| x := x to + x perpDir * simple_offset config;
               y := y to + y perpDir * simple_offset config |} in
  let length := distance p1 p2 * multiplier coordConfig in
  {| Types.segments := [lineSegment p1 p2 coordConfig]; Types.length := length |}.

Definition calculateStraightPath (from to : Point2D)
    (coordConfig : CoordTransformConfig) : Types.EdgePath :=
  let length := distance from to * multiplier coordConfig in
  {| Types.segments := [lineSegment from to coordConfig]; Types.length := length |}.

End RmpPathCalculator.

(** ** JavaScript [Map] and [Set] with string keys

    Both iterate in insertion order, and that order decides which node a
    traversal starts from and in which order lines are emitted; so they are
    kept as lists in insertion order.  [set] on a present key replaces the
    value in place. *)

Module JsMap.

Definition t (V : Type) : Type := list (string * V).

Fixpoint get {V : Type} (k : string) (m : t V) : option V :=
  match m with
  | [] => None
  | (k', v) :: rest => if String.eqb k' k then Some v else get k rest
  end.

Definition has {V : Type} (k : string) (m : t V) : bool :=
  match get k m with Some _ => true | None => false end.

Fixpoint set {V : Type} (k : string) (v : V) (m : t V) : t V :=
  match m with
  | [] => [(k, v)]
  | (k', v') :: rest =>
      if String.eqb k' k then (k', v) :: rest else (k', v') :: set k v rest
  end.

Definition values {V : Type} (m : t V) : list V := map snd m.

End JsMap.

Module JsSet.

Definition t : Type := list string.

Definition has (k : string) (s : t) : bool :=
  existsb (String.eqb k) s.

Definition add (k : string) (s : t) : t :=
  if has k s then s else s ++ [k].

(** [[...new Set(arr)]]: the first occurrence of each element, in order. *)
Definition dedup (arr : list string) : list string :=
  fold_left (fun acc k => add k acc) arr [].

End JsSet.

(** ** rmpParser *)

Module RmpParser.

Import RmpPathCalculator.

(** The payload of a station node type; only [names] is read. *)
Record StationData : Type := mkStationData { names : list string }.

Record BadgeData : Type := mkBadgeData {
  badge_names : list string;
  badge_color : list string
}.

(** [RMPNode], with [attributes] flattened; a payload that is absent from
    the JSON document is [None]. *)
Record RMPNode : Type := mkRMPNode {
  key : string;
  node_x : number;
  node_y : number;
  node_type : string;
  bjsubway_int : option StationData;
  bjsubway_basic : option StationData;
  suzhourt_basic : option StationData;
  shmetro_int : option StationData;
  bjsubway_text_line_badge : option BadgeData
}.

Record RMPEdge : Type := mkRMPEdge {
  edge_key : string;
  source : string;
  target : string;
  visible : bool;
  edge_type : string;
  single_color : option (list string);
  perpendicular_config : option PerpendicularConfig;
  diagonal_config : option DiagonalConfig;
  simple_config : option SimpleConfig
}.

(** [data.graph]. *)
Record RMPData : Type := mkRMPData {
  nodes : list RMPNode;
  edges : list RMPEdge
}.

Definition DEFAULT_COORD_CONFIG : CoordTransformConfig :=
  {| scale := 1; offset := 0.05; multiplier := 10 |}.

(** [WORLD_COORD_CONFIGS[worldId] || DEFAULT_COORD_CONFIG] (for a
    [worldId] that is not the name of a property every object inherits). *)
Definition worldCoordConfig (worldId : string) : CoordTransformConfig :=
  if String.eqb worldId "zth" then {| scale := 1; offset := 0.05; multiplier := 10 |}
  else if String.eqb worldId "houtu" then {| scale := 1; offset := 0; multiplier := 4 |}
  else DEFAULT_COORD_CONFIG.

Definition rmpToGameCoord (x y : number) (config : CoordTransformConfig)
    : Types.Coordinate :=
  {| Types.x := (x * scale config + offset config) * multiplier config;
     Types.y := 64;
     Types.z := (y * scale config + offset config) * multiplier config |}.

(** [a || b] on optional payloads (an object is always truthy). *)
Definition orElse {A : Type} (a b : option A) : option A :=
  match a with Some _ => a | None => b end.

Definition getStationName (node : RMPNode) : option string :=
  let typeData :=
    orElse (bjsubway_int node)
      (orElse (bjsubway_basic node)
         (orElse (suzhourt_basic node) (shmetro_int node))) in
  match typeData with
  | Some td =>
      match names td with
      | first :: _ => Some first
      | [] => None
      end
  | None => None
  end.

Definition isStationNode (node : RMPNode) : bool :=
  let type := node_type node in
  String.eqb type "bjsubway-int" || String.eqb type "bjsubway-basic"
  || String.eqb type "suzhourt-basic" || String.eqb type "shmetro-int".

Definition isTransferStation (node : RMPNode) : bool :=
  let type := node_type node in
  String.eqb type "bjsubway-int" || String.eqb type "shmetro-int".

Definition getEdgeColor (edge : RMPEdge) : string :=
  match single_color edge with
  | Some color =>
      if (3 <=? length color)%nat then nth 2 color "#888888"%string
      else "#888888"%string
  | None => "#888888"%string
  end.

Record Badge : Type := mkBadge { badge_name : string; badge_line_color : string }.

Definition getLineBadges (nodes : list RMPNode) : JsMap.t Badge :=
  fold_left
    (fun badges node =>
       if String.eqb (node_type node) "bjsubway-text-line-badge" then
         match bjsubway_text_line_badge node with
         | Some badgeData =>
             match badge_names badgeData with
             | first :: _ =>
                 let color :=
                   if (3 <=? length (badge_color badgeData))%nat
                   then nth 2 (badge_color badgeData) "#888888"%string
                   else "#888888"%string in
                 JsMap.set color {| badge_name := first; badge_line_color := color |}
                   badges
             | [] => badges
             end
         | None => badges
         end
       else badges)
    nodes [].

Definition buildNodeMap (nodes : list RMPNode) : JsMap.t RMPNode :=
  fold_left (fun nodeMap node => JsMap.set (key node) node nodeMap) nodes [].

(** The visible edges grouped by colour, colours in order of first use. *)
Definition groupByColor (edges : list RMPEdge) : JsMap.t (list RMPEdge) :=
  fold_left
    (fun linesByColor edge =>
       if negb (visible edge) then linesByColor
       else
         let color := getEdgeColor edge in
         let linesByColor :=
           if negb (JsMap.has color linesByColor)
           then JsMap.set color [] linesByColor else linesByColor in
         match JsMap.get color linesByColor with
         | Some group => JsMap.set color (group ++ [edge]) linesByColor
         | None => linesByColor
         end)
    edges [].

(** [adj.get(k)!.add(v)], after [if (!adj.has(k)) adj.set(k, new Set())]. *)
Definition addNeighbor (k v : string) (adj : JsMap.t JsSet.t) : JsMap.t JsSet.t :=
  match JsMap.get k adj with
  | Some s => JsMap.set k (JsSet.add v s) adj
  | None => adj
  end.

Definition ensureKey (k : string) (adj : JsMap.t JsSet.t) : JsMap.t JsSet.t :=
  if negb (JsMap.has k adj) then JsMap.set k [] adj else adj.

(** The key [`${a}->${b}`] of [edgeMap]. *)
Definition edgeMapKey (a b : string) : string := (a ++ "->" ++ b)%string.

Definition buildAdjacencyWithEdges (edges : list RMPEdge)
    : JsMap.t JsSet.t * JsMap.t RMPEdge :=
  fold_left
    (fun (acc : JsMap.t JsSet.t * JsMap.t RMPEdge) edge =>
       let adj := fst acc in
       let edgeMap := snd acc in
       let adj := ensureKey (source edge) adj in
       let adj := ensureKey (target edge) adj in
       let adj := addNeighbor (source edge) (target edge) adj in
       let adj := addNeighbor (target edge) (source edge) adj in
       let edgeMap := JsMap.set (edgeMapKey (source edge) (target edge)) edge edgeMap in
       let edgeMap := JsMap.set (edgeMapKey (target edge) (source edge)) edge edgeMap in
       (adj, edgeMap))
    edges ([], []).

(** The mutable variables the closure [dfs] writes. *)
Record DfsState : Type := mkDfsState {
  visited : JsSet.t;
  orderedNodes : list string;
  orderedEdges : list RMPEdge
}.

(** A string is truthy iff it is not empty. *)
Definition truthy (s : string) : bool :=
  match s with EmptyString => false | _ => true end.

(** The recursive closure [dfs].  [fuel] bounds the recursion depth: a
    nested call happens only on an unvisited node, so the depth never
    exceeds the number of nodes of the adjacency map. *)
Fixpoint dfs (fuel : nat) (adj : JsMap.t JsSet.t) (edgeMap : JsMap.t RMPEdge)
    (node : string) (prevNode : option string) (st : DfsState) : DfsState :=
  match fuel with
  | O => st
  | S fuel' =>
      if JsSet.has node (visited st) then st
      else
        let recorded :=
          match prevNode with
          | Some prev =>
              if truthy prev then
                match JsMap.get (edgeMapKey prev node) edgeMap with
                | Some edge => orderedEdges st ++ [edge]
                | None => orderedEdges st
                end
              else orderedEdges st
          | None => orderedEdges st
          end in
        let st := {| visited := JsSet.add node (visited st);
                     orderedNodes := orderedNodes st ++ [node];
                     orderedEdges := recorded |} in
        let neighbors :=
          match JsMap.get node adj with Some s => s | None => [] end in
        fold_left
          (fun st neighbor =>
             if negb (JsSet.has neighbor (visited st))
             then dfs fuel' adj edgeMap neighbor (Some node) st
             else st)
          neighbors st
  end.

Definition getOrderedStationsWithEdges (edges : list RMPEdge)
    : list string * list RMPEdge :=
  match edges with
  | [] => ([], [])
  | first :: _ =>
      let '(adj, edgeMap) := buildAdjacencyWithEdges edges in
      let startNode :=
        match find (fun entry => (length (snd entry) =? 1)%nat) adj with
        | Some (node, _) => node
        | None => source first
        end in
      let st := dfs (S (length adj)) adj edgeMap startNode None
                  {| visited := []; orderedNodes := []; orderedEdges := [] |} in
      (orderedNodes st, orderedEdges st)
  end.

Definition flipStartFrom (config : PerpendicularConfig) : PerpendicularConfig :=
  {| startFrom := match startFrom config with
                  | start_from => start_to
                  | start_to => start_from
                  end;
     offsetFrom := offsetFrom config;
     offsetTo := offsetTo config;
     roundCornerFactor := roundCornerFactor config |}.

Definition calculateEdgePath (fromNode toNode : RMPNode) (edge : RMPEdge)
    (coordConfig : CoordTransformConfig) : Types.EdgePath :=
  let from := {| x := node_x fromNode; y := node_y fromNode |} in
  let to := {| x := node_x toNode; y := node_y toNode |} in
  let isReversed := String.eqb (target edge) (key fromNode) in
  let edgeType := edge_type edge in
  let straight := calculateStraightPath from to coordConfig in
  if String.eqb edgeType "perpendicular" then
    match perpendicular_config edge with
    | Some config =>
        let adjustedConfig := if isReversed then flipStartFrom config else config in
        calculatePerpendicularPath from to adjustedConfig coordConfig
    | None => straight
    end
  else if String.eqb edgeType "diagonal" then
    match diagonal_config edge with
    | Some config =>
        let adjustedConfig := if isReversed then flipStartFrom config else config in
        calculateDiagonalPath from to adjustedConfig coordConfig
    | None => straight
    end
  else if String.eqb edgeType "simple" then
    match simple_config edge with
    | Some config => calculateSimplePath from to config coordConfig
    | None => straight
    end
  else straight.

(** The station-type nodes of the ordered node sequence, each with its
    index in that sequence. *)
Definition stationNodes (nodeMap : JsMap.t RMPNode) (orderedNodeKeys : list string)
    : list (RMPNode * nat) :=
  fold_left
    (fun acc i =>
       match nth_error orderedNodeKeys i with
       | Some k =>
           match JsMap.get k nodeMap with
           | Some node => if isStationNode node then acc ++ [(node, i)] else acc
           | None => acc
           end
       | None => acc
       end)
    (seq 0 (length orderedNodeKeys)) [].

(** [`线路${lineIndex}`] and [`RMP-${lineIndex}`]. *)
Definition numberToString (n : nat) : string :=
  NilEmpty.string_of_uint (Nat.to_uint n).

Definition placeholderName (lineIndex : nat) : string :=
  ("线路" ++ numberToString lineIndex)%string.

Definition lineIdOf (lineIndex : nat) : string :=
  ("RMP-" ++ numberToString lineIndex)%string.

(** [badge?.name || `线路${lineIndex}`]. *)
Definition lineNameOf (lineBadges : JsMap.t Badge) (color : string)
    (lineIndex : nat) : string :=
  match JsMap.get color lineBadges with
  | Some badge =>
      if truthy (badge_name badge) then badge_name badge
      else placeholderName lineIndex
  | None => placeholderName lineIndex
  end.

(** The update of the global station index for one station of a line. *)
Definition updateAllStations (station : Types.ParsedStation) (lineName : string)
    (allStationsMap : JsMap.t Types.ParsedStation) : JsMap.t Types.ParsedStation :=
  let name := Types.name station in
  match JsMap.get name allStationsMap with
  | Some existing =>
      let merged := JsSet.dedup (Types.lines existing ++ [lineName]) in
      JsMap.set name
        {| Types.name := Types.name existing;
           Types.coord := Types.coord existing;
           Types.stationCode := Types.stationCode existing;
           Types.isTransfer := (1 <? length merged)%nat;
           Types.lines := merged |}
        allStationsMap
  | None => JsMap.set name station allStationsMap
  end.

(** One iteration of the station loop of a line: entry [i] of
    [stationNodesWithIndex]. *)
Definition addStation (lineName : string) (coordConfig : CoordTransformConfig)
    (acc : list Types.ParsedStation * JsMap.t Types.ParsedStation)
    (entry : nat * (RMPNode * nat))
    : list Types.ParsedStation * JsMap.t Types.ParsedStation :=
  let i := fst entry in
  let node := fst (snd entry) in
  match getStationName node with
  | None => acc
  | Some name =>
      if negb (truthy name) then acc
      else
        let coord := rmpToGameCoord (node_x node) (node_y node) coordConfig in
        let station :=
          {| Types.name := name;
             Types.coord := coord;
             Types.stationCode := (i + 1)%nat;
             Types.isTransfer := isTransferStation node;
             Types.lines := [lineName] |} in
        (fst acc ++ [station], updateAllStations station lineName (snd acc))
  end.

Definition buildLineStations (lineName : string) (coordConfig : CoordTransformConfig)
    (stationNodesWithIndex : list (RMPNode * nat))
    (allStationsMap : JsMap.t Types.ParsedStation)
    : list Types.ParsedStation * JsMap.t Types.ParsedStation :=
  fold_left (addStation lineName coordConfig)
    (combine (seq 0 (length stationNodesWithIndex)) stationNodesWithIndex)
    ([], allStationsMap).

(** The inner loop over [edgeIdx] in [[fromIdx, toIdx)]: the accumulator is
    [(combinedSegments, totalLength)]. *)
Definition combineEdges (nodeMap : JsMap.t RMPNode)
    (orderedNodeKeys : list string) (orderedEdges : list RMPEdge)
    (coordConfig : CoordTransformConfig) (fromIdx toIdx : nat) : PathAcc :=
  fold_left
    (fun (acc : PathAcc) edgeIdx =>
       match nth_error orderedEdges edgeIdx with
       | Some edge =>
           match nth_error orderedNodeKeys edgeIdx,
                 nth_error orderedNodeKeys (edgeIdx + 1) with
           | Some fromKey, Some toKey =>
               match JsMap.get fromKey nodeMap, JsMap.get toKey nodeMap with
               | Some fromNodeForEdge, Some toNodeForEdge =>
                   let path :=
                     calculateEdgePath fromNodeForEdge toNodeForEdge edge coordConfig in
                   (fst acc ++ Types.segments path, snd acc + Types.length path)
               | _, _ => acc
               end
           | _, _ => acc
           end
       | None => acc
       end)
    (seq fromIdx (toIdx - fromIdx)) ([], 0).

(** The edge path of one pair of consecutive entries of
    [stationNodesWithIndex]. *)
Definition pairEdgePath (nodeMap : JsMap.t RMPNode)
    (orderedNodeKeys : list string) (orderedEdges : list RMPEdge)
    (coordConfig : CoordTransformConfig)
    (pair : (RMPNode * nat) * (RMPNode * nat)) : Types.EdgePath :=
  let '((fromNode, fromIdx), (toNode, toIdx)) := pair in
  let combined :=
    combineEdges nodeMap orderedNodeKeys orderedEdges coordConfig fromIdx toIdx in
  match fst combined with
  | [] =>
      calculateStraightPath
        {| x := node_x fromNode; y := node_y fromNode |}
        {| x := node_x toNode; y := node_y toNode |}
        coordConfig
  | _ :: _ => toEdgePath combined
  end.

(** [for (i = 0; i < stationNodesWithIndex.length - 1; i++)], entries [i]
    and [i + 1]. *)
Definition buildEdgePaths (nodeMap : JsMap.t RMPNode)
    (orderedNodeKeys : list string) (orderedEdges : list RMPEdge)
    (coordConfig : CoordTransformConfig)
    (stationNodesWithIndex : list (RMPNode * nat)) : list Types.EdgePath :=
  map (pairEdgePath nodeMap orderedNodeKeys orderedEdges coordConfig)
    (combine stationNodesWithIndex (tl stationNodesWithIndex)).

(** The variables the main loop writes. *)
Record BuildState : Type := mkBuildState {
  lines : list Types.ParsedLine;
  allStationsMap : JsMap.t Types.ParsedStation;
  lineIndex : nat
}.

(** One iteration of the main loop: one colour group. *)
Definition buildLine (nodeMap : JsMap.t RMPNode) (lineBadges : JsMap.t Badge)
    (coordConfig : CoordTransformConfig)
    (st : BuildState) (group : string * list RMPEdge) : BuildState :=
  let color := fst group in
  let colorEdges := snd group in
  let '(orderedNodeKeys, orderedEdges) := getOrderedStationsWithEdges colorEdges in
  let stationNodesWithIndex := stationNodes nodeMap orderedNodeKeys in
  if (length stationNodesWithIndex <? 2)%nat then st
  else
    let lineName := lineNameOf lineBadges color (lineIndex st) in
    let lineId := lineIdOf (lineIndex st) in
    let '(lineStations, allStationsMap) :=
      buildLineStations lineName coordConfig stationNodesWithIndex
        (allStationsMap st) in
    if (2 <=? length lineStations)%nat then
      let edgePaths :=
        buildEdgePaths nodeMap orderedNodeKeys orderedEdges coordConfig
          stationNodesWithIndex in
      {| lines := lines st ++
                  [{| Types.bureau := "RMP";
                      Types.line := lineName;
                      Types.lineId := lineId;
                      Types.stations := lineStations;
                      Types.color := color;
                      Types.edgePaths := edgePaths |}];
         allStationsMap := allStationsMap;
         lineIndex := S (lineIndex st) |}
    else
      {| lines := lines st;
         allStationsMap := allStationsMap;
         lineIndex := lineIndex st |}.

(** The second pass: every station of every line takes the flag and the
    line list of the global record of its name. *)
Definition refreshStation (allStationsMap : JsMap.t Types.ParsedStation)
    (station : Types.ParsedStation) : Types.ParsedStation :=
  match JsMap.get (Types.name station) allStationsMap with
  | Some globalStation =>
      {| Types.name := Types.name station;
         Types.coord := Types.coord station;
         Types.stationCode := Types.stationCode station;
         Types.isTransfer := Types.isTransfer globalStation;
         Types.lines := Types.lines globalStation |}
  | None => station
  end.

Definition refreshLine (allStationsMap : JsMap.t Types.ParsedStation)
    (line : Types.ParsedLine) : Types.ParsedLine :=
  {| Types.bureau := Types.bureau line;
     Types.line := Types.line line;
     Types.lineId := Types.lineId line;
     Types.stations := map (refreshStation allStationsMap) (Types.stations line);
     Types.color := Types.color line;
     Types.edgePaths := Types.edgePaths line |}.

Record ParseResult : Type := mkParseResult {
  result_lines : list Types.ParsedLine;
  result_stations : list Types.ParsedStation
}.

Definition parseRMPData (data : RMPData) (worldId : string) : ParseResult :=
  let coordConfig := worldCoordConfig worldId in
  let nodeMap := buildNodeMap (nodes data) in
  let lineBadges := getLineBadges (nodes data) in
  let linesByColor := groupByColor (edges data) in
  let st := fold_left (buildLine nodeMap lineBadges coordConfig) linesByColor
              {| lines := []; allStationsMap := []; lineIndex := 1 |} in
  {| result_lines := map (refreshLine (allStationsMap st)) (lines st);
     result_stations := JsMap.values (allStationsMap st) |}.

End RmpParser.

(** ** MapContainer: the loader that merges the RMP result into the map data *)

Module MapContainer.

Import RmpParser.

(** [[...riaLines, ...rmpLines]]. *)
Definition mergeLines (riaLines rmpLines : list Types.ParsedLine)
    : list Types.ParsedLine :=
  riaLines ++ rmpLines.

(** The station merge of [loadSearchData]: the RIA stations, then the RMP
    stations whose name no RIA station has. *)
Definition mergeStations (riaStations rmpStations : list Types.ParsedStation)
    : list Types.ParsedStation :=
  let riaStationNames := JsSet.dedup (map Types.name riaStations) in
  let uniqueRmpStations :=
    filter (fun s => negb (JsSet.has (Types.name s) riaStationNames)) rmpStations in
  riaStations ++ uniqueRmpStations.

(** The lines and stations [loadSearchData] stores.  [rmpData] is the
    fetched RMP document, [None] when the world has no RMP file or the
    fetch failed (the [catch] leaves both RMP lists empty). *)
Definition loadedLines (riaLines : list Types.ParsedLine)
    (rmpData : option RMPData) (currentWorld : string) : list Types.ParsedLine :=
  let rmpLines :=
    match rmpData with
    | Some data => result_lines (parseRMPData data currentWorld)
    | None => []
    end in
  mergeLines riaLines rmpLines.

Definition loadedStations (riaStations : list Types.ParsedStation)
    (rmpData : option RMPData) (currentWorld : string) : list Types.ParsedStation :=
  let rmpStations :=
    match rmpData with
    | Some data => result_stations (parseRMPData data currentWorld)
    | None => []
    end in
  mergeStations riaStations rmpStations.

End MapContainer.

(** ** LineHighlightLayer.tsx: drawing the edge paths of a line *)

Module LineHighlightLayer.

Record LatLng : Type := mkLatLng { lat : number; lng : number }.

(** [sampleQuadraticBezier]: the points at [t = i / segments] for
    [i = 0 .. segments]. *)
Definition sampleQuadraticBezier (p0 p1 p2 : LatLng) (segments : nat) : list LatLng :=
  map (fun i =>
         let t := INR i / INR segments in
         let mt := 1 - t in
         {| lat := mt * mt * lat p0 + 2 * mt * t * lat p1 + t * t * lat p2;
            lng := mt * mt * lng p0 + 2 * mt * t * lng p1 + t * t * lng p2 |})
      (seq 0 (S segments)).

(** [segmentToLatLngs]; [locationToLatLng] is the projection.  A quadratic
    segment with fewer than three points makes the source read a
    coordinate of [undefined], which throws: [None]. *)
Definition segmentToLatLngs (locationToLatLng : number -> number -> number -> LatLng)
    (segment : Types.PathSegment) : option (list LatLng) :=
  match Types.type segment with
  | Types.line_segment =>
      Some (map (fun p => locationToLatLng (Types.x p) (Types.y p) (Types.z p))
              (Types.points segment))
  | Types.quadratic_segment =>
      match Types.points segment with
      | p0 :: p1 :: p2 :: _ =>
          let latLng0 := locationToLatLng (Types.x p0) (Types.y p0) (Types.z p0) in
          let latLng1 := locationToLatLng (Types.x p1) (Types.y p1) (Types.z p1) in
          let latLng2 := locationToLatLng (Types.x p2) (Types.y p2) (Types.z p2) in
          Some (sampleQuadraticBezier latLng0 latLng1 latLng2 8)
      | _ => None
      end
  end.

(** One iteration of the inner drawing loop: the polylines added so far,
    or [None] once a segment has thrown. *)
Definition drawSegment (locationToLatLng : number -> number -> number -> LatLng)
    (drawn : option (list (list LatLng))) (segment : Types.PathSegment)
    : option (list (list LatLng)) :=
  match drawn with
  | None => None
  | Some polylines =>
      match segmentToLatLngs locationToLatLng segment with
      | None => None
      | Some latLngs =>
          if (2 <=? length latLngs)%nat then Some (polylines ++ [latLngs])
          else Some polylines
      end
  end.

(** The polylines the effect adds for the body of a line (the station
    markers are not modelled). *)
Definition linePolylines (locationToLatLng : number -> number -> number -> LatLng)
    (line : Types.ParsedLine) : option (list (list LatLng)) :=
  let stationLatLngs :=
    map (fun s =>
           let c := Types.coord s in
           locationToLatLng (Types.x c)
             (if Req_dec_T (Types.y c) 0 then 64 else Types.y c) (Types.z c))
        (Types.stations line) in
  if (length stationLatLngs <? 2)%nat then Some []
  else if (0 <? length (Types.edgePaths line))%nat then
    fold_left
      (fun drawn edgePath =>
         fold_left (drawSegment locationToLatLng) (Types.segments edgePath) drawn)
      (Types.edgePaths line) (Some [])
  else Some [stationLatLngs].

End LineHighlightLayer.

(** ** MeasuringModule.tsx: draft points and the layer list *)

Module MeasuringModule.

Import AssistLineTools.

(** What [assistLineToolsRef.current] exposes of the state of the
    assist-line tool: [isEnabled()], and the target and threshold that
    [transformWorldPoint] closes over. *)
Record AssistLineHandle : Type := mkAssistLineHandle {
  isEnabled : bool;
  assist_target : option AssistLineTarget;
  assist_threshold : number
}.

(** [filterWorldPointByAssistLine]; a missing handle is [None]. *)
Definition filterWorldPointByAssistLine (assist : option AssistLineHandle)
    (p : WorldPoint) : WorldPoint :=
  match assist with
  | Some a =>
      if isEnabled a then
        point (transformWorldPoint (isEnabled a) (assist_target a)
                 (assist_threshold a) p)
      else p
  | None => p
  end.

(** [onMapDrawClick] as a transformer of [tempPoints].  [busy] is
    [controlPointsTRef.current?.isBusy?.()], [suppressed] is
    [drawClickSuppressedRef.current], and [loc] is the clicked location
    ([None] without a projection). *)
Definition onMapDrawClick (busy suppressed : bool) (loc : option WorldPoint)
    (assist : option AssistLineHandle) (tempPoints : list WorldPoint)
    : list WorldPoint :=
  if busy then tempPoints
  else if suppressed then tempPoints
  else match loc with
  | None => tempPoints
  | Some newPoint =>
      let newPoint :=
        match assist with
        | Some a =>
            if isEnabled a then
              point (transformWorldPoint (isEnabled a) (assist_target a)
                       (assist_threshold a) newPoint)
            else newPoint
        | None => newPoint
        end in
      tempPoints ++ [newPoint]
  end.

(** The draft: [tempPoints] and [redoStack]. *)
Record Draft : Type := mkDraft {
  tempPoints : list WorldPoint;
  redoStack : list WorldPoint
}.

Definition handleUndo (d : Draft) : Draft :=
  match tempPoints d with
  | [] => d
  | first :: rest =>
      let last := List.last rest first in
      {| tempPoints := removelast (tempPoints d);
         redoStack := redoStack d ++ [last] |}
  end.

Definition handleRedo (d : Draft) : Draft :=
  match redoStack d with
  | [] => d
  | first :: rest =>
      let redoPoint := List.last rest first in
      {| tempPoints := tempPoints d ++ [redoPoint];
         redoStack := removelast (redoStack d) |}
  end.

Inductive LayerMode : Type := point_mode | polyline | polygon.

(** [LayerType], without the Leaflet group and the JSON information. *)
Record LayerType : Type := mkLayerType {
  id : Z;
  mode : LayerMode;
  color : string;
  coords : list WorldPoint;
  visible : bool
}.

Definition toggleLayerVisible (layerId : Z) (prev : list LayerType) : list LayerType :=
  map (fun l =>
         if (id l =? layerId)%Z
         then {| id := id l; mode := mode l; color := color l; coords := coords l;
                 visible := negb (visible l) |}
         else l)
      prev.

(** [prev.findIndex(l => l.id === layerId)]; [None] is [-1]. *)
Fixpoint findIndex (layerId : Z) (prev : list LayerType) : option nat :=
  match prev with
  | [] => None
  | l :: rest =>
      if (id l =? layerId)%Z then Some 0%nat
      else match findIndex layerId rest with
           | Some i => Some (S i)
           | None => None
           end
  end.

(** A copy of [arr] with the entries [i] and [i + 1] exchanged. *)
Fixpoint swapWithNext {A : Type} (i : nat) (arr : list A) : list A :=
  match i, arr with
  | O, a :: b :: rest => b :: a :: rest
  | S i', a :: rest => a :: swapWithNext i' rest
  | _, _ => arr
  end.

Definition moveLayerUp (layerId : Z) (prev : list LayerType) : list LayerType :=
  match findIndex layerId prev with
  | None => prev
  | Some O => prev
  | Some (S before) => swapWithNext before prev
  end.

Definition moveLayerDown (layerId : Z) (prev : list LayerType) : list LayerType :=
  match findIndex layerId prev with
  | None => prev
  | Some idx =>
      if (length prev <=? S idx)%nat then prev
      else swapWithNext idx prev
  end.

(** The new layer list of [deleteLayer]. *)
Definition deleteLayer (layerId : Z) (prev : list LayerType) : list LayerType :=
  filter (fun l => negb (id l =? layerId)%Z) prev.

End MeasuringModule.

(** ** JavaScript numbers with their special values *)

Module JsNumber.

(** A number is a real, an infinity or NaN.  Rounding and overflow are not
    modelled and the two zeros are one number (a division of a number
    other than zero by zero takes the sign of the dividend).  A numeric
    field that is missing reads as [undefined], which arithmetic converts
    to [NaN]. *)
Inductive t : Type :=
| Fin (r : R)
| PosInf
| NegInf
| NaN.

Definition neg (a : t) : t :=
  match a with
  | Fin r => Fin (- r)
  | PosInf => NegInf
  | NegInf => PosInf
  | NaN => NaN
  end.

Definition add (a b : t) : t :=
  match a, b with
  | NaN, _ | _, NaN => NaN
  | Fin x, Fin y => Fin (x + y)
  | PosInf, NegInf | NegInf, PosInf => NaN
  | PosInf, _ | _, PosInf => PosInf
  | NegInf, _ | _, NegInf => NegInf
  end.

Definition sub (a b : t) : t := add a (neg b).

(** An infinity times the real [r]. *)
Definition scaleInf (positive : bool) (r : R) : t :=
  if Req_dec_T r 0 then NaN
  else if Rlt_dec 0 r then (if positive then PosInf else NegInf)
  else (if positive then NegInf else PosInf).

Definition mul (a b : t) : t :=
  match a, b with
  | NaN, _ | _, NaN => NaN
  | Fin x, Fin y => Fin (x * y)
  | PosInf, Fin y | Fin y, PosInf => scaleInf true y
  | NegInf, Fin y | Fin y, NegInf => scaleInf false y
  | PosInf, PosInf | NegInf, NegInf => PosInf
  | PosInf, NegInf | NegInf, PosInf => NegInf
  end.

Definition div (a b : t) : t :=
  match a, b with
  | NaN, _ | _, NaN => NaN
  | Fin x, Fin y =>
      if Req_dec_T y 0 then
        if Req_dec_T x 0 then NaN
        else if Rlt_dec 0 x then PosInf else NegInf
      else Fin (x / y)
  | Fin _, PosInf | Fin _, NegInf => Fin 0
  | PosInf, Fin y => if Rlt_dec y 0 then NegInf else PosInf
  | NegInf, Fin y => if Rlt_dec y 0 then PosInf else NegInf
  | PosInf, PosInf | PosInf, NegInf | NegInf, PosInf | NegInf, NegInf => NaN
  end.

(** [Math.sqrt]. *)
Definition sqrt (a : t) : t :=
  match a with
  | Fin x => if Rlt_dec x 0 then NaN else Fin (R_sqrt.sqrt x)
  | PosInf => PosInf
  | NegInf => NaN
  | NaN => NaN
  end.

(** [Math.abs]. *)
Definition abs (a : t) : t :=
  match a with
  | Fin x => Fin (Rabs x)
  | PosInf => PosInf
  | NegInf => PosInf
  | NaN => NaN
  end.

(** [a < b]; a comparison with NaN is false. *)
Definition lt (a b : t) : bool :=
  match a, b with
  | NaN, _ | _, NaN => false
  | Fin x, Fin y => if Rlt_dec x y then true else false
  | _, NegInf => false
  | NegInf, _ => true
  | PosInf, _ => false
  | Fin _, PosInf => true
  end.

(** [a > b]. *)
Definition gt (a b : t) : bool := lt b a.

(** [a >= b]. *)
Definition ge (a b : t) : bool :=
  match a, b with
  | NaN, _ | _, NaN => false
  | _, _ => negb (lt a b)
  end.

(** [Math.min]. *)
Definition min (a b : t) : t :=
  match a, b with
  | NaN, _ | _, NaN => NaN
  | _, _ => if lt b a then b else a
  end.

(** [Math.sign]. *)
Definition sign (a : t) : t :=
  match a with
  | Fin x => if Rgt_dec x 0 then Fin 1 else if Rlt_dec x 0 then Fin (-1) else Fin 0
  | PosInf => Fin 1
  | NegInf => Fin (-1)
  | NaN => NaN
  end.

(** Truthiness: [0] and [NaN] are falsy. *)
Definition truthy (a : t) : bool :=
  match a with
  | Fin x => if Req_dec_T x 0 then false else true
  | PosInf => true
  | NegInf => true
  | NaN => false
  end.

(** [Number.isFinite]. *)
Definition isFinite (a : t) : bool :=
  match a with
  | Fin _ => true
  | _ => false
  end.

End JsNumber.

(** ** rmpPathCalculator.ts over numbers with their special values *)

Module RmpPathCalculatorJs.

Import JsNumber.

#[local] Infix "+!" := add (at level 50, left associativity).
#[local] Infix "-!" := sub (at level 50, left associativity).
#[local] Infix "*!" := mul (at level 40, left associativity).
#[local] Infix "/!" := div (at level 40, left associativity).

Record Point2D : Type := mkPoint2D { x : JsNumber.t; y : JsNumber.t }.

Record CoordTransformConfig : Type := mkCoordTransformConfig {
  scale : JsNumber.t;
  offset : JsNumber.t;
  multiplier : JsNumber.t
}.

Record PerpendicularConfig : Type := mkPerpendicularConfig {
  startFrom : RmpPathCalculator.StartFrom;
  offsetFrom : JsNumber.t;
  offsetTo : JsNumber.t;
  roundCornerFactor : JsNumber.t
}.

Definition DiagonalConfig : Type := PerpendicularConfig.

Record SimpleConfig : Type := mkSimpleConfig { simple_offset : JsNumber.t }.

Record Coordinate : Type := mkCoordinate {
  coord_x : JsNumber.t;
  coord_y : JsNumber.t;
  coord_z : JsNumber.t
}.

Record PathSegment : Type := mkPathSegment {
  type : Types.SegmentType;
  points : list Coordinate
}.

Record EdgePath : Type := mkEdgePath {
  segments : list PathSegment;
  length : JsNumber.t
}.

Definition normalize (v : Point2D) : Point2D :=
  let len := sqrt (x v *! x v +! y v *! y v) in
  if gt len (Fin 0) then {| x := x v /! len; y := y v /! len |}
  else {| x := Fin 0; y := Fin 0 |}.

Definition perpendicular (v : Point2D) : Point2D :=
  {| x := neg (y v); y := x v |}.

Definition distance (p1 p2 : Point2D) : JsNumber.t :=
  let dx := x p2 -! x p1 in
  let dy := y p2 -! y p1 in
  sqrt (dx *! dx +! dy *! dy).

Definition bezierAt (p0 p1 p2 : Point2D) (t : JsNumber.t) : Point2D :=
  let mt := Fin 1 -! t in
  {| x := mt *! mt *! x p0 +! Fin 2 *! mt *! t *! x p1 +! t *! t *! x p2;
     y := mt *! mt *! y p0 +! Fin 2 *! mt *! t *! y p1 +! t *! t *! y p2 |}.

Definition quadraticBezierLength (p0 p1 p2 : Point2D) : JsNumber.t :=
  let segments := 10%nat in
  fst (fold_left
         (fun (st : JsNumber.t * Point2D) (i : nat) =>
            let t := Fin (INR i) /! Fin (INR segments) in
            let curr := bezierAt p0 p1 p2 t in
            (fst st +! distance (snd st) curr, curr))
         (seq 1 segments) (Fin 0, p0)).

Definition toGameCoord (p : Point2D) (config : CoordTransformConfig) : Coordinate :=
  {| coord_x := (x p *! scale config +! offset config) *! multiplier config;
     coord_y := Fin 64;
     coord_z := (y p *! scale config +! offset config) *! multiplier config |}.

Record RoundCorner : Type := mkRoundCorner {
  cornerStart : Point2D;
  cornerEnd : Point2D;
  control : Point2D
}.

Definition applyRoundCorner (before corner after : Point2D) (factor : JsNumber.t)
    : RoundCorner :=
  let v1 := normalize {| x := x before -! x corner; y := y before -! y corner |} in
  let v2 := normalize {| x := x after -! x corner; y := y after -! y corner |} in
  let dist1 := distance corner before in
  let dist2 := distance corner after in
  let maxFactor := min dist1 dist2 *! Fin 0.5 in
  let clampedFactor := min factor maxFactor in
  let cornerStart := {| x := x corner +! x v1 *! clampedFactor;
                        y := y corner +! y v1 *! clampedFactor |} in
  let cornerEnd := {| x := x corner +! x v2 *! clampedFactor;
                      y := y corner +! y v2 *! clampedFactor |} in
  {| cornerStart := cornerStart; cornerEnd := cornerEnd; control := corner |}.

Definition lineSegment (a b : Point2D) (coordConfig : CoordTransformConfig)
    : PathSegment :=
  {| type := Types.line_segment;
     points := [toGameCoord a coordConfig; toGameCoord b coordConfig] |}.

Definition quadraticSegment (a c b : Point2D) (coordConfig : CoordTransformConfig)
    : PathSegment :=
  {| type := Types.quadratic_segment;
     points := [toGameCoord a coordConfig; toGameCoord c coordConfig;
                toGameCoord b coordConfig] |}.

Definition PathAcc : Type := (list PathSegment * JsNumber.t)%type.

(** [if (len > 0.001) { segments.push(seg); totalLength += len *
    coordConfig.multiplier }]. *)
Definition pushIfLong (acc : PathAcc) (len : JsNumber.t) (seg : PathSegment)
    (coordConfig : CoordTransformConfig) : PathAcc :=
  if gt len (Fin 0.001)
  then (fst acc ++ [seg], snd acc +! len *! multiplier coordConfig)
  else acc.

Definition toEdgePath (acc : PathAcc) : EdgePath :=
  {| segments := fst acc; length := snd acc |}.

Definition calculatePerpendicularPath (from to : Point2D)
    (config : PerpendicularConfig) (coordConfig : CoordTransformConfig) : EdgePath :=
  let dx := x to -! x from in
  let dy := y to -! y from in
  let dir := normalize {| x := dx; y := dy |} in
  let perpDir := perpendicular dir in
  let p1 := {| x := x from +! x perpDir *! offsetFrom config;
               y := y from +! y perpDir *! offsetFrom config |} in
  let p2 := {| x := x to +! x perpDir *! offsetTo config;
               y := y to +! y perpDir *! offsetTo config |} in
  let isHorizontalDominant := ge (abs dx) (abs dy) in
  let corner :=
    match startFrom config with
    | RmpPathCalculator.start_from =>
        if isHorizontalDominant then {| x := x p2; y := y p1 |}
        else {| x := x p1; y := y p2 |}
    | RmpPathCalculator.start_to =>
        if isHorizontalDominant then {| x := x p1; y := y p2 |}
        else {| x := x p2; y := y p1 |}
    end in
  let rc := applyRoundCorner p1 corner p2 (roundCornerFactor config) in
  let acc : PathAcc := ([], Fin 0) in
  let dist1 := distance p1 (cornerStart rc) in
  let acc := pushIfLong acc dist1 (lineSegment p1 (cornerStart rc) coordConfig)
               coordConfig in
  let curveLength := quadraticBezierLength (cornerStart rc) (control rc) (cornerEnd rc) in
  let acc := pushIfLong acc curveLength
               (quadraticSegment (cornerStart rc) (control rc) (cornerEnd rc) coordConfig)
               coordConfig in
  let dist2 := distance (cornerEnd rc) p2 in
  let acc := pushIfLong acc dist2 (lineSegment (cornerEnd rc) p2 coordConfig)
               coordConfig in
  toEdgePath acc.

(** [Math.sign(v) || 1]. *)
Definition signOr1 (v : JsNumber.t) : JsNumber.t :=
  if truthy (sign v) then sign v else Fin 1.

Definition calculateDiagonalPath (from to : Point2D)
    (config : DiagonalConfig) (coordConfig : CoordTransformConfig) : EdgePath :=
  let dx := x to -! x from in
  let dy := y to -! y from in
  let dir := normalize {| x := dx; y := dy |} in
  let perpDir := perpendicular dir in
  let p1 := {| x := x from +! x perpDir *! offsetFrom config;
               y := y from +! y perpDir *! offsetFrom config |} in
  let p2 := {| x := x to +! x perpDir *! offsetTo config;
               y := y to +! y perpDir *! offsetTo config |} in
  let newDx := x p2 -! x p1 in
  let newDy := y p2 -! y p1 in
  let diagonalLen := min (abs newDx) (abs newDy) in
  let signX := signOr1 newDx in
  let signY := signOr1 newDy in
  let corners :=
    match startFrom config with
    | RmpPathCalculator.start_from =>
        let midX := x p1 +! (newDx -! signX *! diagonalLen) /! Fin 2 in
        let midY := y p1 in
        ({| x := midX; y := midY |},
         {| x := midX +! signX *! diagonalLen; y := midY +! signY *! diagonalLen |})
    | RmpPathCalculator.start_to =>
        let midX := x p2 -! (newDx -! signX *! diagonalLen) /! Fin 2 in
        let midY := y p2 in
        ({| x := midX -! signX *! diagonalLen; y := midY -! signY *! diagonalLen |},
         {| x := midX; y := midY |})
    end in
  let corner1 := fst corners in
  let corner2 := snd corners in
  let acc : PathAcc := ([], Fin 0) in
  let round1 := applyRoundCorner p1 corner1 corner2 (roundCornerFactor config) in
  let round2 := applyRoundCorner corner1 corner2 p2 (roundCornerFactor config) in
  let dist1 := distance p1 (cornerStart round1) in
  let acc := pushIfLong acc dist1 (lineSegment p1 (cornerStart round1) coordConfig)
               coordConfig in
  let curve1Len :=
    quadraticBezierLength (cornerStart round1) (control round1) (cornerEnd round1) in
  let acc := pushIfLong acc curve1Len
               (quadraticSegment (cornerStart round1) (control round1)
                  (cornerEnd round1) coordConfig)
               coordConfig in
  let dist2 := distance (cornerEnd round1) (cornerStart round2) in
  let acc := pushIfLong acc dist2
               (lineSegment (cornerEnd round1) (cornerStart round2) coordConfig)
               coordConfig in
  let curve2Len :=
    quadraticBezierLength (cornerStart round2) (control round2) (cornerEnd round2) in
  let acc := pushIfLong acc curve2Len
               (quadraticSegment (cornerStart round2) (control round2)
                  (cornerEnd round2) coordConfig)
               coordConfig in
  let dist3 := distance (cornerEnd round2) p2 in
  let acc := pushIfLong acc dist3 (lineSegment (cornerEnd round2) p2 coordConfig)
               coordConfig in
  toEdgePath acc.

Definition calculateSimplePath (from to : Point2D)
    (config : SimpleConfig) (coordConfig : CoordTransformConfig) : EdgePath :=
  let dx := x to -! x from in
  let dy := y to -! y from in
  let dir := normalize {| x := dx; y := dy |} in
  let perpDir := perpendicular dir in
  let p1 := {| x := x from +! x perpDir *! simple_offset config;
               y := y from +! y perpDir *! simple_offset config |} in
  let p2 := {| x := x to +! x perpDir *! simple_offset config;
               y := y to +! y perpDir *! simple_offset config |} in
  let length := distance p1 p2 *! multiplier coordConfig in
  {| segments := [lineSegment p1 p2 coordConfig]; length := length |}.

Definition calculateStraightPath (from to : Point2D)
    (coordConfig : CoordTransformConfig) : EdgePath :=
  let length := distance from to *! multiplier coordConfig in
  {| segments := [lineSegment from to coordConfig]; length := length |}.

End RmpPathCalculatorJs.

(** * Definitions used to state the properties *)

(** ** Nearest-point geometry, ring snapping and insertion *)

Section GeometryDefinitions.

Import ControlPointTools.

(** The point of parameter [s] on the line through [a] and [b], and the
    Euclidean distance between two world points. *)
Definition pointAt (a b : WorldPoint) (s : R) : WorldPoint :=
  {| x := x a + (x b - x a) * s;
     z := z a + (z b - z a) * s |}.

Definition euclid (p q : WorldPoint) : R :=
  sqrt ((x p - x q) * (x p - x q)
        + (z p - z q) * (z p - z q)).

(** The squared length of the segment [a b], and the parameter of the
    perpendicular foot of [p] on the line through [a] and [b]. *)
Definition squaredLength (a b : WorldPoint) : R :=
  (x b - x a) * (x b - x a) + (z b - z a) * (z b - z a).

Definition footParameter (p a b : WorldPoint) : R :=
  ((x p - x a) * (x b - x a) + (z p - z a) * (z b - z a))
  / squaredLength a b.

(** The assist-line tool has its own copy of the point type. *)
Definition ofAssist (p : AssistLineTools.WorldPoint) : WorldPoint :=
  {| x := AssistLineTools.x p; z := AssistLineTools.z p |}.

(** The segments [(r, i)] the two loops of [closestPointOnRings] visit, in
    order: a ring with fewer than two points is skipped. *)
Definition segmentsOfRing (r : nat) (ring : list WorldPoint) (closed : bool)
    : list (nat * nat) :=
  if (length ring <? 2)%nat then []
  else map (pair r) (seq 0 (lastSeg closed (length ring))).

Definition scannedSegments (geom : GeometryRings) : list (nat * nat) :=
  flat_map
    (fun r => segmentsOfRing r (nth r (rings geom) []) (nth r (closed geom) false))
    (seq 0 (length (rings geom))).

(** The projection of [p] on segment [i] of ring [r], as the loop body
    computes it: from point [i] to point [(i + 1) mod n]. *)
Definition candidate (p : WorldPoint) (geom : GeometryRings) (ri : nat * nat)
    : SegmentHit :=
  let ring := nth (fst ri) (rings geom) [] in
  closestPointOnSegment p (ringPoint ring (snd ri))
    (ringPoint ring ((snd ri + 1) mod length ring)).

(** The record the loop stores when segment [ri] becomes the best. *)
Definition bestOf (p : WorldPoint) (geom : GeometryRings) (ri : nat * nat)
    : Best :=
  {| best_point := Some (hit_point (candidate p geom ri));
     best_dist := Fin (hit_dist (candidate p geom ri));
     ringIndex := Z.of_nat (fst ri);
     segIndex := Z.of_nat (snd ri);
     best_t := hit_t (candidate p geom ri) |}.

Definition scanStep (p : WorldPoint) (geom : GeometryRings)
    (best : Best) (ri : nat * nat) : Best :=
  scanSegment p (fst ri) (nth (fst ri) (rings geom) []) best (snd ri).

(** [a <= d] for a possibly infinite [a]. *)
Definition xle (a : xnumber) (d : R) : Prop :=
  match a with
  | Fin v => v <= d
  | PosInf => False
  end.

(** What the claim says about the number of segments of a ring of [n]
    points. *)
Definition claimedSegmentCount (closed : bool) (n : nat) : nat :=
  if closed then n else (n - 1)%nat.

Definition scenarioRing : list WorldPoint :=
  [ {| x := 0; z := 0 |}; {| x := 10; z := 0 |} ].

Definition scenarioGeom : GeometryRings :=
  {| rings := [scenarioRing]; closed := [false] |}.

Definition blockedResult : SnapResult :=
  {| point := None; blocked := true;
     reason := Some "未命中：距离目标要素超过 20 格"%string |}.

Definition snappedResult (q : WorldPoint) : SnapResult :=
  {| point := Some q; blocked := false; reason := None |}.

Definition scenarioTarget : SnapTarget :=
  {| label := "ring"%string; geom := scenarioGeom |}.

Definition isPolygonMode (m : LayerMode) : bool :=
  match m with polygon => true | _ => false end.

(** The ring the add-mode handler works on: the effective coordinates of
    the layer, without a closing duplicate of the first point. *)
Definition targetRing (edits : PendingEdits) (layer : MeasuringLayerLite)
    : list WorldPoint :=
  nth 0 (rings (normalizeRingsForPolygonLike
                     (getEffectiveCoords edits layer)
                     (isPolygonMode (mode layer)))) [].

Definition scenarioLayer : MeasuringLayerLite :=
  {| id := 1; mode := polyline; coords := scenarioRing; visible := true |}.

End GeometryDefinitions.

(** ** Axis-line snapping *)

Section AxisSnapDefinitions.

Import AssistLineTools.

(** The coordinate of [p] on the fixed axis, and [p] with that coordinate
    replaced. *)
Definition axisCoordinate (axis : FixedAxis) (p : WorldPoint) : R :=
  match axis with
  | axis_x => x p
  | axis_z => z p
  end.

Definition withAxisCoordinate (axis : FixedAxis) (v : R) (p : WorldPoint)
    : WorldPoint :=
  match axis with
  | axis_x => {| x := v; z := z p |}
  | axis_z => {| x := x p; z := v |}
  end.

End AxisSnapDefinitions.

(** ** Path builders *)

Section PathsDefinitions.

Import RmpPathCalculator.

(** A world coordinate seen in the world plane ([y] is the elevation). *)
Definition worldPlanePoint (c : Types.Coordinate) : Point2D :=
  {| x := Types.x c; y := Types.z c |}.

(** The length of a segment measured over its world-space points: the
    distance of the two end points of a straight segment, the ten-chord
    estimate over the three control points of a quadratic one. *)
Definition measureSegment (seg : Types.PathSegment) : R :=
  match Types.type seg, Types.points seg with
  | Types.line_segment, [a; b] =>
      distance (worldPlanePoint a) (worldPlanePoint b)
  | Types.quadratic_segment, [a; c; b] =>
      quadraticBezierLength (worldPlanePoint a) (worldPlanePoint c) (worldPlanePoint b)
  | _, _ => 0
  end.

Definition measurePath (path : Types.EdgePath) : R :=
  fold_right (fun seg total => measureSegment seg + total) 0 (Types.segments path).

(** The four builders, applied to their endpoints and configuration. *)
Inductive Builder : Type :=
| perpendicularBuilder (config : PerpendicularConfig)
| diagonalBuilder (config : DiagonalConfig)
| simpleBuilder (config : SimpleConfig)
| straightBuilder.

Definition build (b : Builder) (from to : Point2D) (cc : CoordTransformConfig)
    : Types.EdgePath :=
  match b with
  | perpendicularBuilder config => calculatePerpendicularPath from to config cc
  | diagonalBuilder config => calculateDiagonalPath from to config cc
  | simpleBuilder config => calculateSimplePath from to config cc
  | straightBuilder => calculateStraightPath from to cc
  end.

(** The invariant of a builder's accumulator: it has collected segments of
    total diagram length [D]. *)
Definition accumulates (cc : CoordTransformConfig) (acc : PathAcc) (D : R) : Prop :=
  0 <= D
  /\ snd acc = D * multiplier cc
  /\ fold_right (fun seg total => measureSegment seg + total) 0 (fst acc)
     = Rabs (scale cc * multiplier cc) * D.

Definition zeroVector : Point2D := {| x := 0; y := 0 |}.

(** The length of a vector, as [normalize] computes it. *)
Definition vectorLength (v : Point2D) : R :=
  sqrt (x v * x v + y v * y v).

Definition emptyPath : Types.EdgePath := {| Types.segments := []; Types.length := 0 |}.

Definition unitScaleConfig : CoordTransformConfig :=
  {| scale := 1; offset := 0; multiplier := 4 |}.

Definition doubleScaleConfig : CoordTransformConfig :=
  {| scale := 2; offset := 0; multiplier := 1 |}.

End PathsDefinitions.

(** ** The graph-to-line builder *)

Section ParserDefinitions.

Import RmpParser.

(** What the build guarantees about the transfer flag of a global station
    record: it is set when the merged line list has more than one entry,
    and with a single entry it can only be set by an interchange-type node
    carrying the station's name. *)
Definition flagJustified (data : RMPData) (g : Types.ParsedStation) : Prop :=
  ((1 < length (Types.lines g))%nat -> Types.isTransfer g = true)
  /\ (Types.isTransfer g = true -> (length (Types.lines g) <= 1)%nat ->
      exists node,
        In node (nodes data)
        /\ isStationNode node = true
        /\ isTransferStation node = true
        /\ getStationName node = Some (Types.name g)).

Definition indexOk (data : RMPData) (m : JsMap.t Types.ParsedStation) : Prop :=
  NoDup (map fst m)
  /\ forall k g, In (k, g) m -> Types.name g = k /\ flagJustified data g.

(** Station [s] of a line called [lineName] has a global record that lists
    the line. *)
Definition registered (m : JsMap.t Types.ParsedStation) (lineName : string)
    (s : Types.ParsedStation) : Prop :=
  exists g, JsMap.get (Types.name s) m = Some g /\ In lineName (Types.lines g).

(** Records are never removed, and their line lists only grow. *)
Definition grows (m m' : JsMap.t Types.ParsedStation) : Prop :=
  forall k g, JsMap.get k m = Some g ->
    exists g', JsMap.get k m' = Some g' /\ incl (Types.lines g) (Types.lines g').

(** The number of lines of a result in which a station called [name]
    appears, and the claim of C1 as a check on a result. *)
Definition linesContaining (name : string) (res : ParseResult) : nat :=
  length (filter
            (fun l => existsb (fun s => String.eqb (Types.name s) name) (Types.stations l))
            (result_lines res)).

Definition transferFlagsAsClaimed (res : ParseResult) : bool :=
  forallb
    (fun l =>
       forallb
         (fun s => Bool.eqb (Types.isTransfer s)
                     (1 <? linesContaining (Types.name s) res)%nat)
         (Types.stations l))
    (result_lines res)
  && forallb
       (fun g => (linesContaining (Types.name g) res =? 0)%nat
                 || Bool.eqb (Types.isTransfer g)
                      (1 <? linesContaining (Types.name g) res)%nat)
       (result_stations res).

(** A station record as [addStation] creates it from a station node. *)
Definition freshFrom (data : RMPData) (node : RMPNode) (lineName : string)
    (s : Types.ParsedStation) : Prop :=
  In node (nodes data)
  /\ isStationNode node = true
  /\ getStationName node = Some (Types.name s)
  /\ Types.isTransfer s = isTransferStation node
  /\ Types.lines s = [lineName].

(** The invariant of the station loop of one line. *)
Definition lineLoopOk (data : RMPData) (lineName : string)
    (m0 : JsMap.t Types.ParsedStation)
    (acc : list Types.ParsedStation * JsMap.t Types.ParsedStation) : Prop :=
  indexOk data (snd acc)
  /\ grows m0 (snd acc)
  /\ forall s, In s (fst acc) -> registered (snd acc) lineName s.

(** The invariant of the main loop. *)
Definition buildOk (data : RMPData) (st : BuildState) : Prop :=
  indexOk data (allStationsMap st)
  /\ (forall line s, In line (lines st) -> In s (Types.stations line) ->
                     registered (allStationsMap st) (Types.line line) s)
  /\ (forall line, In line (lines st) ->
                   (2 <= length (Types.stations line))%nat
                   /\ (length (Types.stations line)
                       <= S (length (Types.edgePaths line)))%nat).

(** Every station-type node of the graph has a first name that is not
    empty. *)
Definition stationsNamed (data : RMPData) : Prop :=
  forall node, In node (nodes data) -> isStationNode node = true ->
    exists name, getStationName node = Some name /\ truthy name = true.

Open Scope string_scope.

Definition stationNode (k type : string) (names : list string) (x y : R) : RMPNode :=
  {| key := k; node_x := x; node_y := y; node_type := type;
     bjsubway_int :=
       if String.eqb type "bjsubway-int" then Some {| names := names |} else None;
     bjsubway_basic :=
       if String.eqb type "bjsubway-basic" then Some {| names := names |} else None;
     suzhourt_basic := None;
     shmetro_int := None;
     bjsubway_text_line_badge := None |}.

Definition simpleEdge (k source target color : string) : RMPEdge :=
  {| edge_key := k; source := source; target := target;
     visible := true; edge_type := "simple";
     single_color := Some ["shanghai"; "sh1"; color; "#fff"];
     perpendicular_config := None;
     diagonal_config := None;
     simple_config := Some {| RmpPathCalculator.simple_offset := 0 |} |}.

(** One line, from an interchange-type node [A] to a basic node [B]. *)
Definition singleLineGraph : RMPData :=
  {| nodes := [ stationNode "n1" "bjsubway-int" ["A"] 0 0;
                   stationNode "n2" "bjsubway-basic" ["B"] 10 0 ];
     edges := [ simpleEdge "e1" "n1" "n2" "#ff0000" ] |}.

(** One line through three station nodes, the last of which has no name. *)
Definition namelessStationGraph : RMPData :=
  {| nodes := [ stationNode "n1" "bjsubway-basic" ["A"] 0 0;
                   stationNode "n2" "bjsubway-basic" ["B"] 10 0;
                   stationNode "n3" "bjsubway-basic" [] 20 0 ];
     edges := [ simpleEdge "e1" "n1" "n2" "#ff0000";
                   simpleEdge "e2" "n2" "n3" "#ff0000" ] |}.

(** Two lines of different colours that both stop at a station called [X]. *)
Definition twoLineGraph : RMPData :=
  {| nodes := [ stationNode "n1" "bjsubway-basic" ["A"] 0 0;
                   stationNode "n2" "bjsubway-basic" ["X"] 10 0;
                   stationNode "n3" "bjsubway-basic" ["X"] 10 1;
                   stationNode "n4" "bjsubway-basic" ["C"] 10 10 ];
     edges := [ simpleEdge "e1" "n1" "n2" "#ff0000";
                   simpleEdge "e2" "n3" "n4" "#0000ff" ] |}.

Definition stationSummary (s : Types.ParsedStation) : string * bool * list string :=
  (Types.name s, Types.isTransfer s, Types.lines s).

Definition lineSummary (l : Types.ParsedLine)
    : string * list (string * bool * list string) * nat :=
  (Types.line l, map stationSummary (Types.stations l), length (Types.edgePaths l)).

Close Scope string_scope.

End ParserDefinitions.

(** ** The traversal *)

Section DfsDefinitions.

Import RmpParser.

(** Every neighbour listed in the adjacency map is itself a key of it. *)
Definition adjacencyClosed (adj : JsMap.t JsSet.t) : Prop :=
  forall k ns n, In (k, ns) adj -> In n ns -> In n (map fst adj).

(** The number of keys of the adjacency map not yet visited. *)
Definition unvisitedCount (adj : JsMap.t JsSet.t) (st : DfsState) : nat :=
  length (filter (fun k => negb (JsSet.has k (visited st))) (map fst adj)).

(** One iteration of the neighbour loop of [dfs]. *)
Definition visitNeighbor (fuel : nat) (adj : JsMap.t JsSet.t)
    (edgeMap : JsMap.t RMPEdge) (node : string)
    (st : DfsState) (neighbor : string) : DfsState :=
  if negb (JsSet.has neighbor (visited st))
  then dfs fuel adj edgeMap neighbor (Some node) st
  else st.

Definition visitedIncluded (s s' : DfsState) : Prop :=
  forall x, JsSet.has x (visited s) = true -> JsSet.has x (visited s') = true.

End DfsDefinitions.

(** ** The ring scan and the snap decision *)

Section SnappingDefinitions.

Import ControlPointTools.

(** The result of [applySnap] that leaves the point where it is. *)
Definition keptResult (p : WorldPoint) : SnapResult :=
  {| point := Some p; blocked := false; reason := None |}.

(** A polygon ring whose first point is repeated at its end. *)
Definition explicitlyClosed (ring : list WorldPoint) : list WorldPoint :=
  ring ++ [nth 0 ring {| x := 0; z := 0 |}].

End SnappingDefinitions.

(** ** Modes, vertex edits and picked geometry *)

Section EditingDefinitions.

Import ControlPointTools.

(** The user actions that change the mode state. *)
Inductive ModeEvent : Type :=
| ToggleEdit
| ToggleAdd
| CloseAddPanel
| SelectAddTarget (l : Z)
| ClickVertex (v : SelectedVertex)
| ClearSelection.

Definition applyEvent (s : ModeState) (e : ModeEvent) : ModeState :=
  match e with
  | ToggleEdit => toggleEdit s
  | ToggleAdd => toggleAdd s
  | CloseAddPanel => closeAddPanel s
  | SelectAddTarget l => selectAddTarget l s
  | ClickVertex v => clickVertex v s
  | ClearSelection => clearSelection s
  end.

Definition runEvents (events : list ModeEvent) : ModeState :=
  fold_left applyEvent events initialModeState.

(** Edit mode and add mode are never on together, and the add panel, the
    add target and the selected vertex exist only in their own mode. *)
Definition modeOk (s : ModeState) : Prop :=
  (editEnabled s = true -> addEnabled s = false)
  /\ (addPanelOpen s = true -> addEnabled s = true)
  /\ (addTargetLayerId s <> None -> addEnabled s = true)
  /\ (selectedVertex s <> None -> editEnabled s = true).

(** The world ring of one Leaflet ring: the points with a projection. *)
Definition worldRing (toWorld : LatLngs -> option WorldPoint)
    (rr : list LatLngs) : list WorldPoint :=
  fold_left
    (fun wr ll => match toWorld ll with
                  | Some w => wr ++ [w]
                  | None => wr
                  end)
    rr [].

End EditingDefinitions.

(** ** The assist-line transformation *)

Section AssistSnapDefinitions.

Import AssistLineTools.

(** The geometry of the assist-line tool, read as a geometry of the
    control-point tool. *)
Definition ofAssistGeom (g : GeometryRings) : ControlPointTools.GeometryRings :=
  {| ControlPointTools.rings := map (map ofAssist) (rings g); ControlPointTools.closed := closed g |}.

(** The two running records hold the same point and the same distance. *)
Definition sameBest (b : Best) (b' : ControlPointTools.Best) : Prop :=
  option_map ofAssist (best_point b) = ControlPointTools.best_point b'
  /\ best_dist b = ControlPointTools.best_dist b'.

(** The result of [transformWorldPoint] when assist-line snapping is off or
    has no target. *)
Definition untouched (p : WorldPoint) : AssistLineSnapResult :=
  {| point := p; snapped := false; dist := None; targetLabel := None |}.

End AssistSnapDefinitions.

(** ** Lengths of the built paths *)

Section PathLengthsDefinitions.

Import RmpPathCalculator.

(** The offset direction of a builder: the unit normal of the direction
    from [from] to [to], as the builders compute it. *)
Definition offsetDirection (from to : Point2D) : Point2D :=
  perpendicular
    (normalize {| x := x to - x from; y := y to - y from |}).

(** The point [p] moved by [off] along the offset direction. *)
Definition offsetPoint (from to p : Point2D) (off : R) : Point2D :=
  {| x := x p + x (offsetDirection from to) * off;
     y := y p + y (offsetDirection from to) * off |}.

(** What a piece of length [v] adds to the total of a builder: pieces of
    at most [0.001] are left out. *)
Definition counted (v : R) : R := if Rgt_dec v 0.001 then v else 0.

(** The distance from the corner at which a rounded corner starts and ends. *)
Definition cornerReach (before corner after : Point2D) (factor : R) : R :=
  Rmin factor (Rmin (distance corner before) (distance corner after) * 0.5).

(** The bound the control polygon puts on the length of the curve up to
    parameter [t]. *)
Definition polygonBound (p0 p1 p2 : Point2D) (t : R) : R :=
  t * (2 - t) * distance p0 p1 + t * t * distance p1 p2.

(** The loop invariant of [quadraticBezierLength] after sample [k]. *)
Definition sampled (p0 p1 p2 : Point2D) (k : nat) (st : R * Point2D) : Prop :=
  snd st = bezierAt p0 p1 p2 (INR k / INR 10)
  /\ distance p0 (snd st) <= fst st
  /\ fst st <= polygonBound p0 p1 p2 (INR k / INR 10).

Definition isLine (seg : Types.PathSegment) : Prop :=
  Types.type seg = Types.line_segment.

End PathLengthsDefinitions.

(** ** Colour groups and emitted lines *)

Section LinesDefinitions.

Import RmpParser.

(** The visible edges of colour [c], in document order. *)
Definition edgesOfColor (edges : list RMPEdge) (c : string) : list RMPEdge :=
  filter (fun e => visible e && String.eqb (getEdgeColor e) c) edges.

(** One iteration of the grouping loop. *)
Definition groupStep (linesByColor : JsMap.t (list RMPEdge)) (edge : RMPEdge)
    : JsMap.t (list RMPEdge) :=
  if negb (visible edge) then linesByColor
  else
    let color := getEdgeColor edge in
    let linesByColor :=
      if negb (JsMap.has color linesByColor)
      then JsMap.set color [] linesByColor else linesByColor in
    match JsMap.get color linesByColor with
    | Some group => JsMap.set color (group ++ [edge]) linesByColor
    | None => linesByColor
    end.

(** The graph without its hidden edges. *)
Definition withoutHiddenEdges (data : RMPData) : RMPData :=
  {| nodes := nodes data; edges := filter visible (edges data) |}.

(** What [buildLine] appends for the colour group [group] when it emits a
    line: the line built over the ordered nodes [ks] and edges [es]. *)
Definition emittedLine (nodeMap : JsMap.t RMPNode) (lineBadges : JsMap.t Badge)
    (cc : RmpPathCalculator.CoordTransformConfig) (st : BuildState)
    (group : string * list RMPEdge) : Types.ParsedLine :=
  let ks := fst (getOrderedStationsWithEdges (snd group)) in
  let es := snd (getOrderedStationsWithEdges (snd group)) in
  let sn := stationNodes nodeMap ks in
  let lineName := lineNameOf lineBadges (fst group) (lineIndex st) in
  {| Types.bureau := "RMP";
     Types.line := lineName;
     Types.lineId := lineIdOf (lineIndex st);
     Types.stations := fst (buildLineStations lineName cc sn (allStationsMap st));
     Types.color := fst group;
     Types.edgePaths := buildEdgePaths nodeMap ks es cc sn |}.

(** A station of a line was made from a station-type node of the graph
    that has a name: it carries the node's first name and the world
    coordinate of the node's position, and a positive station code. *)
Definition fromStationNode (data : RMPData)
    (cc : RmpPathCalculator.CoordTransformConfig) (s : Types.ParsedStation) : Prop :=
  exists node,
    In node (nodes data)
    /\ isStationNode node = true
    /\ getStationName node = Some (Types.name s)
    /\ truthy (Types.name s) = true
    /\ Types.coord s = rmpToGameCoord (node_x node) (node_y node) cc
    /\ (1 <= Types.stationCode s)%nat.

(** Station codes grow strictly along a line. *)
Definition codesIncrease (stations : list Types.ParsedStation) : Prop :=
  forall i j a b, (i < j)%nat ->
    nth_error stations i = Some a -> nth_error stations j = Some b ->
    (Types.stationCode a < Types.stationCode b)%nat.

(** The invariant of the main loop on the emitted lines: the counter is one
    more than their number, and line [i] carries the identifier and the name
    made from [i + 1], stations made from station nodes and increasing
    station codes. *)
Definition emittedOk (data : RMPData) (lineBadges : JsMap.t Badge)
    (cc : RmpPathCalculator.CoordTransformConfig) (st : BuildState) : Prop :=
  lineIndex st = S (length (lines st))
  /\ forall i line, nth_error (lines st) i = Some line ->
       Types.lineId line = lineIdOf (S i)
       /\ Types.bureau line = "RMP"%string
       /\ Types.line line = lineNameOf lineBadges (Types.color line) (S i)
       /\ (forall s, In s (Types.stations line) -> fromStationNode data cc s)
       /\ codesIncrease (Types.stations line).

(** The invariant of the station loop of a line at index [k]. *)
Definition stationsOk (data : RMPData) (cc : RmpPathCalculator.CoordTransformConfig)
    (k : nat) (stations : list Types.ParsedStation) : Prop :=
  (forall s, In s stations -> fromStationNode data cc s)
  /\ codesIncrease stations
  /\ (forall s, In s stations -> (Types.stationCode s <= k)%nat).

End LinesDefinitions.

(** ** The adjacency and the traversal order *)

Section GraphDefinitions.

Import RmpParser.

(** Some edge of the group joins [a] and [b], in either direction. *)
Definition joined (edges : list RMPEdge) (a b : string) : Prop :=
  exists e, In e edges
            /\ ((source e = a /\ target e = b)
                \/ (source e = b /\ target e = a)).

(** [n] is an end of some edge of the group. *)
Definition endpoint (edges : list RMPEdge) (n : string) : Prop :=
  exists e, In e edges /\ (source e = n \/ target e = n).

(** [b] can be reached from [a] along edges of the group. *)
Inductive connectedTo (edges : list RMPEdge) (a : string) : string -> Prop :=
| connected_here : connectedTo edges a a
| connected_next (b c : string) :
    connectedTo edges a b -> joined edges b c -> connectedTo edges a c.

(** [adj.get(node)], or no neighbour when the node is not a key. *)
Definition neighborsOf (adj : JsMap.t JsSet.t) (node : string) : JsSet.t :=
  match JsMap.get node adj with Some s => s | None => [] end.

Definition adjacencyOf (edges : list RMPEdge) : JsMap.t JsSet.t :=
  fst (buildAdjacencyWithEdges edges).

Definition edgeMapOf (edges : list RMPEdge) : JsMap.t RMPEdge :=
  snd (buildAdjacencyWithEdges edges).

(** One iteration of the loop of [buildAdjacencyWithEdges]. *)
Definition adjacencyStep (acc : JsMap.t JsSet.t * JsMap.t RMPEdge) (edge : RMPEdge)
    : JsMap.t JsSet.t * JsMap.t RMPEdge :=
  let adj := fst acc in
  let edgeMap := snd acc in
  let adj := ensureKey (source edge) adj in
  let adj := ensureKey (target edge) adj in
  let adj := addNeighbor (source edge) (target edge) adj in
  let adj := addNeighbor (target edge) (source edge) adj in
  let edgeMap := JsMap.set (edgeMapKey (source edge) (target edge)) edge edgeMap in
  let edgeMap := JsMap.set (edgeMapKey (target edge) (source edge)) edge edgeMap in
  (adj, edgeMap).

(** The node the traversal of the group [first :: rest] starts from. *)
Definition startNodeOf (first : RMPEdge) (rest : list RMPEdge) : string :=
  match find (fun entry => (length (snd entry) =? 1)%nat) (adjacencyOf (first :: rest)) with
  | Some (node, _) => node
  | None => source first
  end.

(** The state [dfs] continues with after it has recorded [node]. *)
Definition markVisited (edgeMap : JsMap.t RMPEdge) (node : string)
    (prevNode : option string) (st : DfsState) : DfsState :=
  {| visited := JsSet.add node (visited st);
     orderedNodes := orderedNodes st ++ [node];
     orderedEdges :=
       match prevNode with
       | Some prev =>
           if truthy prev then
             match JsMap.get (edgeMapKey prev node) edgeMap with
             | Some edge => orderedEdges st ++ [edge]
             | None => orderedEdges st
             end
           else orderedEdges st
       | None => orderedEdges st
       end |}.

Definition initialDfsState : DfsState :=
  {| visited := []; orderedNodes := []; orderedEdges := [] |}.

End GraphDefinitions.

(** ** Drawing the edge paths of a line *)

Section HighlightDefinitions.

Import LineHighlightLayer.

(** A segment the drawing code can handle: a straight segment of two
    points or a quadratic one of three. *)
Definition drawable (seg : Types.PathSegment) : Prop :=
  match Types.type seg with
  | Types.line_segment => length (Types.points seg) = 2%nat
  | Types.quadratic_segment => length (Types.points seg) = 3%nat
  end.

(** All segments of a line, in drawing order. *)
Definition allSegments (line : Types.ParsedLine) : list Types.PathSegment :=
  flat_map Types.segments (Types.edgePaths line).

(** The projection of a world coordinate. *)
Definition projected (locationToLatLng : R -> R -> R -> LatLng)
    (c : Types.Coordinate) : LatLng :=
  locationToLatLng (Types.x c) (Types.y c) (Types.z c).

(** The points drawn for a segment (none if the conversion fails). *)
Definition latLngsOf (locationToLatLng : R -> R -> R -> LatLng)
    (seg : Types.PathSegment) : list LatLng :=
  match segmentToLatLngs locationToLatLng seg with
  | Some latLngs => latLngs
  | None => []
  end.

Definition pathDrawable (path : Types.EdgePath) : Prop :=
  Forall drawable (Types.segments path).

End HighlightDefinitions.

(** ** Draft points and layers of the measuring module *)

Section MeasuringDefinitions.

Import MeasuringModule.

(** The undo and redo buttons. *)
Inductive DraftAction : Type := Undo | Redo.

Definition applyDraftAction (d : Draft) (a : DraftAction) : Draft :=
  match a with
  | Undo => handleUndo d
  | Redo => handleRedo d
  end.

(** The points of a draft in drawing order: the current ones, then the
    undone ones, the most recently undone first. *)
Definition allDraftPoints (d : Draft) : list AssistLineTools.WorldPoint :=
  tempPoints d ++ rev (redoStack d).

End MeasuringDefinitions.

(** ** Transfer flags and the lines of a station *)

Section TransferFlagsDefinitions.

Import RmpParser.

(** Whether line [l] has a station called [name]. *)
Definition stopsAt (name : string) (l : Types.ParsedLine) : bool :=
  existsb (fun s => String.eqb (Types.name s) name) (Types.stations l).

(** The number of stations called [name] on the lines of a result, a
    station that is on two lines or twice on one line counted twice. *)
Definition occurrences (name : string) (res : ParseResult) : nat :=
  length (filter (fun s => String.eqb (Types.name s) name)
            (flat_map Types.stations (result_lines res))).

(** The station-type nodes of the colour group of a line, in the order of
    the traversal: [stationNodesWithIndex] of the iteration that built the
    line, without the indices. *)
Definition stationNodesOfLine (data : RMPData) (line : Types.ParsedLine)
    : list RMPNode :=
  match JsMap.get (Types.color line) (groupByColor (edges data)) with
  | Some colorEdges =>
      map fst (stationNodes (buildNodeMap (nodes data))
                 (fst (getOrderedStationsWithEdges colorEdges)))
  | None => []
  end.

(** The first name of a node ([EmptyString] when it has none). *)
Definition firstName (node : RMPNode) : string :=
  match getStationName node with
  | Some name => name
  | None => EmptyString
  end.

(** The record the station loop creates for entry [i] of
    [stationNodesWithIndex] when its node has a name. *)
Definition namedStation (lineName : string)
    (cc : RmpPathCalculator.CoordTransformConfig)
    (entry : nat * (RMPNode * nat)) : Types.ParsedStation :=
  let node := fst (snd entry) in
  {| Types.name := firstName node;
     Types.coord := rmpToGameCoord (node_x node) (node_y node) cc;
     Types.stationCode := (fst entry + 1)%nat;
     Types.isTransfer := isTransferStation node;
     Types.lines := [lineName] |}.

(** What one iteration of the station loop pushes: nothing for a node
    without a name. *)
Definition entryStations (lineName : string)
    (cc : RmpPathCalculator.CoordTransformConfig)
    (entry : nat * (RMPNode * nat)) : list Types.ParsedStation :=
  match getStationName (fst (snd entry)) with
  | Some name => if truthy name then [namedStation lineName cc entry] else []
  | None => []
  end.

(** The entries of [stationNodesWithIndex] of a colour group, each with its
    position. *)
Definition entriesOf (nodeMap : JsMap.t RMPNode) (group : string * list RMPEdge)
    : list (nat * (RMPNode * nat)) :=
  let sn := stationNodes nodeMap (fst (getOrderedStationsWithEdges (snd group))) in
  combine (seq 0 (length sn)) sn.

(** The updates of the global station index, in order: every station of
    every line, with the name of its line. *)
Definition registrations (lines : list Types.ParsedLine)
    : list (Types.ParsedStation * string) :=
  flat_map (fun l => map (fun s => (s, Types.line l)) (Types.stations l)) lines.

Definition registerAll (regs : list (Types.ParsedStation * string))
    (m : JsMap.t Types.ParsedStation) : JsMap.t Types.ParsedStation :=
  fold_left (fun m p => updateAllStations (fst p) (snd p) m) regs m.

(** The updates that concern the station name [n]. *)
Definition regsOf (n : string) (regs : list (Types.ParsedStation * string))
    : list (Types.ParsedStation * string) :=
  filter (fun p => String.eqb (Types.name (fst p)) n) regs.

(** The global index after the updates [regs]: a name that was never
    registered has no record; the record of a registered name lists the
    line names of its updates, each once, and carries the flag of the
    station that created it if there was one update and [1 < length lines]
    after any further update. *)
Definition indexed (regs : list (Types.ParsedStation * string))
    (m : JsMap.t Types.ParsedStation) : Prop :=
  forall n,
    match regsOf n regs with
    | [] => JsMap.get n m = None
    | p :: r =>
        exists g,
          JsMap.get n m = Some g
          /\ Types.lines g = JsSet.dedup (map snd (p :: r))
          /\ Types.isTransfer g
             = match r with
               | [] => Types.isTransfer (fst p)
               | _ :: _ => (1 <? length (Types.lines g))%nat
               end
    end.

(** Line [l] was built from one of the colour groups [groups], all of whose
    station-type nodes gave a station. *)
Definition builtFrom (nodeMap : JsMap.t RMPNode)
    (cc : RmpPathCalculator.CoordTransformConfig)
    (groups : JsMap.t (list RMPEdge)) (l : Types.ParsedLine) : Prop :=
  exists g,
    In g groups
    /\ Types.color l = fst g
    /\ Types.stations l = map (namedStation (Types.line l) cc) (entriesOf nodeMap g).

(** The invariant of the main loop on a graph whose station-type nodes all
    have a name. *)
Definition namedBuildOk (nodeMap : JsMap.t RMPNode)
    (cc : RmpPathCalculator.CoordTransformConfig)
    (groups : JsMap.t (list RMPEdge)) (st : BuildState) : Prop :=
  allStationsMap st = registerAll (registrations (lines st)) []
  /\ forall l, In l (lines st) -> builtFrom nodeMap cc groups l.

Open Scope string_scope.

(** One line that passes twice through a station called [A], both times at
    an interchange-type node. *)
Definition revisitingLineGraph : RMPData :=
  {| nodes := [ stationNode "n1" "bjsubway-int" ["A"] 0 0;
                   stationNode "n2" "bjsubway-basic" ["B"] 10 0;
                   stationNode "n3" "bjsubway-int" ["A"] 20 0 ];
     edges := [ simpleEdge "e1" "n1" "n2" "#ff0000";
                   simpleEdge "e2" "n2" "n3" "#ff0000" ] |}.

(** A badge node that names the lines of colour [color]. *)
Definition badgeNode (k name color : string) : RMPNode :=
  {| key := k; node_x := 0; node_y := 0;
     node_type := "bjsubway-text-line-badge";
     bjsubway_int := None; bjsubway_basic := None;
     suzhourt_basic := None; shmetro_int := None;
     bjsubway_text_line_badge :=
       Some {| badge_names := [name];
               badge_color := ["shanghai"; "sh1"; color; "#fff"] |} |}.

(** A red group, named [Red] by a badge, from a station called [X] to a
    station node without a name, and a blue line from another node called
    [X] to [Y]. *)
Definition unnamedEndGraph : RMPData :=
  {| nodes := [ badgeNode "b1" "Red" "#ff0000";
                   stationNode "n1" "bjsubway-basic" ["X"] 0 0;
                   stationNode "n2" "bjsubway-basic" [] 10 0;
                   stationNode "n3" "bjsubway-basic" ["X"] 0 1;
                   stationNode "n4" "bjsubway-basic" ["Y"] 10 10 ];
     edges := [ simpleEdge "e1" "n1" "n2" "#ff0000";
                   simpleEdge "e2" "n3" "n4" "#0000ff" ] |}.

(** Two lines of different colours that both stop at a station called [X]
    and that badges give the same name [L]. *)
Definition sameNameGraph : RMPData :=
  {| nodes := [ badgeNode "b1" "L" "#ff0000";
                   badgeNode "b2" "L" "#0000ff";
                   stationNode "n1" "bjsubway-basic" ["A"] 0 0;
                   stationNode "n2" "bjsubway-basic" ["X"] 10 0;
                   stationNode "n3" "bjsubway-basic" ["X"] 10 1;
                   stationNode "n4" "bjsubway-basic" ["C"] 10 10 ];
     edges := [ simpleEdge "e1" "n1" "n2" "#ff0000";
                   simpleEdge "e2" "n3" "n4" "#0000ff" ] |}.

Close Scope string_scope.

End TransferFlagsDefinitions.

(** ** The path builders on numbers with special values *)

Section FiniteNumbersDefinitions.

Import RmpPathCalculatorJs.

(** Real numbers as JavaScript numbers. *)
Definition ofPoint (p : RmpPathCalculator.Point2D) : Point2D :=
  {| x := JsNumber.Fin (RmpPathCalculator.x p); y := JsNumber.Fin (RmpPathCalculator.y p) |}.

Definition ofConfig (cc : RmpPathCalculator.CoordTransformConfig) : CoordTransformConfig :=
  {| scale := JsNumber.Fin (RmpPathCalculator.scale cc);
     offset := JsNumber.Fin (RmpPathCalculator.offset cc);
     multiplier := JsNumber.Fin (RmpPathCalculator.multiplier cc) |}.

Definition ofPerpendicularConfig (config : RmpPathCalculator.PerpendicularConfig)
    : PerpendicularConfig :=
  {| startFrom := RmpPathCalculator.startFrom config;
     offsetFrom := JsNumber.Fin (RmpPathCalculator.offsetFrom config);
     offsetTo := JsNumber.Fin (RmpPathCalculator.offsetTo config);
     roundCornerFactor := JsNumber.Fin (RmpPathCalculator.roundCornerFactor config) |}.

Definition ofSimpleConfig (config : RmpPathCalculator.SimpleConfig) : SimpleConfig :=
  {| simple_offset := JsNumber.Fin (RmpPathCalculator.simple_offset config) |}.

Definition ofCoordinate (c : Types.Coordinate) : Coordinate :=
  {| coord_x := JsNumber.Fin (Types.x c);
     coord_y := JsNumber.Fin (Types.y c);
     coord_z := JsNumber.Fin (Types.z c) |}.

Definition ofSegment (seg : Types.PathSegment) : PathSegment :=
  {| type := Types.type seg; points := map ofCoordinate (Types.points seg) |}.

Definition ofPath (path : Types.EdgePath) : EdgePath :=
  {| segments := map ofSegment (Types.segments path);
     length := JsNumber.Fin (Types.length path) |}.

Definition ofRoundCorner (rc : RmpPathCalculator.RoundCorner) : RoundCorner :=
  {| cornerStart := ofPoint (RmpPathCalculator.cornerStart rc);
     cornerEnd := ofPoint (RmpPathCalculator.cornerEnd rc);
     control := ofPoint (RmpPathCalculator.control rc) |}.

Definition ofAcc (acc : RmpPathCalculator.PathAcc) : PathAcc :=
  (map ofSegment (fst acc), JsNumber.Fin (snd acc)).

(** A path is finite when its length and all coordinates of all its points
    are finite numbers. *)
Definition finiteCoordinate (c : Coordinate) : bool :=
  JsNumber.isFinite (coord_x c) && JsNumber.isFinite (coord_y c) && JsNumber.isFinite (coord_z c).

Definition finitePath (path : EdgePath) : bool :=
  JsNumber.isFinite (length path)
  && forallb (fun seg => forallb finiteCoordinate (points seg)) (segments path).

(** The zero vector. *)
Definition zeroVectorJs : Point2D := {| x := JsNumber.Fin 0; y := JsNumber.Fin 0 |}.

(** [v.x / len] with [len = Math.sqrt(v.x * v.x + v.y * v.y)]: the quotient
    of [normalize], computed without asking whether [len > 0]. *)
Definition unguardedQuotient (v : Point2D) : JsNumber.t :=
  JsNumber.div (x v)
    (JsNumber.sqrt (JsNumber.add (JsNumber.mul (x v) (x v)) (JsNumber.mul (y v) (y v)))).

(** A coordinate transform that changes nothing. *)
Definition plainConfig : CoordTransformConfig :=
  {| scale := JsNumber.Fin 1; offset := JsNumber.Fin 0; multiplier := JsNumber.Fin 1 |}.

(** The simple path from the origin to itself with offset [off]. *)
Definition simplePathAtOrigin (off : JsNumber.t) : EdgePath :=
  calculateSimplePath zeroVectorJs zeroVectorJs {| simple_offset := off |}
    plainConfig.

(** The [x] and [z] coordinates of the points of a path. *)
Definition planeCoordinates (path : EdgePath) : list (list (JsNumber.t * JsNumber.t)) :=
  map (fun seg => map (fun c => (coord_x c, coord_z c)) (points seg))
    (segments path).

End FiniteNumbersDefinitions.

(** * Properties *)

(** ** Nearest-point geometry, ring snapping and insertion *)

Section GeometryProperties.

Import ControlPointTools.

(** *** Real-number facts used by the geometry proofs *)

Section RealFacts.

(** The squared distance from [p] to the point of parameter [s] on the
    line through [a] and [b], as a quadratic in [s]. *)
Lemma clamp_is_closest (apx apz abx abz u t s : R) :
  0 < abx * abx + abz * abz ->
  u * (abx * abx + abz * abz) = apx * abx + apz * abz ->
  (u < 0 /\ t = 0) \/ (1 < u /\ t = 1) \/ (0 <= u <= 1 /\ t = u) ->
  0 <= s <= 1 ->
  (apx - abx * t) * (apx - abx * t) + (apz - abz * t) * (apz - abz * t)
  <= (apx - abx * s) * (apx - abx * s) + (apz - abz * s) * (apz - abz * s).
Proof.
  intros Hden Hu Ht Hs.
  set (D := abx * abx + abz * abz) in *.
  assert (Hsq : (t - u) * (t - u) <= (s - u) * (s - u)).
  { destruct Ht as [[Hu0 Ht] | [[Hu1 Ht] | [Hu01 Ht]]]; subst t.
    - assert (0 <= s * (s - 2 * u)) by (apply Rmult_le_pos; lra). nra.
    - assert (0 <= (1 - s) * (2 * u - 1 - s)) by (apply Rmult_le_pos; lra). nra.
    - replace ((u - u) * (u - u)) with 0 by ring.
      apply Rle_0_sqr. }
  assert (E : forall r, (apx - abx * r) * (apx - abx * r)
                        + (apz - abz * r) * (apz - abz * r)
                        = (apx * apx + apz * apz) + D * ((r - u) * (r - u) - u * u)).
  { intros r.
    assert (H2 : 2 * r * (apx * abx + apz * abz) = 2 * r * (u * D)) by (rewrite Hu; ring).
    unfold D in *. lra. }
  rewrite (E t), (E s).
  assert (0 <= D * ((s - u) * (s - u) - (t - u) * (t - u))) by (apply Rmult_le_pos; lra).
  lra.
Qed.

End RealFacts.

(** *** Nearest-point geometry *)

Lemma clamp01_cases (u : R) :
  (u < 0 /\ clamp01 u = 0) \/ (1 < u /\ clamp01 u = 1)
  \/ (0 <= u <= 1 /\ clamp01 u = u).
Proof.
  unfold clamp01.
  destruct (Rlt_dec u 0); [left; split; [lra | reflexivity] |].
  destruct (Rlt_dec 1 u); [right; left; split; [lra | reflexivity] |].
  right; right; split; [lra | reflexivity].
Qed.

Lemma clamp01_range (u : R) : 0 <= clamp01 u <= 1.
Proof. destruct (clamp01_cases u) as [[? ->] | [[? ->] | [? ->]]]; lra. Qed.

Lemma clamp01_Rmax_Rmin (u : R) : clamp01 u = Rmax 0 (Rmin 1 u).
Proof.
  destruct (clamp01_cases u) as [[? ->] | [[? ->] | [? ->]]];
    unfold Rmax, Rmin; repeat (destruct (Rle_dec _ _)); lra.
Qed.

Lemma closestPointOnSegment_degenerate (p a b : WorldPoint) :
  squaredLength a b <= 1e-12 ->
  closestPointOnSegment p a b
  = {| hit_point := a; hit_t := 0; hit_dist := euclid p a |}.
Proof.
  unfold squaredLength, closestPointOnSegment. intros H.
  destruct (Rle_dec _ _) as [_ | n]; [| contradiction].
  destruct a; reflexivity.
Qed.

Lemma closestPointOnSegment_proper (p a b : WorldPoint) :
  1e-12 < squaredLength a b ->
  closestPointOnSegment p a b
  = {| hit_point := pointAt a b (clamp01 (footParameter p a b));
       hit_t := clamp01 (footParameter p a b);
       hit_dist := euclid p (pointAt a b (clamp01 (footParameter p a b))) |}.
Proof.
  unfold squaredLength, closestPointOnSegment. intros H.
  destruct (Rle_dec _ _) as [l | _]; [lra |].
  reflexivity.
Qed.

Lemma assist_closestPointOnSegment_agrees (p a b : AssistLineTools.WorldPoint) :
  let h := AssistLineTools.closestPointOnSegment p a b in
  let h' := closestPointOnSegment (ofAssist p) (ofAssist a) (ofAssist b) in
  ofAssist (AssistLineTools.hit_point h) = hit_point h'
  /\ AssistLineTools.hit_t h = hit_t h' /\ AssistLineTools.hit_dist h = hit_dist h'.
Proof.
  unfold AssistLineTools.closestPointOnSegment, closestPointOnSegment; cbn.
  destruct (Rle_dec _ _); cbn; repeat split; reflexivity.
Qed.

(** C5.  [closestPointOnSegment] (both copies: the control-point tool's and
    the assist-line tool's) is the perpendicular projection with clamping.
    When the squared segment length is at most [1e-12] it returns [a]
    itself, [t = 0] and the distance from [p] to [a].  Otherwise the divisor
    is not zero, [t] is the parameter of the perpendicular foot clamped to
    [[0, 1]], the returned point is the point of parameter [t] of the
    segment, the returned distance is the Euclidean distance from [p] to it,
    and no point of the segment is nearer to [p]. *)
Theorem closestPointOnSegment_projection (p a b : WorldPoint) :
  let h := closestPointOnSegment p a b in
  (squaredLength a b <= 1e-12 ->
     hit_point h = a /\ hit_t h = 0 /\ hit_dist h = euclid p a)
  /\ (1e-12 < squaredLength a b ->
        squaredLength a b <> 0
        /\ (let f := pointAt a b (footParameter p a b) in
            (x p - x f) * (x b - x a)
            + (z p - z f) * (z b - z a) = 0)
        /\ hit_t h = Rmax 0 (Rmin 1 (footParameter p a b))
        /\ 0 <= hit_t h <= 1
        /\ hit_point h = pointAt a b (hit_t h)
        /\ hit_dist h = euclid p (hit_point h)
        /\ (forall s, 0 <= s <= 1 -> hit_dist h <= euclid p (pointAt a b s)))
  /\ (forall p' a' b' : AssistLineTools.WorldPoint,
        ofAssist p' = p -> ofAssist a' = a -> ofAssist b' = b ->
        let h' := AssistLineTools.closestPointOnSegment p' a' b' in
        ofAssist (AssistLineTools.hit_point h') = hit_point h
        /\ AssistLineTools.hit_t h' = hit_t h /\ AssistLineTools.hit_dist h' = hit_dist h).
Proof.
  cbv zeta. split; [| split].
  - intros H. rewrite (closestPointOnSegment_degenerate p a b H). cbn. auto.
  - intros H. rewrite (closestPointOnSegment_proper p a b H). cbn.
    assert (Hpos : 0 < squaredLength a b) by lra.
    assert (Hu : footParameter p a b * squaredLength a b
                 = (x p - x a) * (x b - x a)
                   + (z p - z a) * (z b - z a)).
    { unfold footParameter. field. lra. }
    split; [lra |]. split.
    { unfold squaredLength in Hu. lra. }
    split; [apply clamp01_Rmax_Rmin |].
    split; [apply clamp01_range |].
    split; [reflexivity |]. split; [reflexivity |].
    intros s Hs. unfold euclid, pointAt; cbn.
    apply sqrt_le_1_alt.
    pose proof (clamp_is_closest (x p - x a) (z p - z a)
                  (x b - x a) (z b - z a)
                  (footParameter p a b) (clamp01 (footParameter p a b)) s
                  Hpos Hu) as Hmin.
    specialize (Hmin ltac:(pose proof (clamp01_cases (footParameter p a b)); tauto) Hs).
    lra.
  - intros p' a' b' <- <- <-. apply assist_closestPointOnSegment_agrees.
Qed.

(** *** Ring scans *)

Section RingScan.

Variable p : WorldPoint.
Variable geom : GeometryRings.

Lemma fold_left_flat_map {A B C : Type} (f : A -> B -> A) (g : C -> list B)
    (l : list C) (a : A) :
  fold_left f (flat_map g l) a = fold_left (fun a c => fold_left f (g c) a) l a.
Proof.
  revert a. induction l as [| c l IH]; intros a; cbn; [reflexivity |].
  now rewrite fold_left_app, IH.
Qed.

Lemma fold_left_map {A B C : Type} (f : A -> B -> A) (g : C -> B)
    (l : list C) (a : A) :
  fold_left f (map g l) a = fold_left (fun a c => f a (g c)) l a.
Proof. revert a. induction l; intros; cbn; auto. Qed.

Lemma fold_left_pointwise {A B : Type} (f g : A -> B -> A) (l : list B) (a : A) :
  (forall a b, f a b = g a b) -> fold_left f l a = fold_left g l a.
Proof.
  intros H. revert a. induction l as [| b l IH]; intros a; cbn; [reflexivity |].
  now rewrite H, IH.
Qed.

Lemma closestPointOnRings_scan :
  closestPointOnRings p geom
  = fold_left (scanStep p geom) (scannedSegments geom) initialBest.
Proof.
  unfold closestPointOnRings, scannedSegments.
  rewrite fold_left_flat_map.
  apply fold_left_pointwise. intros best r.
  unfold scanRing, segmentsOfRing.
  destruct (length _ <? 2)%nat; [reflexivity |].
  rewrite fold_left_map. reflexivity.
Qed.

Lemma scanStep_cases (best : Best) (ri : nat * nat) :
  (scanStep p geom best ri = bestOf p geom ri
   /\ (forall d, best_dist best = Fin d -> hit_dist (candidate p geom ri) < d))
  \/ (scanStep p geom best ri = best
      /\ xle (best_dist best) (hit_dist (candidate p geom ri))).
Proof.
  unfold scanStep, scanSegment, lt_xnumber.
  fold (candidate p geom ri).
  destruct (best_dist best) as [d0 |] eqn:E.
  - destruct (Rlt_dec _ d0).
    + left. split; [reflexivity |]. intros d [= <-]. assumption.
    + right. split; [reflexivity |]. cbn. lra.
  - left. split; [reflexivity |]. intros d [=].
Qed.

(** The best distance never increases during a scan. *)
Lemma scan_decreases (l : list (nat * nat)) (best : Best) (d : R) :
  xle (best_dist best) d ->
  xle (best_dist (fold_left (scanStep p geom) l best)) d.
Proof.
  revert best. induction l as [| ri l IH]; intros best H; cbn; [exact H |].
  apply IH.
  destruct (scanStep_cases best ri) as [[-> Hlt] | [-> _]]; [| exact H].
  cbn. destruct (best_dist best) as [d0 |]; [| destruct H].
  cbn in H. specialize (Hlt d0 eq_refl). lra.
Qed.

Lemma scan_minimum (l : list (nat * nat)) (best : Best) (ri : nat * nat) :
  In ri l ->
  xle (best_dist (fold_left (scanStep p geom) l best))
      (hit_dist (candidate p geom ri)).
Proof.
  revert best. induction l as [| ri' l IH]; intros best Hin; [destruct Hin |].
  destruct Hin as [-> | Hin]; cbn; [| now apply IH].
  apply scan_decreases.
  destruct (scanStep_cases best ri) as [[-> _] | [-> H]]; [cbn; lra | exact H].
Qed.

Lemma scan_origin (l : list (nat * nat)) (best : Best) :
  fold_left (scanStep p geom) l best = best
  \/ exists ri, In ri l /\ fold_left (scanStep p geom) l best = bestOf p geom ri.
Proof.
  revert best. induction l as [| ri l IH]; intros best; cbn; [now left |].
  destruct (IH (scanStep p geom best ri)) as [-> | (ri' & Hin & ->)].
  - destruct (scanStep_cases best ri) as [[-> _] | [-> _]]; [| now left].
    right. exists ri. auto.
  - right. exists ri'. auto.
Qed.

Lemma scan_nonempty_finds (l : list (nat * nat)) (best : Best) :
  l <> [] -> best_dist best = PosInf ->
  exists ri, In ri l /\ fold_left (scanStep p geom) l best = bestOf p geom ri.
Proof.
  intros Hne Hinf.
  destruct l as [| ri l]; [contradiction |].
  destruct (scan_origin (ri :: l) best) as [E | H]; [| exact H].
  pose proof (scan_minimum (ri :: l) best ri (or_introl eq_refl)) as Hm.
  rewrite E, Hinf in Hm. destruct Hm.
Qed.

Lemma in_segmentsOfRing (r r' i : nat) (ring : list WorldPoint) (closed : bool) :
  In (r', i) (segmentsOfRing r ring closed) ->
  r' = r /\ (2 <= length ring)%nat /\ (i < lastSeg closed (length ring))%nat.
Proof.
  unfold segmentsOfRing.
  destruct (length ring <? 2)%nat eqn:E; [intros [] |].
  apply Nat.ltb_ge in E.
  rewrite in_map_iff. intros (j & [= <- <-] & Hj).
  apply in_seq in Hj. repeat split; [assumption | lia].
Qed.

Lemma in_scannedSegments (r i : nat) :
  In (r, i) (scannedSegments geom) ->
  (r < length (rings geom))%nat
  /\ (2 <= length (nth r (rings geom) []))%nat
  /\ (i < lastSeg (nth r (closed geom) false)
             (length (nth r (rings geom) [])))%nat.
Proof.
  unfold scannedSegments. rewrite in_flat_map.
  intros (r' & Hr' & Hin).
  apply in_segmentsOfRing in Hin. destruct Hin as (-> & H2 & Hi).
  apply in_seq in Hr'. repeat split; [lia | assumption | assumption].
Qed.

(** A scan that returns a point returns the projection on one of the
    scanned segments, with that segment's indices. *)
Lemma closestPointOnRings_found (q : WorldPoint) :
  best_point (closestPointOnRings p geom) = Some q ->
  exists ri, In ri (scannedSegments geom)
             /\ closestPointOnRings p geom = bestOf p geom ri.
Proof.
  rewrite closestPointOnRings_scan. intros H.
  destruct (scan_origin (scannedSegments geom) initialBest) as [E | Hex];
    [| exact Hex].
  rewrite E in H. discriminate.
Qed.

Lemma closestPointOnRings_point_iff_finite :
  (exists q, best_point (closestPointOnRings p geom) = Some q)
  <-> (exists d, best_dist (closestPointOnRings p geom) = Fin d).
Proof.
  rewrite closestPointOnRings_scan.
  destruct (scan_origin (scannedSegments geom) initialBest)
    as [-> | (ri & _ & ->)]; cbn.
  - split; intros [? H]; discriminate.
  - split; intros _; eexists; reflexivity.
Qed.

End RingScan.

(** *** The scenario ring [[(0,0), (10,0)]] *)

Lemma scenario_segment (h : R) :
  0 <= h ->
  closestPointOnSegment {| x := 5; z := h |}
    {| x := 0; z := 0 |} {| x := 10; z := 0 |}
  = {| hit_point := {| x := 5; z := 0 |};
       hit_t := 1 / 2; hit_dist := h |}.
Proof.
  intros Hh.
  rewrite closestPointOnSegment_proper by (unfold squaredLength; cbn; lra).
  assert (Hu : footParameter {| x := 5; z := h |}
                 {| x := 0; z := 0 |} {| x := 10; z := 0 |} = 1 / 2).
  { unfold footParameter, squaredLength; cbn. field. }
  rewrite Hu.
  assert (Hc : clamp01 (1 / 2) = 1 / 2).
  { destruct (clamp01_cases (1 / 2)) as [[? ?] | [[? ?] | [_ ?]]]; [lra | lra | assumption]. }
  rewrite Hc. unfold pointAt, euclid; cbn.
  f_equal.
  - f_equal; lra.
  - replace ((5 - (0 + (10 - 0) * (1 / 2))) * (5 - (0 + (10 - 0) * (1 / 2)))
             + (h - (0 + (0 - 0) * (1 / 2))) * (h - (0 + (0 - 0) * (1 / 2))))
      with (h * h) by lra.
    now apply sqrt_square.
Qed.

Lemma scenario_rings (h : R) :
  0 <= h ->
  closestPointOnRings {| x := 5; z := h |} scenarioGeom
  = {| best_point := Some {| x := 5; z := 0 |};
       best_dist := Fin h;
       ringIndex := 0; segIndex := 0; best_t := 1 / 2 |}.
Proof.
  intros Hh.
  unfold closestPointOnRings, scenarioGeom, scenarioRing; cbn.
  unfold scanRing; cbn. unfold scanSegment, ringPoint; cbn.
  rewrite (scenario_segment h Hh). reflexivity.
Qed.

(** C6, as amended.  [closestPointOnRings] visits the segments
    [scannedSegments]: a ring with fewer than two points contributes none,
    an open ring of [n >= 2] points contributes [n - 1] segments and a closed
    one [n], the last of which joins the last point to the first.  The
    result is never farther than the projection on any visited segment,
    it is the projection on one of them (with its ring and segment index)
    when at least one is visited, and the initial record otherwise.  On the
    open ring [[(0,0), (10,0)]] the point [(5,5)] yields [(5,0)] at
    distance [5]. *)
Theorem closestPointOnRings_global_minimum (p : WorldPoint) (geom : GeometryRings) :
  let best := closestPointOnRings p geom in
  best = fold_left (scanStep p geom) (scannedSegments geom) initialBest
  /\ (forall r ring closed,
        length (segmentsOfRing r ring closed)
        = if (length ring <? 2)%nat then 0%nat
          else claimedSegmentCount closed (length ring))
  /\ (forall r ring,
        (2 <= length ring)%nat ->
        In (r, (length ring - 1)%nat) (segmentsOfRing r ring true)
        /\ ((length ring - 1 + 1) mod length ring = 0)%nat)
  /\ (forall ri, In ri (scannedSegments geom) ->
        xle (best_dist best) (hit_dist (candidate p geom ri)))
  /\ (scannedSegments geom <> [] ->
        exists ri, In ri (scannedSegments geom) /\ best = bestOf p geom ri)
  /\ (scannedSegments geom = [] -> best = initialBest)
  /\ (let hit := closestPointOnRings {| x := 5; z := 5 |} scenarioGeom in
      best_point hit = Some {| x := 5; z := 0 |}
      /\ best_dist hit = Fin 5).
Proof.
  cbv zeta. split; [apply closestPointOnRings_scan |].
  split.
  { intros r ring closed. unfold segmentsOfRing, claimedSegmentCount, lastSeg.
    destruct (length ring <? 2)%nat; [reflexivity |].
    now rewrite length_map, length_seq. }
  split.
  { intros r ring Hn. split.
    - unfold segmentsOfRing.
      destruct (length ring <? 2)%nat eqn:E; [apply Nat.ltb_lt in E; lia |].
      apply in_map, in_seq. unfold lastSeg. lia.
    - replace (length ring - 1 + 1)%nat with (length ring) by lia.
      apply Nat.Div0.mod_same. }
  split.
  { intros ri Hin. rewrite closestPointOnRings_scan. now apply scan_minimum. }
  split.
  { intros Hne. rewrite closestPointOnRings_scan.
    now apply scan_nonempty_finds. }
  split.
  { intros E. rewrite closestPointOnRings_scan, E. reflexivity. }
  rewrite (scenario_rings 5) by lra. split; reflexivity.
Qed.

Lemma closestPointOnRings_global_minimum_witness :
  xle (best_dist (closestPointOnRings {| x := 5; z := 5 |} scenarioGeom))
      (hit_dist (candidate {| x := 5; z := 5 |} scenarioGeom (0%nat, 0%nat))).
Proof.
  apply (closestPointOnRings_global_minimum {| x := 5; z := 5 |} scenarioGeom).
  cbn. left. reflexivity.
Defined.

(** The claim of C6 as stated fails on a closed ring of one point: the
    claimed count is one segment (the wrap-around from the point to itself),
    but the ring is skipped, and the scan returns no point. *)
Lemma closed_single_point_ring_not_scanned :
  let ring := [ {| x := 1; z := 0 |} ] in
  let geom := {| rings := [ring]; closed := [true] |} in
  length (scannedSegments geom) <> claimedSegmentCount true (length ring)
  /\ best_point (closestPointOnRings {| x := 0; z := 0 |} geom) = None.
Proof. cbn. split; [discriminate | reflexivity]. Qed.

(** *** Snapping *)

(** [applySnap], given the nearest point [q] and its distance [d]. *)
Lemma applySnap_given_best (target : SnapTarget) (p q : WorldPoint) (d : R) :
  best_point (closestPointOnRings p (geom target)) = Some q ->
  best_dist (closestPointOnRings p (geom target)) = Fin d ->
  (SNAP_MAX_DIST < d -> applySnap true (Some target) p = blockedResult)
  /\ (d <= SNAP_MAX_DIST -> applySnap true (Some target) p = snappedResult q).
Proof.
  intros Hq Hd. unfold applySnap; cbn. rewrite Hq, Hd.
  split; intros H; destruct (Rgt_dec d SNAP_MAX_DIST); try reflexivity;
    unfold SNAP_MAX_DIST in *; lra.
Qed.

(** C7.  With ring snapping enabled and a target chosen that has at least
    one segment, [closestPointOnRings] finds the projection [q] of the world
    point on a nearest segment and its distance [d], the least over all
    segments of the target.  If [d] exceeds the threshold
    [SNAP_MAX_DIST = 20] the result is blocked and carries no point;
    otherwise it is [q], not blocked. *)
Theorem applySnap_threshold (target : SnapTarget) (p : WorldPoint) :
  scannedSegments (geom target) <> [] ->
  exists (q : WorldPoint) (d : R),
    best_point (closestPointOnRings p (geom target)) = Some q
    /\ best_dist (closestPointOnRings p (geom target)) = Fin d
    /\ (exists ri, In ri (scannedSegments (geom target))
                   /\ q = hit_point (candidate p (geom target) ri)
                   /\ d = hit_dist (candidate p (geom target) ri))
    /\ (forall ri, In ri (scannedSegments (geom target)) ->
          d <= hit_dist (candidate p (geom target) ri))
    /\ SNAP_MAX_DIST = 20
    /\ (SNAP_MAX_DIST < d -> applySnap true (Some target) p = blockedResult)
    /\ (d <= SNAP_MAX_DIST -> applySnap true (Some target) p = snappedResult q).
Proof.
  intros Hne.
  destruct (scan_nonempty_finds p (geom target) _ initialBest Hne eq_refl)
    as (ri & Hin & Hbest).
  rewrite <- closestPointOnRings_scan in Hbest.
  exists (hit_point (candidate p (geom target) ri)),
         (hit_dist (candidate p (geom target) ri)).
  assert (Hq := f_equal best_point Hbest).
  assert (Hd := f_equal best_dist Hbest).
  cbn [best_point best_dist bestOf] in Hq, Hd.
  split; [exact Hq |]. split; [exact Hd |].
  split; [exists ri; auto |].
  split.
  { intros ri' Hin'.
    pose proof (scan_minimum p (geom target) _ initialBest ri' Hin') as H.
    rewrite <- closestPointOnRings_scan, Hd in H. exact H. }
  split; [reflexivity |].
  now apply applySnap_given_best.
Qed.

(** A point at distance [20 + 1/2] from the target is rejected, and one at
    distance [20 - 1/2] is snapped to its projection. *)
Lemma applySnap_threshold_witness :
  applySnap true (Some scenarioTarget) {| x := 5; z := 20.5 |} = blockedResult
  /\ applySnap true (Some scenarioTarget) {| x := 5; z := 19.5 |}
     = snappedResult {| x := 5; z := 0 |}.
Proof.
  assert (Hne : scannedSegments (geom scenarioTarget) <> []) by (cbn; discriminate).
  split.
  - destruct (applySnap_threshold scenarioTarget {| x := 5; z := 20.5 |} Hne)
      as (q & d & Hq & Hd & _ & _ & _ & Hfar & _).
    cbn [geom scenarioTarget] in Hq, Hd.
    rewrite scenario_rings in Hd by lra. cbn in Hd. injection Hd as <-.
    apply Hfar. unfold SNAP_MAX_DIST. lra.
  - destruct (applySnap_threshold scenarioTarget {| x := 5; z := 19.5 |} Hne)
      as (q & d & Hq & Hd & _ & _ & _ & _ & Hnear).
    cbn [geom scenarioTarget] in Hq, Hd.
    rewrite scenario_rings in Hq, Hd by lra. cbn in Hq, Hd.
    injection Hq as <-. injection Hd as <-.
    apply Hnear. unfold SNAP_MAX_DIST. lra.
Defined.

(** *** Control-point insertion *)

Lemma insertIndex_in_range (m : LayerMode) (i n : nat) :
  m <> point_mode ->
  (i < lastSeg (isPolygonMode m) n)%nat ->
  insertIndex m (Z.of_nat i) n = S i.
Proof.
  intros Hm Hi. unfold insertIndex.
  destruct m; [contradiction | |]; cbn in Hi.
  - destruct (Z.of_nat i <? 0)%Z eqn:E; [apply Z.ltb_lt in E; lia |].
    rewrite Z.min_l by lia. lia.
  - destruct (Z.of_nat n - 1 <=? Z.of_nat i)%Z eqn:E.
    + apply Z.leb_le in E. lia.
    + lia.
Qed.

Lemma normalized_geom_shape (coords : list WorldPoint) (isPolygon : bool) :
  exists ring,
    normalizeRingsForPolygonLike coords isPolygon
    = {| rings := [ring]; closed := [isPolygon] |}.
Proof. unfold normalizeRingsForPolygonLike. eexists. reflexivity. Qed.

Lemma onMapClick_add_on_target
    (layers : list MeasuringLayerLite) (edits : PendingEdits)
    (targetId : Z) (layer : MeasuringLayerLite) (w : WorldPoint) :
  find (fun l => (id l =? targetId)%Z) layers = Some layer ->
  mode layer <> point_mode ->
  onMapClick_add true (Some targetId) layers edits (Some w)
  = let geom := normalizeRingsForPolygonLike (getEffectiveCoords edits layer)
                  (isPolygonMode (mode layer)) in
    let best := closestPointOnRings w geom in
    match best_point best, best_dist best with
    | Some q, Fin d =>
        if Rgt_dec d SNAP_MAX_DIST then edits
        else
          let coords := nth 0 (rings geom) [] in
          if (length coords <? 2)%nat then edits
          else (id layer,
                splice_insert (insertIndex (mode layer) (segIndex best)
                                 (length coords)) q coords) :: edits
    | _, _ => edits
    end.
Proof.
  intros Hfind Hmode. unfold onMapClick_add. cbn [negb]. rewrite Hfind.
  destruct (mode layer); [contradiction | reflexivity | reflexivity].
Qed.

(** The add-mode handler, given the nearest point [q] and its distance [d]. *)
Lemma add_mode_given_best
    (layers : list MeasuringLayerLite) (edits : PendingEdits)
    (targetId : Z) (layer : MeasuringLayerLite) (w q : WorldPoint) (d : R) :
  find (fun l => (id l =? targetId)%Z) layers = Some layer ->
  mode layer <> point_mode ->
  let geom := normalizeRingsForPolygonLike (getEffectiveCoords edits layer)
                (isPolygonMode (mode layer)) in
  let ring := targetRing edits layer in
  let best := closestPointOnRings w geom in
  let edits' := onMapClick_add true (Some targetId) layers edits (Some w) in
  best_point best = Some q ->
  best_dist best = Fin d ->
  (d <= SNAP_MAX_DIST ->
     exists i : nat,
       segIndex best = Z.of_nat i
       /\ (i < lastSeg (isPolygonMode (mode layer)) (length ring))%nat
       /\ q = hit_point (closestPointOnSegment w (ringPoint ring i)
                              (ringPoint ring ((i + 1) mod length ring)))
       /\ edits' = (id layer, firstn (i + 1) ring ++ q :: skipn (i + 1) ring) :: edits
       /\ getEffectiveCoords edits' layer
          = firstn (i + 1) ring ++ q :: skipn (i + 1) ring
       /\ (mode layer = polygon -> i = (length ring - 1)%nat ->
           getEffectiveCoords edits' layer = ring ++ [q]))
  /\ (SNAP_MAX_DIST < d ->
        edits' = edits
        /\ getEffectiveCoords edits' layer = getEffectiveCoords edits layer).
Proof.
  intros Hfind Hmode geom ring best edits' Hq Hd.
  assert (Hstep : edits' =
            if Rgt_dec d SNAP_MAX_DIST then edits
            else if (length ring <? 2)%nat then edits
            else (id layer,
                  splice_insert (insertIndex (mode layer) (segIndex best)
                                   (length ring)) q ring) :: edits).
  { unfold edits'. rewrite (onMapClick_add_on_target _ _ _ _ _ Hfind Hmode).
    cbv zeta. fold geom. fold best. rewrite Hq, Hd. reflexivity. }
  split.
  - intros Hle.
    destruct (closestPointOnRings_found w geom q Hq) as ([r i] & Hin & Hbest).
    destruct (normalized_geom_shape (getEffectiveCoords edits layer)
                (isPolygonMode (mode layer))) as [ring0 Hshape].
    assert (Hring : ring = ring0) by (unfold ring, targetRing; now rewrite Hshape).
    apply in_scannedSegments in Hin.
    change (normalizeRingsForPolygonLike (getEffectiveCoords edits layer)
              (isPolygonMode (mode layer))) with geom in Hshape.
    rewrite Hshape in Hin; cbn in Hin. destruct Hin as (Hr & Hn & Hi).
    assert (r = 0)%nat by lia. subst r. cbn in Hn, Hi. rewrite <- Hring in Hn, Hi.
    exists i.
    assert (Hseg : segIndex best = Z.of_nat i) by (unfold best; now rewrite Hbest).
    assert (Hnew : edits' = (id layer, firstn (i + 1) ring ++ q :: skipn (i + 1) ring)
                            :: edits).
    { rewrite Hstep.
      destruct (Rgt_dec d SNAP_MAX_DIST); [lra |].
      destruct (length ring <? 2)%nat eqn:E; [apply Nat.ltb_lt in E; lia |].
      rewrite Hseg, insertIndex_in_range by assumption.
      unfold splice_insert. now rewrite Nat.add_1_r. }
    assert (Heff : getEffectiveCoords edits' layer
                   = firstn (i + 1) ring ++ q :: skipn (i + 1) ring).
    { rewrite Hnew. unfold getEffectiveCoords; cbn. now rewrite Z.eqb_refl. }
    repeat split; try assumption.
    + unfold best in Hq. rewrite Hbest in Hq. cbn in Hq. injection Hq as <-.
      reflexivity.
    + intros _ Hlast. rewrite Heff.
      replace (i + 1)%nat with (length ring) by lia.
      now rewrite firstn_all, skipn_all.
  - intros Hgt. rewrite Hstep.
    destruct (Rgt_dec d SNAP_MAX_DIST); [split; reflexivity | lra].
Qed.

Lemma normalized_segments (coords : list WorldPoint) (isPolygon : bool) :
  let geom := normalizeRingsForPolygonLike coords isPolygon in
  scannedSegments geom = segmentsOfRing 0 (nth 0 (rings geom) []) isPolygon.
Proof.
  cbv zeta. destruct (normalized_geom_shape coords isPolygon) as [ring ->].
  unfold scannedSegments; cbn. apply app_nil_r.
Qed.

(** C9.  Add mode, with a polyline or polygon layer chosen as target and a
    click at world point [w].  When the target ring has at least two points,
    [closestPointOnRings] finds the projection [q] of [w] on a nearest
    segment [i], at distance [d].  Within the threshold the handler stores
    for the layer the ring with [q] inserted at index [segIndex + 1], just
    after the start of that segment; when it is the wrap-around segment of a
    polygon, [q] comes last.  Beyond the threshold, and for a ring of fewer
    than two points, the pending edits, hence the layer's coordinates, are
    unchanged. *)
Theorem add_mode_inserts_after_segment_start
    (layers : list MeasuringLayerLite) (edits : PendingEdits)
    (targetId : Z) (layer : MeasuringLayerLite) (w : WorldPoint) :
  find (fun l => (id l =? targetId)%Z) layers = Some layer ->
  mode layer <> point_mode ->
  let geom := normalizeRingsForPolygonLike (getEffectiveCoords edits layer)
                (isPolygonMode (mode layer)) in
  let ring := targetRing edits layer in
  let best := closestPointOnRings w geom in
  let edits' := onMapClick_add true (Some targetId) layers edits (Some w) in
  let hit (j : nat) :=
    closestPointOnSegment w (ringPoint ring j)
      (ringPoint ring ((j + 1) mod length ring)) in
  ((length ring < 2)%nat -> edits' = edits)
  /\ ((2 <= length ring)%nat ->
      exists (q : WorldPoint) (d : R) (i : nat),
        best_point best = Some q
        /\ best_dist best = Fin d
        /\ segIndex best = Z.of_nat i
        /\ (i < lastSeg (isPolygonMode (mode layer)) (length ring))%nat
        /\ q = hit_point (hit i)
        /\ d = hit_dist (hit i)
        /\ (forall j, (j < lastSeg (isPolygonMode (mode layer)) (length ring))%nat ->
                      d <= hit_dist (hit j))
        /\ (d <= SNAP_MAX_DIST ->
              edits' = (id layer, firstn (i + 1) ring ++ q :: skipn (i + 1) ring)
                       :: edits
              /\ getEffectiveCoords edits' layer
                 = firstn (i + 1) ring ++ q :: skipn (i + 1) ring
              /\ (mode layer = polygon -> i = (length ring - 1)%nat ->
                  getEffectiveCoords edits' layer = ring ++ [q]))
        /\ (SNAP_MAX_DIST < d ->
              edits' = edits
              /\ getEffectiveCoords edits' layer = getEffectiveCoords edits layer)).
Proof.
  intros Hfind Hmode geom ring best edits' hit.
  pose proof (normalized_segments (getEffectiveCoords edits layer)
                (isPolygonMode (mode layer))) as Hsegs.
  cbv zeta in Hsegs. fold geom in Hsegs.
  change (nth 0 (rings geom) []) with ring in Hsegs.
  split.
  - intros Hshort. unfold edits'.
    rewrite (onMapClick_add_on_target _ _ _ _ _ Hfind Hmode). cbv zeta.
    fold geom. fold best.
    assert (Hnone : best = initialBest).
    { unfold best. rewrite closestPointOnRings_scan, Hsegs.
      unfold segmentsOfRing. apply Nat.ltb_lt in Hshort. now rewrite Hshort. }
    rewrite Hnone. reflexivity.
  - intros Hlong.
    assert (Hne : scannedSegments geom <> []).
    { rewrite Hsegs. unfold segmentsOfRing.
      destruct (length ring <? 2)%nat eqn:E; [apply Nat.ltb_lt in E; lia |].
      assert (0 < lastSeg (isPolygonMode (mode layer)) (length ring))%nat
        by (unfold lastSeg; destruct (isPolygonMode _); lia).
      destruct (lastSeg _ _); [lia | discriminate]. }
    destruct (scan_nonempty_finds w geom _ initialBest Hne eq_refl)
      as ([r i] & Hin & Hbest).
    rewrite <- closestPointOnRings_scan in Hbest. fold best in Hbest.
    assert (Hq := f_equal best_point Hbest).
    assert (Hd := f_equal best_dist Hbest).
    cbn [best_point best_dist bestOf] in Hq, Hd.
    rewrite Hsegs in Hin. apply in_segmentsOfRing in Hin.
    destruct Hin as (-> & _ & Hi).
    exists (hit_point (hit i)), (hit_dist (hit i)), i.
    split; [exact Hq |]. split; [exact Hd |].
    split; [now rewrite Hbest |]. split; [exact Hi |].
    split; [reflexivity |]. split; [reflexivity |].
    split.
    { intros j Hj.
      assert (Hinj : In (0%nat, j) (scannedSegments geom)).
      { rewrite Hsegs. unfold segmentsOfRing.
        destruct (length ring <? 2)%nat eqn:E; [apply Nat.ltb_lt in E; lia |].
        apply in_map, in_seq. lia. }
      pose proof (scan_minimum w geom _ initialBest _ Hinj) as H.
      rewrite <- closestPointOnRings_scan in H. fold best in H.
      rewrite Hd in H. exact H. }
    destruct (add_mode_given_best layers edits targetId layer w _ _ Hfind Hmode Hq Hd)
      as [Hnear Hfar].
    split; [| exact Hfar].
    intros Hle. destruct (Hnear Hle) as (i' & Hi' & _ & _ & Hedits & Heff & Hlast).
    assert (Hii : Z.of_nat i' = Z.of_nat i)
      by (rewrite <- Hi'; exact (f_equal segIndex Hbest)).
    apply Nat2Z.inj in Hii. subst i'.
    repeat split; assumption.
Qed.

Lemma scenario_normalized :
  normalizeRingsForPolygonLike (getEffectiveCoords [] scenarioLayer) false
  = scenarioGeom.
Proof.
  unfold normalizeRingsForPolygonLike, samePoint; cbn.
  destruct (Rle_dec (Rabs (0 - 10)) _) as [H | _]; [| reflexivity].
  exfalso. replace (0 - 10) with (- (10)) in H by lra.
  rewrite Rabs_Ropp, Rabs_pos_eq in H; lra.
Qed.

Lemma add_mode_inserts_after_segment_start_witness :
  getEffectiveCoords
    (onMapClick_add true (Some 1%Z) [scenarioLayer] []
       (Some {| x := 5; z := 5 |}))
    scenarioLayer
  = [ {| x := 0; z := 0 |}; {| x := 5; z := 0 |};
      {| x := 10; z := 0 |} ].
Proof.
  assert (Hfind : find (fun l => (id l =? 1)%Z) [scenarioLayer] = Some scenarioLayer)
    by reflexivity.
  assert (Hmode : mode scenarioLayer <> point_mode) by discriminate.
  assert (Hring : targetRing [] scenarioLayer = scenarioRing).
  { unfold targetRing. cbn [isPolygonMode mode scenarioLayer].
    now rewrite scenario_normalized. }
  assert (Hlong : (2 <= length (targetRing [] scenarioLayer))%nat)
    by (rewrite Hring; cbn; lia).
  destruct (proj2 (add_mode_inserts_after_segment_start [scenarioLayer] [] 1
                     scenarioLayer {| x := 5; z := 5 |} Hfind Hmode) Hlong)
    as (q & d & i & Hq & Hd & Hi & _ & _ & _ & _ & Hnear & _).
  cbn [isPolygonMode mode scenarioLayer] in Hq, Hd, Hi.
  rewrite scenario_normalized, scenario_rings in Hq, Hd, Hi by lra.
  cbn in Hq, Hd, Hi. injection Hq as <-. injection Hd as <-.
  assert (i = 0)%nat by lia. subst i.
  assert (Hle : 5 <= SNAP_MAX_DIST) by (unfold SNAP_MAX_DIST; lra).
  destruct (Hnear Hle) as (_ & Heff & _).
  rewrite Heff, Hring. reflexivity.
Defined.

Lemma closestPointOnSegment_projection_witness :
  let p := {| x := 5; z := 5 |} in
  let a := {| x := 0; z := 0 |} in
  let b := {| x := 10; z := 0 |} in
  (1e-12 < squaredLength a b
   /\ hit_dist (closestPointOnSegment p a b)
      <= euclid p (pointAt a b (1 / 4)))
  /\ (squaredLength a a <= 1e-12
      /\ hit_point (closestPointOnSegment p a a) = a).
Proof.
  cbv zeta. split.
  - assert (H : 1e-12 < squaredLength {| x := 0; z := 0 |}
                                      {| x := 10; z := 0 |})
      by (unfold squaredLength; cbn; lra).
    split; [exact H |].
    apply (closestPointOnSegment_projection {| x := 5; z := 5 |}
             {| x := 0; z := 0 |} {| x := 10; z := 0 |});
      [exact H | lra].
  - assert (H : squaredLength {| x := 0; z := 0 |} {| x := 0; z := 0 |}
                <= 1e-12)
      by (unfold squaredLength; cbn; lra).
    split; [exact H |].
    apply (closestPointOnSegment_projection {| x := 5; z := 5 |}
             {| x := 0; z := 0 |} {| x := 0; z := 0 |}).
    exact H.
Defined.


End GeometryProperties.

(** ** Axis-line snapping *)

Section AxisSnapProperties.

Import AssistLineTools.

Lemma Rabs_110_100 : Rabs (110 - 100) = 10.
Proof. replace (110 - 100) with 10 by lra. apply Rabs_pos_eq. lra. Qed.

(** C8.  Axis-line snapping: the distance is [|p[axis] - value|]; within the
    threshold the result is [p] with only the fixed-axis coordinate replaced
    by [value], marked snapped; beyond it the result is [p] itself, not
    snapped.  With axis [x], value [100] and threshold [20], the point
    [(110, 50)] gives [(100, 50)], snapped, distance [10]. *)
Theorem transformWorldPoint_fixedLine (axis : FixedAxis) (value threshold : R)
    (label : string) (p : WorldPoint) :
  let d := Rabs (axisCoordinate axis p - value) in
  let r := transformWorldPoint true (Some (fixedLine axis value label)) threshold p in
  dist r = Some d
  /\ targetLabel r = Some label
  /\ (d <= threshold ->
        point r = withAxisCoordinate axis value p /\ snapped r = true
        /\ axisCoordinate axis (point r) = value
        /\ (forall other, other <> axis ->
              axisCoordinate other (point r) = axisCoordinate other p))
  /\ (threshold < d -> point r = p /\ snapped r = false)
  /\ transformWorldPoint true (Some (fixedLine axis_x 100 label)) 20
       {| x := 110; z := 50 |}
     = {| point := {| x := 100; z := 50 |}; snapped := true;
          dist := Some 10; targetLabel := Some label |}.
Proof.
  cbv zeta. unfold transformWorldPoint; cbn.
  split; [destruct axis; cbn; destruct (Rle_dec _ _); reflexivity |].
  split; [destruct axis; cbn; destruct (Rle_dec _ _); reflexivity |].
  split; [| split].
  - intros H. destruct axis; cbn in *;
      (destruct (Rle_dec _ _); [| contradiction]); cbn;
      (repeat split; try reflexivity);
      intros [] Ho; (reflexivity || contradiction).
  - intros H. destruct axis; cbn in *;
      (destruct (Rle_dec _ _); [lra |]); cbn; split; reflexivity.
  - rewrite Rabs_110_100. destruct (Rle_dec 10 20); [reflexivity | lra].
Qed.

Lemma transformWorldPoint_fixedLine_witness :
  Rabs (110 - 100) <= 20
  /\ point (transformWorldPoint true
                 (Some (fixedLine axis_x 100 "x = 100"%string)) 20
                 {| x := 110; z := 50 |})
     = {| x := 100; z := 50 |}.
Proof.
  assert (H : Rabs (110 - 100) <= 20) by (rewrite Rabs_110_100; lra).
  split; [exact H |].
  exact (proj1 (proj1 (proj2 (proj2
           (transformWorldPoint_fixedLine axis_x 100 20 "x = 100"%string
              {| x := 110; z := 50 |}))) H)).
Defined.

End AxisSnapProperties.

(** ** Path builders *)

Section PathsProperties.

Import RmpPathCalculator.

(** *** Measuring a path in world space *)

Section WorldLength.

Variable cc : CoordTransformConfig.

Let k : R := scale cc * multiplier cc.

Lemma sqrt_scaled (c u v : R) :
  sqrt ((c * u) * (c * u) + (c * v) * (c * v)) = Rabs c * sqrt (u * u + v * v).
Proof.
  replace ((c * u) * (c * u) + (c * v) * (c * v))
    with (Rsqr c * (u * u + v * v)) by (unfold Rsqr; ring).
  rewrite sqrt_mult by (try apply Rle_0_sqr; nra).
  now rewrite sqrt_Rsqr_abs.
Qed.

Lemma distance_nonneg (a b : Point2D) : 0 <= distance a b.
Proof. apply sqrt_pos. Qed.

Lemma distance_toGameCoord (a b : Point2D) :
  distance (worldPlanePoint (toGameCoord a cc))
              (worldPlanePoint (toGameCoord b cc))
  = Rabs k * distance a b.
Proof.
  unfold distance, worldPlanePoint, toGameCoord; cbn.
  rewrite <- sqrt_scaled. f_equal. unfold k. ring.
Qed.

Lemma bezierAt_toGameCoord (a c b : Point2D) (t : R) :
  bezierAt (worldPlanePoint (toGameCoord a cc))
              (worldPlanePoint (toGameCoord c cc))
              (worldPlanePoint (toGameCoord b cc)) t
  = worldPlanePoint (toGameCoord (bezierAt a c b t) cc).
Proof.
  unfold bezierAt, worldPlanePoint, toGameCoord; cbn. f_equal; ring.
Qed.

(** The chord sum over any list of sample indices scales with the
    transform. *)
Lemma chords_toGameCoord (a c b : Point2D) (n : nat) (l : list nat)
    (len : R) (prev : Point2D) :
  let step (p0 p1 p2 : Point2D) :=
    fun (st : number * Point2D) (i : nat) =>
      let t := INR i / INR n in
      let curr := bezierAt p0 p1 p2 t in
      (fst st + distance (snd st) curr, curr) in
  fst (fold_left (step (worldPlanePoint (toGameCoord a cc))
                       (worldPlanePoint (toGameCoord c cc))
                       (worldPlanePoint (toGameCoord b cc)))
         l (Rabs k * len, worldPlanePoint (toGameCoord prev cc)))
  = Rabs k * fst (fold_left (step a c b) l (len, prev)).
Proof.
  cbv zeta. revert len prev.
  induction l as [| i l IH]; intros len prev; cbn [fold_left fst snd]; [reflexivity |].
  rewrite bezierAt_toGameCoord, distance_toGameCoord.
  rewrite <- Rmult_plus_distr_l. apply IH.
Qed.

Lemma quadraticBezierLength_toGameCoord (a c b : Point2D) :
  quadraticBezierLength (worldPlanePoint (toGameCoord a cc))
                           (worldPlanePoint (toGameCoord c cc))
                           (worldPlanePoint (toGameCoord b cc))
  = Rabs k * quadraticBezierLength a c b.
Proof.
  unfold quadraticBezierLength.
  pose proof (chords_toGameCoord a c b 10 (seq 1 10) 0 a) as H.
  cbv zeta in H. rewrite Rmult_0_r in H. exact H.
Qed.

Lemma measure_lineSegment (a b : Point2D) :
  measureSegment (lineSegment a b cc) = Rabs k * distance a b.
Proof. apply distance_toGameCoord. Qed.

Lemma measure_quadraticSegment (a c b : Point2D) :
  measureSegment (quadraticSegment a c b cc)
  = Rabs k * quadraticBezierLength a c b.
Proof. apply quadraticBezierLength_toGameCoord. Qed.

Lemma measure_app (l1 l2 : list Types.PathSegment) :
  fold_right (fun seg total => measureSegment seg + total) 0 (l1 ++ l2)
  = fold_right (fun seg total => measureSegment seg + total) 0 l1
    + fold_right (fun seg total => measureSegment seg + total) 0 l2.
Proof. induction l1 as [| s l1 IH]; cbn; [lra | rewrite IH; lra]. Qed.

Lemma accumulates_nil : exists D, accumulates cc ([], 0) D.
Proof. exists 0. unfold accumulates; cbn. repeat split; lra. Qed.

Lemma accumulates_push (acc : PathAcc) (len : R) (seg : Types.PathSegment) :
  measureSegment seg = Rabs k * len ->
  (exists D, accumulates cc acc D) ->
  exists D', accumulates cc (pushIfLong acc len seg cc) D'.
Proof.
  intros Hseg (D & HD & Hlen & Hm). unfold pushIfLong.
  destruct (Rgt_dec len 0.001) as [Hgt | _].
  - exists (D + len). unfold accumulates; cbn [fst snd].
    split; [lra |]. split; [rewrite Hlen; ring |].
    rewrite measure_app, Hm; cbn. rewrite Hseg. fold k. ring.
  - exists D. repeat split; assumption.
Qed.

Lemma accumulates_push_line (acc : PathAcc) (a b : Point2D) :
  (exists D, accumulates cc acc D) ->
  exists D', accumulates cc
               (pushIfLong acc (distance a b) (lineSegment a b cc) cc) D'.
Proof. apply accumulates_push, measure_lineSegment. Qed.

Lemma accumulates_push_quadratic (acc : PathAcc) (a c b : Point2D) :
  (exists D, accumulates cc acc D) ->
  exists D', accumulates cc
               (pushIfLong acc (quadraticBezierLength a c b)
                  (quadraticSegment a c b cc) cc) D'.
Proof. apply accumulates_push, measure_quadraticSegment. Qed.

Lemma accumulates_measure (acc : PathAcc) :
  (exists D, accumulates cc acc D) ->
  measurePath (toEdgePath acc)
  = Rabs (scale cc) * Rabs (Types.length (toEdgePath acc)).
Proof.
  intros (D & HD & Hlen & Hm). unfold measurePath, toEdgePath; cbn.
  rewrite Hm, Hlen, !Rabs_mult, (Rabs_pos_eq D HD). ring.
Qed.

Lemma accumulates_length_nonneg (acc : PathAcc) :
  0 <= multiplier cc ->
  (exists D, accumulates cc acc D) ->
  0 <= Types.length (toEdgePath acc).
Proof.
  intros Hm (D & HD & Hlen & _). cbn. rewrite Hlen. now apply Rmult_le_pos.
Qed.

Lemma single_line_measure (a b : Point2D) :
  let path := {| Types.segments := [lineSegment a b cc];
                 Types.length := distance a b * multiplier cc |} in
  measurePath path = Rabs (scale cc) * Rabs (Types.length path).
Proof.
  cbv zeta. unfold measurePath; cbn [Types.segments Types.length fold_right].
  rewrite measure_lineSegment, !Rabs_mult.
  rewrite (Rabs_pos_eq _ (distance_nonneg a b)). unfold k. rewrite Rabs_mult. ring.
Qed.

(** Every builder returns a path whose world-space measure is
    [|scale| * |length|]. *)
Lemma build_measure (b : Builder) (from to : Point2D) :
  measurePath (build b from to cc)
  = Rabs (scale cc) * Rabs (Types.length (build b from to cc)).
Proof.
  destruct b as [config | config | config |]; cbn [build].
  - unfold calculatePerpendicularPath. cbv zeta.
    apply accumulates_measure.
    repeat (apply accumulates_push_line || apply accumulates_push_quadratic).
    apply accumulates_nil.
  - unfold calculateDiagonalPath. cbv zeta.
    apply accumulates_measure.
    repeat (apply accumulates_push_line || apply accumulates_push_quadratic).
    apply accumulates_nil.
  - apply single_line_measure.
  - apply single_line_measure.
Qed.

End WorldLength.

(** *** Degenerate endpoints *)

Section Degenerate.

Lemma normalize_guarded (v : Point2D) :
  (0 < vectorLength v
   /\ normalize v = {| x := x v / vectorLength v;
                          y := y v / vectorLength v |})
  \/ (vectorLength v = 0 /\ normalize v = zeroVector).
Proof.
  unfold normalize, vectorLength.
  destruct (Rgt_dec _ 0) as [H | H]; [left; split; [lra | reflexivity] |].
  right. split; [| reflexivity].
  pose proof (sqrt_pos (x v * x v + y v * y v)). lra.
Qed.

Lemma normalize_difference_self (a b : R) :
  normalize {| x := a - a; y := b - b |} = zeroVector.
Proof.
  destruct (normalize_guarded {| x := a - a; y := b - b |}) as [[H _] | [_ H]];
    [| exact H].
  exfalso. unfold vectorLength in H; cbn in H.
  replace ((a - a) * (a - a) + (b - b) * (b - b)) with 0 in H by ring.
  rewrite sqrt_0 in H. lra.
Qed.

Lemma distance_self (p : Point2D) : distance p p = 0.
Proof.
  unfold distance.
  replace ((x p - x p) * (x p - x p)
           + (y p - y p) * (y p - y p)) with 0 by ring.
  apply sqrt_0.
Qed.

Lemma bezierAt_self (p : Point2D) (t : R) : bezierAt p p p t = p.
Proof. destruct p as [a b]. unfold bezierAt; cbn. f_equal; ring. Qed.

Lemma quadraticBezierLength_self (p : Point2D) :
  quadraticBezierLength p p p = 0.
Proof.
  unfold quadraticBezierLength.
  assert (H : forall l : list nat,
             fold_left
               (fun (st : R * Point2D) (i : nat) =>
                  let t := INR i / INR 10 in
                  let curr := bezierAt p p p t in
                  (fst st + distance (snd st) curr, curr)) l (0, p) = (0, p)).
  { induction l as [| i l IH]; cbn [fold_left fst snd]; [reflexivity |].
    cbv zeta. rewrite bezierAt_self, distance_self, Rplus_0_r. exact IH. }
  cbv zeta. rewrite H. reflexivity.
Qed.

Lemma pushIfLong_zero (acc : PathAcc) (seg : Types.PathSegment)
    (cc : CoordTransformConfig) :
  pushIfLong acc 0 seg cc = acc.
Proof. unfold pushIfLong. destruct (Rgt_dec 0 0.001); [lra | reflexivity]. Qed.

Lemma applyRoundCorner_self (a b factor : R) :
  let p := {| x := a; y := b |} in
  applyRoundCorner p p p factor
  = {| cornerStart := p; cornerEnd := p; control := p |}.
Proof.
  cbv zeta. unfold applyRoundCorner. cbv zeta. cbn [x y].
  rewrite normalize_difference_self. cbn [x y zeroVector].
  f_equal; f_equal; ring.
Qed.

Lemma signOr1_zero : signOr1 0 = 1.
Proof.
  unfold signOr1, sign.
  destruct (Rgt_dec 0 0); [lra |]. destruct (Rlt_dec 0 0); [lra |].
  destruct (Req_dec_T 0 0); [reflexivity | contradiction].
Qed.

(** The perpendicular offset when the direction vector vanishes. *)
Lemma offset_x_vanishes (a off : R) :
  a + x (perpendicular zeroVector) * off = a.
Proof. cbn. ring. Qed.

Lemma offset_y_vanishes (b off : R) :
  b + y (perpendicular zeroVector) * off = b.
Proof. cbn. ring. Qed.

Variable cc : CoordTransformConfig.

Lemma simple_degenerate (p : Point2D) (config : SimpleConfig) :
  calculateSimplePath p p config cc
  = {| Types.segments := [lineSegment p p cc]; Types.length := 0 |}.
Proof.
  destruct p as [a b]. unfold calculateSimplePath. cbv zeta. cbn [x y].
  rewrite normalize_difference_self, !offset_x_vanishes, !offset_y_vanishes, distance_self.
  f_equal. ring.
Qed.

Lemma straight_degenerate (p : Point2D) :
  calculateStraightPath p p cc
  = {| Types.segments := [lineSegment p p cc]; Types.length := 0 |}.
Proof.
  unfold calculateStraightPath. cbv zeta. rewrite distance_self. f_equal. ring.
Qed.

Lemma perpendicular_degenerate (p : Point2D) (config : PerpendicularConfig) :
  calculatePerpendicularPath p p config cc = emptyPath.
Proof.
  destruct p as [a b]. unfold calculatePerpendicularPath. cbv zeta.
  cbn [x y].
  rewrite normalize_difference_self, !offset_x_vanishes, !offset_y_vanishes.
  destruct (startFrom config), (Rge_dec _ _); cbn [x y];
    rewrite (applyRoundCorner_self a b);
    cbn [cornerStart cornerEnd control];
    rewrite distance_self, quadraticBezierLength_self, !pushIfLong_zero;
    reflexivity.
Qed.

Lemma diagonal_degenerate (p : Point2D) (config : DiagonalConfig) :
  calculateDiagonalPath p p config cc = emptyPath.
Proof.
  destruct p as [a b]. unfold calculateDiagonalPath. cbv zeta.
  cbn [x y].
  rewrite normalize_difference_self, !offset_x_vanishes, !offset_y_vanishes.
  replace (a - a) with 0 by ring. replace (b - b) with 0 by ring.
  rewrite Rabs_R0, signOr1_zero.
  replace (Rmin 0 0) with 0 by (symmetry; apply Rmin_left; lra).
  replace (a + (0 - 1 * 0) / 2) with a by field.
  replace (a - (0 - 1 * 0) / 2) with a by field.
  replace (a + 1 * 0) with a by ring. replace (b + 1 * 0) with b by ring.
  replace (a - 1 * 0) with a by ring. replace (b - 1 * 0) with b by ring.
  destruct (startFrom config); cbn [fst snd];
    rewrite (applyRoundCorner_self a b);
    cbn [cornerStart cornerEnd control];
    rewrite distance_self, quadraticBezierLength_self, !pushIfLong_zero;
    reflexivity.
Qed.

End Degenerate.

(** Over the real numbers: [normalize] divides only by a positive length
    and returns the zero vector otherwise; so for coincident endpoints the
    perpendicular offset vanishes whatever the configured offsets are: the
    simple and the straight builder return one segment from the point to
    itself with length [0], the perpendicular and the diagonal builder
    return no segment and length [0]. *)
Lemma coincident_endpoints_degenerate (p : Point2D) (cc : CoordTransformConfig) :
  (forall v,
     (0 < vectorLength v
      /\ normalize v = {| x := x v / vectorLength v;
                             y := y v / vectorLength v |})
     \/ (vectorLength v = 0 /\ normalize v = zeroVector))
  /\ normalize zeroVector = zeroVector
  /\ normalize {| x := x p - x p; y := y p - y p |} = zeroVector
  /\ (forall config,
        calculateSimplePath p p config cc
        = {| Types.segments :=
               [ {| Types.type := Types.line_segment;
                    Types.points := [toGameCoord p cc; toGameCoord p cc] |} ];
             Types.length := 0 |})
  /\ calculateStraightPath p p cc
     = {| Types.segments :=
            [ {| Types.type := Types.line_segment;
                 Types.points := [toGameCoord p cc; toGameCoord p cc] |} ];
          Types.length := 0 |}
  /\ (forall config, calculatePerpendicularPath p p config cc = emptyPath)
  /\ (forall config, calculateDiagonalPath p p config cc = emptyPath).
Proof.
  split; [apply normalize_guarded |].
  split.
  { destruct (normalize_guarded zeroVector) as [[H _] | [_ H]]; [| exact H].
    exfalso. unfold vectorLength, zeroVector in H; cbn in H.
    replace (0 * 0 + 0 * 0) with 0 in H by ring. rewrite sqrt_0 in H. lra. }
  split; [apply normalize_difference_self |].
  split; [intros config; apply simple_degenerate |].
  split; [apply straight_degenerate |].
  split; [intros config; apply perpendicular_degenerate |].
  intros config; apply diagonal_degenerate.
Qed.

(** *** Coordinate transform *)

(** C3.  For every configuration and diagram point, both copies of the
    coordinate transform ([rmpToGameCoord] of the parser and [toGameCoord]
    of the path calculator) return [x = (x*scale + offset) * multiplier] and
    [z = (y*scale + offset) * multiplier], the diagram [y] axis going to the
    world [z] axis, with elevation [64]; the difference to the formula is
    below the tolerance [1e-9]. *)
Theorem coordinate_transform_formula (config : CoordTransformConfig) (x y : R) :
  let world := RmpParser.rmpToGameCoord x y config in
  let worldX := (x * scale config + offset config) * multiplier config in
  let worldZ := (y * scale config + offset config) * multiplier config in
  Types.x world = worldX
  /\ Types.z world = worldZ
  /\ Types.y world = 64
  /\ toGameCoord {| x := x; y := y |} config = world
  /\ Rabs (Types.x world - worldX) <= 1e-9
  /\ Rabs (Types.z world - worldZ) <= 1e-9.
Proof.
  cbv zeta. unfold RmpParser.rmpToGameCoord, toGameCoord; cbn.
  repeat split; try reflexivity;
    match goal with |- Rabs (?a - ?a) <= _ =>
      replace (a - a) with 0 by ring; rewrite Rabs_R0; lra
    end.
Qed.

(** *** Path length against world-space measure *)

(** C4, as amended.  For every builder, endpoints and configuration, the
    world-space measure of the returned segments is [|scale|] times the
    absolute value of the returned length: the builders scale the diagram
    length by [multiplier] only.  Hence the returned length is the
    world-space measure whenever [scale = 1] and [multiplier >= 0], as in
    both world configurations of the parser. *)
Theorem path_length_world_measure (b : Builder) (from to : Point2D)
    (cc : CoordTransformConfig) :
  measurePath (build b from to cc)
  = Rabs (scale cc) * Rabs (Types.length (build b from to cc))
  /\ (scale cc = 1 -> 0 <= multiplier cc ->
      0 <= Types.length (build b from to cc)
      /\ Types.length (build b from to cc) = measurePath (build b from to cc))
  /\ (forall worldId,
        scale (RmpParser.worldCoordConfig worldId) = 1
        /\ 0 <= multiplier (RmpParser.worldCoordConfig worldId)).
Proof.
  split; [apply build_measure |]. split.
  - intros Hs Hm.
    assert (Hlen : 0 <= Types.length (build b from to cc)).
    { destruct b as [config | config | config |]; cbn [build].
      - unfold calculatePerpendicularPath. cbv zeta.
        apply (accumulates_length_nonneg cc); [exact Hm |].
        repeat (apply accumulates_push_line || apply accumulates_push_quadratic).
        apply accumulates_nil.
      - unfold calculateDiagonalPath. cbv zeta.
        apply (accumulates_length_nonneg cc); [exact Hm |].
        repeat (apply accumulates_push_line || apply accumulates_push_quadratic).
        apply accumulates_nil.
      - cbn. apply Rmult_le_pos; [apply distance_nonneg | exact Hm].
      - cbn. apply Rmult_le_pos; [apply distance_nonneg | exact Hm]. }
    split; [exact Hlen |].
    rewrite build_measure, Hs, Rabs_R1, (Rabs_pos_eq _ Hlen). ring.
  - intros worldId. unfold RmpParser.worldCoordConfig.
    destruct (String.eqb worldId "zth"); [cbn; lra |].
    destruct (String.eqb worldId "houtu"); cbn; lra.
Qed.

Lemma path_length_world_measure_witness :
  Types.length (build straightBuilder {| x := 0; y := 0 |}
                  {| x := 3; y := 4 |} unitScaleConfig)
  = measurePath (build straightBuilder {| x := 0; y := 0 |}
                   {| x := 3; y := 4 |} unitScaleConfig).
Proof.
  apply (path_length_world_measure straightBuilder {| x := 0; y := 0 |}
           {| x := 3; y := 4 |} unitScaleConfig).
  - reflexivity.
  - cbn. lra.
Defined.

(** The straight path from [(0,0)] to [(1,0)] under [scale = 2]: the
    returned length is [1], the world-space points are [2] apart. *)
Lemma straight_path_length_ignores_scale :
  let path := calculateStraightPath {| x := 0; y := 0 |}
                {| x := 1; y := 0 |} doubleScaleConfig in
  Types.length path = 1 /\ measurePath path = 2
  /\ Types.length path <> measurePath path.
Proof.
  cbv zeta.
  assert (H1 : Types.length (calculateStraightPath {| x := 0; y := 0 |}
                 {| x := 1; y := 0 |} doubleScaleConfig) = 1).
  { cbn. unfold distance; cbn.
    replace ((1 - 0) * (1 - 0) + (0 - 0) * (0 - 0)) with 1 by ring.
    rewrite sqrt_1. ring. }
  assert (H2 : measurePath (calculateStraightPath {| x := 0; y := 0 |}
                 {| x := 1; y := 0 |} doubleScaleConfig) = 2).
  { pose proof (build_measure doubleScaleConfig straightBuilder
                  {| x := 0; y := 0 |} {| x := 1; y := 0 |}) as Hm.
    cbn [build] in Hm. rewrite Hm, H1. cbn [scale doubleScaleConfig].
    rewrite Rabs_R1, Rabs_pos_eq; lra. }
  rewrite H1, H2. repeat split; lra.
Qed.


End PathsProperties.

(** ** The graph-to-line builder *)

Section ParserProperties.

Import RmpParser.

(** *** Insertion-ordered maps and sets *)

Section JsMapFacts.

Context {V : Type}.

Lemma get_in (k : string) (v : V) (m : JsMap.t V) :
  JsMap.get k m = Some v -> In (k, v) m.
Proof.
  induction m as [| [k' v'] m IH]; cbn; [discriminate |].
  destruct (String.eqb k' k) eqn:E.
  - apply String.eqb_eq in E. intros [= ->]. left. now subst.
  - intros H. right. now apply IH.
Qed.

Lemma get_set_same (k : string) (v : V) (m : JsMap.t V) :
  JsMap.get k (JsMap.set k v m) = Some v.
Proof.
  induction m as [| [k' v'] m IH]; cbn.
  - now rewrite String.eqb_refl.
  - destruct (String.eqb k' k) eqn:E; cbn; rewrite E; [reflexivity | exact IH].
Qed.

Lemma get_set_other (k k' : string) (v : V) (m : JsMap.t V) :
  k' <> k -> JsMap.get k' (JsMap.set k v m) = JsMap.get k' m.
Proof.
  intros Hne. induction m as [| [k0 v0] m IH]; cbn.
  - destruct (String.eqb k k') eqn:E; [| reflexivity].
    apply String.eqb_eq in E. now subst.
  - destruct (String.eqb k0 k) eqn:E; cbn.
    + apply String.eqb_eq in E. subst k0.
      destruct (String.eqb k k') eqn:E'; [| reflexivity].
      apply String.eqb_eq in E'. now subst.
    + destruct (String.eqb k0 k'); [reflexivity | exact IH].
Qed.

Lemma in_set (k k0 : string) (v v0 : V) (m : JsMap.t V) :
  In (k, v) (JsMap.set k0 v0 m) -> (k = k0 /\ v = v0) \/ In (k, v) m.
Proof.
  induction m as [| [k' v'] m IH]; cbn.
  - intros [[= <- <-] | []]. now left.
  - destruct (String.eqb k' k0) eqn:E; cbn.
    + apply String.eqb_eq in E. subst k'.
      intros [[= <- <-] | H]; [now left | right; now right].
    + intros [H | H]; [right; now left |].
      destruct (IH H) as [? | ?]; [now left | right; now right].
Qed.

Lemma keys_set (k : string) (v : V) (m : JsMap.t V) :
  map fst (JsMap.set k v m)
  = if JsMap.has k m then map fst m else map fst m ++ [k].
Proof.
  unfold JsMap.has. induction m as [| [k' v'] m IH]; cbn; [reflexivity |].
  destruct (String.eqb k' k) eqn:E; cbn; [reflexivity |].
  rewrite IH. now destruct (JsMap.get k m).
Qed.

Lemma get_none_not_key (k : string) (m : JsMap.t V) :
  JsMap.get k m = None -> ~ In k (map fst m).
Proof.
  induction m as [| [k' v'] m IH]; cbn; [tauto |].
  destruct (String.eqb k' k) eqn:E; [discriminate |].
  apply String.eqb_neq in E. intros H [? | ?]; [contradiction | now apply IH].
Qed.

Lemma keys_set_NoDup (k : string) (v : V) (m : JsMap.t V) :
  NoDup (map fst m) -> NoDup (map fst (JsMap.set k v m)).
Proof.
  intros H. rewrite keys_set. unfold JsMap.has.
  destruct (JsMap.get k m) eqn:E; [exact H |].
  apply NoDup_app; [exact H | repeat constructor; intros [] | ].
  intros a Ha [E' | []]. subst a. now apply (get_none_not_key k m).
Qed.

End JsMapFacts.

Lemma set_has_in (k : string) (s : JsSet.t) : JsSet.has k s = true <-> In k s.
Proof.
  unfold JsSet.has. rewrite existsb_exists. split.
  - intros (x & Hx & E). apply String.eqb_eq in E. now subst.
  - intros H. exists k. split; [exact H | apply String.eqb_refl].
Qed.

Lemma set_add_in (k x : string) (s : JsSet.t) :
  In x (JsSet.add k s) <-> x = k \/ In x s.
Proof.
  unfold JsSet.add. destruct (JsSet.has k s) eqn:E.
  - apply set_has_in in E. split; [now right | intros [-> | H]; assumption].
  - rewrite in_app_iff; cbn. split; [intros [? | [<- | []]]; auto | intros [-> | ?]; auto].
Qed.

Lemma dedup_in (x : string) (arr : list string) : In x (JsSet.dedup arr) <-> In x arr.
Proof.
  unfold JsSet.dedup.
  assert (H : forall acc, In x (fold_left (fun acc k => JsSet.add k acc) arr acc)
                          <-> In x acc \/ In x arr).
  { induction arr as [| a arr IH]; intros acc; cbn; [tauto |].
    rewrite IH, set_add_in. split; intros; intuition (subst; auto). }
  rewrite H. cbn. tauto.
Qed.

(** *** The global station index *)

Section StationIndex.

Variable data : RMPData.

Lemma grows_refl (m : JsMap.t Types.ParsedStation) : grows m m.
Proof. intros k g H. exists g. split; [exact H | apply incl_refl]. Qed.

Lemma grows_trans (m1 m2 m3 : JsMap.t Types.ParsedStation) :
  grows m1 m2 -> grows m2 m3 -> grows m1 m3.
Proof.
  intros H12 H23 k g H.
  destruct (H12 k g H) as (g2 & H2 & I2).
  destruct (H23 k g2 H2) as (g3 & H3 & I3).
  exists g3. split; [exact H3 | eapply incl_tran; eassumption].
Qed.

Lemma registered_grows (m m' : JsMap.t Types.ParsedStation) (lineName : string)
    (s : Types.ParsedStation) :
  grows m m' -> registered m lineName s -> registered m' lineName s.
Proof.
  intros Hg (g & Hget & Hin).
  destruct (Hg _ _ Hget) as (g' & Hget' & Hincl).
  exists g'. split; [exact Hget' | now apply Hincl].
Qed.

Lemma updateAllStations_ok (node : RMPNode) (s : Types.ParsedStation)
    (lineName : string) (m : JsMap.t Types.ParsedStation) :
  indexOk data m -> freshFrom data node lineName s ->
  indexOk data (updateAllStations s lineName m)
  /\ grows m (updateAllStations s lineName m)
  /\ registered (updateAllStations s lineName m) lineName s.
Proof.
  intros [Hnd Hok] (Hnode & Hst & Hname & Hflag & Hlines).
  unfold updateAllStations.
  destruct (JsMap.get (Types.name s) m) as [existing |] eqn:Eget.
  - destruct (Hok _ _ (get_in _ _ _ Eget)) as [Hkey _].
    set (merged := JsSet.dedup (Types.lines existing ++ [lineName])).
    split; [split |]; [now apply keys_set_NoDup | | split].
    + intros k g Hin. apply in_set in Hin. destruct Hin as [[-> ->] | Hin];
        [| now apply Hok].
      cbn [Types.name]. split; [exact Hkey |].
      split; cbn [Types.isTransfer Types.lines].
      * intros H. now apply Nat.ltb_lt.
      * intros H Hle. apply Nat.ltb_lt in H. lia.
    + intros k g Hget. destruct (String.eqb k (Types.name s)) eqn:E.
      * apply String.eqb_eq in E. subst k. rewrite get_set_same.
        eexists. split; [reflexivity |]. cbn [Types.lines].
        rewrite Eget in Hget. injection Hget as <-.
        intros x Hx. apply dedup_in, in_app_iff. now left.
      * apply String.eqb_neq in E. rewrite (get_set_other _ _ _ _ E).
        exists g. split; [exact Hget | apply incl_refl].
    + eexists. split; [apply get_set_same |]. cbn [Types.lines].
      apply dedup_in, in_app_iff. right. now left.
  - split; [split |]; [now apply keys_set_NoDup | | split].
    + intros k g Hin. apply in_set in Hin. destruct Hin as [[-> ->] | Hin];
        [| now apply Hok].
      split; [reflexivity |]. split.
      * rewrite Hlines; cbn. lia.
      * intros Ht _. exists node. rewrite Hflag in Ht. auto.
    + intros k g Hget.
      assert (k <> Types.name s) by (intros ->; congruence).
      rewrite get_set_other by assumption.
      exists g. split; [exact Hget | apply incl_refl].
    + exists s. split; [apply get_set_same |]. rewrite Hlines. now left.
Qed.

Lemma addStation_ok (lineName : string) (cc : RmpPathCalculator.CoordTransformConfig)
    (m0 : JsMap.t Types.ParsedStation)
    (acc : list Types.ParsedStation * JsMap.t Types.ParsedStation)
    (entry : nat * (RMPNode * nat)) :
  In (fst (snd entry)) (nodes data) ->
  isStationNode (fst (snd entry)) = true ->
  lineLoopOk data lineName m0 acc ->
  lineLoopOk data lineName m0 (addStation lineName cc acc entry).
Proof.
  intros Hnode Hst (Hok & Hg & Hreg). unfold addStation.
  destruct (getStationName (fst (snd entry))) as [name |] eqn:En;
    [| exact (conj Hok (conj Hg Hreg))].
  destruct (negb (truthy name)); [exact (conj Hok (conj Hg Hreg)) |].
  match goal with
  | |- lineLoopOk _ _ _ (_ ++ [?s], _) => set (station := s)
  end.
  destruct (updateAllStations_ok (fst (snd entry)) station lineName (snd acc) Hok)
    as (Hok' & Hg' & Hreg').
  { repeat split; auto. }
  split; [exact Hok' |]. split; [eapply grows_trans; eassumption |].
  cbn [fst snd]. intros s Hin. apply in_app_iff in Hin.
  destruct Hin as [Hin | [<- | []]]; [| exact Hreg'].
  eapply registered_grows; [exact Hg' | now apply Hreg].
Qed.

Lemma buildLineStations_ok (lineName : string)
    (cc : RmpPathCalculator.CoordTransformConfig)
    (sn : list (RMPNode * nat)) (m0 : JsMap.t Types.ParsedStation) :
  (forall node i, In (node, i) sn ->
                  In node (nodes data) /\ isStationNode node = true) ->
  indexOk data m0 ->
  lineLoopOk data lineName m0 (buildLineStations lineName cc sn m0).
Proof.
  intros Hsn Hok. unfold buildLineStations.
  assert (Hentries : forall e, In e (combine (seq 0 (length sn)) sn) ->
                               In (fst (snd e)) (nodes data)
                               /\ isStationNode (fst (snd e)) = true).
  { intros [i [node j]] Hin. apply in_combine_r in Hin. cbn. eapply Hsn, Hin. }
  assert (Hinit : lineLoopOk data lineName m0 ([], m0)).
  { split; [exact Hok |]. split; [apply grows_refl | intros s []]. }
  revert Hentries Hinit.
  generalize (combine (seq 0 (length sn)) sn) as entries.
  generalize (@nil Types.ParsedStation, m0) as acc.
  intros acc entries. revert acc.
  induction entries as [| e entries IH]; intros acc Hentries Hacc; cbn;
    [exact Hacc |].
  apply IH; [intros e' He'; apply Hentries; now right |].
  destruct (Hentries e (or_introl eq_refl)) as [H1 H2].
  now apply addStation_ok.
Qed.

End StationIndex.

(** *** The main loop *)

Section MainLoop.

Variable data : RMPData.

Lemma buildNodeMap_in (k : string) (node : RMPNode) :
  In (k, node) (buildNodeMap (nodes data)) -> In node (nodes data).
Proof.
  unfold buildNodeMap.
  assert (H : forall (l : list RMPNode) (m : JsMap.t RMPNode),
             (forall k' n', In (k', n') m -> In n' (nodes data)) ->
             (forall n', In n' l -> In n' (nodes data)) ->
             In (k, node)
                (fold_left (fun nodeMap n => JsMap.set (key n) n nodeMap) l m) ->
             In node (nodes data)).
  { induction l as [| n l IH]; intros m Hm Hl; cbn; [apply Hm |].
    apply IH; [| intros n' Hn'; apply Hl; now right].
    intros k' n' Hin. apply in_set in Hin.
    destruct Hin as [[_ ->] | Hin]; [apply Hl; now left | now apply (Hm k')]. }
  apply H; [intros k' n' [] | auto].
Qed.

Lemma stationNodes_in (nodeMap : JsMap.t RMPNode) (orderedNodeKeys : list string)
    (node : RMPNode) (i : nat) :
  In (node, i) (stationNodes nodeMap orderedNodeKeys) ->
  isStationNode node = true /\ exists k, In (k, node) nodeMap.
Proof.
  unfold stationNodes.
  generalize (seq 0 (length orderedNodeKeys)) as idx.
  assert (H : forall (idx : list nat) (acc : list (RMPNode * nat)),
             (forall n j, In (n, j) acc ->
                          isStationNode n = true /\ exists k, In (k, n) nodeMap) ->
             In (node, i)
                (fold_left
                   (fun acc i =>
                      match nth_error orderedNodeKeys i with
                      | Some k =>
                          match JsMap.get k nodeMap with
                          | Some node =>
                              if isStationNode node then acc ++ [(node, i)] else acc
                          | None => acc
                          end
                      | None => acc
                      end) idx acc) ->
             isStationNode node = true /\ exists k, In (k, node) nodeMap).
  { induction idx as [| j idx IH]; intros acc Hacc; cbn; [apply Hacc |].
    apply IH.
    destruct (nth_error orderedNodeKeys j) as [k |]; [| exact Hacc].
    destruct (JsMap.get k nodeMap) as [n |] eqn:Eg; [| exact Hacc].
    destruct (isStationNode n) eqn:Es; [| exact Hacc].
    intros n' j' Hin. apply in_app_iff in Hin.
    destruct Hin as [Hin | [[= <- <-] | []]]; [now apply (Hacc n' j') |].
    split; [exact Es |]. exists k. now apply get_in. }
  intros idx. apply H. intros n j [].
Qed.

Lemma stationNodes_of_data (orderedNodeKeys : list string) (node : RMPNode) (i : nat) :
  In (node, i) (stationNodes (buildNodeMap (nodes data)) orderedNodeKeys) ->
  In node (nodes data) /\ isStationNode node = true.
Proof.
  intros H. apply stationNodes_in in H. destruct H as [Hs [k Hk]].
  split; [now apply (buildNodeMap_in k) | exact Hs].
Qed.

Lemma buildLineStations_length (lineName : string)
    (cc : RmpPathCalculator.CoordTransformConfig)
    (sn : list (RMPNode * nat)) (m0 : JsMap.t Types.ParsedStation) :
  (length (fst (buildLineStations lineName cc sn m0)) <= length sn)%nat.
Proof.
  unfold buildLineStations.
  assert (H : forall entries acc,
             (length (fst (fold_left (addStation lineName cc) entries acc))
              <= length (fst acc) + length entries)%nat).
  { induction entries as [| e entries IH]; intros acc; cbn [fold_left length];
      [lia |].
    specialize (IH (addStation lineName cc acc e)).
    assert (length (fst (addStation lineName cc acc e)) <= S (length (fst acc)))%nat.
    { unfold addStation.
      destruct (getStationName _); [| lia].
      destruct (negb _); [lia |]. cbn [fst]. rewrite length_app; cbn. lia. }
    lia. }
  specialize (H (combine (seq 0 (length sn)) sn) ([], m0)).
  rewrite length_combine, length_seq in H. cbn in H. lia.
Qed.

Lemma buildEdgePaths_length (nodeMap : JsMap.t RMPNode) (ks : list string)
    (es : list RMPEdge) (cc : RmpPathCalculator.CoordTransformConfig)
    (sn : list (RMPNode * nat)) :
  length (buildEdgePaths nodeMap ks es cc sn) = (length sn - 1)%nat.
Proof.
  unfold buildEdgePaths. rewrite length_map, length_combine.
  destruct sn as [| a sn]; [reflexivity |]. cbn [tl length]. lia.
Qed.

Lemma buildLine_ok (lineBadges : JsMap.t Badge)
    (cc : RmpPathCalculator.CoordTransformConfig)
    (st : BuildState) (group : string * list RMPEdge) :
  buildOk data st ->
  buildOk data (buildLine (buildNodeMap (nodes data)) lineBadges cc st group).
Proof.
  intros (Hidx & Hreg & Hshape). unfold buildLine.
  destruct (getOrderedStationsWithEdges (snd group)) as [ks es].
  set (sn := stationNodes (buildNodeMap (nodes data)) ks).
  destruct (length sn <? 2)%nat; [exact (conj Hidx (conj Hreg Hshape)) |].
  set (lineName := lineNameOf lineBadges (fst group) (lineIndex st)).
  pose proof (buildLineStations_ok data lineName cc sn (allStationsMap st)
                (stationNodes_of_data ks) Hidx) as (Hidx' & Hg & Hreg').
  pose proof (buildLineStations_length lineName cc sn (allStationsMap st)) as Hlen.
  destruct (buildLineStations lineName cc sn (allStationsMap st))
    as [lineStations m'].
  cbn [fst snd] in *.
  destruct (2 <=? length lineStations)%nat eqn:E2.
  - apply Nat.leb_le in E2.
    split; [exact Hidx' |]. cbn [lines allStationsMap]. split.
    + intros line s Hin Hs. apply in_app_iff in Hin.
      destruct Hin as [Hin | [<- | []]].
      * eapply registered_grows; [exact Hg | now apply Hreg].
      * cbn in Hs |- *. now apply Hreg'.
    + intros line Hin. apply in_app_iff in Hin.
      destruct Hin as [Hin | [<- | []]]; [now apply Hshape |].
      cbn [Types.stations Types.edgePaths].
      rewrite buildEdgePaths_length. lia.
  - split; [exact Hidx' |]. cbn [lines allStationsMap]. split.
    + intros line s Hin Hs.
      eapply registered_grows; [exact Hg | now apply Hreg].
    + exact Hshape.
Qed.

Lemma build_ok (lineBadges : JsMap.t Badge)
    (cc : RmpPathCalculator.CoordTransformConfig)
    (groups : JsMap.t (list RMPEdge)) (st : BuildState) :
  buildOk data st ->
  buildOk data (fold_left (buildLine (buildNodeMap (nodes data)) lineBadges cc)
             groups st).
Proof.
  revert st. induction groups as [| g groups IH]; intros st H; cbn; [exact H |].
  apply IH. now apply buildLine_ok.
Qed.

Lemma initial_ok :
  buildOk data {| lines := []; allStationsMap := []; lineIndex := 1 |}.
Proof.
  split; [split; [constructor | intros k g []] |].
  split; [intros line s [] | intros line []].
Qed.

End MainLoop.

(** *** Transfer flags *)

(** After a full build the global station records have pairwise different
    names, and for every station of every line there is a global record of
    the same name, whose transfer flag and line list the station carries,
    and the line list contains the line's name.  The flag of a record is set
    whenever its line list has more than one entry. *)
Lemma station_index_after_build (data : RMPData) (worldId : string) :
  let res := parseRMPData data worldId in
  NoDup (map Types.name (result_stations res))
  /\ (forall g, In g (result_stations res) -> flagJustified data g)
  /\ (forall g, In g (result_stations res) ->
        (forall node, In node (nodes data) ->
                      getStationName node = Some (Types.name g) ->
                      isTransferStation node = false) ->
        Types.isTransfer g = (1 <? length (Types.lines g))%nat)
  /\ (forall line s,
        In line (result_lines res) -> In s (Types.stations line) ->
        exists g, In g (result_stations res)
                  /\ Types.name g = Types.name s
                  /\ Types.isTransfer s = Types.isTransfer g
                  /\ Types.lines s = Types.lines g
                  /\ In (Types.line line) (Types.lines s))
  /\ (forall line1 s1 line2 s2,
        In line1 (result_lines res) -> In s1 (Types.stations line1) ->
        In line2 (result_lines res) -> In s2 (Types.stations line2) ->
        Types.name s1 = Types.name s2 -> Types.line line1 <> Types.line line2 ->
        Types.isTransfer s1 = true /\ Types.isTransfer s2 = true).
Proof.
  cbv zeta. unfold parseRMPData. cbv zeta.
  set (final := fold_left _ _ _).
  assert (Hfinal : buildOk data final).
  { apply build_ok, initial_ok. }
  destruct Hfinal as ((Hnd & Hentries) & Hreg & _).
  cbn [result_lines result_stations].
  assert (Hnames : map Types.name (JsMap.values (allStationsMap final))
                   = map fst (allStationsMap final)).
  { unfold JsMap.values. rewrite map_map. apply map_ext_in.
    intros [k g] Hin. cbn. now apply Hentries. }
  assert (Hvalues : forall g, In g (JsMap.values (allStationsMap final)) ->
                              In (Types.name g, g) (allStationsMap final)).
  { intros g Hin. unfold JsMap.values in Hin. apply in_map_iff in Hin.
    destruct Hin as ([k g'] & <- & Hin). cbn.
    destruct (Hentries _ _ Hin) as [-> _]. exact Hin. }
  assert (Hcopy : forall line s,
             In line (map (refreshLine (allStationsMap final)) (lines final)) ->
             In s (Types.stations line) ->
             exists g, In g (JsMap.values (allStationsMap final))
                       /\ Types.name g = Types.name s
                       /\ Types.isTransfer s = Types.isTransfer g
                       /\ Types.lines s = Types.lines g
                       /\ In (Types.line line) (Types.lines s)).
  { intros line s Hline Hs. apply in_map_iff in Hline.
    destruct Hline as (line0 & <- & Hline0). cbn in Hs. apply in_map_iff in Hs.
    destruct Hs as (s0 & <- & Hs0).
    destruct (Hreg line0 s0 Hline0 Hs0) as (g & Hget & Hin).
    unfold refreshStation. rewrite Hget. cbn.
    exists g. split; [| split; [| auto]].
    - unfold JsMap.values. apply in_map_iff. exists (Types.name s0, g).
      split; [reflexivity | now apply get_in].
    - now apply (Hentries _ _ (get_in _ _ _ Hget)). }
  split; [now rewrite Hnames |].
  split; [intros g Hg; now apply (Hentries _ _ (Hvalues g Hg)) |].
  split.
  { intros g Hg Hbasic.
    destruct (Hentries _ _ (Hvalues g Hg)) as [_ [Hlong Hshort]].
    destruct (1 <? length (Types.lines g))%nat eqn:E.
    - apply Nat.ltb_lt in E. now apply Hlong.
    - apply Nat.ltb_ge in E.
      destruct (Types.isTransfer g) eqn:Et; [| reflexivity].
      destruct (Hshort eq_refl E) as (node & Hin & _ & Hint & Hname).
      rewrite (Hbasic node Hin Hname) in Hint. discriminate. }
  split; [exact Hcopy |].
  intros line1 s1 line2 s2 Hl1 Hs1 Hl2 Hs2 Hname Hdiff.
  destruct (Hcopy _ _ Hl1 Hs1) as (g1 & Hg1 & Hn1 & Hf1 & Hlines1 & Hin1).
  destruct (Hcopy _ _ Hl2 Hs2) as (g2 & Hg2 & Hn2 & Hf2 & Hlines2 & Hin2).
  assert (g1 = g2).
  { apply Hvalues in Hg1, Hg2. rewrite Hn1 in Hg1. rewrite Hn2, <- Hname in Hg2.
    clear - Hnd Hg1 Hg2.
    induction (allStationsMap final) as [| [k g] m IH]; [destruct Hg1 |].
    cbn in Hnd. inversion Hnd as [| ? ? Hnotin Hnd']; subst.
    destruct Hg1 as [[= -> ->] | Hg1], Hg2 as [[= E2] | Hg2]; auto.
    - exfalso. apply Hnotin. apply in_map_iff. now exists (Types.name s1, g2).
    - exfalso. apply Hnotin. apply in_map_iff. exists (Types.name s1, g1).
      split; [cbn; congruence | exact Hg1]. }
  subst g2.
  assert (Hlong : (1 < length (Types.lines g1))%nat).
  { rewrite Hlines1 in Hin1. rewrite Hlines2 in Hin2. clear - Hin1 Hin2 Hdiff.
    destruct (Types.lines g1) as [| a [| b l]]; cbn in *; [tauto | | lia].
    destruct Hin1 as [E1 | []], Hin2 as [E2 | []]. congruence. }
  destruct (Hentries _ _ (Hvalues g1 Hg1)) as [_ [Hflag _]].
  rewrite Hf1, Hf2. split; now apply Hflag.
Qed.

Lemma twoLineGraph_result :
  map lineSummary (result_lines (parseRMPData twoLineGraph "zth"))
  = [ ("线路1"%string,
       [ ("A"%string, false, ["线路1"%string]);
         ("X"%string, true, ["线路1"%string; "线路2"%string]) ], 1%nat);
      ("线路2"%string,
       [ ("X"%string, true, ["线路1"%string; "线路2"%string]);
         ("C"%string, false, ["线路2"%string]) ], 1%nat) ].
Proof. vm_compute. reflexivity. Qed.


(** *** Alignment of edge paths and stations *)

(** Every emitted line has at least two stations, and at least one edge
    path per pair of consecutive stations. *)
Lemma emitted_lines_shape (data : RMPData) (worldId : string) (line : Types.ParsedLine) :
  In line (result_lines (parseRMPData data worldId)) ->
  (2 <= length (Types.stations line))%nat
  /\ (length (Types.stations line) - 1 <= length (Types.edgePaths line))%nat.
Proof.
  unfold parseRMPData. cbv zeta. set (final := fold_left _ _ _).
  assert (Hfinal : buildOk data final) by apply build_ok, initial_ok.
  destruct Hfinal as (_ & _ & Hshape).
  cbn [result_lines]. intros Hin. apply in_map_iff in Hin.
  destruct Hin as (line0 & <- & Hin). cbn. rewrite length_map.
  specialize (Hshape line0 Hin). lia.
Qed.

(** When every station-type node has a name, no station is skipped and the
    edge paths of every emitted line are aligned with its consecutive
    station pairs. *)
Lemma buildLineStations_all_named (data : RMPData) (lineName : string)
    (cc : RmpPathCalculator.CoordTransformConfig)
    (sn : list (RMPNode * nat)) (m0 : JsMap.t Types.ParsedStation) :
  stationsNamed data ->
  (forall node i, In (node, i) sn ->
                  In node (nodes data) /\ isStationNode node = true) ->
  length (fst (buildLineStations lineName cc sn m0)) = length sn.
Proof.
  intros Hnamed Hsn. unfold buildLineStations.
  assert (H : forall entries acc,
             (forall e, In e entries ->
                        In (fst (snd e)) (nodes data)
                        /\ isStationNode (fst (snd e)) = true) ->
             length (fst (fold_left (addStation lineName cc) entries acc))
             = (length (fst acc) + length entries)%nat).
  { induction entries as [| e entries IH]; intros acc He; cbn [fold_left length];
      [lia |].
    rewrite IH by (intros e' He'; apply He; now right).
    destruct (He e (or_introl eq_refl)) as [Hin Hst].
    destruct (Hnamed _ Hin Hst) as (name & Hname & Htruthy).
    unfold addStation. rewrite Hname, Htruthy. cbn [negb fst].
    rewrite length_app. cbn. lia. }
  rewrite H.
  - rewrite length_combine, length_seq. cbn. lia.
  - intros [i [node j]] Hin. apply in_combine_r in Hin. cbn. eapply Hsn, Hin.
Qed.

Lemma named_stations_align_edge_paths (data : RMPData) (worldId : string)
    (line : Types.ParsedLine) :
  stationsNamed data ->
  In line (result_lines (parseRMPData data worldId)) ->
  length (Types.edgePaths line) = (length (Types.stations line) - 1)%nat.
Proof.
  intros Hnamed. unfold parseRMPData. cbv zeta.
  set (aligned := fun l : Types.ParsedLine =>
                    length (Types.edgePaths l) = (length (Types.stations l) - 1)%nat).
  assert (Hloop : forall groups st,
             (forall l, In l (lines st) -> aligned l) ->
             forall l,
               In l (lines (fold_left
                                 (buildLine (buildNodeMap (nodes data))
                                    (getLineBadges (nodes data))
                                    (worldCoordConfig worldId)) groups st)) ->
               aligned l).
  { induction groups as [| g groups IH]; intros st Hst; cbn [fold_left]; [exact Hst |].
    apply IH. unfold buildLine.
    destruct (getOrderedStationsWithEdges (snd g)) as [ks es].
    set (sn := stationNodes (buildNodeMap (nodes data)) ks).
    destruct (length sn <? 2)%nat; [exact Hst |].
    match goal with
    | |- context [buildLineStations ?ln ?cc sn ?m] =>
        pose proof (buildLineStations_all_named data ln cc sn m Hnamed
                      (stationNodes_of_data data ks)) as Hlen;
        destruct (buildLineStations ln cc sn m) as [lineStations m']
    end.
    cbn [fst] in Hlen.
    destruct (2 <=? length lineStations)%nat; cbn [lines]; [| exact Hst].
    intros l Hl. apply in_app_iff in Hl.
    destruct Hl as [Hl | [<- | []]]; [now apply Hst |].
    unfold aligned. cbn [Types.edgePaths Types.stations].
    rewrite buildEdgePaths_length. lia. }
  cbn [result_lines]. intros Hin. apply in_map_iff in Hin.
  destruct Hin as (line0 & <- & Hin). cbn. rewrite length_map.
  eapply Hloop; [| exact Hin]. intros l [].
Qed.

(** C2, at the failing input.  The line through the station nodes [A], [B]
    and a station node without a name is emitted with two stations and two
    edge paths: the edge paths follow the station-type nodes, the station
    list skips the nameless one. *)
Theorem nameless_station_misaligns_edge_paths :
  let res := parseRMPData namelessStationGraph "zth" in
  map (fun l => (map Types.name (Types.stations l),
                 length (Types.stations l), length (Types.edgePaths l)))
      (result_lines res)
  = [ (["A"%string; "B"%string], 2%nat, 2%nat) ]
  /\ exists line, In line (result_lines res)
                  /\ length (Types.edgePaths line)
                     <> (length (Types.stations line) - 1)%nat.
Proof.
  cbv zeta. split; [vm_compute; reflexivity |].
  eexists. split; [vm_compute; left; reflexivity |].
  vm_compute. discriminate.
Qed.


End ParserProperties.

(** ** The traversal *)

Section DfsProperties.

Import RmpParser.

(** *** The traversal needs no more fuel than it is given *)

Section Traversal.

Variable adj : JsMap.t JsSet.t.
Variable edgeMap : JsMap.t RMPEdge.

Lemma fold_left_preserves {A B : Type} (P : A -> Prop) (f : A -> B -> A)
    (l : list B) (a : A) :
  (forall a b, P a -> P (f a b)) -> P a -> P (fold_left f l a).
Proof.
  intros Hf. revert a. induction l as [| b l IH]; intros a Ha; cbn; auto.
Qed.

Lemma dfs_unfold (fuel : nat) (node : string) (prevNode : option string)
    (st : DfsState) :
  dfs (S fuel) adj edgeMap node prevNode st
  = if JsSet.has node (visited st) then st
    else
      let recorded :=
        match prevNode with
        | Some prev =>
            if truthy prev then
              match JsMap.get (edgeMapKey prev node) edgeMap with
              | Some edge => orderedEdges st ++ [edge]
              | None => orderedEdges st
              end
            else orderedEdges st
        | None => orderedEdges st
        end in
      let st1 := {| visited := JsSet.add node (visited st);
                    orderedNodes := orderedNodes st ++ [node];
                    orderedEdges := recorded |} in
      let neighbors := match JsMap.get node adj with Some s => s | None => [] end in
      fold_left (visitNeighbor fuel adj edgeMap node) neighbors st1.
Proof. reflexivity. Qed.

Lemma has_add (x k : string) (s : JsSet.t) :
  JsSet.has x (JsSet.add k s) = String.eqb x k || JsSet.has x s.
Proof.
  apply eq_true_iff_eq. rewrite orb_true_iff, String.eqb_eq, !set_has_in.
  apply set_add_in.
Qed.

Lemma dfs_visited_grows (fuel : nat) (node : string) (prevNode : option string)
    (st : DfsState) :
  visitedIncluded st (dfs fuel adj edgeMap node prevNode st).
Proof.
  revert node prevNode st.
  induction fuel as [| fuel IH]; intros node prevNode st; [intros x H; exact H |].
  rewrite dfs_unfold. destruct (JsSet.has node (visited st)); [intros x H; exact H |].
  cbv zeta.
  apply (fold_left_preserves (visitedIncluded st)).
  - intros s n Hs x Hx. unfold visitNeighbor.
    destruct (negb _); [apply IH |]; now apply Hs.
  - intros x Hx. cbn [visited]. rewrite has_add, Hx. apply orb_true_r.
Qed.

Lemma filter_length_mono {A : Type} (f f' : A -> bool) (l : list A) :
  (forall a, f' a = true -> f a = true) ->
  (length (filter f' l) <= length (filter f l))%nat.
Proof.
  intros H. induction l as [| a l IH]; cbn; [lia |].
  destruct (f' a) eqn:E; [rewrite (H a E); cbn; lia |].
  destruct (f a); cbn; lia.
Qed.

Lemma filter_length_strict {A : Type} (f f' : A -> bool) (l : list A) (x : A) :
  (forall a, f' a = true -> f a = true) ->
  In x l -> f x = true -> f' x = false ->
  (length (filter f' l) < length (filter f l))%nat.
Proof.
  intros H Hin Hx Hx'. induction l as [| a l IH]; [destruct Hin |].
  pose proof (filter_length_mono f f' l H) as Hle. cbn.
  destruct Hin as [-> | Hin].
  - rewrite Hx, Hx'. cbn. lia.
  - specialize (IH Hin).
    destruct (f' a) eqn:E; [rewrite (H a E); cbn; lia |].
    destruct (f a); cbn; lia.
Qed.

Lemma unvisitedCount_le (s s' : DfsState) :
  visitedIncluded s s' -> (unvisitedCount adj s' <= unvisitedCount adj s)%nat.
Proof.
  intros H. apply filter_length_mono. intros k Hk.
  destruct (JsSet.has k (visited s)) eqn:E; [| reflexivity].
  now rewrite (H k E) in Hk.
Qed.

Lemma unvisitedCount_lt (s s' : DfsState) (node : string) :
  visitedIncluded s s' ->
  In node (map fst adj) ->
  JsSet.has node (visited s) = false ->
  JsSet.has node (visited s') = true ->
  (unvisitedCount adj s' < unvisitedCount adj s)%nat.
Proof.
  intros H Hin Hs Hs'. apply (filter_length_strict _ _ _ node); auto.
  - intros k Hk. destruct (JsSet.has k (visited s)) eqn:E; [| reflexivity].
    now rewrite (H k E) in Hk.
  - now rewrite Hs.
  - now rewrite Hs'.
Qed.

Lemma unvisitedCount_zero (st : DfsState) (node : string) :
  In node (map fst adj) -> unvisitedCount adj st = 0%nat ->
  JsSet.has node (visited st) = true.
Proof.
  unfold unvisitedCount. intros Hin H0.
  destruct (JsSet.has node (visited st)) eqn:E; [reflexivity |].
  assert (Hf : In node (filter (fun k => negb (JsSet.has k (visited st)))
                          (map fst adj))).
  { apply filter_In. split; [exact Hin | now rewrite E]. }
  destruct (filter _ _); [destruct Hf | discriminate].
Qed.

Hypothesis Hclosed : adjacencyClosed adj.

(** With at least as much fuel as there are unvisited keys, more fuel
    changes nothing. *)
Lemma dfs_fuel_irrelevant (fuel1 fuel2 : nat) (node : string)
    (prevNode : option string) (st : DfsState) :
  In node (map fst adj) ->
  (unvisitedCount adj st <= fuel1)%nat -> (unvisitedCount adj st <= fuel2)%nat ->
  dfs fuel1 adj edgeMap node prevNode st
  = dfs fuel2 adj edgeMap node prevNode st.
Proof.
  revert fuel2 node prevNode st.
  induction fuel1 as [| fuel1 IH]; intros fuel2 node prevNode st Hin H1 H2.
  - assert (Hv : JsSet.has node (visited st) = true)
      by (apply unvisitedCount_zero; [exact Hin | lia]).
    destruct fuel2; [reflexivity |]. rewrite dfs_unfold, Hv. reflexivity.
  - destruct fuel2 as [| fuel2].
    + assert (Hv : JsSet.has node (visited st) = true)
        by (apply unvisitedCount_zero; [exact Hin | lia]).
      rewrite dfs_unfold, Hv. reflexivity.
    + rewrite !dfs_unfold.
      destruct (JsSet.has node (visited st)) eqn:Ev; [reflexivity |].
      cbv zeta.
      match goal with
      | |- fold_left _ ?ns ?s1 = _ => set (neighbors := ns); set (st1 := s1)
      end.
      assert (Hns : forall n, In n neighbors -> In n (map fst adj)).
      { intros n Hn. unfold neighbors in Hn.
        destruct (JsMap.get node adj) as [ns |] eqn:Eg; [| destruct Hn].
        eapply Hclosed; [apply get_in, Eg | exact Hn]. }
      assert (Hst1 : (unvisitedCount adj st1 < unvisitedCount adj st)%nat).
      { apply (unvisitedCount_lt st st1 node); auto.
        - intros x Hx. unfold st1; cbn [visited]. rewrite has_add, Hx.
          apply orb_true_r.
        - unfold st1; cbn [visited]. rewrite has_add, String.eqb_refl.
          reflexivity. }
      assert (Hb : (unvisitedCount adj st1 <= fuel1 /\ unvisitedCount adj st1 <= fuel2)%nat)
        by lia.
      clearbody st1 neighbors. clear Hst1 H1 H2 Ev.
      revert st1 Hb. induction neighbors as [| n ns IHn]; intros s [Hb1 Hb2];
        cbn [fold_left]; [reflexivity |].
      assert (Hstep : visitNeighbor fuel1 adj edgeMap node s n
                      = visitNeighbor fuel2 adj edgeMap node s n).
      { unfold visitNeighbor. destruct (negb _); [| reflexivity].
        apply IH; [apply Hns; now left | exact Hb1 | exact Hb2]. }
      rewrite Hstep. apply IHn; [intros n' Hn'; apply Hns; now right |].
      assert (Hle : (unvisitedCount adj (visitNeighbor fuel2 adj edgeMap node s n)
                     <= unvisitedCount adj s)%nat).
      { apply unvisitedCount_le. unfold visitNeighbor.
        destruct (negb _); [apply dfs_visited_grows | intros x Hx; exact Hx]. }
      lia.
Qed.

End Traversal.

Section Adjacency.

Lemma has_key (k : string) (adj : JsMap.t JsSet.t) :
  JsMap.has k adj = true -> In k (map fst adj).
Proof.
  unfold JsMap.has. destruct (JsMap.get k adj) eqn:E; [| discriminate].
  intros _. apply get_in in E. apply in_map_iff. now exists (k, t).
Qed.

Lemma keys_kept (k x : string) (v : JsSet.t) (adj : JsMap.t JsSet.t) :
  In x (map fst adj) -> In x (map fst (JsMap.set k v adj)).
Proof.
  intros H. rewrite keys_set. destruct (JsMap.has k adj); [exact H |].
  apply in_app_iff. now left.
Qed.

Lemma ensureKey_key (k : string) (adj : JsMap.t JsSet.t) :
  In k (map fst (ensureKey k adj)).
Proof.
  unfold ensureKey. destruct (JsMap.has k adj) eqn:E; cbn [negb].
  - now apply has_key.
  - rewrite keys_set, E. apply in_app_iff. right. now left.
Qed.

Lemma ensureKey_keeps (k x : string) (adj : JsMap.t JsSet.t) :
  In x (map fst adj) -> In x (map fst (ensureKey k adj)).
Proof.
  unfold ensureKey. destruct (negb _); [apply keys_kept | auto].
Qed.

Lemma ensureKey_closed (k : string) (adj : JsMap.t JsSet.t) :
  adjacencyClosed adj -> adjacencyClosed (ensureKey k adj).
Proof.
  intros H. unfold ensureKey. destruct (negb _); [| exact H].
  intros k' ns n Hin Hn. apply in_set in Hin.
  destruct Hin as [[_ ->] | Hin]; [destruct Hn |].
  apply keys_kept. eapply H; eassumption.
Qed.

Lemma addNeighbor_keeps (k v x : string) (adj : JsMap.t JsSet.t) :
  In x (map fst adj) -> In x (map fst (addNeighbor k v adj)).
Proof.
  unfold addNeighbor. destruct (JsMap.get k adj); [apply keys_kept | auto].
Qed.

Lemma addNeighbor_closed (k v : string) (adj : JsMap.t JsSet.t) :
  In v (map fst adj) ->
  adjacencyClosed adj -> adjacencyClosed (addNeighbor k v adj).
Proof.
  intros Hv H. unfold addNeighbor.
  destruct (JsMap.get k adj) as [s |] eqn:E; [| exact H].
  intros k' ns n Hin Hn. apply in_set in Hin. apply keys_kept.
  destruct Hin as [[-> ->] | Hin]; [| eapply H; eassumption].
  apply set_add_in in Hn. destruct Hn as [-> | Hn]; [exact Hv |].
  eapply H; [apply get_in, E | exact Hn].
Qed.

Lemma buildAdjacencyWithEdges_closed (edges : list RMPEdge) :
  adjacencyClosed (fst (buildAdjacencyWithEdges edges))
  /\ forall e, In e edges ->
               In (source e) (map fst (fst (buildAdjacencyWithEdges edges))).
Proof.
  unfold buildAdjacencyWithEdges.
  assert (H : forall (l : list RMPEdge) acc,
             adjacencyClosed (fst acc) ->
             let final :=
               fold_left
                 (fun (acc : JsMap.t JsSet.t * JsMap.t RMPEdge) edge =>
                    let adj := fst acc in
                    let edgeMap := snd acc in
                    let adj := ensureKey (source edge) adj in
                    let adj := ensureKey (target edge) adj in
                    let adj := addNeighbor (source edge) (target edge) adj in
                    let adj := addNeighbor (target edge) (source edge) adj in
                    let edgeMap :=
                      JsMap.set (edgeMapKey (source edge) (target edge))
                        edge edgeMap in
                    let edgeMap :=
                      JsMap.set (edgeMapKey (target edge) (source edge))
                        edge edgeMap in
                    (adj, edgeMap)) l acc in
             adjacencyClosed (fst final)
             /\ (forall x, In x (map fst (fst acc)) -> In x (map fst (fst final)))
             /\ forall e, In e l -> In (source e) (map fst (fst final))).
  { induction l as [| e l IH]; intros acc Hacc; cbn [fold_left]; cbv zeta.
    - split; [exact Hacc |]. split; [auto | intros e []].
    - match goal with
      | |- context [fold_left _ l ?a] => set (acc' := a)
      end.
      assert (Hsrc : In (source e) (map fst (fst acc'))).
      { cbn [fst acc']. apply addNeighbor_keeps, addNeighbor_keeps,
          ensureKey_keeps, ensureKey_key. }
      assert (Hkeep : forall x, In x (map fst (fst acc)) -> In x (map fst (fst acc'))).
      { intros x Hx. cbn [fst acc']. apply addNeighbor_keeps, addNeighbor_keeps,
          ensureKey_keeps, ensureKey_keeps. exact Hx. }
      assert (Hcl : adjacencyClosed (fst acc')).
      { cbn [fst acc']. apply addNeighbor_closed.
        - apply addNeighbor_keeps, ensureKey_keeps, ensureKey_key.
        - apply addNeighbor_closed; [apply ensureKey_key |].
          now apply ensureKey_closed, ensureKey_closed. }
      destruct (IH acc' Hcl) as (H1 & H2 & H3).
      split; [exact H1 |]. split; [auto |].
      intros e' [<- | He']; auto. }
  destruct (H edges ([], []) ltac:(intros k ns n [])) as (H1 & _ & H3).
  split; assumption.
Qed.

End Adjacency.

(** The fuel [S (length adj)] that [getOrderedStationsWithEdges] passes to
    [dfs] is enough: the traversal it computes is the one any larger amount
    of fuel computes. *)
Lemma getOrderedStationsWithEdges_fuel (first : RMPEdge) (rest : list RMPEdge)
    (extra : nat) :
  let edges := first :: rest in
  let adj := fst (buildAdjacencyWithEdges edges) in
  let edgeMap := snd (buildAdjacencyWithEdges edges) in
  let startNode :=
    match find (fun entry => (length (snd entry) =? 1)%nat) adj with
    | Some (node, _) => node
    | None => source first
    end in
  let init := {| visited := []; orderedNodes := []; orderedEdges := [] |} in
  let st := dfs (S (length adj) + extra) adj edgeMap startNode None init in
  getOrderedStationsWithEdges edges = (orderedNodes st, orderedEdges st).
Proof.
  cbv zeta. unfold getOrderedStationsWithEdges.
  destruct (buildAdjacencyWithEdges_closed (first :: rest)) as [Hcl Hsrc].
  destruct (buildAdjacencyWithEdges (first :: rest)) as [adj edgeMap].
  cbn [fst snd] in *. cbv iota beta.
  match goal with
  | |- context [dfs _ adj edgeMap ?n None _] => set (startNode := n)
  end.
  assert (Hstart : In startNode (map fst adj)).
  { unfold startNode.
    destruct (find (fun entry : string * list string => (length (snd entry) =? 1)%nat) adj)
      as [[node ns] |] eqn:E.
    - apply find_some in E. destruct E as [E _]. apply in_map_iff. now exists (node, ns).
    - apply Hsrc. now left. }
  assert (Hcount : forall st, (unvisitedCount adj st <= length adj)%nat).
  { intros st. unfold unvisitedCount.
    etransitivity; [apply List.filter_length_le |]. now rewrite length_map. }
  rewrite (dfs_fuel_irrelevant adj edgeMap Hcl (S (length adj)) (S (length adj) + extra)
             startNode None _ Hstart).
  - reflexivity.
  - specialize (Hcount {| visited := []; orderedNodes := []; orderedEdges := [] |}).
    lia.
  - specialize (Hcount {| visited := []; orderedNodes := []; orderedEdges := [] |}).
    lia.
Qed.


End DfsProperties.

(** ** The ring scan and the snap decision *)

Section SnappingProperties.

Import ControlPointTools.

(** *** Snapping: bounds, ties and repeated snaps *)

Lemma euclid_nonneg (p q : WorldPoint) : 0 <= euclid p q.
Proof. apply sqrt_pos. Qed.

Lemma euclid_self (p : WorldPoint) : euclid p p = 0.
Proof.
  unfold euclid.
  replace ((x p - x p) * (x p - x p)
           + (z p - z p) * (z p - z p)) with 0 by ring.
  apply sqrt_0.
Qed.

Lemma euclid_zero (p q : WorldPoint) : euclid p q = 0 -> p = q.
Proof.
  unfold euclid. intros H.
  pose proof (Rle_0_sqr (x p - x q)) as Hx2.
  pose proof (Rle_0_sqr (z p - z q)) as Hz2.
  unfold Rsqr in Hx2, Hz2.
  apply sqrt_eq_0 in H; [| lra].
  assert (Hx : x p - x q = 0) by (apply Rsqr_0_uniq; unfold Rsqr; lra).
  assert (Hz : z p - z q = 0) by (apply Rsqr_0_uniq; unfold Rsqr; lra).
  destruct p as [px pz], q as [qx qz]; cbn in *.
  f_equal; lra.
Qed.

Lemma pointAt_0 (a b : WorldPoint) : pointAt a b 0 = a.
Proof. destruct a; unfold pointAt; cbn; f_equal; ring. Qed.

(** The three outputs of [closestPointOnSegment] are consistent: the point
    is the point of parameter [t], and the distance is the distance to it. *)
Lemma closestPointOnSegment_consistent (p a b : WorldPoint) :
  let h := closestPointOnSegment p a b in
  0 <= hit_t h <= 1
  /\ hit_point h = pointAt a b (hit_t h)
  /\ hit_dist h = euclid p (hit_point h).
Proof.
  cbv zeta.
  destruct (Rle_dec (squaredLength a b) 1e-12) as [Hd | Hp].
  - rewrite (closestPointOnSegment_degenerate p a b Hd); cbn.
    rewrite pointAt_0. repeat split; lra.
  - rewrite (closestPointOnSegment_proper p a b) by lra; cbn.
    split; [apply clamp01_range |]. split; reflexivity.
Qed.

(** No point of a proper segment is nearer to [p] than the returned one. *)
Lemma closestPointOnSegment_minimal (p a b : WorldPoint) (s : R) :
  1e-12 < squaredLength a b -> 0 <= s <= 1 ->
  hit_dist (closestPointOnSegment p a b) <= euclid p (pointAt a b s).
Proof.
  intros H Hs. rewrite (closestPointOnSegment_proper p a b H). cbn.
  assert (Hpos : 0 < squaredLength a b) by lra.
  assert (Hu : footParameter p a b * squaredLength a b
               = (x p - x a) * (x b - x a)
                 + (z p - z a) * (z b - z a)).
  { unfold footParameter. field. lra. }
  unfold euclid, pointAt; cbn.
  apply sqrt_le_1_alt.
  pose proof (clamp_is_closest (x p - x a) (z p - z a)
                (x b - x a) (z b - z a)
                (footParameter p a b) (clamp01 (footParameter p a b)) s
                Hpos Hu) as Hmin.
  specialize (Hmin ltac:(pose proof (clamp01_cases (footParameter p a b)); tauto) Hs).
  lra.
Qed.

(** Projecting the projection again gives distance zero. *)
Lemma closestPointOnSegment_again (p a b : WorldPoint) :
  hit_dist (closestPointOnSegment
                 (hit_point (closestPointOnSegment p a b)) a b) = 0.
Proof.
  destruct (Rle_dec (squaredLength a b) 1e-12) as [Hd | Hp].
  - rewrite (closestPointOnSegment_degenerate p a b Hd); cbn.
    rewrite (closestPointOnSegment_degenerate a a b Hd); cbn.
    apply euclid_self.
  - assert (H : 1e-12 < squaredLength a b) by lra.
    destruct (closestPointOnSegment_consistent p a b) as (Ht & Hq & _).
    set (q := hit_point (closestPointOnSegment p a b)) in *.
    pose proof (closestPointOnSegment_minimal q a b _ H Ht) as Hmin.
    rewrite <- Hq, euclid_self in Hmin.
    destruct (closestPointOnSegment_consistent q a b) as (_ & _ & Hd).
    pose proof (euclid_nonneg q (hit_point (closestPointOnSegment q a b))).
    lra.
Qed.

Section SnapScan.

Variable geom : GeometryRings.

Lemma candidate_consistent (p : WorldPoint) (ri : nat * nat) :
  hit_dist (candidate p geom ri) = euclid p (hit_point (candidate p geom ri)).
Proof. apply closestPointOnSegment_consistent. Qed.

(** What a scan returns, in every case. *)
Lemma closestPointOnRings_cases (p : WorldPoint) :
  (scannedSegments geom = [] /\ closestPointOnRings p geom = initialBest)
  \/ (exists ri, In ri (scannedSegments geom)
                 /\ closestPointOnRings p geom = bestOf p geom ri
                 /\ forall ri', In ri' (scannedSegments geom) ->
                      hit_dist (candidate p geom ri)
                      <= hit_dist (candidate p geom ri')).
Proof.
  rewrite closestPointOnRings_scan.
  destruct (scannedSegments geom) as [| ri0 l] eqn:E; [left; split; reflexivity |].
  right.
  destruct (scan_nonempty_finds p geom (ri0 :: l) initialBest) as (ri & Hin & Hb);
    [discriminate | reflexivity |].
  exists ri. split; [exact Hin |]. split; [exact Hb |].
  intros ri' Hin'.
  pose proof (scan_minimum p geom (ri0 :: l) initialBest ri' Hin') as Hm.
  rewrite Hb in Hm. exact Hm.
Qed.

(** Scanning from a point the scan returned finds that point again, at
    distance zero. *)
Lemma closestPointOnRings_again (p : WorldPoint) (ri : nat * nat) :
  In ri (scannedSegments geom) ->
  let q := hit_point (candidate p geom ri) in
  best_point (closestPointOnRings q geom) = Some q
  /\ best_dist (closestPointOnRings q geom) = Fin 0.
Proof.
  intros Hin q.
  destruct (closestPointOnRings_cases q) as [[E _] | (ri' & Hin' & Hb & Hmin)];
    [rewrite E in Hin; destruct Hin |].
  rewrite Hb; cbn.
  specialize (Hmin ri Hin).
  assert (H0 : hit_dist (candidate q geom ri) = 0)
    by apply closestPointOnSegment_again.
  pose proof (candidate_consistent q ri') as Hd.
  pose proof (euclid_nonneg q (hit_point (candidate q geom ri'))) as Hn.
  assert (Hz : hit_dist (candidate q geom ri') = 0) by lra.
  rewrite Hz in Hd. symmetry in Hd. apply euclid_zero in Hd.
  rewrite Hz, <- Hd. split; reflexivity.
Qed.

(** The generalised invariant of the scan: the result is the earliest
    segment that beats the initial record and is beaten by no other. *)
Lemma scan_first_minimum (p : WorldPoint) (l : list (nat * nat)) (best : Best) :
  (fold_left (scanStep p geom) l best = best
   /\ forall r, In r l -> xle (best_dist best) (hit_dist (candidate p geom r)))
  \/ (exists l1 ri l2,
        l = l1 ++ ri :: l2
        /\ fold_left (scanStep p geom) l best = bestOf p geom ri
        /\ (forall d, best_dist best = Fin d -> hit_dist (candidate p geom ri) < d)
        /\ (forall r, In r l1 ->
              hit_dist (candidate p geom ri) < hit_dist (candidate p geom r))
        /\ (forall r, In r l2 ->
              hit_dist (candidate p geom ri) <= hit_dist (candidate p geom r))).
Proof.
  revert best. induction l as [| a l IH]; intros best; cbn [fold_left].
  - left. split; [reflexivity | intros r []].
  - destruct (scanStep_cases p geom best a) as [[Ea Hlt] | [Ea Hle]]; rewrite Ea.
    + destruct (IH (bestOf p geom a)) as [[E Hall] | (l1 & ri & l2 & El & E & Hb & H1 & H2)].
      * right. exists [], a, l.
        split; [reflexivity |]. split; [exact E |]. split; [exact Hlt |].
        split; [intros r [] |].
        intros r Hr. exact (Hall r Hr).
      * right. exists (a :: l1), ri, l2.
        assert (Hria : hit_dist (candidate p geom ri) < hit_dist (candidate p geom a))
          by (apply Hb; reflexivity).
        split; [cbn; now rewrite El |]. split; [exact E |].
        split; [intros d Hd; specialize (Hlt d Hd); lra |].
        split; [| exact H2].
        intros r [<- | Hr]; [exact Hria | now apply H1].
    + destruct (IH best) as [[E Hall] | (l1 & ri & l2 & El & E & Hb & H1 & H2)].
      * left. split; [exact E |]. intros r [<- | Hr]; [exact Hle | now apply Hall].
      * right. exists (a :: l1), ri, l2.
        split; [cbn; now rewrite El |]. split; [exact E |].
        split; [exact Hb |]. split; [| exact H2].
        intros r [<- | Hr]; [| now apply H1].
        destruct (best_dist best) as [d |] eqn:Ed; [| destruct Hle].
        cbn in Hle. specialize (Hb d eq_refl). lra.
Qed.

End SnapScan.

(** X1.  [closestPointOnRings] breaks ties in favour of the segment scanned
    first: when at least one segment is scanned, the result is the
    projection on a segment that is strictly nearer than every segment
    scanned before it and at least as near as every segment scanned after
    it. *)
Theorem closestPointOnRings_first_minimum (p : WorldPoint) (geom : GeometryRings) :
  (scannedSegments geom = [] /\ closestPointOnRings p geom = initialBest)
  \/ (exists l1 ri l2,
        scannedSegments geom = l1 ++ ri :: l2
        /\ closestPointOnRings p geom = bestOf p geom ri
        /\ (forall r, In r l1 ->
              hit_dist (candidate p geom ri) < hit_dist (candidate p geom r))
        /\ (forall r, In r l2 ->
              hit_dist (candidate p geom ri) <= hit_dist (candidate p geom r))).
Proof.
  rewrite closestPointOnRings_scan.
  destruct (scan_first_minimum geom p (scannedSegments geom) initialBest)
    as [[E Hall] | (l1 & ri & l2 & El & E & _ & H1 & H2)].
  - left. split; [| exact E].
    destruct (scannedSegments geom) as [| r l]; [reflexivity |].
    destruct (Hall r (or_introl eq_refl)).
  - right. exists l1, ri, l2. auto.
Qed.

(** X2.  A point returned by [closestPointOnRings] lies on the segment the
    result names: the ring index and the segment index are those of a
    segment of the geometry, [t] is between 0 and 1, the point is the point
    of parameter [t] between the segment's two ends (the second end being
    the first point of the ring for the closing segment), and the distance
    is the distance from [p] to the point. *)
Theorem closestPointOnRings_on_reported_segment
    (p q : WorldPoint) (geom : GeometryRings) :
  best_point (closestPointOnRings p geom) = Some q ->
  let best := closestPointOnRings p geom in
  exists r i : nat,
    ringIndex best = Z.of_nat r /\ segIndex best = Z.of_nat i
    /\ (r < length (rings geom))%nat
    /\ (let ring := nth r (rings geom) [] in
        (2 <= length ring)%nat
        /\ (i < length ring)%nat
        /\ (nth r (closed geom) false = false -> (i + 1 < length ring)%nat)
        /\ 0 <= best_t best <= 1
        /\ q = pointAt (ringPoint ring i)
                 (ringPoint ring ((i + 1) mod length ring)) (best_t best)
        /\ best_dist best = Fin (euclid p q)).
Proof.
  intros Hq. cbv zeta.
  destruct (closestPointOnRings_found p geom q Hq) as ([r i] & Hin & Hb).
  rewrite Hb in Hq |- *. cbn in Hq. injection Hq as Hq.
  apply in_scannedSegments in Hin. destruct Hin as (Hr & H2 & Hi).
  exists r, i. cbn [bestOf ringIndex segIndex best_t best_dist fst snd].
  split; [reflexivity |]. split; [reflexivity |]. split; [exact Hr |].
  split; [exact H2 |].
  split; [unfold lastSeg in Hi; destruct (nth r (closed geom) false); lia |].
  split; [intros E; rewrite E in Hi; unfold lastSeg in Hi; lia |].
  destruct (closestPointOnSegment_consistent p
              (ringPoint (nth r (rings geom) []) i)
              (ringPoint (nth r (rings geom) [])
                 ((i + 1) mod length (nth r (rings geom) []))))
    as (Ht & Hp & Hd).
  unfold candidate in *; cbn [fst snd] in *.
  split; [exact Ht |]. split; [rewrite <- Hq; exact Hp |].
  rewrite Hd, Hq. reflexivity.
Qed.

Lemma closestPointOnRings_on_reported_segment_witness :
  exists r i : nat,
    ringIndex (closestPointOnRings {| x := 5; z := 5 |} scenarioGeom)
    = Z.of_nat r
    /\ segIndex (closestPointOnRings {| x := 5; z := 5 |} scenarioGeom)
       = Z.of_nat i
    /\ (r < length (rings scenarioGeom))%nat.
Proof.
  assert (H : best_point (closestPointOnRings {| x := 5; z := 5 |} scenarioGeom)
              = Some {| x := 5; z := 0 |}).
  { rewrite (scenario_rings 5) by lra. reflexivity. }
  destruct (closestPointOnRings_on_reported_segment _ _ _ H)
    as (r & i & Hr & Hi & Hlt & _).
  exists r, i. split; [exact Hr |]. split; [exact Hi | exact Hlt].
Defined.

(** X3.  [applySnap] never moves a point by more than [SNAP_MAX_DIST]: it
    either blocks the point (no point is returned; this needs snapping to be
    enabled and a target to be chosen), or returns an unblocked point whose
    distance from the input is at most 20.  With snapping disabled, without
    a target, or with a target that has no segment, the input point is
    returned unchanged. *)
Theorem applySnap_never_far (snapEnabled : bool) (snapTarget : option SnapTarget)
    (p : WorldPoint) :
  let r := applySnap snapEnabled snapTarget p in
  match point r with
  | Some q => blocked r = false /\ reason r = None
              /\ euclid p q <= SNAP_MAX_DIST
  | None => blocked r = true /\ snapEnabled = true /\ snapTarget <> None
  end
  /\ (snapEnabled = false \/ snapTarget = None
      \/ (exists t, snapTarget = Some t /\ scannedSegments (geom t) = []) ->
      r = keptResult p).
Proof.
  cbv zeta.
  assert (Hp : euclid p p <= SNAP_MAX_DIST)
    by (rewrite euclid_self; unfold SNAP_MAX_DIST; lra).
  unfold applySnap.
  destruct snapEnabled; cbn [negb];
    [| split; [cbn; auto | reflexivity]].
  destruct snapTarget as [target |];
    [| split; [cbn; auto | reflexivity]].
  destruct (closestPointOnRings_cases (geom target) p)
    as [[E ->] | (ri & Hin & -> & _)]; cbn.
  - split; [auto | reflexivity].
  - split.
    + destruct (Rgt_dec _ _) as [Hgt | Hle]; cbn.
      * repeat split; discriminate.
      * repeat split. rewrite <- candidate_consistent. lra.
    + intros [H | [H | (t & [= <-] & E)]]; try discriminate.
      rewrite E in Hin. destruct Hin.
Qed.

(** X4.  Snapping is idempotent: a point that [applySnap] returned is
    returned unchanged, and not blocked, when it is snapped again with the
    same setting and target. *)
Theorem applySnap_idempotent (snapEnabled : bool) (snapTarget : option SnapTarget)
    (p q : WorldPoint) :
  point (applySnap snapEnabled snapTarget p) = Some q ->
  applySnap snapEnabled snapTarget q = keptResult q.
Proof.
  unfold applySnap.
  destruct snapEnabled; cbn [negb]; [| intros _; reflexivity].
  destruct snapTarget as [target |]; [| intros _; reflexivity].
  destruct (closestPointOnRings_cases (geom target) p)
    as [[E Hb] | (ri & Hin & Hb & _)]; rewrite Hb; cbn.
  - intros _.
    destruct (closestPointOnRings_cases (geom target) q)
      as [[_ ->] | (ri & Hin & _)]; [reflexivity |].
    rewrite E in Hin. destruct Hin.
  - destruct (Rgt_dec _ _); cbn; [discriminate |].
    intros [= <-].
    destruct (closestPointOnRings_again (geom target) p ri Hin) as (-> & ->).
    destruct (Rgt_dec 0 SNAP_MAX_DIST) as [H | _]; [| reflexivity].
    unfold SNAP_MAX_DIST in H. lra.
Qed.

Lemma applySnap_idempotent_witness :
  applySnap true (Some scenarioTarget) {| x := 5; z := 0 |}
  = keptResult {| x := 5; z := 0 |}.
Proof.
  apply (applySnap_idempotent true (Some scenarioTarget) {| x := 5; z := 5 |}).
  unfold applySnap; cbn [negb geom scenarioTarget].
  rewrite (scenario_rings 5) by lra. cbn.
  destruct (Rgt_dec 5 SNAP_MAX_DIST) as [H | _]; [| reflexivity].
  unfold SNAP_MAX_DIST in H. lra.
Defined.


End SnappingProperties.

(** ** Modes, vertex edits and picked geometry *)

Section EditingProperties.

Import ControlPointTools.

(** *** Control-point editing: modes, vertex moves and picked targets *)

Lemma applyEvent_ok (s : ModeState) (e : ModeEvent) :
  modeOk s -> modeOk (applyEvent s e).
Proof.
  unfold modeOk. intros (H1 & H2 & H3 & H4).
  destruct s as [ed ad pn tg sv]; cbn in *.
  destruct e; cbn;
    unfold toggleEdit, toggleAdd, closeAddPanel, selectAddTarget,
      clickVertex, clearSelection; cbn;
    destruct ed, ad, pn; cbn; repeat split; intros; try congruence; auto;
    try (exfalso; auto; fail).
Qed.

Lemma runEvents_ok (events : list ModeEvent) (s : ModeState) :
  modeOk s -> modeOk (fold_left applyEvent events s).
Proof.
  revert s. induction events as [| e events IH]; intros s H; cbn; [exact H |].
  apply IH, applyEvent_ok, H.
Qed.

Lemma initialModeState_ok : modeOk initialModeState.
Proof. unfold modeOk; cbn. repeat split; intros; congruence. Qed.

(** X5.  The edit and add modes exclude each other.  After any sequence of
    toggles, panel closings, target choices, vertex clicks and clearings
    from the initial state, edit mode and add mode are not both on, an add
    target is set only in add mode and a vertex is selected only in edit
    mode; so of the two map-click handlers (vertex move and vertex
    insertion) at most one changes the pending edits on a click. *)
Theorem edit_and_add_modes_exclusive (events : list ModeEvent) :
  let s := runEvents events in
  modeOk s
  /\ (editEnabled s && addEnabled s = false)
  /\ forall snapEnabled snapTarget measuringLayers pendingEdits w,
       onMapClick_edit (editEnabled s) (selectedVertex s)
         snapEnabled snapTarget measuringLayers pendingEdits w = pendingEdits
       \/ onMapClick_add (addEnabled s) (addTargetLayerId s)
            measuringLayers pendingEdits w = pendingEdits.
Proof.
  cbv zeta.
  pose proof (runEvents_ok events _ initialModeState_ok) as Hok.
  fold (runEvents events) in Hok.
  split; [exact Hok |].
  destruct Hok as (H1 & _).
  destruct (editEnabled (runEvents events)) eqn:Ee.
  - rewrite (H1 eq_refl). split; [reflexivity |].
    intros. right. reflexivity.
  - split; [reflexivity |]. intros. left. reflexivity.
Qed.

(** *** Moving a vertex *)

Lemma combine_seq_nth_error {A B : Type} (f : A -> nat -> B) (l : list A) (k i : nat) :
  nth_error (map (fun ip => f (snd ip) (fst ip)) (combine (seq k (length l)) l)) i
  = option_map (fun p => f p (k + i)%nat) (nth_error l i).
Proof.
  revert k i. induction l as [| a l IH]; intros k i; cbn.
  - destruct i; reflexivity.
  - destruct i as [| i]; cbn.
    + now rewrite Nat.add_0_r.
    + rewrite IH. now replace (S k + i)%nat with (k + S i)%nat by lia.
Qed.

Lemma mapWithIndex_nth_error {A B : Type} (f : A -> nat -> B) (l : list A) (i : nat) :
  nth_error (mapWithIndex f l) i = option_map (fun p => f p i) (nth_error l i).
Proof. unfold mapWithIndex. now rewrite combine_seq_nth_error. Qed.

Lemma mapWithIndex_length {A B : Type} (f : A -> nat -> B) (l : list A) :
  length (mapWithIndex f l) = length l.
Proof.
  unfold mapWithIndex.
  rewrite length_map, length_combine, length_seq. lia.
Qed.

Lemma getEffectiveCoords_cons (k : Z) (c : list WorldPoint)
    (edits : PendingEdits) (layer : MeasuringLayerLite) :
  getEffectiveCoords ((k, c) :: edits) layer
  = if (k =? id layer)%Z then c else getEffectiveCoords edits layer.
Proof.
  unfold getEffectiveCoords; cbn.
  destruct (k =? id layer)%Z; reflexivity.
Qed.

(** The snapped point an unblocked [applySnap] returns is within the
    threshold of the click. *)
Lemma applySnap_point_near (snapEnabled : bool) (snapTarget : option SnapTarget)
    (p q : WorldPoint) :
  point (applySnap snapEnabled snapTarget p) = Some q ->
  euclid p q <= SNAP_MAX_DIST.
Proof.
  assert (Hp : euclid p p <= SNAP_MAX_DIST)
    by (rewrite euclid_self; unfold SNAP_MAX_DIST; lra).
  unfold applySnap.
  destruct snapEnabled; cbn [negb]; [| now intros [= <-]].
  destruct snapTarget as [target |]; [| now intros [= <-]].
  destruct (closestPointOnRings_cases (geom target) p)
    as [[E ->] | (ri & Hin & -> & _)]; cbn; [now intros [= <-] |].
  destruct (Rgt_dec _ _) as [Hgt | Hle]; cbn; [discriminate |].
  intros [= <-]. rewrite <- candidate_consistent. lra.
Qed.

Lemma applySnap_unblocked_reason (snapEnabled : bool)
    (snapTarget : option SnapTarget) (p : WorldPoint) :
  blocked (applySnap snapEnabled snapTarget p) = false ->
  reason (applySnap snapEnabled snapTarget p) = None.
Proof.
  unfold applySnap.
  destruct snapEnabled; cbn [negb]; [| reflexivity].
  destruct snapTarget as [target |]; [| reflexivity].
  destruct (best_point _); [| reflexivity].
  destruct (best_dist _); [| reflexivity].
  destruct (Rgt_dec _ _); cbn; [discriminate | reflexivity].
Qed.

(** X6.  The edit-mode click handler moves the selected vertex and nothing
    else.  Either the pending edits are left as they were, or the selected
    layer exists, the selected index is within its current coordinates, the
    snap did not block the click, and afterwards that layer has as many
    points as before, the selected one is the snapped click (at most 20 from
    the click), every other point is where it was, and no other layer is
    touched.  Nothing changes when edit mode is off, no vertex is selected,
    the projection is missing, the snap blocks the click, the layer is gone
    or the index is out of range. *)
Theorem edit_mode_moves_only_selected_vertex
    (editEnabled : bool) (selectedVertex : option SelectedVertex)
    (snapEnabled : bool) (snapTarget : option SnapTarget)
    (measuringLayers : list MeasuringLayerLite) (pendingEdits : PendingEdits)
    (w : option WorldPoint) :
  let edits' := onMapClick_edit editEnabled selectedVertex snapEnabled snapTarget
                  measuringLayers pendingEdits w in
  (edits' = pendingEdits
   \/ exists sel w0 layer q i,
        editEnabled = true /\ selectedVertex = Some sel /\ w = Some w0
        /\ find (fun l => (id l =? layerId sel)%Z) measuringLayers = Some layer
        /\ vertexIndex sel = Z.of_nat i
        /\ (i < length (getEffectiveCoords pendingEdits layer))%nat
        /\ applySnap snapEnabled snapTarget w0 = keptResult q
        /\ euclid w0 q <= SNAP_MAX_DIST
        /\ length (getEffectiveCoords edits' layer)
           = length (getEffectiveCoords pendingEdits layer)
        /\ nth_error (getEffectiveCoords edits' layer) i = Some q
        /\ (forall j, j <> i ->
              nth_error (getEffectiveCoords edits' layer) j
              = nth_error (getEffectiveCoords pendingEdits layer) j)
        /\ (forall other, id other <> id layer ->
              getEffectiveCoords edits' other
              = getEffectiveCoords pendingEdits other))
  /\ (editEnabled = false \/ selectedVertex = None \/ w = None
      \/ (exists w0, w = Some w0
                     /\ blocked (applySnap snapEnabled snapTarget w0) = true)
      \/ (exists sel, selectedVertex = Some sel
            /\ (find (fun l => (id l =? layerId sel)%Z) measuringLayers = None
                \/ exists layer,
                     find (fun l => (id l =? layerId sel)%Z) measuringLayers
                     = Some layer
                     /\ (vertexIndex sel < 0
                         \/ Z.of_nat (length (getEffectiveCoords pendingEdits layer))
                            <= vertexIndex sel)%Z)) ->
      edits' = pendingEdits).
Proof.
  cbv zeta. unfold onMapClick_edit.
  destruct editEnabled; cbn [negb]; [| split; [left |]; reflexivity].
  destruct selectedVertex as [sel |]; [| split; [left |]; reflexivity].
  destruct w as [w0 |]; [| split; [left |]; reflexivity].
  destruct (blocked (applySnap snapEnabled snapTarget w0)) eqn:Eb;
    [split; [left |]; reflexivity |].
  destruct (point (applySnap snapEnabled snapTarget w0)) as [q |] eqn:Eq;
    [| split; [left |]; reflexivity].
  destruct (find _ measuringLayers) as [layer |] eqn:Ef;
    [| split; [left |]; reflexivity].
  destruct ((vertexIndex sel <? 0)%Z
            || (Z.of_nat (length (getEffectiveCoords pendingEdits layer))
                <=? vertexIndex sel)%Z) eqn:Er.
  { split; [left |]; reflexivity. }
  apply orb_false_iff in Er. destruct Er as [Er1 Er2].
  apply Z.ltb_ge in Er1. apply Z.leb_gt in Er2.
  split.
  - right. exists sel, w0, layer, q, (Z.to_nat (vertexIndex sel)).
    assert (Hi : vertexIndex sel = Z.of_nat (Z.to_nat (vertexIndex sel)))
      by (now rewrite Z2Nat.id).
    assert (Hlt : (Z.to_nat (vertexIndex sel)
                   < length (getEffectiveCoords pendingEdits layer))%nat) by lia.
    repeat (split; [reflexivity || assumption |]).
    split.
    { destruct (applySnap snapEnabled snapTarget w0) as [pt bl rs] eqn:Es.
      cbn in Eb, Eq. subst pt bl. unfold keptResult. f_equal.
      pose proof (applySnap_unblocked_reason snapEnabled snapTarget w0) as Hr.
      rewrite Es in Hr. cbn in Hr. now apply Hr. }
    split; [now apply (applySnap_point_near snapEnabled snapTarget) |].
    rewrite getEffectiveCoords_cons, Z.eqb_refl.
    split; [apply mapWithIndex_length |].
    split.
    { rewrite mapWithIndex_nth_error.
      destruct (nth_error _ _) as [p0 |] eqn:En;
        [| apply nth_error_None in En; lia].
      cbn. now rewrite <- Hi, Z.eqb_refl. }
    split.
    { intros j Hj. rewrite mapWithIndex_nth_error.
      destruct (nth_error _ j) as [p0 |]; [| reflexivity]. cbn.
      destruct (Z.of_nat j =? vertexIndex sel)%Z eqn:Ej; [| reflexivity].
      apply Z.eqb_eq in Ej. lia. }
    intros other Ho. rewrite getEffectiveCoords_cons.
    destruct (id layer =? id other)%Z eqn:E; [| reflexivity].
    apply Z.eqb_eq in E. congruence.
  - intros [H | [H | [H | [(w1 & [= <-] & H) | (sel' & [= <-] & [H | (l' & H & Hr)])]]]];
      try discriminate; try congruence.
    assert (l' = layer) by congruence. subst l'. lia.
Qed.

(** *** Explicitly closed polygons *)

Lemma samePoint_refl (a : WorldPoint) : samePoint a a = true.
Proof.
  unfold samePoint.
  replace (x a - x a) with 0 by ring.
  replace (z a - z a) with 0 by ring.
  rewrite Rabs_R0.
  destruct (Rle_dec 0 1e-9) as [_ | n]; [reflexivity | lra].
Qed.

(** X7.  A ring stored with its first point repeated at the end is
    normalised to the ring without the repetition: a polygon given in
    explicitly closed form and the same polygon given open yield the same
    snapping geometry, whenever the open form does not itself end where it
    starts. *)
Theorem explicit_closure_is_dropped (ring : list WorldPoint) (isPolygon : bool) :
  ring <> [] ->
  normalizeRingsForPolygonLike (explicitlyClosed ring) isPolygon
  = {| rings := [ring]; closed := [isPolygon] |}
  /\ ((length ring < 2)%nat
      \/ samePoint (nth 0 ring {| x := 0; z := 0 |})
           (last ring {| x := 0; z := 0 |}) = false ->
      normalizeRingsForPolygonLike (explicitlyClosed ring) isPolygon
      = normalizeRingsForPolygonLike ring isPolygon).
Proof.
  intros Hne.
  assert (H1 : normalizeRingsForPolygonLike (explicitlyClosed ring) isPolygon
               = {| rings := [ring]; closed := [isPolygon] |}).
  { unfold normalizeRingsForPolygonLike, explicitlyClosed.
    rewrite length_app. cbn [length].
    destruct ring as [| a ring]; [contradiction |].
    replace (2 <=? length (a :: ring) + 1)%nat with true
      by (symmetry; apply Nat.leb_le; cbn; lia).
    rewrite last_last. cbn [nth app andb].
    rewrite samePoint_refl.
    change (a :: ring ++ [a]) with ((a :: ring) ++ [a]).
    now rewrite removelast_last. }
  split; [exact H1 |].
  intros H. rewrite H1. unfold normalizeRingsForPolygonLike.
  destruct H as [H | H].
  - replace (2 <=? length ring)%nat with false
      by (symmetry; apply Nat.leb_gt; lia).
    reflexivity.
  - rewrite H, andb_false_r. reflexivity.
Qed.

Lemma explicit_closure_is_dropped_witness :
  normalizeRingsForPolygonLike (explicitlyClosed scenarioRing) true
  = {| rings := [scenarioRing]; closed := [true] |}.
Proof.
  apply (explicit_closure_is_dropped scenarioRing true).
  discriminate.
Defined.

(** *** Picked snap targets *)

Lemma fold_left_push_if {A B : Type} (g : A -> B) (keep : B -> bool)
    (l : list A) (acc : list B) :
  fold_left (fun acc a => if keep (g a) then acc ++ [g a] else acc) l acc
  = acc ++ filter keep (map g l).
Proof.
  revert acc. induction l as [| a l IH]; intros acc; cbn.
  - now rewrite app_nil_r.
  - rewrite IH. destruct (keep (g a)); [| reflexivity].
    now rewrite <- app_assoc.
Qed.

Lemma pickedGeometry_rings (toWorld : LatLngs -> option WorldPoint)
    (raw : LatLngs) (isPolygon : bool) :
  rings (pickedGeometry toWorld raw isPolygon)
  = filter (fun wr => (2 <=? length wr)%nat)
      (map (worldRing toWorld) (ringsFromLeafletPolyline raw)).
Proof.
  unfold pickedGeometry; cbn [rings].
  exact (fold_left_push_if (worldRing toWorld) (fun wr => (2 <=? length wr)%nat)
           (ringsFromLeafletPolyline raw) []).
Qed.

(** X8.  The snap target stored for a picked Leaflet layer has only rings of
    at least two points, and one closed flag per ring, all equal to whether
    the layer is a polygon.  So no ring of a picked target is skipped by
    the scan: ring [r] of [n] points contributes its [n - 1] segments, and
    for a polygon also the closing segment from the last point to the
    first. *)
Theorem picked_target_rings_all_scanned
    (toWorld : LatLngs -> option WorldPoint) (raw : LatLngs)
    (isPolygon : bool) :
  let g := pickedGeometry toWorld raw isPolygon in
  Forall (fun ring => (2 <= length ring)%nat) (rings g)
  /\ closed g = repeat isPolygon (length (rings g))
  /\ forall r i,
       (r < length (rings g))%nat ->
       (i + 1 < length (nth r (rings g) [])
        \/ (isPolygon = true /\ i + 1 = length (nth r (rings g) [])))%nat ->
       In (r, i) (scannedSegments g).
Proof.
  cbv zeta.
  assert (Hall : Forall (fun ring => (2 <= length ring)%nat)
                   (rings (pickedGeometry toWorld raw isPolygon))).
  { rewrite pickedGeometry_rings. apply Forall_forall. intros ring Hin.
    apply filter_In in Hin. destruct Hin as [_ H]. now apply Nat.leb_le in H. }
  assert (Hcl : closed (pickedGeometry toWorld raw isPolygon)
                = repeat isPolygon
                    (length (rings (pickedGeometry toWorld raw isPolygon)))).
  { unfold pickedGeometry; cbn [rings closed].
    induction (fold_left _ _ _) as [| a l IH]; cbn; [reflexivity | now rewrite IH]. }
  split; [exact Hall |]. split; [exact Hcl |].
  intros r i Hr Hi.
  unfold scannedSegments. apply in_flat_map.
  exists r. split; [apply in_seq; lia |].
  set (g := pickedGeometry toWorld raw isPolygon) in *.
  assert (H2 : (2 <= length (nth r (rings g) []))%nat).
  { rewrite Forall_forall in Hall. apply Hall. now apply nth_In. }
  assert (Hc : nth r (closed g) false = isPolygon).
  { rewrite Hcl. apply nth_repeat_lt. exact Hr. }
  unfold segmentsOfRing.
  destruct (length (nth r (rings g) []) <? 2)%nat eqn:E;
    [apply Nat.ltb_lt in E; lia |].
  apply in_map, in_seq. rewrite Hc. unfold lastSeg.
  destruct Hi as [Hi | [-> Hi]]; [destruct isPolygon |]; lia.
Qed.


End EditingProperties.

(** ** The assist-line transformation *)

Section AssistSnapProperties.

Import AssistLineTools.

(** *** Assist-line snapping on features *)

Lemma ofAssist_injective (p q : WorldPoint) : ofAssist p = ofAssist q -> p = q.
Proof. destruct p, q; unfold ofAssist; cbn. now intros [= -> ->]. Qed.

Lemma fold_left_related {A A' B : Type} (R : A -> A' -> Prop)
    (f : A -> B -> A) (f' : A' -> B -> A') (l : list B) (a : A) (a' : A') :
  (forall a a' b, R a a' -> R (f a b) (f' a' b)) ->
  R a a' -> R (fold_left f l a) (fold_left f' l a').
Proof.
  intros Hstep. revert a a'. induction l as [| b l IH]; intros a a' H; cbn; auto.
Qed.

Lemma ringPoint_ofAssist (ring : list WorldPoint) (i : nat) :
  ControlPointTools.ringPoint (map ofAssist ring) i = ofAssist (ringPoint ring i).
Proof.
  unfold ControlPointTools.ringPoint, ringPoint.
  change {| ControlPointTools.x := 0; ControlPointTools.z := 0 |} with (ofAssist {| x := 0; z := 0 |}).
  apply map_nth.
Qed.

Lemma scanSegment_related (p : WorldPoint) (r : nat) (ring : list WorldPoint)
    (b : Best) (b' : ControlPointTools.Best) (i : nat) :
  sameBest b b' ->
  sameBest (scanSegment p ring b i)
           (ControlPointTools.scanSegment (ofAssist p) r (map ofAssist ring) b' i).
Proof.
  intros [Hp Hd]. unfold scanSegment, ControlPointTools.scanSegment.
  rewrite length_map, !ringPoint_ofAssist.
  destruct (assist_closestPointOnSegment_agrees p (ringPoint ring i)
              (ringPoint ring ((i + 1) mod length ring))) as (Eq & _ & Ed).
  rewrite <- Ed, <- Hd.
  destruct (lt_xnumber _ _); [| split; assumption].
  split; cbn; [now rewrite Eq | reflexivity].
Qed.

Lemma scanRing_related (p : WorldPoint) (g : GeometryRings)
    (b : Best) (b' : ControlPointTools.Best) (r : nat) :
  sameBest b b' ->
  sameBest (scanRing p g b r) (ControlPointTools.scanRing (ofAssist p) (ofAssistGeom g) b' r).
Proof.
  intros H. unfold scanRing, ControlPointTools.scanRing, ofAssistGeom; cbn [ControlPointTools.rings ControlPointTools.closed].
  change (@nil ControlPointTools.WorldPoint) with (map ofAssist []).
  rewrite (map_nth (map ofAssist)), length_map.
  destruct (length _ <? 2)%nat; [exact H |].
  unfold ControlPointTools.lastSeg.
  apply fold_left_related; [| exact H].
  intros a a' i Ha. now apply scanSegment_related.
Qed.

(** The two copies of the ring scan return the same point and distance. *)
Lemma closestPointOnRings_related (p : WorldPoint) (g : GeometryRings) :
  sameBest (closestPointOnRings p g)
           (ControlPointTools.closestPointOnRings (ofAssist p) (ofAssistGeom g)).
Proof.
  unfold closestPointOnRings, ControlPointTools.closestPointOnRings.
  replace (length (ControlPointTools.rings (ofAssistGeom g))) with (length (rings g))
    by (unfold ofAssistGeom; cbn; now rewrite length_map).
  apply fold_left_related; [| split; reflexivity].
  intros a a' r Ha. now apply scanRing_related.
Qed.

(** What the assist-line scan returns, in every case. *)
Lemma assist_scan_cases (p : WorldPoint) (g : GeometryRings) :
  (best_point (closestPointOnRings p g) = None
   /\ best_dist (closestPointOnRings p g) = PosInf
   /\ scannedSegments (ofAssistGeom g) = [])
  \/ (exists q ri,
        best_point (closestPointOnRings p g) = Some q
        /\ best_dist (closestPointOnRings p g)
           = Fin (euclid (ofAssist p) (ofAssist q))
        /\ In ri (scannedSegments (ofAssistGeom g))
        /\ ofAssist q = ControlPointTools.hit_point (candidate (ofAssist p) (ofAssistGeom g) ri)).
Proof.
  destruct (closestPointOnRings_related p g) as [Hp Hd].
  destruct (closestPointOnRings_cases (ofAssistGeom g) (ofAssist p))
    as [[E Hb] | (ri & Hin & Hb & _)]; rewrite Hb in Hp, Hd; cbn in Hp, Hd.
  - left. destruct (best_point _); [discriminate |]. auto.
  - right. destruct (best_point _) as [q |]; [| discriminate].
    cbn in Hp. injection Hp as Hp.
    exists q, ri. split; [reflexivity |].
    split; [rewrite Hd, Hp; now rewrite candidate_consistent |].
    split; assumption.
Qed.

(** X9.  The ring scan of the assist-line tool and the ring scan of the
    control-point tool are the same function: on the same point and the same
    rings they return the same nearest point and the same distance (both
    without a point and at infinite distance when no segment is scanned). *)
Theorem assist_closestPointOnRings_agrees (p : WorldPoint) (g : GeometryRings) :
  let b := closestPointOnRings p g in
  let b' := ControlPointTools.closestPointOnRings (ofAssist p) (ofAssistGeom g) in
  option_map ofAssist (best_point b) = ControlPointTools.best_point b'
  /\ best_dist b = ControlPointTools.best_dist b'
  /\ (best_point b = None <-> scannedSegments (ofAssistGeom g) = []).
Proof.
  cbv zeta.
  destruct (closestPointOnRings_related p g) as [Hp Hd].
  split; [exact Hp |]. split; [exact Hd |].
  destruct (assist_scan_cases p g) as [(E & _ & Es) | (q & ri & E & _ & Hin & _)];
    rewrite E.
  - split; auto.
  - split; [discriminate |]. intros Es. rewrite Es in Hin. destruct Hin.
Qed.

Lemma fixedLine_distance (axis : FixedAxis) (value : R) (p : WorldPoint) :
  euclid (ofAssist p) (ofAssist (withAxisCoordinate axis value p))
  = Rabs (axisCoordinate axis p - value).
Proof.
  unfold euclid, ofAssist. destruct axis; cbn.
  - replace ((x p - value) * (x p - value) + (z p - z p) * (z p - z p))
      with (Rsqr (x p - value)) by (unfold Rsqr; ring).
    apply sqrt_Rsqr_abs.
  - replace ((x p - x p) * (x p - x p) + (z p - value) * (z p - value))
      with (Rsqr (z p - value)) by (unfold Rsqr; ring).
    apply sqrt_Rsqr_abs.
Qed.

Lemma transformWorldPoint_feature_found (label : string) (g : GeometryRings)
    (threshold : R) (p q : WorldPoint) (d : R) :
  best_point (closestPointOnRings p g) = Some q ->
  best_dist (closestPointOnRings p g) = Fin d ->
  transformWorldPoint true (Some (leafletFeature label g)) threshold p
  = if Rle_dec d threshold
    then {| point := q; snapped := true; dist := Some d;
            targetLabel := Some label |}
    else {| point := p; snapped := false; dist := Some d;
            targetLabel := Some label |}.
Proof.
  intros E Ed. unfold transformWorldPoint; cbn [negb]. rewrite E, Ed.
  reflexivity.
Qed.

(** The result of [transformWorldPoint], in every case. *)
Lemma transformWorldPoint_cases (enabled : bool) (target : option AssistLineTarget)
    (threshold : R) (p : WorldPoint) :
  let r := transformWorldPoint enabled target threshold p in
  (snapped r = false /\ point r = p)
  \/ (snapped r = true
      /\ exists d, dist r = Some d /\ d <= threshold
                   /\ d = euclid (ofAssist p) (ofAssist (point r))
                   /\ point (transformWorldPoint enabled target threshold
                                  (point r)) = point r).
Proof.
  cbv zeta.
  destruct enabled; [| left; split; reflexivity].
  destruct target as [[axis value label | label g] |]; [| | left; split; reflexivity].
  - assert (E : transformWorldPoint true (Some (fixedLine axis value label))
                  threshold p
                = if Rle_dec (Rabs (axisCoordinate axis p - value)) threshold
                  then {| point := withAxisCoordinate axis value p;
                          snapped := true;
                          dist := Some (Rabs (axisCoordinate axis p - value));
                          targetLabel := Some label |}
                  else {| point := p; snapped := false;
                          dist := Some (Rabs (axisCoordinate axis p - value));
                          targetLabel := Some label |}).
    { unfold transformWorldPoint; cbn [negb]. destruct axis; reflexivity. }
    rewrite E.
    destruct (Rle_dec _ threshold) as [Hle | Hgt]; cbn;
      [| left; split; reflexivity].
    right. split; [reflexivity |]. eexists. split; [reflexivity |].
    split; [exact Hle |]. split; [now rewrite fixedLine_distance |].
    unfold transformWorldPoint; cbn [negb].
    fold (axisCoordinate axis (withAxisCoordinate axis value p)).
    assert (Ev : axisCoordinate axis (withAxisCoordinate axis value p) = value)
      by (destruct axis; reflexivity).
    pose proof (Rabs_pos (axisCoordinate axis p - value)).
    destruct axis; cbn in *;
      (replace (value - value) with 0 by ring); rewrite Rabs_R0;
      (destruct (Rle_dec 0 threshold); [reflexivity | lra]).
  - destruct (assist_scan_cases p g) as [(E & Ed & _) | (q & ri & E & Ed & Hin & Hq)].
    { left. unfold transformWorldPoint; cbn [negb]. rewrite E, Ed.
      split; reflexivity. }
    rewrite (transformWorldPoint_feature_found label g threshold p q _ E Ed).
    destruct (Rle_dec _ threshold) as [Hle | Hgt];
      cbn [snapped point dist];
      [| left; split; reflexivity].
    right. split; [reflexivity |]. eexists. split; [reflexivity |].
    split; [exact Hle |]. split; [reflexivity |].
    destruct (closestPointOnRings_again (ofAssistGeom g) (ofAssist p) ri Hin)
      as (Hp' & Hd'). cbv zeta in Hp', Hd'. rewrite <- Hq in Hp', Hd'.
    destruct (closestPointOnRings_related q g) as [Hp2 Hd2].
    rewrite Hp' in Hp2. rewrite Hd' in Hd2.
    destruct (best_point (closestPointOnRings q g)) as [q2 |] eqn:E2;
      [| discriminate].
    assert (Hq2 : ofAssist q2 = ofAssist q) by (cbn in Hp2; congruence).
    apply ofAssist_injective in Hq2. subst q2.
    rewrite (transformWorldPoint_feature_found label g threshold q q _ E2 Hd2).
    pose proof (euclid_nonneg (ofAssist p) (ofAssist q)).
    destruct (Rle_dec 0 threshold); [reflexivity | lra].
Qed.

(** X10.  Assist-line snapping never moves a point by more than the
    threshold.  For an axis line and for a feature alike, the result is
    either the input point, not snapped, or a snapped point whose distance
    from the input is the reported distance, which is at most the
    threshold.  When the tool is off or has no target the input is returned
    with no distance and no label. *)
Theorem transformWorldPoint_within_threshold (enabled : bool)
    (target : option AssistLineTarget) (threshold : R) (p : WorldPoint) :
  let r := transformWorldPoint enabled target threshold p in
  ((snapped r = false /\ point r = p)
   \/ (snapped r = true
       /\ exists d, dist r = Some d /\ d <= threshold
                    /\ d = euclid (ofAssist p) (ofAssist (point r))))
  /\ (enabled = false \/ target = None -> r = untouched p).
Proof.
  cbv zeta. split.
  - destruct (transformWorldPoint_cases enabled target threshold p)
      as [H | (Hs & d & Hd & Hle & He & _)]; [left; exact H |].
    right. split; [exact Hs |]. exists d. auto.
  - unfold transformWorldPoint.
    intros [-> | ->]; [reflexivity |]. destruct enabled; reflexivity.
Qed.

(** X11.  Assist-line snapping is idempotent: transforming the point it
    returned, with the same switch, target and threshold, returns that point
    again. *)
Theorem transformWorldPoint_idempotent (enabled : bool)
    (target : option AssistLineTarget) (threshold : R) (p : WorldPoint) :
  let q := point (transformWorldPoint enabled target threshold p) in
  point (transformWorldPoint enabled target threshold q) = q.
Proof.
  cbv zeta.
  destruct (transformWorldPoint_cases enabled target threshold p)
    as [[Hs Hp] | (_ & d & _ & _ & _ & H)]; [| exact H].
  rewrite Hp. exact Hp.
Qed.


End AssistSnapProperties.

(** ** Lengths of the built paths *)

Section PathLengthsProperties.

Import RmpPathCalculator.

(** *** Offsets, rounded corners and curve lengths *)

Section Vectors.

Lemma hyp_nonneg (u v : R) : 0 <= sqrt (u * u + v * v).
Proof. apply sqrt_pos. Qed.

Lemma hyp_sqr (u v : R) : sqrt (u * u + v * v) * sqrt (u * u + v * v) = u * u + v * v.
Proof. apply sqrt_sqrt. nra. Qed.

Lemma hyp_axis_x (u : R) : sqrt (u * u + 0 * 0) = Rabs u.
Proof.
  replace (u * u + 0 * 0) with (Rsqr u) by (unfold Rsqr; ring).
  apply sqrt_Rsqr_abs.
Qed.

Lemma hyp_axis_y (v : R) : sqrt (0 * 0 + v * v) = Rabs v.
Proof.
  replace (0 * 0 + v * v) with (Rsqr v) by (unfold Rsqr; ring).
  apply sqrt_Rsqr_abs.
Qed.

(** The triangle inequality for the planar norm. *)
Lemma hyp_triangle (a1 a2 b1 b2 : R) :
  sqrt ((a1 + b1) * (a1 + b1) + (a2 + b2) * (a2 + b2))
  <= sqrt (a1 * a1 + a2 * a2) + sqrt (b1 * b1 + b2 * b2).
Proof.
  set (A := sqrt (a1 * a1 + a2 * a2)). set (B := sqrt (b1 * b1 + b2 * b2)).
  assert (HA : 0 <= A) by apply hyp_nonneg.
  assert (HB : 0 <= B) by apply hyp_nonneg.
  assert (HA2 : A * A = a1 * a1 + a2 * a2) by apply hyp_sqr.
  assert (HB2 : B * B = b1 * b1 + b2 * b2) by apply hyp_sqr.
  assert (Hcs : a1 * b1 + a2 * b2 <= A * B).
  { destruct (Rle_dec (a1 * b1 + a2 * b2) 0) as [Hn | Hp];
      [pose proof (Rmult_le_pos A B HA HB); lra |].
    apply Rsqr_incr_0_var; [| now apply Rmult_le_pos].
    unfold Rsqr.
    replace (A * B * (A * B)) with ((A * A) * (B * B)) by ring.
    rewrite HA2, HB2.
    pose proof (Rle_0_sqr (a1 * b2 - a2 * b1)) as H. unfold Rsqr in H. lra. }
  rewrite <- (sqrt_Rsqr (A + B)) by lra.
  apply sqrt_le_1_alt. unfold Rsqr. lra.
Qed.

Lemma distance_sym (a b : Point2D) : distance a b = distance b a.
Proof. unfold distance. f_equal. ring. Qed.

Lemma distance_triangle (a b c : Point2D) :
  distance a c <= distance a b + distance b c.
Proof.
  unfold distance.
  replace (x c - x a) with ((x b - x a) + (x c - x b)) by ring.
  replace (y c - y a) with ((y b - y a) + (y c - y b)) by ring.
  apply hyp_triangle.
Qed.

Lemma distance_zero_eq (a b : Point2D) : distance a b = 0 -> a = b.
Proof.
  unfold distance. intros H.
  pose proof (Rle_0_sqr (x b - x a)) as Hx2.
  pose proof (Rle_0_sqr (y b - y a)) as Hy2.
  unfold Rsqr in Hx2, Hy2.
  apply sqrt_eq_0 in H; [| lra].
  assert (Hx : x b - x a = 0) by (apply Rsqr_0_uniq; unfold Rsqr; lra).
  assert (Hy : y b - y a = 0) by (apply Rsqr_0_uniq; unfold Rsqr; lra).
  destruct a, b; cbn in *. f_equal; lra.
Qed.

Lemma vectorLength_difference (a b : Point2D) :
  vectorLength {| x := x b - x a; y := y b - y a |}
  = distance a b.
Proof. reflexivity. Qed.

(** [normalize] of a vector that is not zero is a unit vector. *)
Lemma normalize_unit (v : Point2D) :
  0 < vectorLength v ->
  x (normalize v) * x (normalize v)
  + y (normalize v) * y (normalize v) = 1.
Proof.
  intros H.
  destruct (normalize_guarded v) as [[_ ->] | [E _]]; [| lra].
  cbn. pose proof (hyp_sqr (x v) (y v)) as Hs.
  fold (vectorLength v) in Hs.
  field_simplify_eq; [| lra]. lra.
Qed.

(** The point at distance [c] from [k] towards [b]. *)
Lemma distance_along (k b : Point2D) (c : R) :
  0 < distance k b -> 0 <= c <= distance k b ->
  let u := normalize {| x := x b - x k; y := y b - y k |} in
  let s := {| x := x k + x u * c; y := y k + y u * c |} in
  distance k s = c /\ distance b s = distance k b - c.
Proof.
  intros Hd Hc. cbv zeta.
  set (v := {| x := x b - x k; y := y b - y k |}).
  assert (Hv : vectorLength v = distance k b) by reflexivity.
  destruct (normalize_guarded v) as [[_ En] | [E _]]; [| lra].
  rewrite En, Hv. cbn [x y v].
  set (d := distance k b) in *.
  assert (Hd2 : d * d = (x b - x k) * (x b - x k)
                        + (y b - y k) * (y b - y k))
    by apply hyp_sqr.
  split.
  - unfold distance; cbn [x y].
    replace (x k + (x b - x k) / d * c - x k)
      with (c / d * (x b - x k)) by (field; lra).
    replace (y k + (y b - y k) / d * c - y k)
      with (c / d * (y b - y k)) by (field; lra).
    rewrite sqrt_scaled. fold (distance k b). fold d.
    rewrite Rabs_pos_eq; [field; lra |].
    apply Rmult_le_pos; [lra |]. left. now apply Rinv_0_lt_compat.
  - unfold distance at 1; cbn [x y].
    replace (x k + (x b - x k) / d * c - x b)
      with ((c / d - 1) * (x b - x k)) by (field; lra).
    replace (y k + (y b - y k) / d * c - y b)
      with ((c / d - 1) * (y b - y k)) by (field; lra).
    rewrite sqrt_scaled. fold (distance k b). fold d.
    assert (Hle : c / d - 1 <= 0).
    { apply Rmult_le_reg_r with d; [exact Hd |].
      replace ((c / d - 1) * d) with (c - d) by (field; lra). lra. }
    rewrite Rabs_left1 by exact Hle. field. lra.
Qed.

End Vectors.

Section RoundedCorners.

(** The point at distance [c] from the corner [k] on the leg to [b], for
    a reach [c] of at most half the leg. *)
Lemma corner_point (k b : Point2D) (c : R) :
  0 <= c <= distance k b * 0.5 ->
  let u := normalize {| x := x b - x k; y := y b - y k |} in
  let s := {| x := x k + x u * c; y := y k + y u * c |} in
  distance k s = c /\ distance b s = distance k b - c.
Proof.
  intros Hc.
  pose proof (distance_nonneg k b) as Hd.
  destruct (Rle_lt_or_eq_dec _ _ Hd) as [Hpos | Hz].
  - apply distance_along; [exact Hpos | lra].
  - cbv zeta. symmetry in Hz.
    assert (c = 0) by lra. subst c.
    pose proof (distance_zero_eq k b Hz) as <-.
    rewrite Hz.
    assert (E : {| x := x k
                           + x (normalize {| x := x k - x k;
                                                   y := y k - y k |}) * 0;
                   y := y k
                           + y (normalize {| x := x k - x k;
                                                   y := y k - y k |}) * 0 |}
                = k).
    { destruct k as [a b]; cbn [x y]. f_equal; ring. }
    rewrite E, distance_self. split; lra.
Qed.

Lemma cornerReach_bounds (before corner after : Point2D) (factor : R) :
  0 <= factor ->
  0 <= cornerReach before corner after factor <= factor
  /\ cornerReach before corner after factor <= distance corner before * 0.5
  /\ cornerReach before corner after factor <= distance corner after * 0.5.
Proof.
  intros Hf. unfold cornerReach.
  pose proof (distance_nonneg corner before).
  pose proof (distance_nonneg corner after).
  unfold Rmin.
  destruct (Rle_dec (distance corner before) (distance corner after));
    destruct (Rle_dec factor _); lra.
Qed.

(** The shape of a rounded corner. *)
Lemma applyRoundCorner_shape (before corner after : Point2D) (factor : R) :
  0 <= factor ->
  let rc := applyRoundCorner before corner after factor in
  let c := cornerReach before corner after factor in
  control rc = corner
  /\ distance corner (cornerStart rc) = c
  /\ distance corner (cornerEnd rc) = c
  /\ distance before (cornerStart rc) = distance corner before - c
  /\ distance (cornerEnd rc) after = distance corner after - c.
Proof.
  intros Hf. cbv zeta.
  destruct (cornerReach_bounds before corner after factor Hf) as (Hc & H1 & H2).
  unfold applyRoundCorner. cbv zeta.
  cbn [control cornerStart cornerEnd].
  fold (cornerReach before corner after factor).
  destruct (corner_point corner before (cornerReach before corner after factor))
    as [E1 E2]; [lra |].
  destruct (corner_point corner after (cornerReach before corner after factor))
    as [E3 E4]; [lra |].
  cbv zeta in E1, E2, E3, E4.
  split; [reflexivity |]. split; [exact E1 |]. split; [exact E3 |].
  split; [exact E2 |]. rewrite distance_sym. exact E4.
Qed.

End RoundedCorners.

(** X12.  A rounded corner is cut symmetrically and never past the middle of
    a leg.  For a non-negative factor, [applyRoundCorner] keeps the corner
    as control point and puts the start and the end of the curve on the two
    legs, both at the same distance from the corner: the factor, clamped to
    half the shorter leg.  What is left of each leg is its length minus that
    distance. *)
Theorem round_corner_clamped (before corner after : Point2D) (factor : R) :
  0 <= factor ->
  let rc := applyRoundCorner before corner after factor in
  let c := Rmin factor
             (Rmin (distance corner before) (distance corner after) * 0.5) in
  0 <= c <= factor
  /\ c <= distance corner before / 2
  /\ c <= distance corner after / 2
  /\ control rc = corner
  /\ distance corner (cornerStart rc) = c
  /\ distance corner (cornerEnd rc) = c
  /\ distance before (cornerStart rc) = distance corner before - c
  /\ distance (cornerEnd rc) after = distance corner after - c.
Proof.
  intros Hf. cbv zeta. fold (cornerReach before corner after factor).
  destruct (cornerReach_bounds before corner after factor Hf) as (Hc & H1 & H2).
  destruct (applyRoundCorner_shape before corner after factor Hf)
    as (E0 & E1 & E2 & E3 & E4).
  repeat split; try assumption; lra.
Qed.

Lemma round_corner_clamped_witness :
  control (applyRoundCorner {| x := 0; y := 0 |} {| x := 4; y := 0 |}
                {| x := 4; y := 10 |} 5)
  = {| x := 4; y := 0 |}.
Proof.
  assert (H : 0 <= 5) by lra.
  exact (proj1 (proj2 (proj2 (proj2
           (round_corner_clamped {| x := 0; y := 0 |} {| x := 4; y := 0 |}
              {| x := 4; y := 10 |} 5 H))))).
Defined.

Lemma INR_10 : INR 10 = 10.
Proof. simpl. lra. Qed.

Lemma bezierAt_0 (p0 p1 p2 : Point2D) : bezierAt p0 p1 p2 0 = p0.
Proof. destruct p0. unfold bezierAt; cbn. f_equal; ring. Qed.

Lemma bezierAt_1 (p0 p1 p2 : Point2D) : bezierAt p0 p1 p2 1 = p2.
Proof. destruct p2. unfold bezierAt; cbn. f_equal; ring. Qed.

(** A chord of the curve is at most the matching part of the control
    polygon. *)
Lemma chord_bound (p0 p1 p2 : Point2D) (a h : R) :
  0 <= a -> 0 <= h -> a + h <= 1 ->
  distance (bezierAt p0 p1 p2 a) (bezierAt p0 p1 p2 (a + h))
  <= h * ((2 - 2 * a - h) * distance p0 p1 + (2 * a + h) * distance p1 p2).
Proof.
  intros Ha Hh Hah.
  unfold distance, bezierAt; cbn [x y].
  replace ((1 - (a + h)) * (1 - (a + h)) * x p0
           + 2 * (1 - (a + h)) * (a + h) * x p1 + (a + h) * (a + h) * x p2
           - ((1 - a) * (1 - a) * x p0 + 2 * (1 - a) * a * x p1
              + a * a * x p2))
    with (h * (2 - 2 * a - h) * (x p1 - x p0)
          + h * (2 * a + h) * (x p2 - x p1)) by ring.
  replace ((1 - (a + h)) * (1 - (a + h)) * y p0
           + 2 * (1 - (a + h)) * (a + h) * y p1 + (a + h) * (a + h) * y p2
           - ((1 - a) * (1 - a) * y p0 + 2 * (1 - a) * a * y p1
              + a * a * y p2))
    with (h * (2 - 2 * a - h) * (y p1 - y p0)
          + h * (2 * a + h) * (y p2 - y p1)) by ring.
  eapply Rle_trans; [apply hyp_triangle |].
  rewrite !sqrt_scaled.
  assert (H1 : 0 <= h * (2 - 2 * a - h)) by (apply Rmult_le_pos; lra).
  assert (H2 : 0 <= h * (2 * a + h)) by (apply Rmult_le_pos; lra).
  rewrite !Rabs_pos_eq by assumption.
  lra.
Qed.

Lemma sampled_step (p0 p1 p2 : Point2D) (k : nat) (st : R * Point2D) :
  (k < 10)%nat -> sampled p0 p1 p2 k st ->
  sampled p0 p1 p2 (S k)
    (fst st + distance (snd st) (bezierAt p0 p1 p2 (INR (S k) / INR 10)),
     bezierAt p0 p1 p2 (INR (S k) / INR 10)).
Proof.
  intros Hk (Hs & Hlo & Hhi). unfold sampled. cbn [fst snd].
  split; [reflexivity |].
  assert (Hk' : INR k <= 9).
  { assert (H : (k <= 9)%nat) by lia. apply le_INR in H.
    replace (INR 9) with 9 in H by (simpl; lra). exact H. }
  pose proof (pos_INR k) as Hk0.
  rewrite INR_10 in *. rewrite S_INR.
  set (a := INR k / 10) in *.
  replace ((INR k + 1) / 10) with (a + 1 / 10) by (unfold a; field).
  assert (Ha : 0 <= a) by (unfold a; lra).
  assert (Hah : a + 1 / 10 <= 1) by (unfold a; lra).
  pose proof (chord_bound p0 p1 p2 a (1 / 10) Ha ltac:(lra) Hah) as Hc.
  rewrite <- Hs in Hc.
  split.
  - eapply Rle_trans; [apply (distance_triangle p0 (snd st)) |]. lra.
  - unfold polygonBound in *.
    replace ((a + 1 / 10) * (2 - (a + 1 / 10)) * distance p0 p1
             + (a + 1 / 10) * (a + 1 / 10) * distance p1 p2)
      with (a * (2 - a) * distance p0 p1 + a * a * distance p1 p2
            + 1 / 10 * ((2 - 2 * a - 1 / 10) * distance p0 p1
                        + (2 * a + 1 / 10) * distance p1 p2)) by field.
    lra.
Qed.

Lemma sampled_fold (p0 p1 p2 : Point2D) (n k : nat) (st : R * Point2D) :
  (k + n <= 10)%nat -> sampled p0 p1 p2 k st ->
  sampled p0 p1 p2 (k + n)
    (fold_left
       (fun (st : R * Point2D) (i : nat) =>
          let t := INR i / INR 10 in
          let curr := bezierAt p0 p1 p2 t in
          (fst st + distance (snd st) curr, curr))
       (seq (S k) n) st).
Proof.
  revert k st. induction n as [| n IH]; intros k st Hk Hs; cbn [seq fold_left].
  - now rewrite Nat.add_0_r.
  - replace (k + S n)%nat with (S k + n)%nat by lia.
    apply IH; [lia |]. cbv zeta. apply sampled_step; [lia | exact Hs].
Qed.

Lemma quadraticBezierLength_sampled (p0 p1 p2 : Point2D) :
  distance p0 p2 <= quadraticBezierLength p0 p1 p2
  /\ quadraticBezierLength p0 p1 p2 <= distance p0 p1 + distance p1 p2.
Proof.
  unfold quadraticBezierLength. cbv zeta.
  assert (H0 : sampled p0 p1 p2 0 (0, p0)).
  { unfold sampled; cbn [fst snd].
    replace (INR 0 / INR 10) with 0 by (rewrite INR_10; simpl; field).
    rewrite bezierAt_0, distance_self. unfold polygonBound.
    split; [reflexivity |]. split; lra. }
  pose proof (sampled_fold p0 p1 p2 10 0 (0, p0) ltac:(lia) H0) as (Hs & Hlo & Hhi).
  cbn [Nat.add] in Hs, Hlo, Hhi.
  replace (INR 10 / INR 10) with 1 in Hs, Hhi by (rewrite INR_10; field).
  rewrite bezierAt_1 in Hs. rewrite Hs in Hlo.
  unfold polygonBound in Hhi.
  split; [exact Hlo | lra].
Qed.

(** X13.  The length [quadraticBezierLength] estimates for a curve lies
    between the distance of its two ends and the length of its control
    polygon; so it is not negative, and it is the distance of the ends when
    the control point is one of them. *)
Theorem quadraticBezierLength_between (p0 p1 p2 : Point2D) :
  distance p0 p2 <= quadraticBezierLength p0 p1 p2
  /\ quadraticBezierLength p0 p1 p2 <= distance p0 p1 + distance p1 p2
  /\ 0 <= quadraticBezierLength p0 p1 p2
  /\ (p1 = p0 \/ p1 = p2 -> quadraticBezierLength p0 p1 p2 = distance p0 p2).
Proof.
  destruct (quadraticBezierLength_sampled p0 p1 p2) as [Hlo Hhi].
  pose proof (distance_nonneg p0 p2).
  split; [exact Hlo |]. split; [exact Hhi |]. split; [lra |].
  intros [-> | ->].
  - destruct (quadraticBezierLength_sampled p0 p0 p2) as [Hlo' Hhi'].
    rewrite distance_self in Hhi'. lra.
  - destruct (quadraticBezierLength_sampled p0 p2 p2) as [Hlo' Hhi'].
    rewrite distance_self in Hhi'. lra.
Qed.

(** *** Shifted paths *)

Lemma offsetDirection_unit (from to : Point2D) :
  from <> to ->
  x (offsetDirection from to) * x (offsetDirection from to)
  + y (offsetDirection from to) * y (offsetDirection from to) = 1
  /\ x (offsetDirection from to) * (x to - x from)
     + y (offsetDirection from to) * (y to - y from) = 0.
Proof.
  intros Hne. unfold offsetDirection.
  set (v := {| x := x to - x from; y := y to - y from |}).
  assert (Hpos : 0 < vectorLength v).
  { pose proof (distance_nonneg from to) as H.
    change (vectorLength v) with (distance from to).
    destruct (Rle_lt_or_eq_dec _ _ H) as [Hlt | Hz]; [exact Hlt |].
    symmetry in Hz. apply distance_zero_eq in Hz. contradiction. }
  pose proof (normalize_unit v Hpos) as Hu.
  destruct (normalize_guarded v) as [[_ En] | [E _]]; [| lra].
  split.
  - cbn [perpendicular x y]. lra.
  - rewrite En. cbn [perpendicular x y v]. field. lra.
Qed.

Lemma offsetPoint_0 (from to p : Point2D) : offsetPoint from to p 0 = p.
Proof. destruct p. unfold offsetPoint; cbn [x y]. f_equal; ring. Qed.

(** X14.  A simple path is the straight path shifted sideways.  Its one
    segment joins the two endpoints moved by the configured offset along the
    same direction, which for distinct endpoints is a unit vector at a right
    angle to the line through them; its length is that of the straight path,
    whatever the offset; and with offset 0 it is the straight path. *)
Theorem simple_path_is_shifted_straight_path (from to : Point2D)
    (config : SimpleConfig) (cc : CoordTransformConfig) :
  let off := simple_offset config in
  let n := offsetDirection from to in
  calculateSimplePath from to config cc
  = {| Types.segments := [lineSegment (offsetPoint from to from off)
                            (offsetPoint from to to off) cc];
       Types.length := distance from to * multiplier cc |}
  /\ Types.length (calculateSimplePath from to config cc)
     = Types.length (calculateStraightPath from to cc)
  /\ (from <> to ->
      x n * x n + y n * y n = 1
      /\ x n * (x to - x from) + y n * (y to - y from) = 0
      /\ distance from (offsetPoint from to from off) = Rabs off
      /\ distance to (offsetPoint from to to off) = Rabs off)
  /\ (off = 0 ->
      calculateSimplePath from to config cc = calculateStraightPath from to cc).
Proof.
  cbv zeta.
  assert (E : calculateSimplePath from to config cc
              = {| Types.segments :=
                     [lineSegment (offsetPoint from to from (simple_offset config))
                        (offsetPoint from to to (simple_offset config)) cc];
                   Types.length := distance from to * multiplier cc |}).
  { unfold calculateSimplePath. cbv zeta.
    fold (offsetDirection from to).
    fold (offsetPoint from to from (simple_offset config)).
    fold (offsetPoint from to to (simple_offset config)).
    f_equal. f_equal.
    unfold distance, offsetPoint; cbn [x y]. f_equal. ring. }
  split; [exact E |]. split; [rewrite E; reflexivity |]. split.
  - intros Hne. destruct (offsetDirection_unit from to Hne) as [Hu Ho].
    split; [exact Hu |]. split; [exact Ho |].
    assert (Hd : forall p, distance p (offsetPoint from to p (simple_offset config))
                           = Rabs (simple_offset config)).
    { intros p. unfold distance, offsetPoint; cbn [x y].
      replace (x p + x (offsetDirection from to) * simple_offset config - x p)
        with (simple_offset config * x (offsetDirection from to)) by ring.
      replace (y p + y (offsetDirection from to) * simple_offset config - y p)
        with (simple_offset config * y (offsetDirection from to)) by ring.
      rewrite sqrt_scaled, Hu, sqrt_1. ring. }
    split; apply Hd.
  - intros H0. rewrite E, H0, !offsetPoint_0. reflexivity.
Qed.

(** *** Perpendicular paths *)

Lemma counted_le (v : R) : 0 <= v -> 0 <= counted v <= v.
Proof. intros H. unfold counted. destruct (Rgt_dec v 0.001); lra. Qed.

Lemma pushIfLong_length (acc : PathAcc) (len : R) (seg : Types.PathSegment)
    (cc : CoordTransformConfig) :
  snd (pushIfLong acc len seg cc) = snd acc + counted len * multiplier cc.
Proof.
  unfold pushIfLong, counted. destruct (Rgt_dec len 0.001); cbn; ring.
Qed.

Lemma pushIfLong_lines (acc : PathAcc) (len : R) (seg : Types.PathSegment)
    (cc : CoordTransformConfig) :
  Forall isLine (fst acc) -> (0.001 < len -> isLine seg) ->
  Forall isLine (fst (pushIfLong acc len seg cc)).
Proof.
  intros Hacc Hseg. unfold pushIfLong.
  destruct (Rgt_dec len 0.001) as [H | H]; cbn; [| exact Hacc].
  apply Forall_app. split; [exact Hacc |]. constructor; [apply Hseg; lra | constructor].
Qed.

(** The three pieces of an L with a rounded corner at [corner]. *)
Lemma rounded_L_length (p1 corner p2 : Point2D) (factor : R)
    (cc : CoordTransformConfig) :
  0 <= factor -> 0 <= multiplier cc ->
  let rc := applyRoundCorner p1 corner p2 factor in
  let acc := pushIfLong ([], 0) (distance p1 (cornerStart rc))
               (lineSegment p1 (cornerStart rc) cc) cc in
  let acc := pushIfLong acc
               (quadraticBezierLength (cornerStart rc) (control rc)
                  (cornerEnd rc))
               (quadraticSegment (cornerStart rc) (control rc)
                  (cornerEnd rc) cc) cc in
  let acc := pushIfLong acc (distance (cornerEnd rc) p2)
               (lineSegment (cornerEnd rc) p2 cc) cc in
  snd acc <= (distance corner p1 + distance corner p2) * multiplier cc
  /\ (factor = 0 ->
      snd acc = (counted (distance corner p1) + counted (distance corner p2))
                * multiplier cc
      /\ Forall isLine (fst acc)).
Proof.
  intros Hf Hm. cbv zeta.
  destruct (applyRoundCorner_shape p1 corner p2 factor Hf) as (E0 & E1 & E2 & E3 & E4).
  cbv zeta in E0, E1, E2, E3, E4.
  destruct (cornerReach_bounds p1 corner p2 factor Hf) as (Hc & H1 & H2).
  set (rc := applyRoundCorner p1 corner p2 factor) in *.
  set (c := cornerReach p1 corner p2 factor) in *.
  rewrite !pushIfLong_length. cbn [snd].
  destruct (quadraticBezierLength_sampled (cornerStart rc) (control rc)
              (cornerEnd rc)) as [Hlo Hq].
  rewrite (distance_sym (cornerStart rc) (control rc)) in Hq.
  assert (E1' : distance (control rc) (cornerStart rc) = c)
    by (rewrite E0; exact E1).
  assert (E2' : distance (control rc) (cornerEnd rc) = c)
    by (rewrite E0; exact E2).
  rewrite E1', E2' in Hq.
  pose proof (distance_nonneg (cornerStart rc) (cornerEnd rc)) as Hse.
  set (q := quadraticBezierLength (cornerStart rc) (control rc)
              (cornerEnd rc)) in *.
  assert (Hq0 : 0 <= q) by lra.
  rewrite E3, E4.
  split.
  - pose proof (counted_le (distance corner p1 - c) ltac:(lra)).
    pose proof (counted_le (distance corner p2 - c) ltac:(lra)).
    pose proof (counted_le _ Hq0).
    rewrite Rplus_0_l, <- !Rmult_plus_distr_r.
    apply Rmult_le_compat_r; [exact Hm |]. lra.
  - intros F0. assert (Hc0 : c = 0) by lra.
    assert (Hqz : q = 0) by lra.
    rewrite Hqz, Hc0, !Rminus_0_r.
    split.
    + unfold counted at 2. destruct (Rgt_dec 0 0.001); [lra |]. ring.
    + repeat apply pushIfLong_lines; try (intros _; reflexivity); [constructor |].
      lra.
Qed.

(** X15.  Rounding the corner never lengthens a perpendicular path.  For a
    non-negative rounding factor and a non-negative multiplier, the length
    of the perpendicular path is at most the multiplier times the length of
    the unrounded L between the two offset endpoints, that is, the sum of
    their horizontal and vertical distances.  With rounding factor 0 the
    path has no curve, and its length is exactly that of the legs longer
    than [0.001]. *)
Theorem perpendicular_path_at_most_L (from to : Point2D)
    (config : PerpendicularConfig) (cc : CoordTransformConfig) :
  0 <= roundCornerFactor config -> 0 <= multiplier cc ->
  let p1 := offsetPoint from to from (offsetFrom config) in
  let p2 := offsetPoint from to to (offsetTo config) in
  let path := calculatePerpendicularPath from to config cc in
  Types.length path
  <= (Rabs (x p2 - x p1) + Rabs (y p2 - y p1)) * multiplier cc
  /\ (roundCornerFactor config = 0 ->
      Types.length path
      = (counted (Rabs (x p2 - x p1)) + counted (Rabs (y p2 - y p1)))
        * multiplier cc
      /\ Forall isLine (Types.segments path)).
Proof.
  intros Hf Hm. cbv zeta.
  unfold calculatePerpendicularPath. cbv zeta.
  fold (offsetDirection from to).
  fold (offsetPoint from to from (offsetFrom config)).
  fold (offsetPoint from to to (offsetTo config)).
  set (p1 := offsetPoint from to from (offsetFrom config)).
  set (p2 := offsetPoint from to to (offsetTo config)).
  set (corner := match startFrom config with
                 | start_from => _
                 | start_to => _
                 end).
  assert (Hcorner : corner = {| x := x p2; y := y p1 |}
                    \/ corner = {| x := x p1; y := y p2 |}).
  { unfold corner. destruct (startFrom config), (Rge_dec _ _); auto. }
  assert (Hlegs : (distance corner p1 = Rabs (x p2 - x p1)
                   /\ distance corner p2 = Rabs (y p2 - y p1))
                  \/ (distance corner p1 = Rabs (y p2 - y p1)
                      /\ distance corner p2 = Rabs (x p2 - x p1))).
  { destruct Hcorner as [-> | ->]; [left | right]; unfold distance; cbn [x y].
    - split.
      + replace (y p1 - y p1) with 0 by ring.
        rewrite hyp_axis_x, <- Rabs_Ropp. f_equal. ring.
      + replace (x p2 - x p2) with 0 by ring. apply hyp_axis_y.
    - split.
      + replace (x p1 - x p1) with 0 by ring.
        rewrite hyp_axis_y, <- Rabs_Ropp. f_equal. ring.
      + replace (y p2 - y p2) with 0 by ring. apply hyp_axis_x. }
  destruct (rounded_L_length p1 corner p2 (roundCornerFactor config) cc Hf Hm)
    as [Hle Hz].
  cbv zeta in Hle, Hz. unfold toEdgePath. cbn [Types.length Types.segments].
  split.
  - destruct Hlegs as [[E1 E2] | [E1 E2]]; rewrite E1, E2 in Hle; lra.
  - intros F0. destruct (Hz F0) as [Hs Hl]. split; [| exact Hl].
    destruct Hlegs as [[E1 E2] | [E1 E2]]; rewrite E1, E2 in Hs; lra.
Qed.

Lemma perpendicular_path_at_most_L_witness :
  Types.length
    (calculatePerpendicularPath {| x := 0; y := 0 |} {| x := 3; y := 4 |}
       {| startFrom := start_from; offsetFrom := 0; offsetTo := 0;
          roundCornerFactor := 1 |} unitScaleConfig)
  <= (Rabs (x (offsetPoint {| x := 0; y := 0 |} {| x := 3; y := 4 |}
                    {| x := 3; y := 4 |} 0)
            - x (offsetPoint {| x := 0; y := 0 |} {| x := 3; y := 4 |}
                      {| x := 0; y := 0 |} 0))
      + Rabs (y (offsetPoint {| x := 0; y := 0 |} {| x := 3; y := 4 |}
                      {| x := 3; y := 4 |} 0)
              - y (offsetPoint {| x := 0; y := 0 |} {| x := 3; y := 4 |}
                        {| x := 0; y := 0 |} 0)))
     * multiplier unitScaleConfig.
Proof.
  assert (Hf : 0 <= 1) by lra.
  assert (Hm : 0 <= multiplier unitScaleConfig) by (cbn; lra).
  exact (proj1 (perpendicular_path_at_most_L {| x := 0; y := 0 |}
                  {| x := 3; y := 4 |}
                  {| startFrom := start_from; offsetFrom := 0; offsetTo := 0;
                     roundCornerFactor := 1 |} unitScaleConfig Hf Hm)).
Defined.

(** *** Diagonal paths *)

Lemma signOr1_cases (v : R) :
  (0 <= v /\ signOr1 v = 1) \/ (v < 0 /\ signOr1 v = -1).
Proof.
  unfold signOr1, sign.
  destruct (Rgt_dec v 0) as [Hp | Hnp].
  - left. split; [lra |]. destruct (Req_dec_T 1 0); [lra | reflexivity].
  - destruct (Rlt_dec v 0) as [Hn | Hnn].
    + right. split; [lra |]. destruct (Req_dec_T (-1) 0); [lra | reflexivity].
    + left. split; [lra |]. destruct (Req_dec_T 0 0); [reflexivity | contradiction].
Qed.

Lemma signOr1_abs (v : R) : signOr1 v * Rabs v = v.
Proof.
  destruct (signOr1_cases v) as [[H ->] | [H ->]].
  - rewrite Rabs_pos_eq by exact H. ring.
  - rewrite Rabs_left by exact H. ring.
Qed.

Lemma signOr1_Rabs (v : R) : Rabs (signOr1 v) = 1.
Proof.
  destruct (signOr1_cases v) as [[_ ->] | [_ ->]].
  - apply Rabs_R1.
  - rewrite Rabs_left by lra. lra.
Qed.

Lemma signOr1_sqr (v : R) : signOr1 v * signOr1 v = 1.
Proof. destruct (signOr1_cases v) as [[_ ->] | [_ ->]]; ring. Qed.

Lemma hyp_signed (s t u v : R) :
  s * s = 1 -> t * t = 1 -> 0 <= u -> 0 <= v -> u = 0 \/ v = 0 ->
  sqrt ((s * u) * (s * u) + (t * v) * (t * v)) = u + v.
Proof.
  intros Hs Ht Hu Hv [-> | ->].
  - replace (s * 0 * (s * 0) + t * v * (t * v)) with (Rsqr v)
      by (unfold Rsqr; nra).
    rewrite sqrt_Rsqr by exact Hv. ring.
  - replace (s * u * (s * u) + t * 0 * (t * 0)) with (Rsqr u)
      by (unfold Rsqr; nra).
    rewrite sqrt_Rsqr by exact Hu. ring.
Qed.

Lemma hyp_diagonal (s t m : R) :
  s * s = 1 -> t * t = 1 -> 0 <= m ->
  sqrt ((s * m) * (s * m) + (t * m) * (t * m)) = sqrt 2 * m.
Proof.
  intros Hs Ht Hm.
  replace (s * m * (s * m) + t * m * (t * m)) with (2 * Rsqr m)
    by (unfold Rsqr; nra).
  rewrite sqrt_mult by (try apply Rle_0_sqr; lra).
  now rewrite sqrt_Rsqr.
Qed.

(** The distance between the end of the rounding at [k] and the start of
    the rounding at [b], both on the run from [k] to [b]. *)
Lemma between_corners (k b : Point2D) (r1 r2 : R) :
  0 <= r1 <= distance k b * 0.5 -> 0 <= r2 <= distance b k * 0.5 ->
  let u := normalize {| x := x b - x k; y := y b - y k |} in
  let u' := normalize {| x := x k - x b; y := y k - y b |} in
  distance {| x := x k + x u * r1; y := y k + y u * r1 |}
              {| x := x b + x u' * r2; y := y b + y u' * r2 |}
  = distance k b - r1 - r2.
Proof.
  intros H1 H2. cbv zeta.
  rewrite (distance_sym b k) in H2.
  pose proof (distance_nonneg k b) as Hd.
  set (v := {| x := x b - x k; y := y b - y k |}).
  set (v' := {| x := x k - x b; y := y k - y b |}).
  assert (Hv : vectorLength v = distance k b) by reflexivity.
  assert (Hv' : vectorLength v' = distance k b)
    by (rewrite distance_sym; reflexivity).
  destruct (Rle_lt_or_eq_dec _ _ Hd) as [Hpos | Hz].
  - destruct (normalize_guarded v) as [[_ En] | [E _]]; [| lra].
    destruct (normalize_guarded v') as [[_ En'] | [E _]]; [| lra].
    rewrite En, En', Hv, Hv'. cbn [x y v v'].
    set (d := distance k b) in *.
    unfold distance at 1; cbn [x y].
    replace (x b + (x k - x b) / d * r2 - (x k + (x b - x k) / d * r1))
      with ((1 - (r1 + r2) / d) * (x b - x k)) by (field; lra).
    replace (y b + (y k - y b) / d * r2 - (y k + (y b - y k) / d * r1))
      with ((1 - (r1 + r2) / d) * (y b - y k)) by (field; lra).
    rewrite sqrt_scaled. fold (distance k b). fold d.
    assert (Hle : 0 <= 1 - (r1 + r2) / d).
    { apply Rmult_le_reg_r with d; [exact Hpos |].
      replace ((1 - (r1 + r2) / d) * d) with (d - (r1 + r2)) by (field; lra). lra. }
    rewrite Rabs_pos_eq by exact Hle. field. lra.
  - symmetry in Hz. assert (r1 = 0) by lra. assert (r2 = 0) by lra. subst r1 r2.
    rewrite Hz. unfold distance; cbn [x y].
    pose proof (distance_zero_eq k b Hz) as <-.
    replace (x k + x (normalize v') * 0 - (x k + x (normalize v) * 0))
      with 0 by ring.
    replace (y k + y (normalize v') * 0 - (y k + y (normalize v) * 0))
      with 0 by ring.
    replace (0 * 0 + 0 * 0) with 0 by ring. rewrite sqrt_0. ring.
Qed.

(** The five pieces of a three-run path with rounded corners at [c1] and
    [c2]. *)
Lemma rounded_Z_length (p1 c1 c2 p2 : Point2D) (factor : R)
    (cc : CoordTransformConfig) :
  0 <= factor -> 0 <= multiplier cc ->
  let round1 := applyRoundCorner p1 c1 c2 factor in
  let round2 := applyRoundCorner c1 c2 p2 factor in
  let acc := pushIfLong ([], 0) (distance p1 (cornerStart round1))
               (lineSegment p1 (cornerStart round1) cc) cc in
  let acc := pushIfLong acc
               (quadraticBezierLength (cornerStart round1) (control round1)
                  (cornerEnd round1))
               (quadraticSegment (cornerStart round1) (control round1)
                  (cornerEnd round1) cc) cc in
  let acc := pushIfLong acc
               (distance (cornerEnd round1) (cornerStart round2))
               (lineSegment (cornerEnd round1) (cornerStart round2) cc) cc in
  let acc := pushIfLong acc
               (quadraticBezierLength (cornerStart round2) (control round2)
                  (cornerEnd round2))
               (quadraticSegment (cornerStart round2) (control round2)
                  (cornerEnd round2) cc) cc in
  let acc := pushIfLong acc (distance (cornerEnd round2) p2)
               (lineSegment (cornerEnd round2) p2 cc) cc in
  snd acc <= (distance c1 p1 + distance c1 c2 + distance c2 p2)
             * multiplier cc.
Proof.
  intros Hf Hm. cbv zeta.
  destruct (applyRoundCorner_shape p1 c1 c2 factor Hf) as (A0 & A1 & A2 & A3 & _).
  destruct (applyRoundCorner_shape c1 c2 p2 factor Hf) as (B0 & B1 & B2 & _ & B4).
  cbv zeta in A0, A1, A2, A3, B0, B1, B2, B4.
  destruct (cornerReach_bounds p1 c1 c2 factor Hf) as (Ha & Ha1 & Ha2).
  destruct (cornerReach_bounds c1 c2 p2 factor Hf) as (Hb & Hb1 & Hb2).
  assert (Hmid : distance (cornerEnd (applyRoundCorner p1 c1 c2 factor))
                   (cornerStart (applyRoundCorner c1 c2 p2 factor))
                 = distance c1 c2 - cornerReach p1 c1 c2 factor
                   - cornerReach c1 c2 p2 factor).
  { unfold applyRoundCorner. cbv zeta. cbn [cornerStart cornerEnd].
    fold (cornerReach p1 c1 c2 factor). fold (cornerReach c1 c2 p2 factor).
    apply between_corners; lra. }
  set (round1 := applyRoundCorner p1 c1 c2 factor) in *.
  set (round2 := applyRoundCorner c1 c2 p2 factor) in *.
  set (r1 := cornerReach p1 c1 c2 factor) in *.
  set (r2 := cornerReach c1 c2 p2 factor) in *.
  rewrite !pushIfLong_length. cbn [snd].
  destruct (quadraticBezierLength_sampled (cornerStart round1) (control round1)
              (cornerEnd round1)) as [Hlo1 Hq1].
  destruct (quadraticBezierLength_sampled (cornerStart round2) (control round2)
              (cornerEnd round2)) as [Hlo2 Hq2].
  rewrite (distance_sym (cornerStart round1) (control round1)) in Hq1.
  rewrite (distance_sym (cornerStart round2) (control round2)) in Hq2.
  assert (A1' : distance (control round1) (cornerStart round1) = r1)
    by (rewrite A0; exact A1).
  assert (A2' : distance (control round1) (cornerEnd round1) = r1)
    by (rewrite A0; exact A2).
  assert (B1' : distance (control round2) (cornerStart round2) = r2)
    by (rewrite B0; exact B1).
  assert (B2' : distance (control round2) (cornerEnd round2) = r2)
    by (rewrite B0; exact B2).
  rewrite A1', A2' in Hq1. rewrite B1', B2' in Hq2.
  pose proof (distance_nonneg (cornerStart round1) (cornerEnd round1)).
  pose proof (distance_nonneg (cornerStart round2) (cornerEnd round2)).
  set (q1 := quadraticBezierLength (cornerStart round1) (control round1)
               (cornerEnd round1)) in *.
  set (q2 := quadraticBezierLength (cornerStart round2) (control round2)
               (cornerEnd round2)) in *.
  rewrite A3, Hmid, B4.
  pose proof (distance_sym c1 c2) as Hsym.
  pose proof (counted_le (distance c1 p1 - r1) ltac:(lra)).
  pose proof (counted_le (distance c1 c2 - r1 - r2) ltac:(lra)).
  pose proof (counted_le (distance c2 p2 - r2) ltac:(lra)).
  pose proof (counted_le q1 ltac:(lra)).
  pose proof (counted_le q2 ltac:(lra)).
  rewrite Rplus_0_l, <- !Rmult_plus_distr_r.
  apply Rmult_le_compat_r; [exact Hm |]. lra.
Qed.

(** X16.  Rounding never lengthens a diagonal path either.  For a
    non-negative rounding factor and a non-negative multiplier, the length
    of the diagonal path is at most the multiplier times the length of the
    unrounded three-run polyline between the two offset endpoints: with
    [dx] and [dy] their horizontal and vertical distances and [m] the
    smaller of the two, a run of [m] along both axes at once (length
    [sqrt 2 * m]) and axis-parallel runs for the remaining [dx - m] and
    [dy - m]. *)
Theorem diagonal_path_at_most_octilinear (from to : Point2D)
    (config : DiagonalConfig) (cc : CoordTransformConfig) :
  0 <= roundCornerFactor config -> 0 <= multiplier cc ->
  let p1 := offsetPoint from to from (offsetFrom config) in
  let p2 := offsetPoint from to to (offsetTo config) in
  let dx := Rabs (x p2 - x p1) in
  let dy := Rabs (y p2 - y p1) in
  let m := Rmin dx dy in
  Types.length (calculateDiagonalPath from to config cc)
  <= ((dx - m) + (dy - m) + sqrt 2 * m) * multiplier cc.
Proof.
  intros Hf Hm. cbv zeta.
  unfold calculateDiagonalPath. cbv zeta.
  fold (offsetDirection from to).
  fold (offsetPoint from to from (offsetFrom config)).
  fold (offsetPoint from to to (offsetTo config)).
  set (p1 := offsetPoint from to from (offsetFrom config)).
  set (p2 := offsetPoint from to to (offsetTo config)).
  set (Dx := x p2 - x p1). set (Dy := y p2 - y p1).
  set (sx := signOr1 Dx). set (sy := signOr1 Dy).
  set (ax := Rabs Dx). set (ay := Rabs Dy).
  set (m := Rmin ax ay).
  assert (Hsx : sx * sx = 1) by apply signOr1_sqr.
  assert (Hsy : sy * sy = 1) by apply signOr1_sqr.
  assert (Hasx : Rabs sx = 1) by apply signOr1_Rabs.
  assert (Ex : Dx = sx * ax) by (symmetry; apply signOr1_abs).
  assert (Ey : Dy = sy * ay) by (symmetry; apply signOr1_abs).
  assert (X2 : x p2 = x p1 + sx * ax) by (rewrite <- Ex; unfold Dx; ring).
  assert (Y2 : y p2 = y p1 + sy * ay) by (rewrite <- Ey; unfold Dy; ring).
  assert (Hax : 0 <= ax) by apply Rabs_pos.
  assert (Hay : 0 <= ay) by apply Rabs_pos.
  assert (Hm0 : 0 <= m) by (unfold m; apply Rmin_glb; assumption).
  assert (Hmx : m <= ax) by apply Rmin_l.
  assert (Hmy : m <= ay) by apply Rmin_r.
  assert (Hmin : ax - m = 0 \/ ay - m = 0).
  { unfold m, Rmin. destruct (Rle_dec ax ay); [left | right]; ring. }
  set (corners := match startFrom config with
                  | start_from => _
                  | start_to => _
                  end).
  assert (Hlegs : distance (fst corners) p1 + distance (fst corners) (snd corners)
                  + distance (snd corners) p2
                  = (ax - m) + (ay - m) + sqrt 2 * m).
  { assert (Hhalf : forall u, 0 <= u ->
                      sqrt ((sx * (u / 2)) * (sx * (u / 2)) + 0 * 0) = u / 2).
    { intros u Hu. rewrite hyp_axis_x, Rabs_mult, Hasx.
      rewrite Rabs_pos_eq by lra. ring. }
    unfold corners. clearbody m sx sy ax ay.
    destruct (startFrom config); cbn [fst snd];
      unfold distance; cbn [x y]; rewrite Ex, X2, Y2.
    - replace (x p1 - (x p1 + (sx * ax - sx * m) / 2))
        with (sx * (- ((ax - m) / 2))) by field.
      replace (y p1 - y p1) with 0 by ring.
      replace (x p1 + (sx * ax - sx * m) / 2 + sx * m
               - (x p1 + (sx * ax - sx * m) / 2))
        with (sx * m) by ring.
      replace (y p1 + sy * m - y p1) with (sy * m) by ring.
      replace (x p1 + sx * ax - (x p1 + (sx * ax - sx * m) / 2 + sx * m))
        with (sx * ((ax - m) / 2)) by field.
      replace (y p1 + sy * ay - (y p1 + sy * m)) with (sy * (ay - m)) by ring.
      rewrite hyp_diagonal by assumption.
      replace (sx * - ((ax - m) / 2) * (sx * - ((ax - m) / 2)))
        with (sx * ((ax - m) / 2) * (sx * ((ax - m) / 2))) by ring.
      rewrite Hhalf by lra.
      rewrite hyp_signed; try assumption; lra.
    - replace (x p1 - (x p1 + sx * ax - (sx * ax - sx * m) / 2 - sx * m))
        with (sx * (- ((ax - m) / 2))) by field.
      replace (y p1 - (y p1 + sy * ay - sy * m)) with (sy * (- (ay - m)))
        by ring.
      replace (x p1 + sx * ax - (sx * ax - sx * m) / 2
               - (x p1 + sx * ax - (sx * ax - sx * m) / 2 - sx * m))
        with (sx * m) by ring.
      replace (y p1 + sy * ay - (y p1 + sy * ay - sy * m)) with (sy * m) by ring.
      replace (x p1 + sx * ax - (x p1 + sx * ax - (sx * ax - sx * m) / 2))
        with (sx * ((ax - m) / 2)) by field.
      replace (y p1 + sy * ay - (y p1 + sy * ay)) with 0 by ring.
      rewrite hyp_diagonal by assumption.
      rewrite Hhalf by lra.
      replace (sx * - ((ax - m) / 2) * (sx * - ((ax - m) / 2))
               + sy * - (ay - m) * (sy * - (ay - m)))
        with (sx * ((ax - m) / 2) * (sx * ((ax - m) / 2))
              + sy * (ay - m) * (sy * (ay - m))) by ring.
      rewrite hyp_signed; try assumption; lra. }
  pose proof (rounded_Z_length p1 (fst corners) (snd corners) p2
                (roundCornerFactor config) cc Hf Hm) as Hle.
  cbv zeta in Hle. unfold toEdgePath. cbn [Types.length].
  rewrite Hlegs in Hle. exact Hle.
Qed.

Lemma diagonal_path_at_most_octilinear_witness :
  let from := {| x := 0; y := 0 |} in
  let to := {| x := 3; y := 4 |} in
  let config := {| startFrom := start_from; offsetFrom := 0; offsetTo := 0;
                   roundCornerFactor := 1 |} in
  let p1 := offsetPoint from to from (offsetFrom config) in
  let p2 := offsetPoint from to to (offsetTo config) in
  let dx := Rabs (x p2 - x p1) in
  let dy := Rabs (y p2 - y p1) in
  let m := Rmin dx dy in
  Types.length (calculateDiagonalPath from to config unitScaleConfig)
  <= ((dx - m) + (dy - m) + sqrt 2 * m) * multiplier unitScaleConfig.
Proof.
  assert (Hf : 0 <= 1) by lra.
  assert (Hm : 0 <= multiplier unitScaleConfig) by (cbn; lra).
  exact (diagonal_path_at_most_octilinear {| x := 0; y := 0 |}
           {| x := 3; y := 4 |}
           {| startFrom := start_from; offsetFrom := 0; offsetTo := 0;
              roundCornerFactor := 1 |} unitScaleConfig Hf Hm).
Defined.


End PathLengthsProperties.

(** ** Colour groups and emitted lines *)

Section LinesProperties.

Import RmpParser.

(** *** Emitted lines *)

Section ColourGroups.

Lemma groupByColor_snoc (edges : list RMPEdge) (e : RMPEdge) :
  groupByColor (edges ++ [e]) = groupStep (groupByColor edges) e.
Proof. unfold groupByColor. now rewrite fold_left_app. Qed.

Lemma has_get {V : Type} (k : string) (m : JsMap.t V) :
  JsMap.has k m = true <-> exists v, JsMap.get k m = Some v.
Proof.
  unfold JsMap.has. destruct (JsMap.get k m) as [v |].
  - split; [intros _; now exists v | reflexivity].
  - split; [discriminate | intros [v H]; discriminate].
Qed.

Lemma in_get {V : Type} (k : string) (v : V) (m : JsMap.t V) :
  NoDup (map fst m) -> In (k, v) m -> JsMap.get k m = Some v.
Proof.
  induction m as [| [k' v'] m IH]; cbn; [intros _ [] |].
  intros Hnd Hin. inversion Hnd as [| ? ? Hnotin Hnd']; subst.
  destruct Hin as [[= -> ->] | Hin].
  - now rewrite String.eqb_refl.
  - destruct (String.eqb k' k) eqn:E; [| now apply IH].
    apply String.eqb_eq in E. subst k'.
    exfalso. apply Hnotin. apply in_map_iff. now exists (k, v).
Qed.

(** What one iteration does to the group of colour [c]. *)
Lemma groupStep_get (m : JsMap.t (list RMPEdge)) (e : RMPEdge) (c : string) :
  JsMap.get c (groupStep m e)
  = if visible e && String.eqb (getEdgeColor e) c
    then Some (match JsMap.get c m with Some g => g | None => [] end ++ [e])
    else JsMap.get c m.
Proof.
  unfold groupStep. destruct (visible e); cbn [negb andb]; [| reflexivity].
  destruct (String.eqb (getEdgeColor e) c) eqn:Ec.
  - apply String.eqb_eq in Ec. subst c.
    unfold JsMap.has.
    destruct (JsMap.get (getEdgeColor e) m) as [g |] eqn:Eg; cbn [negb].
    + rewrite Eg. apply get_set_same.
    + rewrite get_set_same. rewrite get_set_same. reflexivity.
  - apply String.eqb_neq in Ec.
    assert (Hne : c <> getEdgeColor e) by congruence.
    destruct (negb (JsMap.has (getEdgeColor e) m)).
    + rewrite get_set_same. now rewrite !get_set_other.
    + destruct (JsMap.get (getEdgeColor e) m); [| reflexivity].
      now rewrite get_set_other.
Qed.

Lemma groupStep_keys (m : JsMap.t (list RMPEdge)) (e : RMPEdge) :
  map fst (groupStep m e)
  = if visible e then JsSet.add (getEdgeColor e) (map fst m) else map fst m.
Proof.
  unfold groupStep. destruct (visible e); cbn [negb]; [| reflexivity].
  assert (Hhas : JsSet.has (getEdgeColor e) (map fst m)
                 = JsMap.has (getEdgeColor e) m).
  { apply eq_true_iff_eq. rewrite set_has_in, has_get. split.
    - intros Hin. destruct (JsMap.get (getEdgeColor e) m) as [v |] eqn:E;
        [now exists v |].
      now apply get_none_not_key in E.
    - intros [v Hv]. apply get_in in Hv. apply in_map_iff.
      now exists (getEdgeColor e, v). }
  unfold JsSet.add. rewrite Hhas.
  destruct (JsMap.has (getEdgeColor e) m) eqn:E; cbn [negb].
  - apply has_get in E. destruct E as [g Eg]. rewrite Eg.
    rewrite keys_set.
    assert (E' : JsMap.has (getEdgeColor e) m = true)
      by (apply has_get; now exists g).
    now rewrite E'.
  - rewrite get_set_same, keys_set.
    assert (E' : JsMap.has (getEdgeColor e) (JsMap.set (getEdgeColor e) [] m) = true)
      by (apply has_get; eexists; apply get_set_same).
    rewrite E', keys_set, E. reflexivity.
Qed.

Lemma edgesOfColor_snoc (edges : list RMPEdge) (e : RMPEdge) (c : string) :
  edgesOfColor (edges ++ [e]) c
  = edgesOfColor edges c
    ++ (if visible e && String.eqb (getEdgeColor e) c then [e] else []).
Proof. unfold edgesOfColor. rewrite filter_app. reflexivity. Qed.

Lemma groupByColor_get (edges : list RMPEdge) (c : string) :
  JsMap.get c (groupByColor edges)
  = match edgesOfColor edges c with
    | [] => None
    | g => Some g
    end.
Proof.
  induction edges as [| e edges IH] using rev_ind; [reflexivity |].
  rewrite groupByColor_snoc, groupStep_get, edgesOfColor_snoc, IH.
  destruct (visible e && String.eqb (getEdgeColor e) c).
  - destruct (edgesOfColor edges c) as [| e0 g]; reflexivity.
  - now rewrite app_nil_r.
Qed.

Lemma groupByColor_keys (edges : list RMPEdge) :
  map fst (groupByColor edges)
  = JsSet.dedup (map getEdgeColor (filter visible edges)).
Proof.
  induction edges as [| e edges IH] using rev_ind; [reflexivity |].
  rewrite groupByColor_snoc, groupStep_keys, IH, filter_app, map_app.
  unfold JsSet.dedup. rewrite fold_left_app. cbn [filter].
  destruct (visible e); cbn; [reflexivity | reflexivity].
Qed.

Lemma dedup_NoDup (arr : list string) : NoDup (JsSet.dedup arr).
Proof.
  unfold JsSet.dedup.
  assert (H : forall acc, NoDup acc ->
                          NoDup (fold_left (fun acc k => JsSet.add k acc) arr acc)).
  { induction arr as [| a arr IH]; intros acc Hacc; cbn; [exact Hacc |].
    apply IH. unfold JsSet.add. destruct (JsSet.has a acc) eqn:E; [exact Hacc |].
    apply NoDup_app; [exact Hacc | repeat constructor; intros [] |].
    intros x Hx [<- | []]. apply set_has_in in Hx. congruence. }
  apply H. constructor.
Qed.

Lemma groupByColor_hidden (edges : list RMPEdge) :
  groupByColor (filter visible edges) = groupByColor edges.
Proof.
  unfold groupByColor. generalize (@nil (string * list RMPEdge)) as acc.
  induction edges as [| e edges IH]; intros acc; cbn [filter fold_left];
    [reflexivity |].
  destruct (visible e) eqn:E; cbn [fold_left negb]; rewrite ?E; cbn [negb];
    apply IH.
Qed.

End ColourGroups.

(** X17.  Lines are built from the visible edges, one group per colour.
    [groupByColor] has one entry per colour of a visible edge, in the order
    in which the colours first occur; the entry of a colour holds exactly
    the visible edges of that colour, in document order, and is never
    empty; hidden edges appear in no group.  So hiding an edge is the same
    as deleting it: [parseRMPData] returns the same result on the graph
    without its hidden edges. *)
Theorem lines_are_grouped_by_colour (data : RMPData) (worldId : string) :
  let groups := groupByColor (edges data) in
  map fst groups
  = JsSet.dedup (map getEdgeColor (filter visible (edges data)))
  /\ NoDup (map fst groups)
  /\ (forall c g, In (c, g) groups <-> g = edgesOfColor (edges data) c /\ g <> [])
  /\ (forall c g e, In (c, g) groups ->
        (In e g <-> In e (edges data) /\ visible e = true /\ getEdgeColor e = c))
  /\ parseRMPData (withoutHiddenEdges data) worldId = parseRMPData data worldId.
Proof.
  cbv zeta.
  assert (Hnd : NoDup (map fst (groupByColor (edges data))))
    by (rewrite groupByColor_keys; apply dedup_NoDup).
  assert (Hin : forall c g, In (c, g) (groupByColor (edges data))
                            <-> g = edgesOfColor (edges data) c /\ g <> []).
  { intros c g. split.
    - intros H. apply (in_get _ _ _ Hnd) in H. rewrite groupByColor_get in H.
      destruct (edgesOfColor (edges data) c) as [| e0 g0]; [discriminate |].
      injection H as <-. split; [reflexivity | discriminate].
    - intros [-> Hne]. apply get_in. rewrite groupByColor_get.
      destruct (edgesOfColor (edges data) c); [contradiction | reflexivity]. }
  split; [apply groupByColor_keys |]. split; [exact Hnd |]. split; [exact Hin |].
  split.
  - intros c g e H. apply Hin in H. destruct H as [-> _].
    unfold edgesOfColor. rewrite filter_In, andb_true_iff, String.eqb_eq. tauto.
  - unfold parseRMPData, withoutHiddenEdges; cbn [nodes edges].
    now rewrite groupByColor_hidden.
Qed.

Section EmittedLines.

Variable data : RMPData.
Variable lineBadges : JsMap.t Badge.
Variable cc : RmpPathCalculator.CoordTransformConfig.

(** [buildLine] either leaves the lines and the counter alone, or appends
    [emittedLine] and increments the counter. *)
Lemma buildLine_cases (st : BuildState) (group : string * list RMPEdge) :
  let st' := buildLine (buildNodeMap (nodes data)) lineBadges cc st group in
  (lines st' = lines st /\ lineIndex st' = lineIndex st)
  \/ (lines st'
      = lines st
        ++ [emittedLine (buildNodeMap (nodes data)) lineBadges cc st group]
      /\ lineIndex st' = S (lineIndex st)).
Proof.
  cbv zeta. unfold buildLine, emittedLine.
  destruct (getOrderedStationsWithEdges (snd group)) as [ks es]. cbn [fst snd].
  destruct (length _ <? 2)%nat; [left; split; reflexivity |].
  destruct (buildLineStations _ cc _ (allStationsMap st)) as [lineStations m'].
  cbn [fst].
  destruct (2 <=? length lineStations)%nat; [right | left]; split; reflexivity.
Qed.

Lemma codesIncrease_snoc (stations : list Types.ParsedStation)
    (s : Types.ParsedStation) :
  codesIncrease stations ->
  (forall a, In a stations -> (Types.stationCode a < Types.stationCode s)%nat) ->
  codesIncrease (stations ++ [s]).
Proof.
  intros Hinc Hlt i j a b Hij Ha Hb.
  assert (Hj : (j < length (stations ++ [s]))%nat)
    by (apply nth_error_Some; congruence).
  rewrite length_app in Hj; cbn in Hj.
  rewrite nth_error_app1 in Ha by lia.
  destruct (Nat.eq_dec j (length stations)) as [-> | Hne].
  - rewrite nth_error_app2, Nat.sub_diag in Hb by lia. cbn in Hb.
    injection Hb as <-. apply Hlt. eapply nth_error_In, Ha.
  - assert (Hx : (j < length stations)%nat) by lia.
    rewrite (nth_error_app1 _ _ Hx) in Hb. exact (Hinc i j a b Hij Ha Hb).
Qed.

Lemma addStation_stationsOk (lineName : string) (k : nat)
    (acc : list Types.ParsedStation * JsMap.t Types.ParsedStation)
    (node : RMPNode) (j : nat) :
  In node (nodes data) -> isStationNode node = true ->
  stationsOk data cc k (fst acc) ->
  stationsOk data cc (S k) (fst (addStation lineName cc acc (k, (node, j)))).
Proof.
  intros Hin Hst (Hfrom & Hinc & Hle). unfold addStation. cbn [fst snd].
  assert (Hkeep : stationsOk data cc (S k) (fst acc)).
  { split; [exact Hfrom |]. split; [exact Hinc |].
    intros s Hs. specialize (Hle s Hs). lia. }
  destruct (getStationName node) as [name |] eqn:En; [| exact Hkeep].
  destruct (truthy name) eqn:Et; cbn [negb]; [| exact Hkeep].
  cbn [fst]. split; [| split].
  - intros s Hs. apply in_app_iff in Hs. destruct Hs as [Hs | [<- | []]];
      [now apply Hfrom |].
    exists node. cbn. repeat split; try assumption; lia.
  - apply codesIncrease_snoc; [exact Hinc |].
    intros a Ha. specialize (Hle a Ha). cbn. lia.
  - intros s Hs. apply in_app_iff in Hs. destruct Hs as [Hs | [<- | []]].
    + specialize (Hle s Hs). lia.
    + cbn. lia.
Qed.

Lemma buildLineStations_stationsOk (lineName : string)
    (sn : list (RMPNode * nat)) (m0 : JsMap.t Types.ParsedStation) :
  (forall node i, In (node, i) sn ->
                  In node (nodes data) /\ isStationNode node = true) ->
  stationsOk data cc (length sn) (fst (buildLineStations lineName cc sn m0)).
Proof.
  intros Hsn. unfold buildLineStations.
  assert (H : forall (l : list (RMPNode * nat)) k acc,
             (forall node i, In (node, i) l ->
                             In node (nodes data) /\ isStationNode node = true) ->
             stationsOk data cc k (fst acc) ->
             stationsOk data cc (k + length l)
               (fst (fold_left (addStation lineName cc)
                       (combine (seq k (length l)) l) acc))).
  { induction l as [| [node j] l IH]; intros k acc Hl Hacc; cbn [length seq combine fold_left].
    - now rewrite Nat.add_0_r.
    - replace (k + S (length l))%nat with (S k + length l)%nat by lia.
      apply IH; [intros n i Hi; apply (Hl n i); now right |].
      destruct (Hl node j (or_introl eq_refl)) as [Hin Hst].
      now apply addStation_stationsOk. }
  apply (H sn 0%nat ([], m0) Hsn).
  split; [intros s [] |]. split; [| intros s []].
  intros i j a b _ Ha. destruct i; discriminate.
Qed.

Lemma buildLine_emittedOk (st : BuildState) (group : string * list RMPEdge) :
  emittedOk data lineBadges cc st ->
  emittedOk data lineBadges cc
    (buildLine (buildNodeMap (nodes data)) lineBadges cc st group).
Proof.
  intros [Hidx Hlines].
  destruct (buildLine_cases st group) as [[El Ei] | [El Ei]]; cbv zeta in El, Ei;
    unfold emittedOk; rewrite El, Ei.
  - split; assumption.
  - split; [rewrite length_app; cbn; lia |].
    intros i line Hi.
    destruct (Nat.lt_ge_cases i (length (lines st))) as [Hlt | Hge].
    + rewrite nth_error_app1 in Hi by exact Hlt. now apply Hlines.
    + assert (Hi' : (i < length (lines st ++ [emittedLine
                       (buildNodeMap (nodes data)) lineBadges cc st group]))%nat)
        by (apply nth_error_Some; congruence).
      rewrite length_app in Hi'; cbn in Hi'.
      assert (i = length (lines st)) by lia. subst i.
      rewrite nth_error_app2, Nat.sub_diag in Hi by lia. cbn in Hi.
      injection Hi as <-. unfold emittedLine.
      cbn [Types.lineId Types.bureau Types.line Types.color Types.stations].
      rewrite Hidx.
      split; [reflexivity |]. split; [reflexivity |]. split; [reflexivity |].
      pose proof (buildLineStations_stationsOk
                    (lineNameOf lineBadges (fst group)
                       (S (length (lines st))))
                    (stationNodes (buildNodeMap (nodes data))
                       (fst (getOrderedStationsWithEdges (snd group))))
                    (allStationsMap st)
                    (stationNodes_of_data data _)) as (Hfrom & Hinc & _).
      split; assumption.
Qed.

Lemma build_emittedOk (groups : JsMap.t (list RMPEdge)) (st : BuildState) :
  emittedOk data lineBadges cc st ->
  emittedOk data lineBadges cc
    (fold_left (buildLine (buildNodeMap (nodes data)) lineBadges cc)
       groups st).
Proof.
  revert st. induction groups as [| g groups IH]; intros st H; cbn; [exact H |].
  apply IH. now apply buildLine_emittedOk.
Qed.

(** The colours of the emitted lines are colours of groups, each used at
    most once. *)
Lemma build_colors (groups : JsMap.t (list RMPEdge)) (st : BuildState) :
  NoDup (map Types.color (lines st) ++ map fst groups) ->
  let final := fold_left (buildLine (buildNodeMap (nodes data)) lineBadges cc)
                 groups st in
  NoDup (map Types.color (lines final))
  /\ incl (map Types.color (lines final))
          (map Types.color (lines st) ++ map fst groups).
Proof.
  revert st. induction groups as [| g groups IH]; intros st Hnd; cbn [fold_left].
  - cbv zeta. rewrite app_nil_r in *. split; [exact Hnd | apply incl_refl].
  - cbn [map] in Hnd.
    destruct (buildLine_cases st g) as [[El _] | [El _]]; cbv zeta in El.
    + destruct (IH (buildLine (buildNodeMap (nodes data)) lineBadges cc st g))
        as [H1 H2].
      { rewrite El. eapply NoDup_remove_1, Hnd. }
      cbv zeta in H1, H2. split; [exact H1 |].
      intros c Hc. apply H2 in Hc. rewrite El in Hc.
      apply in_app_iff in Hc. apply in_app_iff.
      destruct Hc as [Hc | Hc]; [now left | right; now right].
    + destruct (IH (buildLine (buildNodeMap (nodes data)) lineBadges cc st g))
        as [H1 H2].
      { rewrite El, map_app, <- app_assoc. exact Hnd. }
      cbv zeta in H1, H2. split; [exact H1 |].
      intros c Hc. apply H2 in Hc. rewrite El, map_app, <- app_assoc in Hc.
      exact Hc.
Qed.

(** A property of every line [buildLine] can emit holds of every line of
    the final state. *)
Lemma emitted_lines_all (P : Types.ParsedLine -> Prop)
    (groups : JsMap.t (list RMPEdge)) (st : BuildState) :
  (forall st' g, P (emittedLine (buildNodeMap (nodes data)) lineBadges cc st' g)) ->
  (forall l, In l (lines st) -> P l) ->
  forall l,
    In l (lines (fold_left
                      (buildLine (buildNodeMap (nodes data)) lineBadges cc)
                      groups st)) ->
    P l.
Proof.
  intros Hem. revert st. induction groups as [| g groups IH]; intros st Hst;
    cbn [fold_left]; [exact Hst |].
  apply IH. intros l Hl.
  destruct (buildLine_cases st g) as [[El _] | [El _]]; cbv zeta in El;
    rewrite El in Hl; [now apply Hst |].
  apply in_app_iff in Hl. destruct Hl as [Hl | [<- | []]]; [now apply Hst | apply Hem].
Qed.

End EmittedLines.

Lemma refreshLine_fields (m : JsMap.t Types.ParsedStation) (line : Types.ParsedLine) :
  Types.lineId (refreshLine m line) = Types.lineId line
  /\ Types.bureau (refreshLine m line) = Types.bureau line
  /\ Types.line (refreshLine m line) = Types.line line
  /\ Types.color (refreshLine m line) = Types.color line
  /\ Types.edgePaths (refreshLine m line) = Types.edgePaths line
  /\ Types.stations (refreshLine m line)
     = map (refreshStation m) (Types.stations line).
Proof. repeat split. Qed.

Lemma refreshStation_fields (m : JsMap.t Types.ParsedStation) (s : Types.ParsedStation) :
  Types.name (refreshStation m s) = Types.name s
  /\ Types.coord (refreshStation m s) = Types.coord s
  /\ Types.stationCode (refreshStation m s) = Types.stationCode s.
Proof.
  unfold refreshStation. destruct (JsMap.get _ m); repeat split.
Qed.

Lemma numberToString_injective (a b : nat) :
  numberToString a = numberToString b -> a = b.
Proof.
  unfold numberToString. intros H.
  apply DecimalNat.Unsigned.to_uint_inj.
  pose proof (DecimalString.NilEmpty.usu (Nat.to_uint a)) as Ha.
  pose proof (DecimalString.NilEmpty.usu (Nat.to_uint b)) as Hb.
  rewrite H in Ha. congruence.
Qed.

Lemma lineIdOf_injective (a b : nat) : lineIdOf a = lineIdOf b -> a = b.
Proof.
  unfold lineIdOf. cbn. intros H. injection H as H.
  now apply numberToString_injective.
Qed.

Lemma final_emittedOk (data : RMPData) (worldId : string) :
  emittedOk data (getLineBadges (nodes data)) (worldCoordConfig worldId)
    (fold_left
       (buildLine (buildNodeMap (nodes data))
          (getLineBadges (nodes data)) (worldCoordConfig worldId))
       (groupByColor (edges data))
       {| lines := []; allStationsMap := []; lineIndex := 1 |}).
Proof.
  apply build_emittedOk. split; [reflexivity |].
  intros i line Hi. destruct i; discriminate.
Qed.

(** X18.  Emitted lines are numbered in order and there is one per colour.
    The line at position [i] of the result has bureau [RMP] and identifier
    [RMP-(i+1)]: a colour group that yields no line uses up no number.  Its
    name is the name of the badge of its colour when there is one with a
    name, and the placeholder made from [i + 1] otherwise.  Identifiers are
    pairwise different, colours are pairwise different, and every line's
    colour is the colour of a visible edge. *)
Theorem emitted_lines_numbered_one_per_colour (data : RMPData) (worldId : string) :
  let res := parseRMPData data worldId in
  (forall i line, nth_error (result_lines res) i = Some line ->
     Types.bureau line = "RMP"%string
     /\ Types.lineId line = lineIdOf (S i)
     /\ Types.line line
        = lineNameOf (getLineBadges (nodes data)) (Types.color line) (S i))
  /\ NoDup (map Types.lineId (result_lines res))
  /\ NoDup (map Types.color (result_lines res))
  /\ (forall line, In line (result_lines res) ->
        exists e, In e (edges data) /\ visible e = true
                  /\ getEdgeColor e = Types.color line).
Proof.
  cbv zeta. unfold parseRMPData. cbv zeta. cbn [result_lines].
  pose proof (final_emittedOk data worldId) as [Hidx Hlines].
  pose proof (build_colors data (getLineBadges (nodes data))
                (worldCoordConfig worldId) (groupByColor (edges data))
                {| lines := []; allStationsMap := []; lineIndex := 1 |}) as Hcol.
  cbn [lines map app] in Hcol.
  destruct Hcol as [Hnd Hincl];
    [rewrite groupByColor_keys; apply dedup_NoDup |].
  cbv zeta in Hnd, Hincl.
  set (final := fold_left _ _ _) in *.
  assert (Hnth : forall i line,
             nth_error (map (refreshLine (allStationsMap final)) (lines final)) i
             = Some line ->
             exists line0, nth_error (lines final) i = Some line0
                           /\ line = refreshLine (allStationsMap final) line0).
  { intros i line Hi. rewrite nth_error_map in Hi.
    destruct (nth_error (lines final) i) as [line0 |]; [| discriminate].
    injection Hi as <-. now exists line0. }
  assert (Hids : map Types.lineId
                   (map (refreshLine (allStationsMap final)) (lines final))
                 = map Types.lineId (lines final))
    by (rewrite map_map; reflexivity).
  assert (Hcols : map Types.color
                    (map (refreshLine (allStationsMap final)) (lines final))
                  = map Types.color (lines final))
    by (rewrite map_map; reflexivity).
  split; [| split; [| split]].
  - intros i line Hi. destruct (Hnth i line Hi) as (line0 & H0 & ->).
    destruct (Hlines i line0 H0) as (Hid & Hb & Hn & _). cbn. auto.
  - rewrite Hids. apply NoDup_nth_error. intros i j Hi Hij.
    rewrite length_map in Hi.
    rewrite !nth_error_map in Hij.
    destruct (nth_error (lines final) i) as [li |] eqn:Ei;
      [| apply nth_error_None in Ei; lia].
    destruct (nth_error (lines final) j) as [lj |] eqn:Ej; [| discriminate].
    cbn in Hij. injection Hij as Hij.
    destruct (Hlines i li Ei) as (Hi1 & _). destruct (Hlines j lj Ej) as (Hj1 & _).
    rewrite Hi1, Hj1 in Hij. apply lineIdOf_injective in Hij. lia.
  - rewrite Hcols. exact Hnd.
  - intros line Hin. apply in_map_iff in Hin. destruct Hin as (line0 & <- & Hin).
    cbn [refreshLine Types.color].
    assert (Hc : In (Types.color line0) (map fst (groupByColor (edges data)))).
    { apply Hincl. apply in_map_iff. now exists line0. }
    rewrite groupByColor_keys in Hc. apply (proj1 (dedup_in _ _)) in Hc.
    apply in_map_iff in Hc. destruct Hc as (e & He & Hf).
    apply filter_In in Hf. exists e. tauto.
Qed.

(** X19.  Every station of every emitted line was made from a station-type
    node of the graph: it carries the first name of that node, which is not
    empty, and the world coordinate of the node's position under the
    world's coordinate configuration; its station code is at least 1, and
    station codes grow strictly along the line.  Labelling nodes and station
    nodes without a name never become stations. *)
Theorem line_stations_come_from_station_nodes (data : RMPData) (worldId : string) :
  forall line, In line (result_lines (parseRMPData data worldId)) ->
    (forall s, In s (Types.stations line) ->
       fromStationNode data (worldCoordConfig worldId) s)
    /\ codesIncrease (Types.stations line).
Proof.
  intros line Hin. unfold parseRMPData in Hin. cbv zeta in Hin.
  cbn [result_lines] in Hin.
  pose proof (final_emittedOk data worldId) as [_ Hlines].
  set (final := fold_left _ _ _) in *.
  apply in_map_iff in Hin. destruct Hin as (line0 & <- & Hin).
  apply In_nth_error in Hin. destruct Hin as [i Hi].
  destruct (Hlines i line0 Hi) as (_ & _ & _ & Hfrom & Hinc).
  cbn [refreshLine Types.stations]. split.
  - intros s Hs. apply in_map_iff in Hs. destruct Hs as (s0 & <- & Hs0).
    destruct (Hfrom s0 Hs0) as (node & H1 & H2 & H3 & H4 & H5 & H6).
    destruct (refreshStation_fields (allStationsMap final) s0) as (En & Ec & Ek).
    exists node. rewrite En, Ec, Ek. auto 7.
  - intros a b sa sb Hab Ha Hb. rewrite nth_error_map in Ha, Hb.
    destruct (nth_error (Types.stations line0) a) as [s1 |] eqn:E1; [| discriminate].
    destruct (nth_error (Types.stations line0) b) as [s2 |] eqn:E2; [| discriminate].
    injection Ha as <-. injection Hb as <-.
    destruct (refreshStation_fields (allStationsMap final) s1) as (_ & _ & ->).
    destruct (refreshStation_fields (allStationsMap final) s2) as (_ & _ & ->).
    exact (Hinc a b s1 s2 Hab E1 E2).
Qed.

Lemma line_stations_come_from_station_nodes_witness :
  exists line, In line (result_lines (parseRMPData singleLineGraph "zth"))
               /\ codesIncrease (Types.stations line).
Proof.
  eexists. split; [vm_compute; left; reflexivity |].
  refine (proj2 (line_stations_come_from_station_nodes singleLineGraph "zth" _ _)).
  vm_compute. left. reflexivity.
Defined.

(** X20.  On a graph in which every station-type node has a name that is not
    empty, every emitted line has at least two stations and exactly one edge
    path per pair of consecutive stations, so at least one edge path. *)
Theorem named_graph_lines_are_aligned (data : RMPData) (worldId : string) :
  stationsNamed data ->
  forall line, In line (result_lines (parseRMPData data worldId)) ->
    (2 <= length (Types.stations line))%nat
    /\ length (Types.edgePaths line) = (length (Types.stations line) - 1)%nat
    /\ (1 <= length (Types.edgePaths line))%nat.
Proof.
  intros Hnamed line Hin.
  destruct (emitted_lines_shape data worldId line Hin) as [H2 _].
  pose proof (named_stations_align_edge_paths data worldId line Hnamed Hin) as Ha.
  split; [exact H2 |]. split; [exact Ha | lia].
Qed.

Lemma singleLineGraph_named : stationsNamed singleLineGraph.
Proof.
  intros node [<- | [<- | []]] _; eexists; split; reflexivity.
Defined.

Lemma named_graph_lines_are_aligned_witness :
  exists line, In line (result_lines (parseRMPData singleLineGraph "zth"))
               /\ length (Types.edgePaths line) = (length (Types.stations line) - 1)%nat.
Proof.
  eexists. split; [vm_compute; left; reflexivity |].
  refine (proj1 (proj2 (named_graph_lines_are_aligned singleLineGraph "zth"
                          singleLineGraph_named _ _))).
  vm_compute. left. reflexivity.
Defined.

(** *** Merging the RMP stations into the map data *)

Lemma parse_station_names_NoDup (data : RMPData) (worldId : string) :
  NoDup (map Types.name (result_stations (parseRMPData data worldId))).
Proof.
  unfold parseRMPData. cbv zeta. cbn [result_stations].
  set (final := fold_left _ _ _).
  assert (Hfinal : buildOk data final) by apply build_ok, initial_ok.
  destruct Hfinal as ((Hnd & Hentries) & _).
  replace (map Types.name (JsMap.values (allStationsMap final)))
    with (map fst (allStationsMap final)); [exact Hnd |].
  unfold JsMap.values. rewrite map_map. apply map_ext_in.
  intros [k g] Hin. cbn. symmetry. now apply Hentries.
Qed.

(** X21.  The loader gives the RIA stations priority.  The merged station
    list is the RIA list followed by the RMP stations, in their order, whose
    name no RIA station has; so an RMP station is dropped exactly when an
    RIA station has its name, and the RIA stations are never changed.  If
    the RIA names are pairwise different, so are the names of the stations
    the loader stores, whatever RMP document was loaded; without an RMP
    document the RIA data is stored as it is. *)
Theorem merged_stations_prefer_ria (riaStations : list Types.ParsedStation)
    (rmpData : option RMPData) (currentWorld : string) :
  let rmpStations :=
    match rmpData with
    | Some data => result_stations (parseRMPData data currentWorld)
    | None => []
    end in
  let merged := MapContainer.loadedStations riaStations rmpData currentWorld in
  merged
  = riaStations
    ++ filter (fun s => negb (existsb (fun r => String.eqb (Types.name r) (Types.name s))
                                riaStations))
         rmpStations
  /\ (forall s, In s merged <->
        In s riaStations
        \/ (In s rmpStations
            /\ forall r, In r riaStations -> Types.name r <> Types.name s))
  /\ (NoDup (map Types.name riaStations) -> NoDup (map Types.name merged))
  /\ (rmpData = None -> merged = riaStations).
Proof.
  cbv zeta. unfold MapContainer.loadedStations, MapContainer.mergeStations.
  set (rmpStations := match rmpData with Some _ => _ | None => _ end).
  assert (Hhas : forall s,
             JsSet.has (Types.name s) (JsSet.dedup (map Types.name riaStations)) = true
             <-> exists r, In r riaStations /\ Types.name r = Types.name s).
  { intros s. rewrite set_has_in, dedup_in, in_map_iff.
    split; intros (r & H1 & H2); exists r; auto. }
  assert (Hfilter : filter (fun s => negb (JsSet.has (Types.name s)
                                             (JsSet.dedup (map Types.name riaStations))))
                      rmpStations
                    = filter (fun s => negb (existsb
                                               (fun r => String.eqb (Types.name r)
                                                           (Types.name s)) riaStations))
                        rmpStations).
  { apply filter_ext. intros s. f_equal. apply eq_true_iff_eq.
    rewrite Hhas, existsb_exists. split; intros (r & Hr & E); exists r;
      (split; [exact Hr |]); [now apply String.eqb_eq | now apply String.eqb_eq in E]. }
  assert (Hkept : forall s,
             In s (filter (fun s => negb (JsSet.has (Types.name s)
                                            (JsSet.dedup (map Types.name riaStations))))
                     rmpStations)
             <-> In s rmpStations
                 /\ forall r, In r riaStations -> Types.name r <> Types.name s).
  { intros s. rewrite filter_In, negb_true_iff. split; intros [Hs Hn]; (split; [exact Hs |]).
    - intros r Hr E. assert (Ht : JsSet.has (Types.name s)
                                    (JsSet.dedup (map Types.name riaStations)) = true)
        by (apply Hhas; now exists r).
      congruence.
    - destruct (JsSet.has _ _) eqn:E; [| reflexivity].
      apply Hhas in E. destruct E as (r & Hr & E). now destruct (Hn r Hr). }
  split; [now rewrite Hfilter |]. split; [| split].
  - intros s. rewrite in_app_iff, Hkept. tauto.
  - intros Hnd. rewrite map_app. apply NoDup_app.
    + exact Hnd.
    + assert (Hrmp : NoDup (map Types.name rmpStations)).
      { unfold rmpStations. destruct rmpData as [data |];
          [apply parse_station_names_NoDup | constructor]. }
      clear - Hrmp. induction rmpStations as [| s l IH]; cbn; [constructor |].
      inversion Hrmp as [| ? ? Hnotin Hnd']; subst.
      destruct (negb _); [| now apply IH].
      cbn. constructor; [| now apply IH].
      intros Hin. apply Hnotin. apply in_map_iff in Hin.
      destruct Hin as (s' & E & Hs'). apply filter_In in Hs'.
      apply in_map_iff. exists s'. tauto.
    + intros n Hn1 Hn2. apply in_map_iff in Hn1. apply in_map_iff in Hn2.
      destruct Hn1 as (r & <- & Hr). destruct Hn2 as (s & E & Hs).
      apply Hkept in Hs. destruct Hs as [_ Hs]. now apply (Hs r Hr).
  - intros ->. unfold rmpStations. cbn. apply app_nil_r.
Qed.

Lemma merged_stations_prefer_ria_witness :
  NoDup (map Types.name
           (MapContainer.loadedStations [] (Some singleLineGraph) "zth"%string)).
Proof.
  apply (merged_stations_prefer_ria [] (Some singleLineGraph) "zth"%string).
  constructor.
Defined.


End LinesProperties.

(** ** The adjacency and the traversal order *)

Section GraphProperties.

Import RmpParser.

(** *** The adjacency of a colour group and the order of its nodes *)

Section AdjacencyFacts.

Lemma buildAdjacency_snoc (edges : list RMPEdge) (e : RMPEdge) :
  buildAdjacencyWithEdges (edges ++ [e])
  = adjacencyStep (buildAdjacencyWithEdges edges) e.
Proof. unfold buildAdjacencyWithEdges. now rewrite fold_left_app. Qed.

Lemma neighborsOf_ensureKey (k x : string) (adj : JsMap.t JsSet.t) :
  neighborsOf (ensureKey k adj) x = neighborsOf adj x.
Proof.
  unfold ensureKey, neighborsOf, JsMap.has.
  destruct (JsMap.get k adj) as [s |] eqn:E; cbn [negb]; [reflexivity |].
  destruct (String.eqb x k) eqn:Ex.
  - apply String.eqb_eq in Ex. subst x. now rewrite get_set_same, E.
  - apply String.eqb_neq in Ex. now rewrite get_set_other.
Qed.

Lemma has_ensureKey (k x : string) (adj : JsMap.t JsSet.t) :
  JsMap.has x (ensureKey k adj) = String.eqb x k || JsMap.has x adj.
Proof.
  unfold ensureKey.
  destruct (JsMap.has k adj) eqn:E; cbn [negb].
  - destruct (String.eqb x k) eqn:Ex; [| reflexivity].
    apply String.eqb_eq in Ex. subst x. now rewrite E.
  - unfold JsMap.has. destruct (String.eqb x k) eqn:Ex.
    + apply String.eqb_eq in Ex. subst x. now rewrite get_set_same.
    + apply String.eqb_neq in Ex. now rewrite get_set_other.
Qed.

Lemma has_addNeighbor (k v x : string) (adj : JsMap.t JsSet.t) :
  JsMap.has x (addNeighbor k v adj) = JsMap.has x adj.
Proof.
  unfold addNeighbor.
  destruct (JsMap.get k adj) as [s |] eqn:E; [| reflexivity].
  unfold JsMap.has. destruct (String.eqb x k) eqn:Ex.
  - apply String.eqb_eq in Ex. subst x. now rewrite get_set_same, E.
  - apply String.eqb_neq in Ex. now rewrite get_set_other.
Qed.

Lemma neighborsOf_addNeighbor (k v x : string) (adj : JsMap.t JsSet.t) :
  JsMap.has k adj = true ->
  neighborsOf (addNeighbor k v adj) x
  = if String.eqb x k then JsSet.add v (neighborsOf adj k) else neighborsOf adj x.
Proof.
  unfold addNeighbor, neighborsOf, JsMap.has.
  destruct (JsMap.get k adj) as [s |] eqn:E; [intros _ | discriminate].
  destruct (String.eqb x k) eqn:Ex.
  - apply String.eqb_eq in Ex. subst x. now rewrite get_set_same.
  - apply String.eqb_neq in Ex. now rewrite get_set_other.
Qed.

Lemma keys_has {V : Type} (k : string) (m : JsMap.t V) :
  In k (map fst m) <-> JsMap.has k m = true.
Proof.
  split.
  - intros Hin. unfold JsMap.has.
    destruct (JsMap.get k m) eqn:E; [reflexivity |].
    now apply get_none_not_key in E.
  - intros H. apply has_get in H. destruct H as [v Hv].
    apply get_in in Hv. apply in_map_iff. now exists (k, v).
Qed.

(** What one edge adds to the neighbour sets and to the keys. *)
Lemma adjacencyStep_neighbors (acc : JsMap.t JsSet.t * JsMap.t RMPEdge)
    (e : RMPEdge) (x y : string) :
  In y (neighborsOf (fst (adjacencyStep acc e)) x)
  <-> In y (neighborsOf (fst acc) x)
      \/ (x = source e /\ y = target e)
      \/ (x = target e /\ y = source e).
Proof.
  unfold adjacencyStep. cbv zeta. cbn [fst].
  set (a1 := ensureKey (target e) (ensureKey (source e) (fst acc))).
  assert (Hs : JsMap.has (source e) a1 = true).
  { unfold a1. rewrite !has_ensureKey, String.eqb_refl. apply orb_true_r. }
  assert (Ht : JsMap.has (target e) (addNeighbor (source e) (target e) a1)
               = true).
  { rewrite has_addNeighbor. unfold a1. now rewrite has_ensureKey, String.eqb_refl. }
  assert (H1 : forall z, neighborsOf a1 z = neighborsOf (fst acc) z).
  { intros z. unfold a1. now rewrite !neighborsOf_ensureKey. }
  rewrite (neighborsOf_addNeighbor _ _ _ _ Ht).
  rewrite !(neighborsOf_addNeighbor _ _ _ _ Hs), !H1.
  destruct (String.eqb_spec x (target e)) as [Ext | Ext];
    destruct (String.eqb_spec x (source e)) as [Exs | Exs];
    destruct (String.eqb_spec (target e) (source e)) as [Ets | Ets];
    rewrite ?set_add_in; try congruence;
    repeat match goal with
           | H : x = _ |- _ => rewrite H in *; clear H
           | H : target e = source e |- _ => rewrite H in *; clear H
           end;
    intuition congruence.
Qed.

Lemma adjacencyStep_keys (acc : JsMap.t JsSet.t * JsMap.t RMPEdge)
    (e : RMPEdge) (x : string) :
  In x (map fst (fst (adjacencyStep acc e)))
  <-> In x (map fst (fst acc)) \/ x = source e \/ x = target e.
Proof.
  rewrite !keys_has. unfold adjacencyStep. cbv zeta. cbn [fst].
  rewrite !has_addNeighbor, !has_ensureKey, !orb_true_iff, !String.eqb_eq.
  tauto.
Qed.

Lemma adjacencyStep_edgeMap (acc : JsMap.t JsSet.t * JsMap.t RMPEdge)
    (e : RMPEdge) (k : string) (e' : RMPEdge) :
  In (k, e') (snd (adjacencyStep acc e)) -> e' = e \/ In (k, e') (snd acc).
Proof.
  unfold adjacencyStep. cbv zeta. cbn [snd]. intros H.
  apply in_set in H. destruct H as [[_ ->] | H]; [now left |].
  apply in_set in H. destruct H as [[_ ->] | H]; [now left | now right].
Qed.

Lemma adjacencyStep_NoDup (acc : JsMap.t JsSet.t * JsMap.t RMPEdge)
    (e : RMPEdge) :
  NoDup (map fst (fst acc)) -> NoDup (map fst (fst (adjacencyStep acc e))).
Proof.
  intros H. unfold adjacencyStep. cbv zeta. cbn [fst].
  assert (Hen : forall k a, NoDup (map fst a) -> NoDup (map fst (ensureKey k a))).
  { intros k a Ha. unfold ensureKey. destruct (negb _); [| exact Ha].
    now apply keys_set_NoDup. }
  assert (Han : forall k v a, NoDup (map fst a) -> NoDup (map fst (addNeighbor k v a))).
  { intros k v a Ha. unfold addNeighbor. destruct (JsMap.get k a); [| exact Ha].
    now apply keys_set_NoDup. }
  auto.
Qed.

Lemma adjacency_joined (edges : list RMPEdge) (x y : string) :
  In y (neighborsOf (adjacencyOf edges) x) <-> joined edges x y.
Proof.
  unfold adjacencyOf. induction edges as [| e edges IH] using rev_ind.
  - cbn. split; [intros [] | intros (e & [] & _)].
  - rewrite buildAdjacency_snoc, adjacencyStep_neighbors, IH. unfold joined. split.
    + intros [(e0 & Hin & H) | H].
      * exists e0. split; [apply in_app_iff; now left | exact H].
      * exists e. split; [apply in_app_iff; right; now left |].
        destruct H as [[-> ->] | [-> ->]]; auto.
    + intros (e0 & Hin & H). apply in_app_iff in Hin.
      destruct Hin as [Hin | [<- | []]].
      * left. now exists e0.
      * right. destruct H as [[<- <-] | [<- <-]]; auto.
Qed.

Lemma adjacency_keys (edges : list RMPEdge) (x : string) :
  In x (map fst (adjacencyOf edges)) <-> endpoint edges x.
Proof.
  unfold adjacencyOf. induction edges as [| e edges IH] using rev_ind.
  - cbn. split; [intros [] | intros (e & [] & _)].
  - rewrite buildAdjacency_snoc, adjacencyStep_keys, IH. unfold endpoint. split.
    + intros [(e0 & Hin & H) | H].
      * exists e0. split; [apply in_app_iff; now left | exact H].
      * exists e. split; [apply in_app_iff; right; now left |].
        destruct H as [-> | ->]; auto.
    + intros (e0 & Hin & H). apply in_app_iff in Hin.
      destruct Hin as [Hin | [<- | []]].
      * left. now exists e0.
      * right. destruct H as [<- | <-]; auto.
Qed.

Lemma adjacency_keys_NoDup (edges : list RMPEdge) :
  NoDup (map fst (adjacencyOf edges)).
Proof.
  unfold adjacencyOf. induction edges as [| e edges IH] using rev_ind.
  - constructor.
  - rewrite buildAdjacency_snoc. now apply adjacencyStep_NoDup.
Qed.

Lemma edgeMap_values (edges : list RMPEdge) (k : string) (e : RMPEdge) :
  In (k, e) (edgeMapOf edges) -> In e edges.
Proof.
  unfold edgeMapOf. induction edges as [| e0 edges IH] using rev_ind.
  - intros [].
  - rewrite buildAdjacency_snoc. intros H. apply adjacencyStep_edgeMap in H.
    apply in_app_iff. destruct H as [-> | H]; [right; now left | left; auto].
Qed.

Lemma joined_sym (edges : list RMPEdge) (a b : string) :
  joined edges a b -> joined edges b a.
Proof. intros (e & Hin & H). exists e. tauto. Qed.

End AdjacencyFacts.

(** X22.  The adjacency of a colour group is the undirected graph of its
    edges.  The keys of the adjacency map are the ends of the edges, each
    once; [b] is a neighbour of [a] exactly when some edge joins the two, in
    either direction, so the relation is symmetric; and every entry of the
    edge map is an edge of the group. *)
Theorem adjacency_is_the_undirected_edge_graph (edges : list RMPEdge) :
  let adj := fst (buildAdjacencyWithEdges edges) in
  let edgeMap := snd (buildAdjacencyWithEdges edges) in
  NoDup (map fst adj)
  /\ (forall n, In n (map fst adj) <-> endpoint edges n)
  /\ (forall a b, In b (neighborsOf adj a) <-> joined edges a b)
  /\ (forall a b, In b (neighborsOf adj a) -> In a (neighborsOf adj b))
  /\ (forall k e, JsMap.get k edgeMap = Some e -> In e edges).
Proof.
  cbv zeta. fold (adjacencyOf edges). fold (edgeMapOf edges).
  split; [apply adjacency_keys_NoDup |].
  split; [apply adjacency_keys |].
  split; [apply adjacency_joined |].
  split.
  - intros a b H. apply adjacency_joined, joined_sym, adjacency_joined, H.
  - intros k e H. apply get_in in H. eapply edgeMap_values, H.
Qed.

(** *** The traversal *)

Section Order.

Variable adj : JsMap.t JsSet.t.
Variable edgeMap : JsMap.t RMPEdge.

Lemma dfs_step (fuel : nat) (node : string) (prevNode : option string)
    (st : DfsState) :
  dfs (S fuel) adj edgeMap node prevNode st
  = if JsSet.has node (visited st) then st
    else fold_left (visitNeighbor fuel adj edgeMap node) (neighborsOf adj node)
           (markVisited edgeMap node prevNode st).
Proof. reflexivity. Qed.

(** A property that recording a node preserves is preserved by the
    traversal. *)
Lemma dfs_invariant (P : DfsState -> Prop) (Q : string -> Prop) :
  (forall node prevNode st,
     Q node -> P st -> JsSet.has node (visited st) = false ->
     P (markVisited edgeMap node prevNode st)) ->
  (forall node n, Q node -> In n (neighborsOf adj node) -> Q n) ->
  forall fuel node prevNode st,
    Q node -> P st -> P (dfs fuel adj edgeMap node prevNode st).
Proof.
  intros Hmark Hnext.
  induction fuel as [| fuel IH]; intros node prevNode st Hq Hp; [exact Hp |].
  rewrite dfs_step. destruct (JsSet.has node (visited st)) eqn:Ev; [exact Hp |].
  assert (Hns : forall n, In n (neighborsOf adj node) -> Q n)
    by (intros n Hn; now apply (Hnext node)).
  generalize (Hmark node prevNode st Hq Hp Ev).
  generalize (markVisited edgeMap node prevNode st) as s.
  induction (neighborsOf adj node) as [| n ns IHn]; intros s Hs; cbn [fold_left];
    [exact Hs |].
  apply IHn; [intros n' Hn'; apply Hns; now right |].
  unfold visitNeighbor. destruct (negb _); [| exact Hs].
  apply IH; [apply Hns; now left | exact Hs].
Qed.

Lemma dfs_order (fuel : nat) (node : string) (prevNode : option string)
    (st : DfsState) :
  orderedNodes st = visited st /\ NoDup (visited st) ->
  let st' := dfs fuel adj edgeMap node prevNode st in
  orderedNodes st' = visited st' /\ NoDup (visited st').
Proof.
  intros H. cbv zeta.
  apply (dfs_invariant
           (fun s => orderedNodes s = visited s /\ NoDup (visited s))
           (fun _ => True)); auto.
  clear. intros node prevNode st _ [Ho Hnd] Ev. unfold markVisited, JsSet.add; cbn.
  rewrite Ev, Ho. split; [reflexivity |].
  apply NoDup_app; [exact Hnd | repeat constructor; intros [] |].
  intros x Hx [<- | []]. apply set_has_in in Hx. congruence.
Qed.

Lemma dfs_prefix (base : list string) (fuel : nat) (node : string)
    (prevNode : option string) (st : DfsState) :
  (exists suffix, orderedNodes st = base ++ suffix) ->
  exists suffix,
    orderedNodes (dfs fuel adj edgeMap node prevNode st) = base ++ suffix.
Proof.
  intros H.
  apply (dfs_invariant (fun s => exists suffix, orderedNodes s = base ++ suffix)
           (fun _ => True)); auto.
  clear. intros node prevNode st _ [suffix Hs] _. unfold markVisited; cbn.
  exists (suffix ++ [node]). now rewrite Hs, app_assoc.
Qed.

Lemma dfs_edges_counted (fuel : nat) (node : string) (prevNode : option string)
    (st : DfsState) :
  (length (orderedEdges st) < length (orderedNodes st))%nat ->
  (length (orderedEdges (dfs fuel adj edgeMap node prevNode st))
   < length (orderedNodes (dfs fuel adj edgeMap node prevNode st)))%nat.
Proof.
  intros H.
  apply (dfs_invariant
           (fun s => (length (orderedEdges s) < length (orderedNodes s))%nat)
           (fun _ => True)); auto.
  clear. intros node prevNode st _ Hlt _. unfold markVisited; cbn.
  rewrite length_app; cbn.
  destruct prevNode as [prev |]; [| lia].
  destruct (truthy prev); [| lia].
  destruct (JsMap.get _ edgeMap); [rewrite length_app; cbn |]; lia.
Qed.

Lemma dfs_edges_known (known : RMPEdge -> Prop) (fuel : nat) (node : string)
    (prevNode : option string) (st : DfsState) :
  (forall k e, JsMap.get k edgeMap = Some e -> known e) ->
  (forall e, In e (orderedEdges st) -> known e) ->
  forall e, In e (orderedEdges (dfs fuel adj edgeMap node prevNode st)) ->
            known e.
Proof.
  intros Hmap H.
  apply (dfs_invariant (fun s => forall e, In e (orderedEdges s) -> known e)
           (fun _ => True)); auto.
  clear - Hmap. intros node prevNode st _ Hst _ e. unfold markVisited; cbn.
  destruct prevNode as [prev |]; [| apply Hst].
  destruct (truthy prev); [| apply Hst].
  destruct (JsMap.get _ edgeMap) as [e' |] eqn:E; [| apply Hst].
  intros Hin. apply in_app_iff in Hin. destruct Hin as [Hin | [<- | []]];
    [now apply Hst | eapply Hmap, E].
Qed.

Lemma dfs_reached (Q : string -> Prop) (fuel : nat) (node : string)
    (prevNode : option string) (st : DfsState) :
  (forall node n, Q node -> In n (neighborsOf adj node) -> Q n) ->
  Q node ->
  (forall x, In x (visited st) -> Q x) ->
  forall x, In x (visited (dfs fuel adj edgeMap node prevNode st)) -> Q x.
Proof.
  intros Hnext Hq H.
  apply (dfs_invariant (fun s => forall x, In x (visited s) -> Q x) Q); auto.
  clear. intros node prevNode st Hq Hst _ x. unfold markVisited; cbn.
  rewrite set_add_in. intros [-> | Hx]; auto.
Qed.

Hypothesis Hclosed : adjacencyClosed adj.

Lemma neighbors_are_keys (node n : string) :
  In n (neighborsOf adj node) -> In n (map fst adj).
Proof.
  unfold neighborsOf. destruct (JsMap.get node adj) as [s |] eqn:E; [| intros []].
  intros Hn. eapply Hclosed; [apply get_in, E | exact Hn].
Qed.

(** With enough fuel the traversal visits its node, and every node it
    newly visits has all its neighbours visited at the end. *)
Lemma dfs_closure (fuel : nat) (node : string) (prevNode : option string)
    (st : DfsState) :
  In node (map fst adj) -> (unvisitedCount adj st <= fuel)%nat ->
  let st' := dfs fuel adj edgeMap node prevNode st in
  JsSet.has node (visited st') = true
  /\ forall x, JsSet.has x (visited st') = true ->
               JsSet.has x (visited st) = false ->
               forall y, In y (neighborsOf adj x) ->
                         JsSet.has y (visited st') = true.
Proof.
  revert node prevNode st.
  induction fuel as [| fuel IH]; intros node prevNode st Hin Hfuel; cbv zeta.
  - assert (Hv : JsSet.has node (visited st) = true)
      by (apply (unvisitedCount_zero adj); [exact Hin | lia]).
    cbn [dfs]. split; [exact Hv |]. intros x Hx Hx'. congruence.
  - rewrite dfs_step.
    destruct (JsSet.has node (visited st)) eqn:Ev.
    { split; [exact Ev |]. intros x Hx Hx'. congruence. }
    set (st1 := markVisited edgeMap node prevNode st).
    assert (H1 : visitedIncluded st st1).
    { intros x Hx. unfold st1, markVisited; cbn [visited].
      rewrite has_add, Hx. apply orb_true_r. }
    assert (Hnode1 : JsSet.has node (visited st1) = true).
    { unfold st1, markVisited; cbn [visited].
      now rewrite has_add, String.eqb_refl. }
    assert (Hfuel1 : (unvisitedCount adj st1 <= fuel)%nat).
    { pose proof (unvisitedCount_lt adj st st1 node H1 Hin Ev Hnode1). lia. }
    assert (Hloop : forall (ns : list string) (s : DfsState),
               (forall n, In n ns -> In n (map fst adj)) ->
               visitedIncluded st1 s ->
               (unvisitedCount adj s <= fuel)%nat ->
               (forall x, JsSet.has x (visited s) = true ->
                          JsSet.has x (visited st1) = false ->
                          forall y, In y (neighborsOf adj x) ->
                                    JsSet.has y (visited s) = true) ->
               let s' := fold_left (visitNeighbor fuel adj edgeMap node) ns s in
               visitedIncluded s s'
               /\ (forall n, In n ns -> JsSet.has n (visited s') = true)
               /\ (forall x, JsSet.has x (visited s') = true ->
                             JsSet.has x (visited st1) = false ->
                             forall y, In y (neighborsOf adj x) ->
                                       JsSet.has y (visited s') = true)).
    { induction ns as [| n ns IHn]; intros s Hns Hinc Hf Hcl; cbv zeta;
        cbn [fold_left].
      - split; [intros x Hx; exact Hx |]. split; [intros n [] | exact Hcl].
      - set (s1 := visitNeighbor fuel adj edgeMap node s n).
        assert (Hs1 : visitedIncluded s s1
                      /\ JsSet.has n (visited s1) = true
                      /\ (forall x, JsSet.has x (visited s1) = true ->
                                    JsSet.has x (visited st1) = false ->
                                    forall y, In y (neighborsOf adj x) ->
                                              JsSet.has y (visited s1) = true)).
        { unfold s1, visitNeighbor.
          destruct (JsSet.has n (visited s)) eqn:En; cbn [negb].
          - split; [intros x Hx; exact Hx |]. split; [exact En | exact Hcl].
          - destruct (IH n (Some node) s (Hns n (or_introl eq_refl)) Hf) as [Hn Hnew].
            pose proof (dfs_visited_grows adj edgeMap fuel n (Some node) s) as Hg.
            split; [exact Hg |]. split; [exact Hn |].
            intros x Hx Hx1 y Hy.
            destruct (JsSet.has x (visited s)) eqn:Exs.
            + apply Hg. now apply (Hcl x Exs Hx1).
            + now apply (Hnew x Hx Exs). }
        destruct Hs1 as (Hg1 & Hn1 & Hcl1).
        destruct (IHn s1) as (Hg2 & Hall & Hcl2).
        + intros n' Hn'. apply Hns. now right.
        + intros x Hx. apply Hg1, Hinc, Hx.
        + pose proof (unvisitedCount_le adj s s1 Hg1). lia.
        + exact Hcl1.
        + cbv zeta in Hg2, Hall, Hcl2.
          split; [intros x Hx; apply Hg2, Hg1, Hx |].
          split; [| exact Hcl2].
          intros n' [<- | Hn']; [apply Hg2, Hn1 | now apply Hall]. }
    destruct (Hloop (neighborsOf adj node) st1) as (Hg & Hall & Hcl).
    + intros n Hn. eapply neighbors_are_keys, Hn.
    + intros x Hx. exact Hx.
    + exact Hfuel1.
    + intros x Hx Hx'. congruence.
    + cbv zeta in Hg, Hall, Hcl. split; [apply Hg, Hnode1 |].
      intros x Hx Hx0 y Hy.
      destruct (String.eqb_spec x node) as [-> | Hne]; [now apply Hall |].
      apply (Hcl x Hx); [| exact Hy].
      unfold st1, markVisited; cbn [visited]. rewrite has_add, Hx0.
      apply orb_false_iff. split; [now apply String.eqb_neq | reflexivity].
Qed.

End Order.

Lemma startNode_is_key (first : RMPEdge) (rest : list RMPEdge) :
  In (startNodeOf first rest) (map fst (adjacencyOf (first :: rest))).
Proof.
  unfold startNodeOf.
  destruct (find (fun entry : string * list string => (length (snd entry) =? 1)%nat)
              (adjacencyOf (first :: rest))) as [[node s] |] eqn:E.
  - apply find_some in E. destruct E as [E _]. apply in_map_iff. now exists (node, s).
  - apply adjacency_keys. exists first. split; [now left | now left].
Qed.

Lemma getOrderedStationsWithEdges_dfs (first : RMPEdge) (rest : list RMPEdge) :
  let edges := first :: rest in
  let st := dfs (S (length (adjacencyOf edges))) (adjacencyOf edges) (edgeMapOf edges)
              (startNodeOf first rest) None initialDfsState in
  getOrderedStationsWithEdges edges = (orderedNodes st, orderedEdges st).
Proof.
  cbv zeta. unfold getOrderedStationsWithEdges, startNodeOf, adjacencyOf, edgeMapOf.
  destruct (buildAdjacencyWithEdges (first :: rest)) as [adj edgeMap].
  reflexivity.
Qed.

(** What the traversal of a group returns. *)
Lemma traversal_facts (first : RMPEdge) (rest : list RMPEdge) :
  let edges := first :: rest in
  let start := startNodeOf first rest in
  let ordered := fst (getOrderedStationsWithEdges edges) in
  let recorded := snd (getOrderedStationsWithEdges edges) in
  NoDup ordered
  /\ (exists tail, ordered = start :: tail)
  /\ (forall n, In n ordered <-> connectedTo edges start n)
  /\ (forall e, In e recorded -> In e edges)
  /\ (length recorded < length ordered)%nat.
Proof.
  cbv zeta. rewrite getOrderedStationsWithEdges_dfs. cbn [fst snd].
  set (edges := first :: rest). set (start := startNodeOf first rest).
  set (adj := adjacencyOf edges). set (edgeMap := edgeMapOf edges).
  assert (Hclosed : adjacencyClosed adj)
    by apply (buildAdjacencyWithEdges_closed edges).
  assert (Hstart : In start (map fst adj)) by apply startNode_is_key.
  assert (Hfuel : (unvisitedCount adj initialDfsState <= S (length adj))%nat).
  { unfold unvisitedCount.
    pose proof (List.filter_length_le
                  (fun k => negb (JsSet.has k (visited initialDfsState)))
                  (map fst adj)) as H.
    rewrite length_map in H. lia. }
  destruct (dfs_order adj edgeMap (S (length adj)) start None initialDfsState)
    as [Hord Hnd]; [split; [reflexivity | constructor] |].
  cbv zeta in Hord, Hnd.
  destruct (dfs_closure adj edgeMap Hclosed (S (length adj)) start None initialDfsState
              Hstart Hfuel) as [Hvis Hcl].
  cbv zeta in Hvis, Hcl.
  assert (Hfirst : dfs (S (length adj)) adj edgeMap start None initialDfsState
                   = fold_left (visitNeighbor (length adj) adj edgeMap start)
                       (neighborsOf adj start)
                       (markVisited edgeMap start None initialDfsState))
    by reflexivity.
  set (final := dfs (S (length adj)) adj edgeMap start None initialDfsState) in *.
  split; [rewrite Hord; exact Hnd |]. split; [| split; [| split]].
  - assert (H : exists suffix, orderedNodes final = [start] ++ suffix).
    { rewrite Hfirst. apply fold_left_preserves.
      - intros s n Hs. unfold visitNeighbor. destruct (negb _); [| exact Hs].
        now apply dfs_prefix.
      - exists []. reflexivity. }
    destruct H as [suffix H]. now exists suffix.
  - intros n. rewrite Hord. split.
    + apply (dfs_reached adj edgeMap (connectedTo edges start)).
      * intros node m Hq Hm. apply (connected_next edges start node m Hq).
        now apply adjacency_joined.
      * constructor.
      * intros x [].
    + intros Hc. apply set_has_in.
      induction Hc as [| b c Hb IH Hj]; [exact Hvis |].
      apply (Hcl b IH); [reflexivity |]. now apply adjacency_joined.
  - apply (dfs_edges_known adj edgeMap (fun e => In e edges)).
    + intros k e H. apply get_in in H. eapply edgeMap_values, H.
    + intros e [].
  - rewrite Hfirst. apply fold_left_preserves.
    + intros s n Hs. unfold visitNeighbor. destruct (negb _); [| exact Hs].
      now apply dfs_edges_counted.
    + cbn. lia.
Qed.

(** X23.  The traversal of a colour group lists the connected component of
    its start node, each node once.  The ordered nodes have no duplicates,
    start with the start node (the first node, in insertion order, that has
    exactly one neighbour, or else the source of the first edge), and are
    exactly the nodes that can be reached from it along edges of the group;
    all of them are ends of edges.  So when the group is connected, every
    end of every edge is listed exactly once. *)
Theorem traversal_lists_the_start_component (first : RMPEdge)
    (rest : list RMPEdge) :
  let edges := first :: rest in
  let start := startNodeOf first rest in
  let ordered := fst (getOrderedStationsWithEdges edges) in
  NoDup ordered
  /\ hd_error ordered = Some start
  /\ (forall n, In n ordered <-> connectedTo edges start n)
  /\ (forall n, In n ordered -> endpoint edges n)
  /\ ((forall a b, endpoint edges a -> endpoint edges b -> connectedTo edges a b) ->
      forall n, endpoint edges n <-> In n ordered)
  /\ getOrderedStationsWithEdges [] = ([], []).
Proof.
  cbv zeta.
  destruct (traversal_facts first rest) as (Hnd & [tail Hhd] & Hreach & _).
  cbv zeta in Hnd, Hhd, Hreach.
  assert (Hstart : endpoint (first :: rest) (startNodeOf first rest))
    by (apply adjacency_keys, startNode_is_key).
  assert (Hend : forall n, In n (fst (getOrderedStationsWithEdges (first :: rest))) ->
                           endpoint (first :: rest) n).
  { intros n Hn. apply Hreach in Hn.
    induction Hn as [| b c Hb IH (e & He & Hj)]; [exact Hstart |].
    exists e. split; [exact He |]. tauto. }
  split; [exact Hnd |]. split; [now rewrite Hhd |]. split; [exact Hreach |].
  split; [exact Hend |]. split; [| reflexivity].
  intros Hconn n. split; [| apply Hend].
  intros Hn. apply Hreach. now apply Hconn.
Qed.

(** X24.  The traversal records fewer edges than nodes, and only edges of
    the group: for a group with at least one edge, the ordered edge list is
    shorter than the ordered node list, so every index of a recorded edge is
    the index of a node that has a successor in the node order. *)
Theorem traversal_records_group_edges (edges : list RMPEdge) :
  let ordered := fst (getOrderedStationsWithEdges edges) in
  let recorded := snd (getOrderedStationsWithEdges edges) in
  (forall e, In e recorded -> In e edges)
  /\ (length recorded <= length ordered - 1)%nat
  /\ (forall i e, nth_error recorded i = Some e ->
        exists a b, nth_error ordered i = Some a /\ nth_error ordered (i + 1) = Some b).
Proof.
  cbv zeta. destruct edges as [| first rest].
  - cbn. split; [intros e [] |]. split; [lia |]. intros [| i] e H; discriminate.
  - destruct (traversal_facts first rest) as (_ & _ & _ & Hin & Hlen).
    cbv zeta in Hin, Hlen.
    split; [exact Hin |]. split; [lia |].
    intros i e Hi.
    assert (Hlt : (i < length (snd (getOrderedStationsWithEdges (first :: rest))))%nat)
      by (apply nth_error_Some; congruence).
    destruct (nth_error (fst (getOrderedStationsWithEdges (first :: rest))) i)
      as [a |] eqn:Ea; [| apply nth_error_None in Ea; lia].
    destruct (nth_error (fst (getOrderedStationsWithEdges (first :: rest))) (i + 1))
      as [b |] eqn:Eb; [| apply nth_error_None in Eb; lia].
    now exists a, b.
Qed.


End GraphProperties.

(** ** Drawing the edge paths of a line *)

Section HighlightProperties.

Import LineHighlightLayer.

(** *** Drawing the edge paths of a line *)

Section Builders.

Variable cc : RmpPathCalculator.CoordTransformConfig.

Lemma pushIfLong_drawable (acc : RmpPathCalculator.PathAcc) (len : R) (seg : Types.PathSegment) :
  Forall drawable (fst acc) -> drawable seg ->
  Forall drawable (fst (RmpPathCalculator.pushIfLong acc len seg cc)).
Proof.
  intros Hacc Hseg. unfold RmpPathCalculator.pushIfLong. destruct (Rgt_dec len 0.001); [| exact Hacc].
  cbn. apply Forall_app. split; [exact Hacc | now constructor].
Qed.

Lemma lineSegment_drawable (a b : RmpPathCalculator.Point2D) : drawable (RmpPathCalculator.lineSegment a b cc).
Proof. reflexivity. Qed.

Lemma quadraticSegment_drawable (a c b : RmpPathCalculator.Point2D) :
  drawable (RmpPathCalculator.quadraticSegment a c b cc).
Proof. reflexivity. Qed.

Lemma straight_drawable (from to : RmpPathCalculator.Point2D) :
  pathDrawable (RmpPathCalculator.calculateStraightPath from to cc).
Proof. repeat constructor. Qed.

Lemma simple_drawable (from to : RmpPathCalculator.Point2D) (config : RmpPathCalculator.SimpleConfig) :
  pathDrawable (RmpPathCalculator.calculateSimplePath from to config cc).
Proof. repeat constructor. Qed.

Lemma perpendicular_drawable (from to : RmpPathCalculator.Point2D) (config : RmpPathCalculator.PerpendicularConfig) :
  pathDrawable (RmpPathCalculator.calculatePerpendicularPath from to config cc).
Proof.
  unfold pathDrawable, RmpPathCalculator.calculatePerpendicularPath. cbv zeta.
  cbn [RmpPathCalculator.toEdgePath Types.segments].
  repeat (apply pushIfLong_drawable;
          [| apply lineSegment_drawable || apply quadraticSegment_drawable]).
  constructor.
Qed.

Lemma diagonal_drawable (from to : RmpPathCalculator.Point2D) (config : RmpPathCalculator.DiagonalConfig) :
  pathDrawable (RmpPathCalculator.calculateDiagonalPath from to config cc).
Proof.
  unfold pathDrawable, RmpPathCalculator.calculateDiagonalPath. cbv zeta.
  cbn [RmpPathCalculator.toEdgePath Types.segments].
  repeat (apply pushIfLong_drawable;
          [| apply lineSegment_drawable || apply quadraticSegment_drawable]).
  constructor.
Qed.

Lemma calculateEdgePath_drawable (fromNode toNode : RmpParser.RMPNode) (edge : RmpParser.RMPEdge) :
  pathDrawable (RmpParser.calculateEdgePath fromNode toNode edge cc).
Proof.
  unfold RmpParser.calculateEdgePath. cbv zeta.
  destruct (String.eqb _ "perpendicular").
  { destruct (RmpParser.perpendicular_config edge);
      [apply perpendicular_drawable | apply straight_drawable]. }
  destruct (String.eqb _ "diagonal").
  { destruct (RmpParser.diagonal_config edge);
      [apply diagonal_drawable | apply straight_drawable]. }
  destruct (String.eqb _ "simple"); [| apply straight_drawable].
  destruct (RmpParser.simple_config edge); [apply simple_drawable | apply straight_drawable].
Qed.

Lemma combineEdges_drawable (nodeMap : JsMap.t RmpParser.RMPNode) (ks : list string)
    (es : list RmpParser.RMPEdge) (fromIdx toIdx : nat) :
  Forall drawable (fst (RmpParser.combineEdges nodeMap ks es cc fromIdx toIdx)).
Proof.
  unfold RmpParser.combineEdges.
  apply (fold_left_preserves (fun acc : RmpPathCalculator.PathAcc => Forall drawable (fst acc)));
    [| constructor].
  intros acc i Hacc.
  destruct (nth_error es i); [| exact Hacc].
  destruct (nth_error ks i); [| exact Hacc].
  destruct (nth_error ks (i + 1)); [| exact Hacc].
  destruct (JsMap.get _ nodeMap); [| exact Hacc].
  destruct (JsMap.get _ nodeMap); [| exact Hacc].
  cbn [fst]. apply Forall_app. split; [exact Hacc | apply calculateEdgePath_drawable].
Qed.

Lemma buildEdgePaths_drawable (nodeMap : JsMap.t RmpParser.RMPNode) (ks : list string)
    (es : list RmpParser.RMPEdge) (sn : list (RmpParser.RMPNode * nat)) :
  Forall pathDrawable (RmpParser.buildEdgePaths nodeMap ks es cc sn).
Proof.
  unfold RmpParser.buildEdgePaths. apply Forall_map, Forall_forall.
  intros [[fromNode fromIdx] [toNode toIdx]] _. unfold RmpParser.pairEdgePath.
  pose proof (combineEdges_drawable nodeMap ks es fromIdx toIdx) as H.
  destruct (fst (RmpParser.combineEdges nodeMap ks es cc fromIdx toIdx)) eqn:E;
    [apply straight_drawable |].
  unfold pathDrawable, RmpPathCalculator.toEdgePath; cbn [Types.segments]. now rewrite E.
Qed.

End Builders.

(** Every edge path of every emitted line consists of drawable segments. *)
Lemma emitted_edge_paths_drawable (data : RmpParser.RMPData) (worldId : string)
    (line : Types.ParsedLine) :
  In line (RmpParser.result_lines (RmpParser.parseRMPData data worldId)) ->
  Forall pathDrawable (Types.edgePaths line).
Proof.
  unfold RmpParser.parseRMPData. cbv zeta. cbn [RmpParser.result_lines]. intros Hin.
  apply in_map_iff in Hin. destruct Hin as (line0 & <- & Hin).
  cbn [RmpParser.refreshLine Types.edgePaths].
  revert line0 Hin.
  apply (emitted_lines_all data _ _ (fun l => Forall pathDrawable (Types.edgePaths l))).
  - intros st g. unfold emittedLine; cbn [Types.edgePaths].
    apply buildEdgePaths_drawable.
  - intros l [].
Qed.

Section Drawing.

Variable locationToLatLng : R -> R -> R -> LatLng.

Lemma INR_8 : INR 8 = 8.
Proof. simpl. lra. Qed.

Lemma sample_first (p0 p1 p2 : LatLng) :
  hd_error (sampleQuadraticBezier p0 p1 p2 8) = Some p0.
Proof.
  unfold sampleQuadraticBezier. cbn [seq map hd_error]. f_equal.
  cbv zeta. rewrite INR_8. destruct p0 as [a b]. cbn [lat lng INR].
  f_equal; field.
Qed.

Lemma sample_last (p0 p1 p2 : LatLng) :
  hd_error (rev (sampleQuadraticBezier p0 p1 p2 8)) = Some p2.
Proof.
  unfold sampleQuadraticBezier. cbn [seq map rev app hd_error]. f_equal.
  cbv zeta. rewrite INR_8. destruct p2 as [a b]. cbn [lat lng].
  f_equal; field.
Qed.

Lemma sample_length (p0 p1 p2 : LatLng) :
  length (sampleQuadraticBezier p0 p1 p2 8) = 9%nat.
Proof. reflexivity. Qed.

(** What the conversion gives for a drawable segment. *)
Lemma segmentToLatLngs_drawable (seg : Types.PathSegment) :
  drawable seg ->
  exists latLngs,
    segmentToLatLngs locationToLatLng seg = Some latLngs
    /\ (length latLngs = 2 \/ length latLngs = 9)%nat
    /\ hd_error latLngs
       = option_map (projected locationToLatLng) (hd_error (Types.points seg))
    /\ hd_error (rev latLngs)
       = option_map (projected locationToLatLng) (hd_error (rev (Types.points seg))).
Proof.
  unfold drawable, segmentToLatLngs.
  destruct (Types.type seg); intros Hlen.
  - eexists. split; [reflexivity |].
    destruct (Types.points seg) as [| a [| b [| c l]]]; try discriminate.
    cbn. auto.
  - destruct (Types.points seg) as [| a [| c [| b [| d l]]]]; try discriminate.
    eexists. split; [reflexivity |].
    split; [right; apply sample_length |].
    split; [apply sample_first | apply sample_last].
Qed.

Lemma drawSegments_all (segs : list Types.PathSegment) (drawn : list (list LatLng)) :
  Forall drawable segs ->
  fold_left (drawSegment locationToLatLng) segs (Some drawn)
  = Some (drawn ++ map (latLngsOf locationToLatLng) segs).
Proof.
  intros H. revert drawn. induction H as [| seg segs Hseg _ IH]; intros drawn;
    cbn [fold_left map]; [now rewrite app_nil_r |].
  destruct (segmentToLatLngs_drawable seg Hseg) as (latLngs & E & Hlen & _).
  unfold drawSegment at 2. unfold latLngsOf at 1. rewrite E.
  replace (2 <=? length latLngs)%nat with true
    by (symmetry; apply Nat.leb_le; lia).
  rewrite IH, <- app_assoc. reflexivity.
Qed.

Lemma drawEdgePaths_all (paths : list Types.EdgePath) (drawn : list (list LatLng)) :
  Forall pathDrawable paths ->
  fold_left
    (fun drawn edgePath =>
       fold_left (drawSegment locationToLatLng) (Types.segments edgePath) drawn)
    paths (Some drawn)
  = Some (drawn ++ map (latLngsOf locationToLatLng) (flat_map Types.segments paths)).
Proof.
  intros H. revert drawn. induction H as [| path paths Hpath _ IH]; intros drawn;
    cbn [fold_left flat_map]; [now rewrite app_nil_r |].
  rewrite (drawSegments_all _ _ Hpath), IH, map_app, app_assoc. reflexivity.
Qed.

End Drawing.

(** X25.  Every line [parseRMPData] emits is drawn along its edge paths, and
    every segment of them is drawn.  Each segment has two points when it is
    straight and three when it is a curve, so the conversion never reads a
    missing point; it yields 2 points for a straight segment and 9 for a
    curve, never fewer than the 2 a polyline needs, and the first and the
    last of them are the projections of the segment's first and last
    control point.  The drawn polylines are those of all segments of all
    edge paths, in order; the fallback that joins the stations by straight
    lines is not used. *)
Theorem emitted_lines_are_drawn_segment_by_segment
    (data : RmpParser.RMPData) (worldId : string)
    (locationToLatLng : R -> R -> R -> LatLng) (line : Types.ParsedLine) :
  In line (RmpParser.result_lines (RmpParser.parseRMPData data worldId)) ->
  linePolylines locationToLatLng line
  = Some (map (latLngsOf locationToLatLng) (allSegments line))
  /\ forall seg, In seg (allSegments line) ->
       drawable seg
       /\ exists latLngs,
            segmentToLatLngs locationToLatLng seg = Some latLngs
            /\ (length latLngs = 2 \/ length latLngs = 9)%nat
            /\ hd_error latLngs
               = option_map (projected locationToLatLng) (hd_error (Types.points seg))
            /\ hd_error (rev latLngs)
               = option_map (projected locationToLatLng)
                   (hd_error (rev (Types.points seg))).
Proof.
  intros Hin.
  pose proof (emitted_edge_paths_drawable data worldId line Hin) as Hdraw.
  destruct (emitted_lines_shape data worldId line Hin) as [H2 Hpaths].
  split.
  - unfold linePolylines. cbv zeta. rewrite length_map.
    replace (length (Types.stations line) <? 2)%nat with false
      by (symmetry; apply Nat.ltb_ge; lia).
    replace (0 <? length (Types.edgePaths line))%nat with true
      by (symmetry; apply Nat.ltb_lt; lia).
    rewrite (drawEdgePaths_all locationToLatLng _ [] Hdraw). reflexivity.
  - intros seg Hseg. unfold allSegments in Hseg. apply in_flat_map in Hseg.
    destruct Hseg as (path & Hpath & Hseg).
    rewrite Forall_forall in Hdraw. specialize (Hdraw path Hpath).
    unfold pathDrawable in Hdraw. rewrite Forall_forall in Hdraw.
    specialize (Hdraw seg Hseg).
    split; [exact Hdraw | now apply segmentToLatLngs_drawable].
Qed.

Lemma emitted_lines_are_drawn_segment_by_segment_witness :
  exists line,
    In line (RmpParser.result_lines (RmpParser.parseRMPData singleLineGraph "zth"))
    /\ linePolylines (fun x _ z => {| lat := z; lng := x |}) line
       = Some (map (latLngsOf (fun x _ z => {| lat := z; lng := x |}))
                 (allSegments line)).
Proof.
  eexists. split; [vm_compute; left; reflexivity |].
  refine (proj1 (emitted_lines_are_drawn_segment_by_segment singleLineGraph "zth"
                   (fun x _ z => {| lat := z; lng := x |}) _ _)).
  vm_compute. left. reflexivity.
Defined.


End HighlightProperties.

(** ** Draft points and layers of the measuring module *)

Section MeasuringProperties.

Import MeasuringModule.

(** *** Draft points and the layer list of the measuring module *)

Lemma last_default {A : Type} (l : list A) (d1 d2 : A) :
  l <> [] -> last l d1 = last l d2.
Proof.
  induction l as [| a l IH]; intros Hne; [contradiction |].
  destruct l as [| b l]; [reflexivity |].
  change (last (b :: l) d1 = last (b :: l) d2). apply IH. discriminate.
Qed.

Lemma last_of_cons {A : Type} (first : A) (rest : list A) (d : A) :
  last rest first = last (first :: rest) d.
Proof.
  destruct rest as [| a rest]; [reflexivity |].
  change (last (a :: rest) first = last (a :: rest) d).
  apply last_default. discriminate.
Qed.

Lemma handleUndo_snoc (t : list AssistLineTools.WorldPoint) (p : AssistLineTools.WorldPoint)
    (r : list AssistLineTools.WorldPoint) :
  handleUndo {| tempPoints := t ++ [p]; redoStack := r |}
  = {| tempPoints := t; redoStack := r ++ [p] |}.
Proof.
  unfold handleUndo. cbn [tempPoints redoStack].
  destruct (t ++ [p]) as [| first rest] eqn:E; [now destruct t |].
  rewrite (last_of_cons first rest p), <- E, last_last, removelast_last.
  reflexivity.
Qed.

Lemma handleRedo_snoc (t r : list AssistLineTools.WorldPoint) (p : AssistLineTools.WorldPoint) :
  handleRedo {| tempPoints := t; redoStack := r ++ [p] |}
  = {| tempPoints := t ++ [p]; redoStack := r |}.
Proof.
  unfold handleRedo. cbn [tempPoints redoStack].
  destruct (r ++ [p]) as [| first rest] eqn:E; [now destruct r |].
  rewrite (last_of_cons first rest p), <- E, last_last, removelast_last.
  reflexivity.
Qed.

Lemma snoc_cases {A : Type} (l : list A) : l = [] \/ exists l' a, l = l' ++ [a].
Proof.
  destruct l as [| a l] using rev_ind; [now left | right]. now exists l, a.
Qed.

Lemma applyDraftAction_points (d : Draft) (a : DraftAction) :
  allDraftPoints (applyDraftAction d a) = allDraftPoints d.
Proof.
  destruct d as [t r]. unfold allDraftPoints. destruct a; cbn [applyDraftAction].
  - destruct (snoc_cases t) as [-> | (t' & p & ->)]; [reflexivity |].
    rewrite handleUndo_snoc. cbn [tempPoints redoStack].
    rewrite rev_app_distr, <- app_assoc. reflexivity.
  - destruct (snoc_cases r) as [-> | (r' & p & ->)]; [reflexivity |].
    rewrite handleRedo_snoc. cbn [tempPoints redoStack].
    rewrite rev_app_distr, <- app_assoc. reflexivity.
Qed.

(** X26.  Undo and redo never lose, duplicate or reorder a draft point.
    After any sequence of undo and redo, the current points followed by the
    undone ones (most recently undone first) are what they were before.
    Redo restores exactly what undo removed and undo removes exactly what
    redo restored; undo on an empty draft and redo on an empty redo stack
    change nothing. *)
Theorem undo_redo_keep_the_draft_points (actions : list DraftAction) (d : Draft) :
  allDraftPoints (fold_left applyDraftAction actions d) = allDraftPoints d
  /\ (forall t p r,
        handleRedo (handleUndo {| tempPoints := t ++ [p]; redoStack := r |})
        = {| tempPoints := t ++ [p]; redoStack := r |})
  /\ (forall t r p,
        handleUndo (handleRedo {| tempPoints := t; redoStack := r ++ [p] |})
        = {| tempPoints := t; redoStack := r ++ [p] |})
  /\ (forall r, handleUndo {| tempPoints := []; redoStack := r |}
                = {| tempPoints := []; redoStack := r |})
  /\ (forall t, handleRedo {| tempPoints := t; redoStack := [] |}
                = {| tempPoints := t; redoStack := [] |}).
Proof.
  split.
  - revert d. induction actions as [| a actions IH]; intros d; cbn [fold_left];
      [reflexivity |].
    now rewrite IH, applyDraftAction_points.
  - split; [intros t p r; now rewrite handleUndo_snoc, handleRedo_snoc |].
    split; [intros t r p; now rewrite handleRedo_snoc, handleUndo_snoc |].
    split; reflexivity.
Qed.

(** *** Draw clicks *)

Lemma filterWorldPointByAssistLine_near (assist : option AssistLineHandle)
    (p : AssistLineTools.WorldPoint) :
  let q := filterWorldPointByAssistLine assist p in
  q = p
  \/ exists a, assist = Some a /\ isEnabled a = true
               /\ euclid (ofAssist p) (ofAssist q) <= assist_threshold a.
Proof.
  cbv zeta. unfold filterWorldPointByAssistLine.
  destruct assist as [a |]; [| now left].
  destruct (isEnabled a) eqn:E; [| now left].
  destruct (transformWorldPoint_cases true (assist_target a) (assist_threshold a) p)
    as [[_ Hp] | (_ & d & _ & Hle & Hd & _)]; cbv zeta in *.
  - left. exact Hp.
  - right. exists a. split; [reflexivity |]. split; [exact E |].
    rewrite <- Hd. exact Hle.
Qed.

(** X27.  A draw click adds exactly one point, near the click.  When the
    control-point tool is busy, draw clicks are suppressed or there is no
    projection, the draft is unchanged.  Otherwise one point is appended and
    the earlier points are kept: the clicked location itself when the
    assist-line tool is missing or off, and otherwise the point the
    assist-line tool returns for it, which is the clicked location or a
    point at most the tool's threshold away from it. *)
Theorem draw_click_adds_one_point_near_the_click
    (busy suppressed : bool) (loc : option AssistLineTools.WorldPoint)
    (assist : option AssistLineHandle) (tempPoints : list AssistLineTools.WorldPoint) :
  let next := onMapDrawClick busy suppressed loc assist tempPoints in
  (busy = true \/ suppressed = true \/ loc = None -> next = tempPoints)
  /\ (forall p, busy = false -> suppressed = false -> loc = Some p ->
        let q := filterWorldPointByAssistLine assist p in
        next = tempPoints ++ [q]
        /\ (assist = None \/ (exists a, assist = Some a /\ isEnabled a = false) ->
            q = p)
        /\ (q = p
            \/ exists a, assist = Some a /\ isEnabled a = true
                         /\ euclid (ofAssist p) (ofAssist q) <= assist_threshold a)).
Proof.
  cbv zeta. unfold onMapDrawClick. split.
  - intros [-> | [-> | ->]]; [reflexivity | now destruct busy | now destruct busy, suppressed].
  - intros p -> -> ->. split; [reflexivity |]. split.
    + unfold filterWorldPointByAssistLine.
      intros [-> | (a & -> & ->)]; reflexivity.
    + apply filterWorldPointByAssistLine_near.
Qed.

(** *** The layer list *)

Section Layers.

Lemma swapWithNext_involutive {A : Type} (i : nat) (l : list A) :
  swapWithNext i (swapWithNext i l) = l.
Proof.
  revert l. induction i as [| i IH]; intros l.
  - destruct l as [| a [| b r]]; reflexivity.
  - destruct l as [| a r]; [reflexivity |]. cbn. now rewrite IH.
Qed.

Lemma swapWithNext_length {A : Type} (i : nat) (l : list A) :
  length (swapWithNext i l) = length l.
Proof.
  revert l. induction i as [| i IH]; intros l.
  - destruct l as [| a [| b r]]; reflexivity.
  - destruct l as [| a r]; [reflexivity |]. cbn. now rewrite IH.
Qed.

Lemma swapWithNext_In {A : Type} (i : nat) (l : list A) (x : A) :
  In x (swapWithNext i l) <-> In x l.
Proof.
  revert l. induction i as [| i IH]; intros l.
  - destruct l as [| a [| b r]]; cbn; tauto.
  - destruct l as [| a r]; [tauto |]. cbn. rewrite IH. tauto.
Qed.

Lemma findIndex_lt (layerId : Z) (l : list LayerType) (i : nat) :
  findIndex layerId l = Some i -> (i < length l)%nat.
Proof.
  revert i. induction l as [| a l IH]; intros i; cbn; [discriminate |].
  destruct (id a =? layerId)%Z; [intros [= <-]; lia |].
  destruct (findIndex layerId l) as [j |]; [| discriminate].
  intros [= <-]. specialize (IH j eq_refl). lia.
Qed.

Lemma findIndex_None (layerId : Z) (l : list LayerType) :
  findIndex layerId l = None <-> forall x, In x l -> id x <> layerId.
Proof.
  induction l as [| a l IH]; cbn; [split; [intros _ x [] | reflexivity] |].
  destruct (id a =? layerId)%Z eqn:E.
  - apply Z.eqb_eq in E. split; [discriminate |]. intros H.
    now destruct (H a (or_introl eq_refl)).
  - apply Z.eqb_neq in E. destruct (findIndex layerId l) as [j |].
    + split; [discriminate |]. intros H.
      assert (Hn : @None nat = None) by reflexivity.
      destruct IH as [_ IH]. discriminate IH. intros x Hx. apply H. now right.
    + split; [| reflexivity]. intros _ x [<- | Hx]; [exact E |].
      now apply (proj1 IH eq_refl).
Qed.

Lemma findIndex_after_up (layerId : Z) (i : nat) (l : list LayerType) :
  findIndex layerId l = Some (S i) ->
  findIndex layerId (swapWithNext i l) = Some i.
Proof.
  revert l. induction i as [| i IH]; intros l.
  - destruct l as [| a [| b r]]; cbn; try discriminate.
    + destruct (id a =? layerId)%Z; discriminate.
    + destruct (id a =? layerId)%Z eqn:Ea; [discriminate |].
      destruct (id b =? layerId)%Z eqn:Eb; [reflexivity |].
      destruct (findIndex layerId r); discriminate.
  - destruct l as [| a r]; cbn; [discriminate |].
    destruct (id a =? layerId)%Z eqn:Ea; [discriminate |].
    destruct (findIndex layerId r) as [j |] eqn:Er; [| discriminate].
    intros [= ->]. now rewrite (IH r Er).
Qed.

Lemma findIndex_after_down (layerId : Z) (i : nat) (l : list LayerType) :
  NoDup (map id l) ->
  findIndex layerId l = Some i -> (S i < length l)%nat ->
  findIndex layerId (swapWithNext i l) = Some (S i).
Proof.
  revert l. induction i as [| i IH]; intros l Hnd.
  - destruct l as [| a [| b r]]; cbn; try discriminate; try lia.
    destruct (id a =? layerId)%Z eqn:Ea.
    + intros _ _. apply Z.eqb_eq in Ea.
      destruct (id b =? layerId)%Z eqn:Eb; [| reflexivity].
      apply Z.eqb_eq in Eb. exfalso.
      inversion Hnd as [| ? ? Hnotin _]; subst. apply Hnotin. left. congruence.
    + destruct (id b =? layerId)%Z; [discriminate |].
      destruct (findIndex layerId r); discriminate.
  - destruct l as [| a r]; cbn; [discriminate |].
    destruct (id a =? layerId)%Z eqn:Ea; [discriminate |].
    destruct (findIndex layerId r) as [j |] eqn:Er; [| discriminate].
    intros [= ->] Hlen. inversion Hnd; subst.
    rewrite (IH r); [reflexivity | assumption | exact Er | lia].
Qed.

Lemma deleteLayer_In (layerId : Z) (layers : list LayerType) (l : LayerType) :
  In l (deleteLayer layerId layers) <-> In l layers /\ id l <> layerId.
Proof.
  unfold deleteLayer. rewrite filter_In, negb_true_iff, Z.eqb_neq. tauto.
Qed.

Lemma filter_all {A : Type} (f : A -> bool) (l : list A) :
  (forall x, In x l -> f x = true) -> filter f l = l.
Proof.
  induction l as [| a l IH]; intros H; cbn; [reflexivity |].
  rewrite (H a (or_introl eq_refl)). f_equal. apply IH. intros x Hx.
  apply H. now right.
Qed.

End Layers.

(** X28.  Moving a layer up or down only reorders the list, and a move can
    be taken back.  Both operations keep the length of the layer list and
    its members.  If moving a layer up changed the list, moving the same
    layer down restores it; and, the layer identifiers being pairwise
    different, if moving a layer down changed the list, moving it up
    restores it.  A layer that is missing, or already first (for up) or last
    (for down), is not moved. *)
Theorem layer_moves_reorder_and_undo (layerId : Z) (layers : list LayerType) :
  (length (moveLayerUp layerId layers) = length layers
   /\ forall l, In l (moveLayerUp layerId layers) <-> In l layers)
  /\ (length (moveLayerDown layerId layers) = length layers
      /\ forall l, In l (moveLayerDown layerId layers) <-> In l layers)
  /\ (moveLayerUp layerId layers <> layers ->
      moveLayerDown layerId (moveLayerUp layerId layers) = layers)
  /\ (NoDup (map id layers) -> moveLayerDown layerId layers <> layers ->
      moveLayerUp layerId (moveLayerDown layerId layers) = layers)
  /\ (findIndex layerId layers = None \/ findIndex layerId layers = Some 0%nat ->
      moveLayerUp layerId layers = layers)
  /\ (findIndex layerId layers = None
      \/ findIndex layerId layers = Some (length layers - 1)%nat ->
      moveLayerDown layerId layers = layers).
Proof.
  split; [| split; [| split; [| split; [| split]]]].
  - unfold moveLayerUp. destruct (findIndex layerId layers) as [[| i] |];
      try (split; [reflexivity | tauto]).
    split; [apply swapWithNext_length | intros l; apply swapWithNext_In].
  - unfold moveLayerDown. destruct (findIndex layerId layers) as [i |];
      [| split; [reflexivity | tauto]].
    destruct (length layers <=? S i)%nat; [split; [reflexivity | tauto] |].
    split; [apply swapWithNext_length | intros l; apply swapWithNext_In].
  - unfold moveLayerUp at 1 2.
    destruct (findIndex layerId layers) as [[| i] |] eqn:E; try contradiction.
    intros _. unfold moveLayerDown.
    rewrite (findIndex_after_up layerId i layers E), swapWithNext_length.
    pose proof (findIndex_lt layerId layers (S i) E) as Hlt.
    replace (length layers <=? S i)%nat with false
      by (symmetry; apply Nat.leb_gt; lia).
    apply swapWithNext_involutive.
  - intros Hnd. unfold moveLayerDown at 1 2.
    destruct (findIndex layerId layers) as [i |] eqn:E; [| contradiction].
    destruct (length layers <=? S i)%nat eqn:El; [contradiction |].
    apply Nat.leb_gt in El. intros _. unfold moveLayerUp.
    rewrite (findIndex_after_down layerId i layers Hnd E El).
    apply swapWithNext_involutive.
  - unfold moveLayerUp. intros [-> | ->]; reflexivity.
  - unfold moveLayerDown. intros [-> | E]; [reflexivity |]. rewrite E.
    pose proof (findIndex_lt layerId layers _ E) as Hlt.
    replace (length layers <=? S (length layers - 1))%nat with true
      by (symmetry; apply Nat.leb_le; lia).
    reflexivity.
Qed.

(** X29.  Hiding, showing and deleting touch only the layer they name.
    [toggleLayerVisible] keeps the order, identifiers, modes, colours and
    coordinates of all layers, flips the visibility of the layers with the
    given identifier and of no other, and applied twice restores the list.
    [deleteLayer] keeps exactly the layers with another identifier;
    afterwards the identifier is not found, deleting again changes nothing,
    and deleting an identifier that no layer has changes nothing. *)
Theorem visibility_and_deletion_touch_one_layer (layerId : Z)
    (layers : list LayerType) :
  toggleLayerVisible layerId (toggleLayerVisible layerId layers) = layers
  /\ map id (toggleLayerVisible layerId layers) = map id layers
  /\ map coords (toggleLayerVisible layerId layers) = map coords layers
  /\ (forall i l, nth_error layers i = Some l ->
        exists l', nth_error (toggleLayerVisible layerId layers) i = Some l'
                   /\ mode l' = mode l /\ color l' = color l
                   /\ visible l'
                      = if (id l =? layerId)%Z then negb (visible l)
                        else visible l)
  /\ (forall l, In l (deleteLayer layerId layers)
                <-> In l layers /\ id l <> layerId)
  /\ findIndex layerId (deleteLayer layerId layers) = None
  /\ deleteLayer layerId (deleteLayer layerId layers)
     = deleteLayer layerId layers
  /\ (findIndex layerId layers = None -> deleteLayer layerId layers = layers).
Proof.
  split; [| split; [| split; [| split; [| split; [| split; [| split]]]]]].
  - unfold toggleLayerVisible. rewrite map_map.
    rewrite <- (map_id layers) at 2. apply map_ext. intros [i m c cs v]. cbn.
    destruct (i =? layerId)%Z eqn:E; cbn; rewrite ?E; [| reflexivity].
    now rewrite negb_involutive.
  - unfold toggleLayerVisible. rewrite map_map. apply map_ext. intros l.
    destruct (id l =? layerId)%Z; reflexivity.
  - unfold toggleLayerVisible. rewrite map_map. apply map_ext. intros l.
    destruct (id l =? layerId)%Z; reflexivity.
  - intros i l Hi. unfold toggleLayerVisible. rewrite nth_error_map, Hi. cbn.
    eexists. split; [reflexivity |].
    destruct (id l =? layerId)%Z; cbn; auto.
  - apply deleteLayer_In.
  - apply findIndex_None. intros x Hx. now apply deleteLayer_In in Hx.
  - unfold deleteLayer at 1. apply filter_all. intros x Hx.
    apply deleteLayer_In in Hx. apply negb_true_iff, Z.eqb_neq. tauto.
  - intros Hnone. unfold deleteLayer. apply filter_all. intros x Hx.
    apply negb_true_iff, Z.eqb_neq.
    exact (proj1 (findIndex_None layerId layers) Hnone x Hx).
Qed.


End MeasuringProperties.

(** ** Transfer flags and the lines of a station *)

Section TransferFlagsProperties.

Import RmpParser.

(** *** Insertion-ordered sets *)

Section DedupFacts.

Lemma dedup_snoc (xs : list string) (y : string) :
  JsSet.dedup (xs ++ [y]) = JsSet.add y (JsSet.dedup xs).
Proof. unfold JsSet.dedup. now rewrite fold_left_app. Qed.

Lemma add_absent (y : string) (s : JsSet.t) : ~ In y s -> JsSet.add y s = s ++ [y].
Proof.
  intros H. unfold JsSet.add. destruct (JsSet.has y s) eqn:E; [| reflexivity].
  apply set_has_in in E. contradiction.
Qed.

Lemma add_present (y : string) (s : JsSet.t) : In y s -> JsSet.add y s = s.
Proof.
  intros H. unfold JsSet.add. apply set_has_in in H. now rewrite H.
Qed.

Lemma dedup_fixed (l : list string) : NoDup l -> JsSet.dedup l = l.
Proof.
  induction l as [| a l IH] using rev_ind; [reflexivity |].
  intros Hnd. rewrite dedup_snoc.
  apply NoDup_remove in Hnd. rewrite app_nil_r in Hnd. destruct Hnd as [Hnd Hnotin].
  rewrite IH by exact Hnd. now apply add_absent.
Qed.

Lemma dedup_dedup_snoc (xs : list string) (y : string) :
  JsSet.dedup (JsSet.dedup xs ++ [y]) = JsSet.dedup (xs ++ [y]).
Proof.
  rewrite !dedup_snoc. f_equal. apply dedup_fixed, dedup_NoDup.
Qed.

Lemma dedup_length_le (l : list string) : (length (JsSet.dedup l) <= length l)%nat.
Proof.
  apply NoDup_incl_length; [apply dedup_NoDup |].
  intros x Hx. now apply dedup_in.
Qed.

(** Adding the same element again and again adds it once. *)
Lemma dedup_app_constant {A : Type} (xs : list string) (y : string) (F : list A) :
  JsSet.dedup (xs ++ map (fun _ => y) F)
  = match F with
    | [] => JsSet.dedup xs
    | _ :: _ => JsSet.add y (JsSet.dedup xs)
    end.
Proof.
  induction F as [| a F IH] using rev_ind; [now rewrite app_nil_r |].
  rewrite map_app, app_assoc. cbn [map]. rewrite dedup_snoc, IH.
  destruct F as [| b F]; cbn [app]; [reflexivity |].
  apply add_present. apply set_add_in. now left.
Qed.

End DedupFacts.

(** *** The global station index as a function of its updates *)

Section IndexFacts.

Lemma updateAllStations_other (s : Types.ParsedStation) (ln : string)
    (m : JsMap.t Types.ParsedStation) (n : string) :
  n <> Types.name s ->
  JsMap.get n (updateAllStations s ln m) = JsMap.get n m.
Proof.
  intros Hne. unfold updateAllStations.
  destruct (JsMap.get (Types.name s) m); now apply get_set_other.
Qed.

Lemma regsOf_snoc (n : string) (regs : list (Types.ParsedStation * string))
    (p : Types.ParsedStation * string) :
  regsOf n (regs ++ [p])
  = regsOf n regs ++ (if String.eqb (Types.name (fst p)) n then [p] else []).
Proof. unfold regsOf. now rewrite filter_app. Qed.

Lemma registerAll_app (xs ys : list (Types.ParsedStation * string))
    (m : JsMap.t Types.ParsedStation) :
  registerAll (xs ++ ys) m = registerAll ys (registerAll xs m).
Proof. unfold registerAll. apply fold_left_app. Qed.

Lemma registerAll_indexed (regs : list (Types.ParsedStation * string)) :
  (forall p, In p regs -> Types.lines (fst p) = [snd p]) ->
  indexed regs (registerAll regs []).
Proof.
  induction regs as [| [s ln] regs IH] using rev_ind; intros Hfresh n.
  - reflexivity.
  - rewrite registerAll_app, regsOf_snoc. cbn [registerAll fold_left fst snd].
    set (m := registerAll regs []).
    assert (IHn : indexed regs m).
    { apply IH. intros p Hp. apply Hfresh, in_app_iff. now left. }
    specialize (IHn n).
    assert (Hs : Types.lines s = [ln]).
    { apply (Hfresh (s, ln)), in_app_iff. right. now left. }
    destruct (String.eqb (Types.name s) n) eqn:E.
    + apply String.eqb_eq in E. subst n.
      destruct (regsOf (Types.name s) regs) as [| p r]; cbn [app].
      * exists s. unfold updateAllStations. rewrite IHn, get_set_same.
        split; [reflexivity |]. split; [| reflexivity].
        rewrite Hs. reflexivity.
      * destruct IHn as (g & Hget & Hlines & _).
        unfold updateAllStations. rewrite Hget, get_set_same.
        eexists. split; [reflexivity |]. cbn [Types.lines Types.isTransfer].
        split.
        -- rewrite Hlines.
           change (map snd (p :: r ++ [(s, ln)])) with (map snd ((p :: r) ++ [(s, ln)])).
           rewrite map_app. cbn [map snd]. apply dedup_dedup_snoc.
        -- destruct r; reflexivity.
    + apply String.eqb_neq in E. rewrite app_nil_r.
      rewrite updateAllStations_other by congruence. exact IHn.
Qed.

End IndexFacts.

(** *** The main loop on a graph whose station nodes are all named *)

Section NamedBuild.

Variable data : RMPData.
Variable lineBadges : JsMap.t Badge.
Variable cc : RmpPathCalculator.CoordTransformConfig.
Hypothesis Hnamed : stationsNamed data.

Lemma addStation_entry (ln : string)
    (acc : list Types.ParsedStation * JsMap.t Types.ParsedStation)
    (e : nat * (RMPNode * nat)) :
  addStation ln cc acc e
  = (fst acc ++ entryStations ln cc e,
     registerAll (map (fun s => (s, ln)) (entryStations ln cc e)) (snd acc)).
Proof.
  unfold addStation, entryStations, namedStation, firstName.
  destruct (getStationName (fst (snd e))) as [name |] eqn:En;
    [| cbn; rewrite app_nil_r; now destruct acc].
  destruct (truthy name); cbn [negb];
    [| cbn; rewrite app_nil_r; now destruct acc].
  reflexivity.
Qed.

Lemma addStations_entries (ln : string) (entries : list (nat * (RMPNode * nat)))
    (acc : list Types.ParsedStation * JsMap.t Types.ParsedStation) :
  fold_left (addStation ln cc) entries acc
  = (fst acc ++ flat_map (entryStations ln cc) entries,
     registerAll (map (fun s => (s, ln)) (flat_map (entryStations ln cc) entries))
       (snd acc)).
Proof.
  revert acc. induction entries as [| e entries IH]; intros acc; cbn [fold_left flat_map].
  - cbn. rewrite app_nil_r. now destruct acc.
  - rewrite IH, addStation_entry. cbn [fst snd].
    rewrite <- app_assoc, map_app, registerAll_app. reflexivity.
Qed.

Lemma entryStations_named (ln : string) (e : nat * (RMPNode * nat)) :
  In (fst (snd e)) (nodes data) -> isStationNode (fst (snd e)) = true ->
  entryStations ln cc e = [namedStation ln cc e]
  /\ getStationName (fst (snd e)) = Some (firstName (fst (snd e))).
Proof.
  intros Hin Hst. destruct (Hnamed _ Hin Hst) as (name & Hname & Htruthy).
  unfold entryStations, firstName. rewrite Hname, Htruthy. auto.
Qed.

Lemma entriesOf_nodes (g : string * list RMPEdge) (e : nat * (RMPNode * nat)) :
  In e (entriesOf (buildNodeMap (nodes data)) g) ->
  In (fst (snd e)) (nodes data) /\ isStationNode (fst (snd e)) = true.
Proof.
  unfold entriesOf. cbv zeta. destruct e as [i [node j]]. intros Hin.
  apply in_combine_r in Hin. cbn. eapply stationNodes_of_data, Hin.
Qed.

Lemma entryStations_of_group (ln : string) (g : string * list RMPEdge) :
  flat_map (entryStations ln cc) (entriesOf (buildNodeMap (nodes data)) g)
  = map (namedStation ln cc) (entriesOf (buildNodeMap (nodes data)) g).
Proof.
  pose proof (entriesOf_nodes g) as Hnodes.
  induction (entriesOf (buildNodeMap (nodes data)) g) as [| e l IH];
    [reflexivity |].
  cbn [flat_map map].
  destruct (Hnodes e (or_introl eq_refl)) as [Hin Hst].
  destruct (entryStations_named ln e Hin Hst) as [-> _].
  cbn [app]. f_equal. apply IH. intros e' He'. apply Hnodes. now right.
Qed.

Lemma registrations_snoc (lines : list Types.ParsedLine) (l : Types.ParsedLine) :
  registrations (lines ++ [l])
  = registrations lines ++ map (fun s => (s, Types.line l)) (Types.stations l).
Proof.
  unfold registrations. rewrite flat_map_app. cbn [flat_map]. now rewrite app_nil_r.
Qed.

Lemma buildLine_named (groups : JsMap.t (list RMPEdge)) (st : BuildState)
    (g : string * list RMPEdge) :
  In g groups ->
  namedBuildOk (buildNodeMap (nodes data)) cc groups st ->
  namedBuildOk (buildNodeMap (nodes data)) cc groups
    (buildLine (buildNodeMap (nodes data)) lineBadges cc st g).
Proof.
  intros Hg [Hmap Hlines]. unfold buildLine.
  pose proof (entryStations_of_group
                (lineNameOf lineBadges (fst g) (lineIndex st)) g) as Hst.
  unfold entriesOf in Hst. cbv zeta in Hst.
  assert (Hbuilt : forall l,
             Types.color l = fst g ->
             Types.stations l
             = map (namedStation (Types.line l) cc)
                 (entriesOf (buildNodeMap (nodes data)) g) ->
             builtFrom (buildNodeMap (nodes data)) cc groups l).
  { intros l Hc Hs. now exists g. }
  unfold entriesOf in Hbuilt. cbv zeta in Hbuilt.
  destruct (getOrderedStationsWithEdges (snd g)) as [ks es]. cbn [fst snd] in *.
  set (sn := stationNodes (buildNodeMap (nodes data)) ks) in *.
  destruct (length sn <? 2)%nat eqn:E2; [split; assumption |].
  apply Nat.ltb_ge in E2.
  unfold buildLineStations. rewrite addStations_entries. cbn [fst snd app].
  rewrite Hst.
  replace (2 <=? length (map _ (combine (seq 0 (length sn)) sn)))%nat with true.
  2:{ symmetry. apply Nat.leb_le.
      rewrite length_map, length_combine, length_seq. lia. }
  split; cbn [lines allStationsMap].
  - rewrite registrations_snoc, registerAll_app, <- Hmap. reflexivity.
  - intros l Hl. apply in_app_iff in Hl.
    destruct Hl as [Hl | [<- | []]]; [now apply Hlines |].
    apply Hbuilt; reflexivity.
Qed.

Lemma build_named (groups0 groups : JsMap.t (list RMPEdge)) (st : BuildState) :
  incl groups groups0 ->
  namedBuildOk (buildNodeMap (nodes data)) cc groups0 st ->
  namedBuildOk (buildNodeMap (nodes data)) cc groups0
    (fold_left (buildLine (buildNodeMap (nodes data)) lineBadges cc)
       groups st).
Proof.
  revert st. induction groups as [| g groups IH]; intros st Hincl Hst; cbn [fold_left];
    [exact Hst |].
  apply IH; [intros x Hx; apply Hincl; now right |].
  apply buildLine_named; [apply Hincl; now left | exact Hst].
Qed.

End NamedBuild.

(** *** Counting the lines of a station *)

Section Counting.

Lemma filter_flat_map {A B : Type} (P : B -> bool) (f : A -> list B) (l : list A) :
  filter P (flat_map f l) = flat_map (fun x => filter P (f x)) l.
Proof.
  induction l as [| a l IH]; [reflexivity |].
  cbn [flat_map]. now rewrite filter_app, IH.
Qed.

Lemma filter_map_swap {A B : Type} (P : B -> bool) (f : A -> B) (l : list A) :
  filter P (map f l) = map f (filter (fun x => P (f x)) l).
Proof.
  induction l as [| a l IH]; [reflexivity |].
  cbn [map filter]. destruct (P (f a)); cbn [map]; now rewrite IH.
Qed.

Lemma existsb_filter {A : Type} (P : A -> bool) (l : list A) :
  existsb P l = match filter P l with [] => false | _ :: _ => true end.
Proof.
  induction l as [| a l IH]; [reflexivity |].
  cbn [existsb filter]. destruct (P a); [reflexivity | exact IH].
Qed.

Lemma nth_error_combine {A B : Type} (l1 : list A) (l2 : list B) (i : nat)
    (e : A * B) :
  nth_error (combine l1 l2) i = Some e -> nth_error l2 i = Some (snd e).
Proof.
  revert l2 i. induction l1 as [| a l1 IH]; intros l2 i; [now destruct i |].
  destruct l2 as [| b l2]; [now destruct i |].
  destruct i as [| i]; cbn; [now intros [= <-] | apply IH].
Qed.

Lemma nth_error_map_some {A B : Type} (f : A -> B) (l : list A) (i : nat) (y : B) :
  nth_error (map f l) i = Some y -> exists x, nth_error l i = Some x /\ f x = y.
Proof.
  rewrite nth_error_map. destruct (nth_error l i) as [x |]; [| discriminate].
  intros [= <-]. now exists x.
Qed.

Lemma regsOf_registrations (n : string) (lines : list Types.ParsedLine) :
  regsOf n (registrations lines)
  = flat_map
      (fun l => map (fun s => (s, Types.line l))
                  (filter (fun s => String.eqb (Types.name s) n) (Types.stations l)))
      lines.
Proof.
  unfold regsOf, registrations. rewrite filter_flat_map.
  apply flat_map_ext. intros l. now rewrite filter_map_swap.
Qed.

Lemma regsOf_length (n : string) (lines : list Types.ParsedLine) :
  length (regsOf n (registrations lines))
  = length (filter (fun s => String.eqb (Types.name s) n)
              (flat_map Types.stations lines)).
Proof.
  rewrite regsOf_registrations, filter_flat_map.
  induction lines as [| l lines IH]; [reflexivity |].
  cbn [flat_map]. now rewrite !length_app, length_map, IH.
Qed.

(** With pairwise different line names, the line names of the updates of
    a station name, each once, are the names of the lines that stop there. *)
Lemma regsOf_line_names (n : string) (lines : list Types.ParsedLine) :
  NoDup (map Types.line lines) ->
  JsSet.dedup (map snd (regsOf n (registrations lines)))
  = map Types.line (filter (stopsAt n) lines).
Proof.
  rewrite regsOf_registrations.
  induction lines as [| l lines IH] using rev_ind; intros Hnd; [reflexivity |].
  rewrite map_app in Hnd. cbn [map] in Hnd.
  apply NoDup_remove in Hnd. rewrite app_nil_r in Hnd. destruct Hnd as [Hnd Hnotin].
  rewrite flat_map_app, map_app. cbn [flat_map]. rewrite app_nil_r, map_map.
  cbn [snd]. rewrite dedup_app_constant, (IH Hnd), filter_app, map_app.
  cbn [filter].
  assert (Hs : stopsAt n l
               = match filter (fun s => String.eqb (Types.name s) n) (Types.stations l)
                 with [] => false | _ :: _ => true end)
    by apply existsb_filter.
  rewrite Hs.
  destruct (filter _ (Types.stations l)) as [| s F].
  - cbn. now rewrite app_nil_r.
  - cbn [map]. apply add_absent. intros Hin. apply Hnotin.
    apply in_map_iff in Hin. destruct Hin as (l' & <- & Hl').
    apply in_map, (proj1 (filter_In _ _ _) Hl').
Qed.

(** The second pass changes neither the names of the lines nor those of
    their stations. *)
Lemma stopsAt_refreshLine (m : JsMap.t Types.ParsedStation) (n : string)
    (l : Types.ParsedLine) :
  stopsAt n (refreshLine m l) = stopsAt n l.
Proof.
  unfold stopsAt. cbn [refreshLine Types.stations].
  induction (Types.stations l) as [| s ss IH]; [reflexivity |].
  cbn [map existsb]. rewrite IH.
  now rewrite (proj1 (refreshStation_fields m s)).
Qed.

Lemma stopping_lines_refreshed (m : JsMap.t Types.ParsedStation) (n : string)
    (lines : list Types.ParsedLine) :
  filter (stopsAt n) (map (refreshLine m) lines)
  = map (refreshLine m) (filter (stopsAt n) lines).
Proof.
  rewrite filter_map_swap. f_equal. apply filter_ext. intros l.
  apply stopsAt_refreshLine.
Qed.

Lemma occurrences_refreshed (m : JsMap.t Types.ParsedStation) (n : string)
    (lines : list Types.ParsedLine) :
  length (filter (fun s => String.eqb (Types.name s) n)
            (flat_map Types.stations (map (refreshLine m) lines)))
  = length (regsOf n (registrations lines)).
Proof.
  rewrite regsOf_length, !filter_flat_map.
  induction lines as [| l lines IH]; [reflexivity |].
  cbn [map flat_map]. rewrite !length_app, IH. f_equal.
  cbn [refreshLine Types.stations]. rewrite filter_map_swap, length_map.
  f_equal. apply filter_ext. intros s.
  now rewrite (proj1 (refreshStation_fields m s)).
Qed.

End Counting.

(** *** The result of a build on a graph whose station nodes are all named *)

Lemma named_build_result (data : RMPData) (worldId : string) :
  stationsNamed data ->
  exists lines0 m,
    result_lines (parseRMPData data worldId) = map (refreshLine m) lines0
    /\ result_stations (parseRMPData data worldId) = JsMap.values m
    /\ indexed (registrations lines0) m
    /\ (forall l, In l lines0 ->
          builtFrom (buildNodeMap (nodes data)) (worldCoordConfig worldId)
            (groupByColor (edges data)) l)
    /\ NoDup (map fst m)
    /\ (forall k g, In (k, g) m -> Types.name g = k).
Proof.
  intros Hnamed. unfold parseRMPData. cbv zeta. set (final := fold_left _ _ _).
  exists (lines final), (allStationsMap final).
  cbn [result_lines result_stations].
  assert (K : namedBuildOk (buildNodeMap (nodes data)) (worldCoordConfig worldId)
                (groupByColor (edges data)) final).
  { apply build_named; [exact Hnamed | apply incl_refl |].
    split; [reflexivity | intros l []]. }
  assert (B : buildOk data final) by apply build_ok, initial_ok.
  destruct K as [Kmap Klines]. destruct B as ((Hnd & Hentries) & _).
  split; [reflexivity |]. split; [reflexivity |].
  split; [| split; [exact Klines | split; [exact Hnd |]]].
  - rewrite Kmap. apply registerAll_indexed. intros p Hp.
    unfold registrations in Hp. apply in_flat_map in Hp. destruct Hp as (l & Hl & Hp).
    apply in_map_iff in Hp. destruct Hp as (s & <- & Hs). cbn [fst snd].
    destruct (Klines l Hl) as (g & _ & _ & Hst). rewrite Hst in Hs.
    apply in_map_iff in Hs. destruct Hs as (e & <- & _). reflexivity.
  - intros k g Hin. now apply Hentries.
Qed.

(** What the index says about a registered name, in terms of the lines. *)
Lemma indexed_name (lines0 : list Types.ParsedLine) (m : JsMap.t Types.ParsedStation)
    (n : string) (g : Types.ParsedStation) :
  indexed (registrations lines0) m ->
  NoDup (map Types.line lines0) ->
  JsMap.get n m = Some g ->
  exists p r,
    regsOf n (registrations lines0) = p :: r
    /\ Types.lines g = map Types.line (filter (stopsAt n) lines0)
    /\ (length (Types.lines g) <= length (p :: r))%nat
    /\ (1 <= length (Types.lines g))%nat
    /\ Types.isTransfer g
       = match r with
         | [] => Types.isTransfer (fst p)
         | _ :: _ => (1 <? length (Types.lines g))%nat
         end.
Proof.
  intros Hidx Hnd Hget. specialize (Hidx n).
  pose proof (regsOf_line_names n lines0 Hnd) as Hnames.
  destruct (regsOf n (registrations lines0)) as [| p r]; [congruence |].
  destruct Hidx as (g' & Hget' & Hlines & Hflag).
  assert (g' = g) by congruence. subst g'.
  exists p, r. split; [reflexivity |]. split; [congruence |].
  split; [| split; [| exact Hflag]].
  - rewrite Hlines. etransitivity; [apply dedup_length_le |]. now rewrite length_map.
  - rewrite Hlines.
    assert (Hin : In (snd p) (JsSet.dedup (map snd (p :: r)))).
    { apply dedup_in. now left. }
    destruct (JsSet.dedup (map snd (p :: r))); [destruct Hin | cbn; lia].
Qed.

(** *** Transfer flags *)


Lemma revisitingLineGraph_named : stationsNamed revisitingLineGraph.
Proof.
  intros node [<- | [<- | [<- | []]]] _; eexists; split; reflexivity.
Defined.


(** Without the condition that every station-type node has a name, the
    number of lines does not decide the flag: a colour group with two
    station-type nodes of which only one has a name is dropped after its
    station was registered, so the station [X] of the one emitted line is
    flagged and lists the dropped group. *)
Lemma dropped_group_registers_its_station :
  let res := parseRMPData unnamedEndGraph "zth" in
  map lineSummary (result_lines res)
  = [ ("线路1"%string,
       [ ("X"%string, true, ["Red"%string; "线路1"%string]);
         ("Y"%string, false, ["线路1"%string]) ], 1%nat) ]
  /\ linesContaining "X" res = 1%nat
  /\ occurrences "X" res = 1%nat.
Proof. vm_compute. repeat split; reflexivity. Qed.

(** Nor does it without the condition on the line names: the line list of
    a station is a set of names, so two lines of one name count once and
    the station [X] they share is not flagged. *)
Lemma lines_of_one_name_count_once :
  let res := parseRMPData sameNameGraph "zth" in
  map lineSummary (result_lines res)
  = [ ("L"%string,
       [ ("A"%string, false, ["L"%string]); ("X"%string, false, ["L"%string]) ], 1%nat);
      ("L"%string,
       [ ("X"%string, false, ["L"%string]); ("C"%string, false, ["L"%string]) ], 1%nat) ]
  /\ linesContaining "X" res = 2%nat.
Proof. vm_compute. repeat split; reflexivity. Qed.


End TransferFlagsProperties.

(** ** The path builders on numbers with special values *)

Section FiniteNumbersProperties.

Import RmpPathCalculatorJs.

(** *** The path builders on finite numbers and on special values *)

Section Numbers.

Lemma sqrt_fin (a : R) : 0 <= a -> JsNumber.sqrt (JsNumber.Fin a) = JsNumber.Fin (sqrt a).
Proof.
  intros H. unfold JsNumber.sqrt. destruct (Rlt_dec a 0); [lra | reflexivity].
Qed.

Lemma gt_fin (a b : R) :
  JsNumber.gt (JsNumber.Fin a) (JsNumber.Fin b) = if Rgt_dec a b then true else false.
Proof.
  unfold JsNumber.gt, JsNumber.lt. destruct (Rlt_dec b a), (Rgt_dec a b); try reflexivity; lra.
Qed.

Lemma ge_fin (a b : R) :
  JsNumber.ge (JsNumber.Fin a) (JsNumber.Fin b) = if Rge_dec a b then true else false.
Proof.
  unfold JsNumber.ge, JsNumber.lt. destruct (Rlt_dec a b), (Rge_dec a b); try reflexivity; lra.
Qed.

Lemma min_fin (a b : R) : JsNumber.min (JsNumber.Fin a) (JsNumber.Fin b) = JsNumber.Fin (Rmin a b).
Proof.
  unfold JsNumber.min, JsNumber.lt, Rmin. destruct (Rlt_dec b a), (Rle_dec a b);
    try reflexivity; lra.
Qed.

Lemma div_fin (a b : R) : b <> 0 -> JsNumber.div (JsNumber.Fin a) (JsNumber.Fin b) = JsNumber.Fin (a / b).
Proof.
  intros H. unfold JsNumber.div. destruct (Req_dec_T b 0); [contradiction | reflexivity].
Qed.

Lemma zero_by_zero : JsNumber.div (JsNumber.Fin 0) (JsNumber.Fin 0) = JsNumber.NaN.
Proof.
  unfold JsNumber.div. destruct (Req_dec_T 0 0) as [_ | H]; [reflexivity | now destruct H].
Qed.

Lemma scaleInf_zero (positive : bool) (r : R) : r = 0 -> JsNumber.scaleInf positive r = JsNumber.NaN.
Proof.
  intros H. unfold JsNumber.scaleInf. destruct (Req_dec_T r 0); [reflexivity | contradiction].
Qed.

Lemma signOr1_fin (v : R) : signOr1 (JsNumber.Fin v) = JsNumber.Fin (RmpPathCalculator.signOr1 v).
Proof.
  unfold signOr1, RmpPathCalculator.signOr1, JsNumber.sign, RmpPathCalculator.sign.
  destruct (Rgt_dec v 0); [| destruct (Rlt_dec v 0)]; cbn [JsNumber.truthy].
  - destruct (Req_dec_T 1 0); [lra | reflexivity].
  - destruct (Req_dec_T (-1) 0); [lra | reflexivity].
  - destruct (Req_dec_T 0 0); [reflexivity | lra].
Qed.

End Numbers.

Section Refinement.

Lemma normalize_fin (a b : R) :
  normalize {| x := JsNumber.Fin a; y := JsNumber.Fin b |}
  = ofPoint (RmpPathCalculator.normalize {| RmpPathCalculator.x := a; RmpPathCalculator.y := b |}).
Proof.
  unfold normalize, RmpPathCalculator.normalize. cbn [x y RmpPathCalculator.x RmpPathCalculator.y JsNumber.mul JsNumber.add].
  rewrite sqrt_fin by nra. rewrite gt_fin.
  destruct (Rgt_dec (sqrt (a * a + b * b)) 0) as [Hpos | _]; [| reflexivity].
  rewrite !div_fin by (apply Rgt_not_eq; exact Hpos). reflexivity.
Qed.

Lemma distance_fin (a b c d : R) :
  distance {| x := JsNumber.Fin a; y := JsNumber.Fin b |} {| x := JsNumber.Fin c; y := JsNumber.Fin d |}
  = JsNumber.Fin (RmpPathCalculator.distance {| RmpPathCalculator.x := a; RmpPathCalculator.y := b |} {| RmpPathCalculator.x := c; RmpPathCalculator.y := d |}).
Proof.
  unfold distance, RmpPathCalculator.distance.
  cbn [x y RmpPathCalculator.x RmpPathCalculator.y JsNumber.mul JsNumber.add JsNumber.sub JsNumber.neg].
  rewrite sqrt_fin; [reflexivity |].
  pose proof (Rle_0_sqr (c + - a)) as H1. pose proof (Rle_0_sqr (d + - b)) as H2.
  unfold Rsqr in H1, H2. lra.
Qed.

Lemma distance_ofPoint (p q : RmpPathCalculator.Point2D) :
  distance (ofPoint p) (ofPoint q) = JsNumber.Fin (RmpPathCalculator.distance p q).
Proof. destruct p, q. apply distance_fin. Qed.

Lemma bezierAt_fin (p0 p1 p2 : RmpPathCalculator.Point2D) (t : R) :
  bezierAt (ofPoint p0) (ofPoint p1) (ofPoint p2) (JsNumber.Fin t)
  = ofPoint (RmpPathCalculator.bezierAt p0 p1 p2 t).
Proof. reflexivity. Qed.

Lemma quadraticBezierLength_fin (p0 p1 p2 : RmpPathCalculator.Point2D) :
  quadraticBezierLength (ofPoint p0) (ofPoint p1) (ofPoint p2)
  = JsNumber.Fin (RmpPathCalculator.quadraticBezierLength p0 p1 p2).
Proof.
  unfold quadraticBezierLength, RmpPathCalculator.quadraticBezierLength. cbv zeta.
  change (JsNumber.Fin 0, ofPoint p0) with
    (JsNumber.Fin (fst (0, p0)), ofPoint (snd (0, p0))).
  generalize (0, p0) as st. generalize (seq 1 10) as l.
  assert (H10 : INR 10 <> 0).
  { apply not_0_INR. discriminate. }
  induction l as [| i l IH]; intros st; cbn [fold_left fst snd]; [reflexivity |].
  rewrite div_fin by exact H10. rewrite bezierAt_fin, distance_ofPoint.
  cbn [JsNumber.add].
  exact (IH (fst st + RmpPathCalculator.distance (snd st) (RmpPathCalculator.bezierAt p0 p1 p2 (INR i / INR 10)),
             RmpPathCalculator.bezierAt p0 p1 p2 (INR i / INR 10))).
Qed.

Lemma toGameCoord_fin (p : RmpPathCalculator.Point2D) (cc : RmpPathCalculator.CoordTransformConfig) :
  toGameCoord (ofPoint p) (ofConfig cc) = ofCoordinate (RmpPathCalculator.toGameCoord p cc).
Proof. reflexivity. Qed.

Lemma lineSegment_fin (a b : RmpPathCalculator.Point2D) (cc : RmpPathCalculator.CoordTransformConfig) :
  lineSegment (ofPoint a) (ofPoint b) (ofConfig cc)
  = ofSegment (RmpPathCalculator.lineSegment a b cc).
Proof. reflexivity. Qed.

Lemma quadraticSegment_fin (a c b : RmpPathCalculator.Point2D) (cc : RmpPathCalculator.CoordTransformConfig) :
  quadraticSegment (ofPoint a) (ofPoint c) (ofPoint b) (ofConfig cc)
  = ofSegment (RmpPathCalculator.quadraticSegment a c b cc).
Proof. reflexivity. Qed.

Lemma pushIfLong_fin (acc : RmpPathCalculator.PathAcc) (len : R) (seg : Types.PathSegment)
    (cc : RmpPathCalculator.CoordTransformConfig) :
  pushIfLong (ofAcc acc) (JsNumber.Fin len) (ofSegment seg) (ofConfig cc)
  = ofAcc (RmpPathCalculator.pushIfLong acc len seg cc).
Proof.
  unfold pushIfLong, RmpPathCalculator.pushIfLong. rewrite gt_fin.
  destruct (Rgt_dec len 0.001); [| reflexivity].
  unfold ofAcc. cbn [fst snd multiplier ofConfig JsNumber.mul JsNumber.add].
  now rewrite map_app.
Qed.

Lemma toEdgePath_fin (acc : RmpPathCalculator.PathAcc) :
  toEdgePath (ofAcc acc) = ofPath (RmpPathCalculator.toEdgePath acc).
Proof. reflexivity. Qed.

Lemma applyRoundCorner_fin (before corner after : RmpPathCalculator.Point2D) (factor : R) :
  applyRoundCorner (ofPoint before) (ofPoint corner) (ofPoint after) (JsNumber.Fin factor)
  = ofRoundCorner (RmpPathCalculator.applyRoundCorner before corner after factor).
Proof.
  unfold applyRoundCorner, RmpPathCalculator.applyRoundCorner. cbv zeta.
  cbn [x y ofPoint JsNumber.sub JsNumber.add JsNumber.neg].
  rewrite !normalize_fin, !distance_ofPoint, min_fin.
  cbn [JsNumber.mul]. rewrite min_fin. reflexivity.
Qed.

End Refinement.

Ltac js_fold_points :=
  repeat match goal with
         | |- context [ {| x := JsNumber.Fin ?a; y := JsNumber.Fin ?b |} ] =>
             change {| x := JsNumber.Fin a; y := JsNumber.Fin b |}
               with (ofPoint {| RmpPathCalculator.x := a; RmpPathCalculator.y := b |})
         end.

Ltac js_arith :=
  cbn [x y ofPoint JsNumber.sub JsNumber.add JsNumber.neg JsNumber.mul JsNumber.abs perpendicular
       offsetFrom offsetTo roundCornerFactor startFrom simple_offset
       ofPerpendicularConfig ofSimpleConfig
       cornerStart cornerEnd control ofRoundCorner].

Ltac js_segments :=
  change (@nil PathSegment, JsNumber.Fin 0) with (ofAcc ([], 0));
  repeat first
    [ rewrite distance_ofPoint
    | rewrite quadraticBezierLength_fin
    | rewrite lineSegment_fin
    | rewrite quadraticSegment_fin
    | rewrite pushIfLong_fin
    | rewrite toEdgePath_fin ].

Section FiniteBuilders.

Variable cc : RmpPathCalculator.CoordTransformConfig.

Lemma straight_fin (from to : RmpPathCalculator.Point2D) :
  calculateStraightPath (ofPoint from) (ofPoint to) (ofConfig cc)
  = ofPath (RmpPathCalculator.calculateStraightPath from to cc).
Proof.
  unfold calculateStraightPath. cbv zeta. rewrite distance_ofPoint. reflexivity.
Qed.

Lemma simple_fin (from to : RmpPathCalculator.Point2D) (config : RmpPathCalculator.SimpleConfig) :
  calculateSimplePath (ofPoint from) (ofPoint to) (ofSimpleConfig config) (ofConfig cc)
  = ofPath (RmpPathCalculator.calculateSimplePath from to config cc).
Proof.
  unfold calculateSimplePath. cbv zeta. js_arith.
  rewrite normalize_fin. js_arith. js_fold_points.
  rewrite distance_ofPoint. reflexivity.
Qed.

Lemma perpendicular_fin (from to : RmpPathCalculator.Point2D) (config : RmpPathCalculator.PerpendicularConfig) :
  calculatePerpendicularPath (ofPoint from) (ofPoint to)
    (ofPerpendicularConfig config) (ofConfig cc)
  = ofPath (RmpPathCalculator.calculatePerpendicularPath from to config cc).
Proof.
  unfold calculatePerpendicularPath, RmpPathCalculator.calculatePerpendicularPath. cbv zeta.
  unfold Rminus. js_arith. rewrite normalize_fin, ge_fin. js_arith.
  destruct (RmpPathCalculator.startFrom config);
    destruct (Rge_dec (Rabs (RmpPathCalculator.x to + - RmpPathCalculator.x from)) (Rabs (RmpPathCalculator.y to + - RmpPathCalculator.y from)));
    js_fold_points; rewrite applyRoundCorner_fin; js_arith; js_segments;
    reflexivity.
Qed.

Lemma diagonal_fin (from to : RmpPathCalculator.Point2D) (config : RmpPathCalculator.DiagonalConfig) :
  calculateDiagonalPath (ofPoint from) (ofPoint to)
    (ofPerpendicularConfig config) (ofConfig cc)
  = ofPath (RmpPathCalculator.calculateDiagonalPath from to config cc).
Proof.
  unfold calculateDiagonalPath, RmpPathCalculator.calculateDiagonalPath. cbv zeta.
  unfold Rminus. js_arith. rewrite normalize_fin. js_arith.
  rewrite !min_fin, !signOr1_fin. js_arith.
  assert (H2 : 2 <> 0) by lra. rewrite !(div_fin _ 2 H2). js_arith.
  destruct (RmpPathCalculator.startFrom config); cbn [fst snd];
    js_fold_points; rewrite !applyRoundCorner_fin; js_arith; js_segments;
    reflexivity.
Qed.

End FiniteBuilders.

(** *** Coincident endpoints *)

Lemma finitePath_ofPath (path : Types.EdgePath) : finitePath (ofPath path) = true.
Proof.
  unfold finitePath, ofPath. cbn [length segments JsNumber.isFinite andb].
  induction (Types.segments path) as [| seg segs IH]; [reflexivity |].
  cbn [map forallb]. rewrite IH, andb_true_r.
  unfold ofSegment. cbn [points].
  induction (Types.points seg) as [| c cs IHc]; [reflexivity |].
  cbn [map forallb]. now rewrite IHc.
Qed.




End FiniteNumbersProperties.
